(** * treecall: the tree-structured genotype likelihood engine

    A shallow embedding of [utils.py] and [geno.py].  The numpy arrays of
    the program hold floating-point numbers; here they hold real numbers,
    so every statement below is about the exact-arithmetic reading of the
    program.  An array of shape [(g,)] is a [vec], an array of shape
    [(n, g)] is a list of [n] vectors, an array of shape [(l, n, g)] a list
    of [l] such arrays.  The module [utils.py] turns every numpy warning
    into an exception ([warnings.filterwarnings('error')]), so [np.log10]
    of a non-positive number raises: the embedding returns [None] there, as
    it does for every other exception of the program. *)

From Stdlib Require Import Reals Lra Lia ZArith Ascii String DecimalString.
From stdpp Require Import base option list strings gmap sorting.

Local Open Scope R_scope.

(** ** Arrays *)

Abbreviation vec := (list R) (only parsing).
Abbreviation mat := (list (list R)) (only parsing).
Abbreviation arr3 := (list (list (list R))) (only parsing).

Definition Rsum (v : vec) : R := foldr Rplus 0 v.

(** [a[i][j]] of a two-dimensional array. *)
Definition mget (m : mat) (i j : nat) : R := nth j (nth i m []) 0.

(** [shape[1]] of a two-dimensional array with at least one row. *)
Definition ncols (m : mat) : nat := length (hd [] m).

Definition col (m : mat) (j : nat) : vec := map (fun row => nth j row 0) m.

(** [m.sum(axis=0)]: one sum per column. *)
Definition colsums (m : mat) : vec := map (fun j => Rsum (col m j)) (seq 0 (ncols m)).

(** The shape of an [n] by [c] array. *)
Definition has_shape (n c : nat) (m : mat) : Prop :=
  length m = n /\ Forall (fun row => length row = c) m.

(** Python's indexing of a sequence by an integer: negative indexes count
    from the end, anything out of range raises [IndexError]. *)
Definition py_index {A} (l : list A) (i : Z) : option A :=
  if (0 <=? i)%Z then l !! Z.to_nat i
  else if (- Z.of_nat (length l) <=? i)%Z then l !! Z.to_nat (Z.of_nat (length l) + i)
  else None.

(** A loop over two sequences of the same length; lengths that differ are
    a shape error. *)
Fixpoint zipM {A B C} (f : A -> B -> option C) (xs : list A) (ys : list B)
  : option (list C) :=
  match xs, ys with
  | [], [] => Some []
  | x :: xs', y :: ys' => z ← f x y; zs ← zipM f xs' ys'; Some (z :: zs)
  | _, _ => None
  end.

(** ** Phred scale ([utils.py], lines 49-72) *)

(** [np.log10]; with warnings raised as errors it is defined on the
    positive numbers only. *)
Definition np_log10 (x : R) : option R :=
  if Rlt_dec 0 x then Some (ln x / ln 10) else None.

(** [p2phred(x) = -10.0*np.log10(x)] *)
Definition p2phred (x : R) : option R :=
  y ← np_log10 x; Some (-10 * y).

(** [phred2p(x) = 10.0**(-x/10.0)].  Scores are real numbers here, so the
    power is never zero.  The floating-point power is [0.0] for a large
    score, and as the module turns warnings into errors
    ([warnings.filterwarnings('error')]) the logarithm or the quotient
    taken of it then raises: what is proved of the value a function
    returns is stated for the calls that return. *)
Definition phred2p (x : R) : R := Rpower 10 (- x / 10).

Definition p2phred_v (v : vec) : option vec := mapM p2phred v.
Definition phred2p_v (v : vec) : vec := map phred2p v.

(** [sum_PL(x)] with [axis=None] on a vector *)
Definition sum_PL (x : vec) : option R := p2phred (Rsum (phred2p_v x)).

(** [normalize_PL(x)]: [p = 10.0**(-x/10.0)], then
    [-10.0*np.log10(p/p.sum())] *)
Definition normalize_PL (x : vec) : option vec :=
  let p := map (fun xi => Rpower 10 (- xi / 10)) x in
  mapM (fun pi => y ← np_log10 (pi / Rsum p); Some (-10 * y)) p.

(** [normalize2d_PL(x)]: the same, one row at a time ([p.sum(axis=1)]) *)
Definition normalize2d_PL (x : mat) : option mat := mapM normalize_PL x.

(** ** Genotypes and their distance ([utils.py], lines 74-88) *)

Definition GTYPE10 : list string :=
  ["AA"; "AC"; "AG"; "AT"; "CC"; "CG"; "CT"; "GG"; "GT"; "TT"]%string.

Definition GTYPE3 : list string := ["RR"; "RA"; "AA"]%string.

(** [editdistance.eval], the Levenshtein distance of two strings (an
    external library; this is the textbook recurrence it implements). *)
Fixpoint strdist (s : string) : string -> nat :=
  fix inner (t : string) : nat :=
    match s, t with
    | EmptyString, _ => String.length t
    | _, EmptyString => String.length s
    | String a s', String b t' =>
        Nat.min (Nat.min (strdist s' t + 1) (inner t' + 1))
                (strdist s' t' + (if Ascii.eqb a b then 0 else 1))
    end.

(** [g[::-1]] *)
Fixpoint string_rev (s : string) : string :=
  match s with
  | EmptyString => EmptyString
  | String a s' => (string_rev s' ++ String a EmptyString)%string
  end.

(** One entry of the distance table:
    [min(int(strdist(gi,gj)),int(strdist(gi,gj[::-1])))] *)
Definition distance (gi gj : string) : nat :=
  Nat.min (strdist gi gj) (strdist gi (string_rev gj)).

Definition gtype_distance (gt : list string) : list (list nat) :=
  map (fun gi => map (fun gj => distance gi gj) gt) gt.

(** ** Substitution model ([utils.py], lines 90-140) *)

(** [np.fill_diagonal(mm, vals)] for a two-dimensional [mm] *)
Definition fill_diagonal (mm : mat) (vals : vec) : mat :=
  imap (fun i row => <[i := nth i vals 0]> row) mm.

(** [mm.diagonal()] *)
Definition diagonal (mm : mat) : vec :=
  map (fun i => mget mm i i) (seq 0 (Nat.min (length mm) (ncols mm))).

(** [np.diagflat(v)] *)
Definition diagflat (v : vec) : mat :=
  map (fun i => map (fun j => if Nat.eqb i j then nth i v 0 else 0)
                    (seq 0 (length v)))
      (seq 0 (length v)).

(** Elementwise [a - b] and [a + b] of two arrays of one shape. *)
Definition msub (a b : mat) : mat := zip_with (zip_with Rminus) a b.
Definition madd (a b : mat) : mat := zip_with (zip_with Rplus) a b.

(** The triple [mm, mm0, mm1] the builders return. *)
Record mut_matrices := MutMatrices { mm_full : mat; mm_diag : mat; mm_off : mat }.

Definition make_mut_matrix (mu : R) (gtypes : list string) : mut_matrices :=
  let pmu := phred2p mu in
  let gt_dist := gtype_distance gtypes in
  let mm := map (map (fun d => pmu ^ d)) gt_dist in
  let mm := fill_diagonal mm (map (fun s => 2 - s) (colsums mm)) in
  let mm0 := diagflat (diagonal mm) in
  let mm1 := msub mm mm0 in
  MutMatrices mm mm0 mm1.

Definition make_mut_matrix_gtype3 (mu : R) : mut_matrices :=
  let pmu := phred2p mu in
  let nmu := 1 - pmu in
  let mm := [ [nmu ^ 2; 2 * pmu * nmu; pmu * pmu];
              [nmu * pmu; pmu ^ 2 + nmu ^ 2; nmu * pmu];
              [pmu * pmu; 2 * pmu * nmu; (1 - pmu) ^ 2] ] in
  let mm0 := diagflat (diagonal mm) in
  let mm1 := msub mm mm0 in
  MutMatrices mm mm0 mm1.

(** The builder [genotype_main] calls.  Its body is the one of
    [make_mut_matrix_gtype3], under a [##FIX ME] comment. *)
Definition make_mut_matrix_gtype10 (mu : R) : mut_matrices :=
  let pmu := phred2p mu in
  let nmu := 1 - pmu in
  let mm := [ [nmu ^ 2; 2 * pmu * nmu; pmu * pmu];
              [nmu * pmu; pmu ^ 2 + nmu ^ 2; nmu * pmu];
              [pmu * pmu; 2 * pmu * nmu; (1 - pmu) ^ 2] ] in
  let mm0 := diagflat (diagonal mm) in
  let mm1 := msub mm mm0 in
  MutMatrices mm mm0 mm1.

(** ** Prior ([utils.py], lines 142-158) *)

(** [g[0]!=g[1]] as a number; a string shorter than two characters raises
    [IndexError]. *)
Definition alleles_differ (g : string) : option R :=
  match g with
  | String a (String b _) => Some (if Ascii.eqb a b then 0 else 1)
  | _ => None
  end.

(** [normalize_PL(np.array([g[0]!=g[1] for g in gtypes])*het)] *)
Definition make_base_prior (het : R) (gtypes : list string) : option vec :=
  flags ← mapM alleles_differ gtypes;
  normalize_PL (map (fun b => b * het) flags).

(** ** Elementwise arithmetic with numpy's shapes *)

(** [u + v] for two vectors: equal lengths add elementwise, a vector of
    length one is broadcast, anything else is a shape error. *)
Definition vadd (u v : vec) : option vec :=
  if (length u =? length v)%nat then Some (zip_with Rplus u v)
  else if (length u =? 1)%nat then Some (map (fun y => nth 0 u 0 + y) v)
  else if (length v =? 1)%nat then Some (map (fun x => x + nth 0 v 0) u)
  else None.

(** [u += v]: as [vadd], but the result has to fit in [u]. *)
Definition vadd_into (u v : vec) : option vec :=
  if (length v =? length u)%nat then Some (zip_with Rplus u v)
  else if (length v =? 1)%nat then Some (map (fun x => x + nth 0 v 0) u)
  else None.

(** [a + b] for two arrays over the same sites. *)
Definition madd_rows (a b : mat) : option mat := zipM vadd a b.

(** [a + v]: a vector added to every row. *)
Definition madd_vec (a : mat) (v : vec) : option mat :=
  mapM (fun row => vadd row v) a.

(** [old[...] = new] for vectors, rows and blocks of planes: the value is
    broadcast to the shape of the target. *)
Definition assign_vec (old new : vec) : option vec :=
  if (length new =? length old)%nat then Some new
  else if (length new =? 1)%nat then Some (map (fun _ => nth 0 new 0) old)
  else None.

Definition assign_mat (old new : mat) : option mat := zipM assign_vec old new.

(** [arr[i:(i+l)] = x]: the slice is clipped to the array, as Python
    does. *)
Definition assign_slice (arr : arr3) (i l : nat) (x : arr3) : option arr3 :=
  let target := take l (drop i arr) in
  new ← (if (length x =? length target)%nat then zipM assign_mat target x
         else if (length x =? 1)%nat
              then mapM (fun old => assign_mat old (hd [] x)) target
              else None);
  Some (take i arr ++ new ++ drop (i + l) arr).

(** [arr[i] = x]: out of range raises [IndexError]. *)
Definition assign_index (arr : arr3) (i : nat) (x : mat) : option arr3 :=
  old ← arr !! i;
  new ← assign_mat old x;
  Some (<[i := new]> arr).

(** [np.dot(v, mm)] for a vector [v] and a two-dimensional [mm]: the
    length of [v] must be the number of rows of [mm]. *)
Definition dotp (u w : vec) : R := Rsum (zip_with Rmult u w).

Definition dotv (v : vec) (mm : mat) : option vec :=
  if (length v =? length mm)%nat
  then Some (map (fun j => dotp v (col mm j)) (seq 0 (ncols mm)))
  else None.

(** [p2phred(np.dot(phred2p(x), mm))] for one vector, for an array over
    sites and for a stack of such arrays. *)
Definition transition_v (x : vec) (mm : mat) : option vec :=
  d ← dotv (phred2p_v x) mm; p2phred_v d.

Definition transition (x : mat) (mm : mat) : option mat :=
  mapM (fun row => transition_v row mm) x.

Definition transition3 (x : arr3) (mm : mat) : option arr3 :=
  mapM (fun plane => transition plane mm) x.

(** [np.zeros((n,g))] and [np.zeros((l,n,g))] *)
Definition zeros2 (n g : nat) : mat := replicate n (replicate g 0).
Definition zeros3 (l n g : nat) : arr3 := replicate l (zeros2 n g).

(** [x.argmin()] of a vector: the first index of the least entry;
    [ValueError] on an empty one. *)
Fixpoint argmin_from (best : R) (bi i : nat) (xs : vec) : nat :=
  match xs with
  | [] => bi
  | x :: xs' => if Rlt_dec x best then argmin_from x i (S i) xs'
                else argmin_from best bi (S i) xs'
  end.

Definition argmin (xs : vec) : option nat :=
  match xs with
  | [] => None
  | x :: xs' => Some (argmin_from x 0 1 xs')
  end.

(** [np.swapaxes(a,0,1)] of an array with at least one plane. *)
Definition swapaxes01 (a : arr3) : arr3 :=
  map (fun s => map (fun plane => nth s plane []) a) (seq 0 (length (hd [] a))).

(** A loop with an accumulator that may raise. *)
Fixpoint foldlM {A B} (f : B -> A -> option B) (b : B) (l : list A) : option B :=
  match l with
  | [] => Some b
  | x :: l' => b' ← f b x; foldlM f b' l'
  end.

(** ** Lineage tree

    A node of the tree as [init_tree] leaves it: the sample identifiers
    [sid] below it, the children, and the three arrays the passes attach
    ([PL], [PL0], [PLm]), absent until a pass sets them. *)

#[local] Unset Elimination Schemes.

Inductive tree : Type :=
  Node { sid : list Z;
         PL : option mat;
         PL0 : option mat;
         PLm : option arr3;
         children : list tree }.

#[local] Set Elimination Schemes.

(** The attribute names [genotype] passes to [populate_tree_PL]. *)
Inductive attr := aPL | aPL0.

Definition getattr (t : tree) (a : attr) : option mat :=
  match a with aPL => PL t | aPL0 => PL0 t end.

Definition setattr (t : tree) (a : attr) (v : mat) : tree :=
  match a with
  | aPL => Node (sid t) (Some v) (PL0 t) (PLm t) (children t)
  | aPL0 => Node (sid t) (PL t) (Some v) (PLm t) (children t)
  end.

Definition set_children (t : tree) (cs : list tree) : tree :=
  Node (sid t) (PL t) (PL0 t) (PLm t) cs.

Definition set_PLm (t : tree) (v : arr3) : tree :=
  Node (sid t) (PL t) (PL0 t) (Some v) (children t).

(** [node.is_leaf()] *)
Definition is_leaf (t : tree) : bool :=
  match children t with [] => true | _ => false end.

(** [len(node)]: the number of leaves below the node. *)
Fixpoint nleaves (t : tree) : nat :=
  match children t with
  | [] => 1
  | cs => foldr (fun c acc => (nleaves c + acc)%nat) 0%nat cs
  end.

(** [tree.traverse(strategy='postorder')] *)
Fixpoint traverse_postorder (t : tree) : list tree :=
  concat (map traverse_postorder (children t)) ++ [t].

(** [tree.iter_descendants(strategy='postorder')]: every node but the
    root. *)
Definition iter_descendants (t : tree) : list tree :=
  concat (map traverse_postorder (children t)).

(** ** Pruning pass ([utils.py], lines 190-212) *)

(** The contribution of one child to its parent:
    [getattr(node, attr) + p2phred(np.dot(phred2p(getattr(child, attr)), mm))] *)
Definition add_child (a : attr) (mm : mat) (acc : mat) (child : tree) : option mat :=
  x ← getattr child a;
  y ← transition x mm;
  madd_rows acc y.

Fixpoint populate_tree_PL (t : tree) (PLs : arr3) (mm : mat) (a : attr) : option tree :=
  let n := length PLs in
  let g := length (hd [] (hd [] PLs)) in
  if is_leaf t then
    s ← head (sid t);
    v ← mapM (fun site => py_index site s) PLs;
    Some (setattr t a v)
  else
    cs ← mapM (fun c => populate_tree_PL c PLs mm a) (children t);
    v ← foldlM (add_child a mm) (zeros2 n g) cs;
    Some (setattr (set_children t cs) a v).

(** ** Mutation placement ([utils.py], lines 160-188) *)

(** The body of the loop over the children of one node: [st] is the pair
    of [node.PLm] and the running index [i]. *)
Definition place_child (mm0 mm1 : mat) (cs : list tree)
    (st : arr3 * nat) (k : nat) : option (arr3 * nat) :=
  let '(plm, i) := st in
  child ← cs !! k;
  sister ← head (delete k cs);
  sister_PL0 ← PL0 sister;
  from_sister ← transition sister_PL0 mm0;
  '(plm, i) ←
    (if is_leaf child then Some (plm, i)
     else
       child_PLm ← PLm child;
       let l := length child_PLm in
       below ← transition3 child_PLm mm0;
       rhs ← mapM (fun plane => madd_rows plane from_sister) below;
       plm' ← assign_slice plm i l rhs;
       Some (plm', (i + l)%nat));
  child_PL0 ← PL0 child;
  here ← transition child_PL0 mm1;
  rhs ← madd_rows here from_sister;
  plm' ← assign_index plm i rhs;
  Some (plm', (i + 1)%nat).

Fixpoint calc_mut_node (n g : nat) (mm0 mm1 : mat) (t : tree) : option tree :=
  if is_leaf t then Some t
  else
    cs ← mapM (calc_mut_node n g mm0 mm1) (children t);
    let plm0 := zeros3 (2 * nleaves t - 2) n g in
    '(plm, _) ← foldlM (place_child mm0 mm1 cs) (plm0, 0%nat) (seq 0 (length cs));
    Some (set_PLm (set_children t cs) plm).

(** [n,g = tree.PL0.shape], then the two loops over the nodes. *)
Definition calc_mut_likelihoods (t : tree) (mm0 mm1 : mat) : option tree :=
  pl0 ← PL0 t;
  calc_mut_node (length pl0) (ncols pl0) mm0 mm1 t.

(** ** Site caller ([geno.py], lines 130-192) *)

(** One row of [variants]: chromosome, position, reference base. *)
Definition variant : Type := string * Z * string.

(** One output record, with the fields of the structured dtype. *)
Record record := Record_ {
  chrom : string; pos : Z; ref : string;
  null_p : R; mut_p : R;
  null_base : string; null_base_p : R;
  mut_base : string; mut_alt : string; mut_conf_p : R;
  mut_loc : nat; mut_smpl : string }.

(** [','.join(map(str,node.sid))] *)
Definition str_of_int (z : Z) : string := NilZero.string_of_int (Z.to_int z).
Definition join_sid (l : list Z) : string := String.concat "," (map str_of_int l).

(** A fixed-width string field ([a10], [a2], ...) keeps the first bytes. *)
Definition fixed_width (w : nat) (s : string) : string := String.substring 0 w s.

(** [np.unravel_index(idx, (l,g))] for an [l] by [g] array [s] *)
Definition unravel_index (idx : nat) (s : mat) : option (nat * nat) :=
  let g := ncols s in
  if (idx <? length s * g)%nat then Some ((idx / g)%nat, (idx mod g)%nat) else None.

(** [phred2p(x).sum(axis=1)] and [phred2p(x).sum(axis=(1,2))] *)
Definition P_per_site (x : mat) : vec := map (fun row => Rsum (phred2p_v row)) x.
Definition P_per_site3 (x : arr3) : vec :=
  map (fun s => Rsum (map (fun row => Rsum (phred2p_v row)) s)) x.

(** The rows of the record array: everything [zip] is given has one entry
    per site. *)
Definition make_record (var : variant) (null_P tree_P mut_P : R)
    (g_k0 : string) (null_PL : R) (g_k1g g_k2 : string) (mut_PL : R)
    (k1l : nat) (smpl : string) : record :=
  let '(c, p, r) := var in
  Record_ (fixed_width 10 c) p (fixed_width 1 r)
          (null_P / tree_P) (mut_P / tree_P)
          (fixed_width 2 g_k0) (phred2p null_PL / tree_P)
          (fixed_width 2 g_k1g) (fixed_width 2 g_k2) (phred2p mut_PL / tree_P)
          k1l (fixed_width 128 smpl).

(** Row [s] of the record array: [zip] takes entry [s] of each of its
    columns ([variants[nn,0]], ..., [GTYPE10[k0]], ..., [node_sids[k1l]]). *)
Definition record_at (variants : list variant)
    (null_P_per_site tree_P_per_site mut_P_per_site : vec)
    (k0 : list nat) (null_PL : vec) (k1l k1g k2 : list nat) (mut_PL : vec)
    (node_sids : list string) (s : nat) : option record :=
  var ← variants !! s;
  null_P ← null_P_per_site !! s;
  tree_P ← tree_P_per_site !! s;
  mut_P ← mut_P_per_site !! s;
  i0 ← k0 !! s; g_k0 ← GTYPE10 !! i0;
  npl ← null_PL !! s;
  i1g ← k1g !! s; g_k1g ← GTYPE10 !! i1g;
  i2 ← k2 !! s; g_k2 ← GTYPE10 !! i2;
  mpl ← mut_PL !! s;
  l ← k1l !! s;
  smpl ← node_sids !! l;
  Some (make_record var null_P tree_P mut_P g_k0 npl g_k1g g_k2 mpl l smpl).

(** Lines 150-192 of [genotype], from the three prior-added arrays.  The
    two comprehensions over [tree.iter_descendants] (lines 166 and 169) are
    passed in: [null_PLs_166] is the list of the [PL0] of the descendants,
    [None] when one of them has none. *)
Definition call_sites (tree_PL tree_PL0 : mat) (mut_PLs : arr3)
    (null_PLs_166 : option arr3) (node_sids : list string)
    (variants : list variant) : option (list record * R) :=
  let nn := seq 0 (length mut_PLs) in
  k ← mapM argmin tree_PL;
  let tree_P_per_site := P_per_site tree_PL in
  k0 ← mapM argmin tree_PL0;
  null_PL ← zipM (fun (row : vec) (i : nat) => row !! i) tree_PL0 k0;
  let null_P_per_site := P_per_site tree_PL0 in
  k1 ← mapM (fun s => idx ← argmin (concat s); unravel_index idx s) mut_PLs;
  _ ← head k1;
  let k1l := map fst k1 in
  let k1g := map snd k1 in
  mut_PL ← zipM (fun (s : mat) (lg : nat * nat) =>
                   row ← s !! lg.1; (row : vec) !! lg.2) mut_PLs k1;
  let mut_P_per_site := P_per_site3 mut_PLs in
  null_PLs ← null_PLs_166;
  k2 ← zipM (fun (l s : nat) =>
               plane ← (null_PLs : arr3) !! l; row ← (plane : mat) !! s; argmin row)
            k1l nn;
  records ← mapM (record_at variants null_P_per_site tree_P_per_site mut_P_per_site
                            k0 null_PL k1l k1g k2 mut_PL node_sids) nn;
  scores ← mapM (fun r => p2phred (mut_p r + null_p r)) records;
  Some (records, Rsum scores).

(** [genotype(PLs, tree, variants, mm, mm0, mm1, base_prior)].  Each pass
    works on a copy of the tree, which a value is. *)
Definition genotype (PLs : arr3) (t : tree) (variants : list variant)
    (mm mm0 mm1 : mat) (base_prior : vec) : option (list record * R) :=
  t1 ← populate_tree_PL t PLs mm aPL;
  pl ← PL t1;
  tree_PL ← madd_vec pl base_prior;
  t2 ← populate_tree_PL t1 PLs mm0 aPL0;
  pl0 ← PL0 t2;
  tree_PL0 ← madd_vec pl0 base_prior;
  t3 ← calc_mut_likelihoods t2 mm0 mm1;
  plm ← PLm t3;
  mut_PLs ← mapM (mapM (fun v => vadd_into v base_prior)) (swapaxes01 plm);
  call_sites tree_PL tree_PL0 mut_PLs
             (mapM PL0 (iter_descendants t3))
             (map (fun node => join_sid (sid node)) (iter_descendants t3))
             variants.

(** ** The passes as functions of the topology

    What a pass attaches to a node depends on the topology below the node
    and on the sample identifiers only.  [aggregate] is the pruning
    propagator as the specification words it; [placements] is the stack of
    placement planes of an internal node. *)

#[local] Unset Elimination Schemes.

Inductive topo : Type := Topo { t_sid : list Z; t_children : list topo }.

#[local] Set Elimination Schemes.

Fixpoint skel (t : tree) : topo := Topo (sid t) (map skel (children t)).

Definition topo_leaf (s : topo) : bool :=
  match t_children s with [] => true | _ => false end.

Fixpoint topo_nleaves (s : topo) : nat :=
  match t_children s with
  | [] => 1
  | cs => foldr (fun c acc => (topo_nleaves c + acc)%nat) 0%nat cs
  end.

Fixpoint topo_postorder (s : topo) : list topo :=
  concat (map topo_postorder (t_children s)) ++ [s].

Definition topo_descendants (s : topo) : list topo :=
  concat (map topo_postorder (t_children s)).

(** Leaf: the input vectors of the node's sample.  Internal node: the sum
    over the children of [PhredOf(ProbOf(child aggregate) . mm)]. *)
Fixpoint aggregate (PLs : arr3) (mm : mat) (s : topo) : option mat :=
  if topo_leaf s then
    i ← head (t_sid s);
    mapM (fun site => py_index site i) PLs
  else
    vals ← mapM (aggregate PLs mm) (t_children s);
    foldlM (fun acc v => y ← transition v mm; madd_rows acc y)
           (zeros2 (length PLs) (length (hd [] (hd [] PLs)))) vals.

(** What [place_child] reads of a child: whether it is a leaf, its [PL0]
    and its [PLm]. *)
Record view := View { v_leaf : bool; v_PL0 : option mat; v_PLm : option arr3 }.

Definition view_of (t : tree) : view := View (is_leaf t) (PL0 t) (PLm t).

Definition place_view (mm0 mm1 : mat) (cs : list view)
    (st : arr3 * nat) (k : nat) : option (arr3 * nat) :=
  let '(plm, i) := st in
  child ← cs !! k;
  sister ← head (delete k cs);
  sister_PL0 ← v_PL0 sister;
  from_sister ← transition sister_PL0 mm0;
  '(plm, i) ←
    (if v_leaf child then Some (plm, i)
     else
       child_PLm ← v_PLm child;
       let l := length child_PLm in
       below ← transition3 child_PLm mm0;
       rhs ← mapM (fun plane => madd_rows plane from_sister) below;
       plm' ← assign_slice plm i l rhs;
       Some (plm', (i + l)%nat));
  child_PL0 ← v_PL0 child;
  here ← transition child_PL0 mm1;
  rhs ← madd_rows here from_sister;
  plm' ← assign_index plm i rhs;
  Some (plm', (i + 1)%nat).

Fixpoint placements (PLs : arr3) (mm0 mm1 : mat) (n g : nat) (s : topo) : option arr3 :=
  if topo_leaf s then None
  else
    let views := map (fun c => View (topo_leaf c) (aggregate PLs mm0 c)
                                    (placements PLs mm0 mm1 n g c))
                     (t_children s) in
    '(plm, _) ← foldlM (place_view mm0 mm1 views)
                       (zeros3 (2 * topo_nleaves s - 2) n g, 0%nat)
                       (seq 0 (length views));
    Some plm.

(** ** One mutation on one edge

    A non-root node is addressed by the child indexes on the way down from
    the root. *)

Abbreviation path := (list nat) (only parsing).

Fixpoint subtopo (s : topo) (p : path) : option topo :=
  match p with
  | [] => Some s
  | k :: p' => c ← t_children s !! k; subtopo c p'
  end.

(** The non-root nodes in post-order. *)
Fixpoint paths_postorder (s : topo) : list path :=
  concat (imap (fun k below => map (cons k) below ++ [[k]])
               (map paths_postorder (t_children s))).

(** The likelihood of the data below [s] with the one mutation on the edge
    above the node at [p]: the mutant edge goes through [mm1], every other
    edge through [mm0]. *)
Fixpoint placement_at (PLs : arr3) (mm0 mm1 : mat) (s : topo) (p : path) : option mat :=
  match p with
  | [] => None
  | k :: p' =>
      child ← t_children s !! k;
      sister ← head (delete k (t_children s));
      sister_PL0 ← aggregate PLs mm0 sister;
      from_sister ← transition sister_PL0 mm0;
      from_child ←
        match p' with
        | [] => child_PL0 ← aggregate PLs mm0 child; transition child_PL0 mm1
        | _ => below ← placement_at PLs mm0 mm1 child p'; transition below mm0
        end;
      madd_rows from_child from_sister
  end.

(** A fully binary tree: every node has no child or two. *)
Fixpoint binary (s : topo) : Prop :=
  match t_children s with
  | [] => True
  | [a; b] => binary a /\ binary b
  | _ => False
  end.

(** ** Notions the statements use *)

(** [PhredOf(p) = -10*log10(p)] as a function on the reals. *)
Definition PhredOf (p : R) : R := -10 * (ln p / ln 10).

(** The raw score of a genotype: [het] when its two alleles differ. *)
Definition raw_score (het : R) (g : string) : R :=
  if decide (String.get 0 g = String.get 1 g) then 0 else het.

(** [mm0 + mm1 = mm] entry by entry, [mm0] the diagonal of [mm], [mm1] the
    rest of it. *)
Definition is_decomposition (M : mut_matrices) : Prop :=
  madd (mm_diag M) (mm_off M) = mm_full M /\
  (forall i j : nat, mget (mm_diag M) i j = if Nat.eqb i j then mget (mm_full M) i i else 0) /\
  (forall i j : nat, mget (mm_off M) i j = if Nat.eqb i j then 0 else mget (mm_full M) i j).

(** Every node of [t] carries, under [f], the aggregate of its topology. *)
Definition pruned (f : tree -> option mat) (PLs : arr3) (mm : mat) (t : tree) : Prop :=
  Forall (fun node => is_Some (f node) /\ f node = aggregate PLs mm (skel node))
         (traverse_postorder t).

(** The term one child contributes to entry [(k, j)] of its parent:
    [PhredOf] of the [j]-th entry of [ProbOf(child row k) . mm]. *)
Definition through (mm : mat) (cv : mat) (k j : nat) : R :=
  Rsum (map (fun i => phred2p (mget cv k i) * mget mm i j) (seq 0 (length mm))).

Definition child_term (mm : mat) (cv : mat) (k j : nat) : R :=
  PhredOf (through mm cv k j).

(** What the pruning pass leaves on one node. *)
Definition node_pruned (PLs : arr3) (mm : mat) (a : attr) (node : tree) : Prop :=
  exists v, getattr node a = Some v /\
    if is_leaf node then
      exists s, head (sid node) = Some s /\
                Forall2 (fun site row => py_index site s = Some row) PLs v
    else
      exists vals,
        Forall2 (fun c cv => getattr c a = Some cv) (children node) vals /\
        length v = length PLs /\
        forall k j : nat, (k < length PLs)%nat -> (j < length mm)%nat ->
          Forall (fun cv => 0 < through mm cv k j) vals /\
          mget v k j = Rsum (map (fun cv => child_term mm cv k j) vals).

(** Every leaf names a sample of the array. *)
Definition sids_in_range (m : nat) (s : topo) : Prop :=
  Forall (fun node => topo_leaf node = true ->
            exists i, head (t_sid node) = Some i /\
                      (- Z.of_nat m <= i < Z.of_nat m)%Z)
         (topo_postorder s).

(** A [g] by [g] matrix of non-negative weights, none of whose columns is
    zero. *)
Definition positive_columns (g : nat) (mm : mat) : Prop :=
  has_shape g g mm /\
  Forall (Forall (fun x => 0 <= x)) mm /\
  forall j : nat, (j < g)%nat -> exists i : nat, 0 < mget mm i j.

(** ** A small run

    A two-leaf tree, one site, two genotypes, the identity matrix. *)

Definition tree2 : tree :=
  Node [0; 1]%Z None None None
       [Node [0%Z] None None None []; Node [1%Z] None None None []].

Definition PLs2 : list (list (list R)) := [[[0; 10]; [10; 0]]].

Definition id2 : list (list R) := [[1; 0]; [0; 1]].

(** Two views agree on what [place_view] reads of them. *)
Definition view_agree (v w : view) : Prop :=
  v_leaf v = v_leaf w /\ v_PL0 v = v_PL0 w /\ (v_leaf v = false -> v_PLm v = v_PLm w).

(** The views of the children of a node, as functions of the topology. *)
Definition topo_view (PLs : arr3) (mm0 mm1 : mat) (n g : nat) (c : topo) : view :=
  View (topo_leaf c) (aggregate PLs mm0 c) (placements PLs mm0 mm1 n g c).

(** What the pass leaves on a tree that carries the no-mutation
    aggregates. *)
Definition placed (PLs : arr3) (mm0 mm1 : mat) (n g : nat)
    (t t' : tree) : Prop :=
  skel t' = skel t /\ pruned PL0 PLs mm0 t' /\ PL0 t' = PL0 t /\
  (is_leaf t = false ->
   is_Some (PLm t') /\ PLm t' = placements PLs mm0 mm1 n g (skel t)).

(** The planes the edges below one child contribute to the stack of its
    parent, and the plane of the edge to the child itself: [vc] is the
    child, [vs] its sister. *)
Definition edge_planes (mm0 mm1 : mat) (vc vs : view) : option arr3 :=
  s0 ← v_PL0 vs;
  fs ← transition s0 mm0;
  below ← (if v_leaf vc then Some []
           else cp ← v_PLm vc;
                b ← transition3 cp mm0;
                mapM (fun plane => madd_rows plane fs) b);
  c0 ← v_PL0 vc;
  here ← transition c0 mm1;
  r1 ← madd_rows here fs;
  Some (below ++ [r1]).

(** The view of a child whose stack is read off the paths below it. *)
Definition path_view (PLs : arr3) (mm0 mm1 : mat) (c : topo) : view :=
  View (topo_leaf c) (aggregate PLs mm0 c)
       (mapM (placement_at PLs mm0 mm1 c) (paths_postorder c)).

(** A single leaf, and a substitution model on two genotypes with its
    diagonal and off-diagonal parts. *)
Definition leaf0 : tree := Node [0%Z] None None None [].

Definition mmA : mat := [[9/10; 1/10]; [1/10; 9/10]].
Definition mmA0 : mat := [[9/10; 0]; [0; 9/10]].
Definition mmA1 : mat := [[0; 1/10]; [1/10; 0]].

(** ** The site caller, one site at a time

    [call_site] is what [call_sites] computes for the site of index [s]:
    [x], [x0] and [xm] are the rows of that site in the three prior-added
    arrays, [nulls] the [PL0] of the descendants. *)
Definition call_site (x x0 : vec) (xm : mat) (nulls : arr3) (sids : list string)
    (var : variant) (s : nat) : option record :=
  i0 ← argmin x0;
  npl ← x0 !! i0;
  idx ← argmin (concat xm);
  lg ← unravel_index idx xm;
  rowl ← xm !! lg.1;
  mpl ← (rowl : vec) !! lg.2;
  plane ← nulls !! lg.1;
  row ← (plane : mat) !! s;
  i2 ← argmin row;
  g_k0 ← GTYPE10 !! i0;
  g_k1g ← GTYPE10 !! lg.2;
  g_k2 ← GTYPE10 !! i2;
  smpl ← sids !! lg.1;
  Some (make_record var (Rsum (phred2p_v x0)) (Rsum (phred2p_v x))
                    (Rsum (map (fun row => Rsum (phred2p_v row)) xm))
                    g_k0 npl g_k1g g_k2 mpl lg.1 smpl).

Definition site_at (tree_PL tree_PL0 : mat) (mut_PLs : arr3) (nulls : arr3)
    (sids : list string) (variants : list variant) (s : nat) : option record :=
  x ← tree_PL !! s;
  _ ← argmin x;
  x0 ← tree_PL0 !! s;
  xm ← mut_PLs !! s;
  var ← variants !! s;
  call_site x x0 xm nulls sids var s.

Definition call_sites_by_site (tree_PL tree_PL0 : mat) (mut_PLs : arr3)
    (null_PLs_166 : option arr3) (sids : list string) (variants : list variant)
  : option (list record * R) :=
  nulls ← null_PLs_166;
  _ ← head mut_PLs;
  records ← mapM (site_at tree_PL tree_PL0 mut_PLs nulls sids variants)
                 (seq 0 (length mut_PLs));
  scores ← mapM (fun r => p2phred (mut_p r + null_p r)) records;
  Some (records, Rsum scores).

(** [genotype] as a function of the topology of the tree: the passes are
    replaced by what they attach. *)
Definition genotype_v (PLs : arr3) (s : topo) (variants : list variant)
    (mm mm0 mm1 : mat) (base_prior : vec) : option (list record * R) :=
  pl ← aggregate PLs mm s;
  tree_PL ← madd_vec pl base_prior;
  pl0 ← aggregate PLs mm0 s;
  tree_PL0 ← madd_vec pl0 base_prior;
  plm ← placements PLs mm0 mm1 (length pl0) (ncols pl0) s;
  mut_PLs ← mapM (mapM (fun v => vadd_into v base_prior)) (swapaxes01 plm);
  call_sites tree_PL tree_PL0 mut_PLs
             (mapM (aggregate PLs mm0) (topo_descendants s))
             (map (fun node => join_sid (t_sid node)) (topo_descendants s))
             variants.

(** One variant row and a prior on two genotypes, for the small run. *)
Definition var0 : variant := ("chr1"%string, 1%Z, "A"%string).
Definition prior2 : vec := [0; 30].

(** The specification's wording of the mutant-genotype lookup: the node
    at location [loc] is taken among the internal nodes of the tree. *)
Definition internal_node_at (t : tree) (loc : nat) (node : tree) : Prop :=
  iter_descendants t !! loc = Some node /\ is_leaf node = false.

(** ** The run on a heap of objects

    [genotype] works on Python objects: the nodes of the ete2 tree, which
    carry their attributes in a dictionary, and numpy arrays, which
    attributes and local variables reference and may share.  This model
    keeps the objects in a store.  [tree.copy()], which is ete2's (the
    default [cpickle] method), rebuilds the tree and everything its nodes
    reference as new objects; a view is restored as an array of its own.
    The numeric kernels are those of the value model above. *)
Module Store.

Abbreviation loc := nat (only parsing).

(** The arrays of the run have two or three axes. *)
Inductive ndarray := Arr2 (m : mat) | Arr3 (x : arr3).

(** What an attribute or a variable holds: an array, the view
    [base[:,i]] of a three-axis array, or the view
    [np.swapaxes(base,0,1)]. *)
Inductive aref := Own (a : loc) | Column (a : loc) (i : Z) | Swapped (a : loc).

Definition base (r : aref) : loc :=
  match r with Own a | Column a _ | Swapped a => a end.

Record node_obj := NodeObj {
  o_sid : list Z;
  o_up : option loc;
  o_children : list loc;
  o_dict : list (string * aref) }.

Record store := Store_ { nodes : list node_obj; arrays : list ndarray }.

(** Attribute dictionaries *)
Fixpoint dict_get (name : string) (d : list (string * aref)) : option aref :=
  match d with
  | [] => None
  | (k, r) :: d' => if String.eqb k name then Some r else dict_get name d'
  end.

Fixpoint dict_set (name : string) (r : aref) (d : list (string * aref))
  : list (string * aref) :=
  match d with
  | [] => [(name, r)]
  | (k, r') :: d' => if String.eqb k name then (k, r) :: d'
                     else (k, r') :: dict_set name r d'
  end.

(** Computations on the store that may raise; the store is kept when they
    do. *)
Definition M (A : Type) : Type := store -> option A * store.

Definition ret {A} (x : A) : M A := fun s => (Some x, s).
Definition bind {A B} (m : M A) (k : A -> M B) : M B :=
  fun s => match m s with
           | (Some x, s') => k x s'
           | (None, s') => (None, s')
           end.
Definition lift {A} (o : option A) : M A := fun s => (o, s).
Definition gets {A} (f : store -> option A) : M A := fun s => (f s, s).

Notation "x <-- m ;; k" := (bind m (fun x => k))
  (at level 100, m at next level, right associativity).

Fixpoint for_each {A} (l : list A) (body : A -> M unit) : M unit :=
  match l with
  | [] => ret tt
  | x :: l' => _ <-- body x;; for_each l' body
  end.

Fixpoint fold_each {A B} (body : B -> A -> M B) (b : B) (l : list A) : M B :=
  match l with
  | [] => ret b
  | x :: l' => b' <-- body b x;; fold_each body b' l'
  end.

Fixpoint map_each {A B} (f : A -> M B) (l : list A) : M (list B) :=
  match l with
  | [] => ret []
  | x :: l' => y <-- f x;; ys <-- map_each f l';; ret (y :: ys)
  end.

(** The contents an array reference shows. *)
Definition snapshot (r : aref) (s : store) : option ndarray :=
  match r with
  | Own a => arrays s !! a
  | Column a i =>
      x ← arrays s !! a;
      match x with
      | Arr3 x => m ← mapM (fun site => py_index site i) x; Some (Arr2 m)
      | Arr2 _ => None
      end
  | Swapped a =>
      x ← arrays s !! a;
      match x with
      | Arr3 x => Some (Arr3 (swapaxes01 x))
      | Arr2 _ => None
      end
  end.

Definition read2 (r : aref) : M mat :=
  gets (fun s => x ← snapshot r s; match x with Arr2 m => Some m | Arr3 _ => None end).

Definition read3 (r : aref) : M arr3 :=
  gets (fun s => x ← snapshot r s; match x with Arr3 y => Some y | Arr2 _ => None end).

(** Writing [y] through a reference to a three-axis array changes the
    array the reference is based on. *)
Definition write3 (r : aref) (y : arr3) : M unit :=
  fun s =>
    match r with
    | Own a =>
        if (a <? length (arrays s))%nat
        then (Some tt, Store_ (nodes s) (<[a := Arr3 y]> (arrays s)))
        else (None, s)
    | Swapped a =>
        if (a <? length (arrays s))%nat
        then (Some tt, Store_ (nodes s) (<[a := Arr3 (swapaxes01 y)]> (arrays s)))
        else (None, s)
    | Column _ _ => (None, s)
    end.

Definition alloc (x : ndarray) : M loc :=
  fun s => (Some (length (arrays s)), Store_ (nodes s) (arrays s ++ [x])).

Definition new_node (obj : node_obj) : M loc :=
  fun s => (Some (length (nodes s)), Store_ (nodes s ++ [obj]) (arrays s)).

Definition get_node (l : loc) : M node_obj := gets (fun s => nodes s !! l).

Definition set_node (l : loc) (obj : node_obj) : M unit :=
  fun s => if (l <? length (nodes s))%nat
           then (Some tt, Store_ (<[l := obj]> (nodes s)) (arrays s))
           else (None, s).

Definition getattr (l : loc) (name : string) : M aref :=
  obj <-- get_node l;; lift (dict_get name (o_dict obj)).

Definition setattr (l : loc) (name : string) (r : aref) : M unit :=
  obj <-- get_node l;;
  set_node l (NodeObj (o_sid obj) (o_up obj) (o_children obj)
                      (dict_set name r (o_dict obj))).

(** [tree.traverse(strategy='postorder')].  The loops of the run change
    no list of children, so the nodes the generator yields are those it
    would yield at once; the recursion is bounded by the number of
    objects. *)
Fixpoint traverse_from (fuel : nat) (s : store) (l : loc) : option (list loc) :=
  match fuel with
  | O => None
  | S f =>
      obj ← nodes s !! l;
      below ← mapM (traverse_from f s) (o_children obj);
      Some (concat below ++ [l])
  end.

Definition traverse (l : loc) : M (list loc) :=
  gets (fun s => traverse_from (S (length (nodes s))) s l).

Definition iter_descendants (l : loc) : M (list loc) :=
  gets (fun s => obj ← nodes s !! l;
                 below ← mapM (traverse_from (S (length (nodes s))) s) (o_children obj);
                 Some (concat below)).

(** [len(node)]: the number of leaves below the node. *)
Fixpoint count_leaves (fuel : nat) (s : store) (l : loc) : option nat :=
  match fuel with
  | O => None
  | S f =>
      obj ← nodes s !! l;
      match o_children obj with
      | [] => Some 1%nat
      | cs => ns ← mapM (count_leaves f s) cs; Some (foldr Nat.add 0%nat ns)
      end
  end.

Definition len (l : loc) : M nat :=
  gets (fun s => count_leaves (S (length (nodes s))) s l).

(** [child.get_sisters()]: the other children of the parent. *)
Definition get_sisters (child : loc) : M (list loc) :=
  obj <-- get_node child;;
  match o_up obj with
  | None => ret []
  | Some p =>
      pobj <-- get_node p;;
      ret (filter (fun c => negb (c =? child)%nat) (o_children pobj))
  end.

(** [tree.copy()]: every node below [l] and every array an attribute
    references is made anew.  ete2 detaches the node from its parent while
    it pickles it and attaches it again afterwards; the model keeps the
    end state.  An array that two attributes share is restored once in
    Python and twice here; the run never makes attributes share one. *)
Definition copy_attr (entry : string * aref) : M (string * aref) :=
  x <-- gets (snapshot entry.2);;
  a <-- alloc x;;
  ret (entry.1, Own a).

Fixpoint copy_node (fuel : nat) (l : loc) (up : option loc) : M loc :=
  match fuel with
  | O => lift None
  | S f =>
      obj <-- get_node l;;
      l' <-- new_node (NodeObj (o_sid obj) up [] []);;
      d <-- map_each copy_attr (o_dict obj);;
      cs <-- map_each (fun c => copy_node f c (Some l')) (o_children obj);;
      _ <-- set_node l' (NodeObj (o_sid obj) up cs d);;
      ret l'
  end.

Definition copy (l : loc) : M loc :=
  fun s => copy_node (S (length (nodes s))) l None s.

(** [populate_tree_PL(tree, PLs, mm, attr)] ([utils.py], lines 190-212);
    [PLs] is the array at [pa]. *)
Definition populate_node (pa : loc) (n g : nat) (mm : mat) (attr : string)
    (node : loc) : M unit :=
  obj <-- get_node node;;
  match o_children obj with
  | [] =>
      i <-- lift (head (o_sid obj));;
      _ <-- read2 (Column pa i);;
      setattr node attr (Column pa i)
  | cs =>
      z <-- alloc (Arr2 (zeros2 n g));;
      _ <-- setattr node attr (Own z);;
      for_each cs (fun child =>
        r <-- getattr node attr;;
        acc <-- read2 r;;
        rc <-- getattr child attr;;
        cv <-- read2 rc;;
        y <-- lift (transition cv mm);;
        v <-- lift (madd_rows acc y);;
        a <-- alloc (Arr2 v);;
        setattr node attr (Own a))
  end.

Definition populate_tree_PL (tree pa : loc) (mm : mat) (attr : string) : M loc :=
  x <-- read3 (Own pa);;
  order <-- traverse tree;;
  _ <-- for_each order
          (populate_node pa (length x) (length (hd [] (hd [] x))) mm attr);;
  ret tree.

(** [calc_mut_likelihoods(tree, mm0, mm1)] ([utils.py], lines 160-188) *)
Definition new_PLm (n g : nat) (node : loc) : M unit :=
  obj <-- get_node node;;
  match o_children obj with
  | [] => ret tt
  | _ =>
      k <-- len node;;
      a <-- alloc (Arr3 (zeros3 (2 * k - 2) n g));;
      setattr node "PLm" (Own a)
  end.

Definition place_child (mm0 mm1 : mat) (node : loc) (i : nat) (child : loc) : M nat :=
  sisters <-- get_sisters child;;
  sister <-- lift (head sisters);;
  cobj <-- get_node child;;
  i <-- match o_children cobj with
        | [] => ret i
        | _ =>
            rc <-- getattr child "PLm";;
            child_PLm <-- read3 rc;;
            below <-- lift (transition3 child_PLm mm0);;
            rs <-- getattr sister "PL0";;
            sister_PL0 <-- read2 rs;;
            from_sister <-- lift (transition sister_PL0 mm0);;
            rhs <-- lift (mapM (fun plane => madd_rows plane from_sister) below);;
            target <-- getattr node "PLm";;
            plm <-- read3 target;;
            plm' <-- lift (assign_slice plm i (length child_PLm) rhs);;
            _ <-- write3 target plm';;
            ret (i + length child_PLm)%nat
        end;;
  rc <-- getattr child "PL0";;
  child_PL0 <-- read2 rc;;
  here <-- lift (transition child_PL0 mm1);;
  rs <-- getattr sister "PL0";;
  sister_PL0 <-- read2 rs;;
  from_sister <-- lift (transition sister_PL0 mm0);;
  rhs <-- lift (madd_rows here from_sister);;
  target <-- getattr node "PLm";;
  plm <-- read3 target;;
  plm' <-- lift (assign_index plm i rhs);;
  _ <-- write3 target plm';;
  ret (i + 1)%nat.

Definition place_node (mm0 mm1 : mat) (node : loc) : M unit :=
  obj <-- get_node node;;
  _ <-- fold_each (place_child mm0 mm1 node) 0%nat (o_children obj);;
  ret tt.

Definition calc_mut_likelihoods (tree : loc) (mm0 mm1 : mat) : M loc :=
  r <-- getattr tree "PL0";;
  pl0 <-- read2 r;;
  order <-- traverse tree;;
  _ <-- for_each order (new_PLm (length pl0) (ncols pl0));;
  order <-- traverse tree;;
  _ <-- for_each order (place_node mm0 mm1);;
  ret tree.

(** [np.swapaxes(x,0,1)] of what a reference shows *)
Definition swapaxes (r : aref) : option aref :=
  match r with
  | Own a => Some (Swapped a)
  | Swapped a => Some (Own a)
  | Column _ _ => None
  end.

(** [genotype(PLs, tree, variants, mm, mm0, mm1, base_prior)] ([geno.py],
    lines 130-192); [PLs] is the array at [pa], [tree] the node at
    [tree]. *)
Definition genotype (pa tree : loc) (variants : list variant)
    (mm mm0 mm1 : mat) (base_prior : vec) : M (list record * R) :=
  c <-- copy tree;;
  tree <-- populate_tree_PL c pa mm "PL";;
  r <-- getattr tree "PL";;
  pl <-- read2 r;;
  tree_PL <-- lift (madd_vec pl base_prior);;
  c <-- copy tree;;
  tree <-- populate_tree_PL c pa mm0 "PL0";;
  r <-- getattr tree "PL0";;
  pl0 <-- read2 r;;
  tree_PL0 <-- lift (madd_vec pl0 base_prior);;
  c <-- copy tree;;
  tree <-- calc_mut_likelihoods c mm0 mm1;;
  r <-- getattr tree "PLm";;
  view <-- lift (swapaxes r);;
  x <-- read3 view;;
  mut_PLs <-- lift (mapM (mapM (fun v => vadd_into v base_prior)) x);;
  _ <-- write3 view mut_PLs;;
  desc <-- iter_descendants tree;;
  null_PLs <-- gets (fun s => Some (mapM (fun node => obj ← nodes s !! node;
                                                     r ← dict_get "PL0" (o_dict obj);
                                                     x ← snapshot r s;
                                                     match x with
                                                     | Arr2 m => Some m
                                                     | Arr3 _ => None
                                                     end) desc));;
  sids <-- gets (fun s => mapM (fun node => obj ← nodes s !! node;
                                            Some (join_sid (o_sid obj))) desc);;
  lift (call_sites tree_PL tree_PL0 mut_PLs null_PLs sids variants).

(** Every object of [s] is in [s'], unchanged. *)
Definition frame (s s' : store) : Prop :=
  nodes s `prefix_of` nodes s' /\ arrays s `prefix_of` arrays s'.

(** The objects made since the store had [n0] nodes and [a0] arrays form
    a region of their own: the children of a new node are new, and what a
    new node has under [PLm] is based on a new array. *)
Definition region (n0 a0 : nat) (s : store) : Prop :=
  forall l obj, (n0 <= l)%nat -> nodes s !! l = Some obj ->
    Forall (fun c => (n0 <= c)%nat) (o_children obj) /\
    forall r, dict_get "PLm" (o_dict obj) = Some r -> (a0 <= base r)%nat.

Definition inv (s0 s : store) : Prop :=
  frame s0 s /\ region (length (nodes s0)) (length (arrays s0)) s.

(** [m] keeps [inv s0], and what it returns satisfies [Q]. *)
Definition keeps {A} (s0 : store) (m : M A) (Q : A -> Prop) : Prop :=
  forall s, inv s0 s -> inv s0 (m s).2 /\ forall x, (m s).1 = Some x -> Q x.

End Store.

(** The two-leaf tree and the one-site array of the small run, as objects:
    the root at 0, its leaves at 1 and 2, [PLs2] at 0. *)
Definition store2 : Store.store :=
  Store.Store_
    [Store.NodeObj [0; 1]%Z None [1; 2]%nat [];
     Store.NodeObj [0%Z] (Some 0%nat) [] [];
     Store.NodeObj [1%Z] (Some 0%nat) [] []]
    [Store.Arr3 PLs2].

(** ** Tree set-up ([utils.py], lines 26-47) *)

#[local] Unset Elimination Schemes.

(** A tree as [init_tree] receives it from ete2: every node has a name and
    children. *)
Inductive ete : Type := Ete { e_name : string; e_children : list ete }.

(** A node as [init_tree] leaves it: the name, the sample identifiers
    [sid], the number [nid], absent when the second loop did not reach
    the node, and the children. *)
Inductive inode : Type :=
  INode { i_name : string; i_sid : list Z; i_nid : option nat;
          i_children : list inode }.

#[local] Set Elimination Schemes.

(** A loop that threads a counter through a list. *)
Fixpoint mapS {A B S} (f : S -> A -> B * S) (s : S) (l : list A) : list B * S :=
  match l with
  | [] => ([], s)
  | x :: l' => let '(y, s1) := f s x in
               let '(ys, s2) := mapS f s1 l' in (y :: ys, s2)
  end.

(** [tree.get_leaf_names()] *)
Fixpoint leaf_names (t : ete) : list string :=
  match e_children t with
  | [] => [e_name t]
  | cs => concat (map leaf_names cs)
  end.

(** [len(tree)] and [tree.traverse(strategy='postorder')] *)
Fixpoint i_nleaves (t : inode) : nat :=
  match i_children t with
  | [] => 1
  | cs => foldr (fun c acc => (i_nleaves c + acc)%nat) 0%nat cs
  end.

Fixpoint i_postorder (t : inode) : list inode :=
  concat (map i_postorder (i_children t)) ++ [t].

Section InitTree.

(** [int(name)]: [None] stands for [ValueError]. *)
Variable py_int : string -> option Z.

(** The first loop: a leaf gets [[int(node.name)]], an internal node loses
    its name and gets the identifiers of its children, one child after the
    other. *)
Fixpoint set_sid (t : ete) : option inode :=
  match e_children t with
  | [] => z ← py_int (e_name t); Some (INode (e_name t) [z] None [])
  | cs => cs' ← mapM set_sid cs;
          Some (INode "" (concat (map i_sid cs')) None cs')
  end.

(** The second loop, [for i,node in zip(xrange(limit), postorder)]: the
    counter [i] runs over the nodes in post-order, and a node is numbered
    and its [sid] sorted as long as [i] is below [limit]. *)
Fixpoint set_nid (limit : nat) (i : nat) (t : inode) : inode * nat :=
  let '(cs, j) := mapS (set_nid limit) i (i_children t) in
  if (j <? limit)%nat
  then (INode (i_name t) (merge_sort Z.le (i_sid t)) (Some j) cs, S j)
  else (INode (i_name t) (i_sid t) (i_nid t) cs, S j).

(** [init_tree(tree)]: the pair of [tree.leaf_order] and the tree. *)
Definition init_tree (t : ete) : option (list Z * inode) :=
  leaf_order ← mapM py_int (leaf_names t);
  t1 ← set_sid t;
  Some (leaf_order, (set_nid (2 * i_nleaves t1 - 1) 0 t1).1).

End InitTree.

(** The tree [genotype] works on: [sid] and the children, no array
    attached yet. *)
Fixpoint as_tree (t : inode) : tree :=
  Node (i_sid t) None None None (map as_tree (i_children t)).

(** The identifiers of the leaves below a node, from left to right. *)
Fixpoint leaf_ids (t : inode) : list Z :=
  match i_children t with
  | [] => i_sid t
  | cs => concat (map leaf_ids cs)
  end.

(** The names [init_tree] leaves: those of the leaves. *)
Fixpoint blank (t : ete) : ete :=
  match e_children t with
  | [] => t
  | cs => Ete "" (map blank cs)
  end.

Fixpoint names_of (t : inode) : ete := Ete (i_name t) (map names_of (i_children t)).


(** What the first loop leaves: no number yet, one identifier on a leaf,
    on an internal node the identifiers of its children. *)
#[local] Unset Elimination Schemes.

Inductive sids_set : inode -> Prop :=
  | sids_leaf n z : sids_set (INode n [z] None [])
  | sids_node n cs :
      cs <> [] -> Forall sids_set cs ->
      sids_set (INode n (concat (map i_sid cs)) None cs).

#[local] Set Elimination Schemes.

(** A reader of decimal numerals and a two-leaf tree, for the small run;
    the statements below hold for every reader of numbers. *)
Definition decimal_int (s : string) : option Z :=
  Z.of_int <$> NilZero.int_of_string s.

Definition newick2 : ete := Ete "" [Ete "0" []; Ete "1" []].

Definition inited2 : inode :=
  INode "" [0; 1]%Z (Some 2%nat)
        [INode "0" [0%Z] (Some 0%nat) []; INode "1" [1%Z] (Some 1%nat) []].

(** ** Reading the batch ([geno.py], lines 23-91) *)

(** A value pyvcf gives for the [PL] field of a call: [None], or a list
    whose entries are integers or [None]. *)
Abbreviation pl_value := (option (list (option Z))) (only parsing).

(** What [read_vcf_records] reads of a record: [v.CHROM], [v.POS],
    [v.REF], [str(b)] for the entries [b] of [v.ALT], and
    [v.genotype(s).data.PL] for the sample of index [s], [None] when
    reading it raises. *)
Record vcf_record := VcfRecord {
  v_CHROM : string; v_POS : Z; v_REF : string; v_ALT : list string;
  v_PL : nat -> option pl_value }.

Definition bases : list string := ["A"; "C"; "G"; "T"]%string.

(** [''.join(sorted(x))]: the characters of [x] in the order of their
    codes. *)
Definition sorted_str (x : string) : string :=
  string_of_list_ascii
    (merge_sort (fun a b => Is_true (Ascii.leb a b)) (list_ascii_of_string x)).

(** The dictionary [find_geno] for a list [s] of two, three or four
    alleles, as the list of its values at the keys [0], [1], ...; for any
    other length the variable keeps its value [prev], which is [None] while
    it is unbound. *)
Definition find_geno (s : list string) (prev : option (list string))
  : option (list string) :=
  match s with
  | [s0; s1] =>
      Some [s0 +:+ s0; sorted_str (s0 +:+ s1); s1 +:+ s1]
  | [s0; s1; s2] =>
      Some [s0 +:+ s0; sorted_str (s0 +:+ s1); s1 +:+ s1;
            sorted_str (s0 +:+ s2); sorted_str (s1 +:+ s2); s2 +:+ s2]
  | [s0; s1; s2; s3] =>
      Some [s0 +:+ s0; sorted_str (s0 +:+ s1); s1 +:+ s1;
            sorted_str (s0 +:+ s2); sorted_str (s1 +:+ s2); s2 +:+ s2;
            sorted_str (s0 +:+ s3); sorted_str (s1 +:+ s3);
            sorted_str (s2 +:+ s3); s3 +:+ s3]
  | _ => prev
  end%string.

(** A Python dictionary from strings: [d[k] = v] and [d[k]]. *)
Fixpoint pl_set {V} (k : string) (v : V) (d : list (string * V)) : list (string * V) :=
  match d with
  | [] => [(k, v)]
  | (k', v') :: d' => if String.eqb k' k then (k', v) :: d'
                      else (k', v') :: pl_set k v d'
  end.

Fixpoint pl_get {V} (k : string) (d : list (string * V)) : option V :=
  match d with
  | [] => None
  | (k', v') :: d' => if String.eqb k' k then Some v' else pl_get k d'
  end.

(** [pl_dict], every genotype at 255. *)
Definition pl_dict0 : list (string * option Z) :=
  map (fun g => (g, Some 255%Z)) GTYPE10.

(** [sorted(pl_dict.items())]; the keys of a dictionary differ, so the
    order is that of the keys. *)
Definition sorted_items {V} (d : list (string * V)) : list (string * V) :=
  merge_sort (fun x y => Is_true (String.leb x.1 y.1)) d.

(** The loop over [o] in [range(len(find_geno))] for one sample, the
    assertion on the size of the dictionary, and the vector of the ten
    likelihoods as floats; [float(None)] raises. *)
Definition pl_vector (fg : list string) (p : pl_value) : option vec :=
  d ← foldlM (fun d o => g ← fg !! o; l ← p; v ← l !! o; Some (pl_set g v d))
             pl_dict0 (seq 0 (length fg));
  if (length d =? 10)%nat
  then mapM (fun kv : string * option Z => z ← kv.2; Some (IZR z)) (sorted_items d)
  else None.

Section ReadVcf.

(** The test [v.ALT[0] in bases] compares an object of pyvcf to strings,
    and the array of the allele depths is not used by the caller: both are
    left to the reader of the file.  [None] stands for an exception. *)
Context {AD : Type}.
Variable alt0_in_bases : vcf_record -> option bool.
Variable ad_array : vcf_record -> option AD.

(** The state of the loop over the records: [i], [find_geno],
    [variants], [ADs] and [PLs]. *)
Record reader_state := ReaderState {
  r_i : Z; r_find_geno : option (list string);
  r_variants : list variant; r_ADs : list AD; r_PLs : arr3 }.

(** The body of the loop for a record that passes the test. *)
Definition read_record (nsamples : nat) (v : vcf_record) (st : reader_state)
  : option reader_state :=
  ad ← ad_array v;
  let s := v_REF v :: filter (fun b => b ∈ bases) (v_ALT v) in
  let fg := find_geno s (r_find_geno st) in
  pl ← mapM (v_PL v) (seq 0 nsamples);
  vectors ← mapM (fun p => fg' ← fg; pl_vector fg' p) pl;
  (* pl.shape == (len(vcffile.samples),10) *)
  if (0 <? nsamples)%nat && forallb (fun x : vec => (length x =? 10)%nat) vectors
  then Some (ReaderState (r_i st) fg
                         (r_variants st ++ [(v_CHROM v, v_POS v, v_REF v)])
                         (r_ADs st ++ [ad]) (r_PLs st ++ [vectors]))
  else None.

(** [num_var, num_samp, num_geno = PLs.shape] and the two assertions. *)
Definition finish (nsamples : nat) (st : reader_state)
  : option (list variant * list AD * arr3) :=
  match r_PLs st with
  | [] => None
  | pl :: _ =>
      if (length pl =? nsamples)%nat && (ncols pl =? 10)%nat
      then Some (r_variants st, r_ADs st, r_PLs st)
      else None
  end.

Fixpoint read_loop (nsamples : nat) (maxn : Z) (recs : list vcf_record)
    (st : reader_state) : option (list variant * list AD * arr3) :=
  match recs with
  | [] => finish nsamples st
  | v :: recs' =>
      let st := ReaderState (r_i st + 1) (r_find_geno st) (r_variants st)
                            (r_ADs st) (r_PLs st) in
      st ← (if decide (v_REF v ∈ bases)
            then ok ← alt0_in_bases v;
                 if ok : bool then read_record nsamples v st else Some st
            else Some st);
      if (r_i st =? maxn)%Z then finish nsamples st
      else read_loop nsamples maxn recs' st
  end.

(** [read_vcf_records(filename, maxn)] on a file of [nsamples] samples
    and the records [recs]. *)
Definition read_vcf_records (nsamples : nat) (recs : list vcf_record) (maxn : Z)
  : option (list variant * list AD * arr3) :=
  read_loop nsamples maxn recs (ReaderState 0 None [] [] []).

End ReadVcf.

(** What the loop over the records keeps: [find_geno], when bound, lists
    genotypes of the ten; every array read so far has one row of ten
    likelihoods per sample; the three lists grow together. *)
Definition reader_inv {AD} (nsamples : nat) (st : reader_state (AD:=AD)) : Prop :=
  (forall fg, r_find_geno st = Some fg -> fg <> [] /\ Forall (fun g => g ∈ GTYPE10) fg) /\
  Forall (has_shape nsamples 10) (r_PLs st) /\
  length (r_variants st) = length (r_PLs st) /\
  length (r_ADs st) = length (r_PLs st) /\
  (r_PLs st <> [] -> (0 < nsamples)%nat).

(** A reader for the small run: the first alternative allele is compared
    as a string, and the allele depths are not kept. *)
Definition alt0_str (v : vcf_record) : option bool :=
  a ← head (v_ALT v); Some (bool_decide (a ∈ bases)).

Definition rec1 : vcf_record :=
  VcfRecord "chr1" 100 "C" ["A"] (fun s => Some (Some [Some 10; Some 0; Some 30]%Z)).

(** ** The main loop ([geno.py], lines 93-128) *)

(** How a run ends: it returns, it raises, or the loop is still running
    when the fuel of the model is spent. *)
Inductive outcome (A : Type) : Type :=
  | Returned (x : A)
  | Raised
  | OutOfFuel.

Arguments Returned {A} x.
Arguments Raised {A}.
Arguments OutOfFuel {A}.

Section Main.
Context {AD : Type}.
Variable py_int : string -> option Z.
Variable alt0_in_bases : vcf_record -> option bool.
Variable ad_array : vcf_record -> option AD.

(** [while True]: every turn reads the file from its start, calls
    [genotype], appends the records to the output and adds the score; the
    loop ends when the batch has fewer sites than [nsite]. *)
Fixpoint main_loop (fuel : nat) (t : tree) (M : mut_matrices) (base_prior : vec)
    (nsamples : nat) (recs : list vcf_record) (nsite : Z)
    (out : list record) (score : R) : outcome (list record * R) :=
  match fuel with
  | O => OutOfFuel
  | S fuel' =>
      match read_vcf_records alt0_in_bases ad_array nsamples recs nsite with
      | None => Raised
      | Some (variants, _, PLs) =>
          match genotype PLs t variants (mm_full M) (mm_diag M) (mm_off M) base_prior with
          | None => Raised
          | Some (records, s) =>
              if (Z.of_nat (length PLs) <? nsite)%Z
              then Returned (out ++ records, score + s)
              else main_loop fuel' t M base_prior nsamples recs nsite
                             (out ++ records) (score + s)
          end
      end
  end.

(** [genotype_main(args)] for the tree [Tree(args.tree)], the file
    [args.vcf] with its samples and records, [args.nsite], [args.mu] and
    [args.het]: what it writes to the output and the score it prints. *)
Definition genotype_main (fuel : nat) (newick : ete) (nsamples : nat)
    (recs : list vcf_record) (nsite : Z) (mu het : R) : outcome (list record * R) :=
  match init_tree py_int newick with
  | None => Raised
  | Some (_, t) =>
      match make_base_prior het GTYPE10 with
      | None => Raised
      | Some base_prior =>
          main_loop fuel (as_tree t) (make_mut_matrix_gtype10 mu) base_prior
                    nsamples recs nsite [] 0
      end
  end.

End Main.


(** * Properties *)

(** ** Phred scale *)

Lemma ln10_pos : 0 < ln 10.
Proof. rewrite <- ln_1. apply ln_increasing; lra. Qed.

Lemma phred2p_pos x : 0 < phred2p x.
Proof. unfold phred2p, Rpower. apply exp_pos. Qed.

Lemma np_log10_Some x : 0 < x -> np_log10 x = Some (ln x / ln 10).
Proof. intros H. unfold np_log10. destruct (Rlt_dec 0 x); [done | lra]. Qed.

Lemma np_log10_inv x y : np_log10 x = Some y -> 0 < x /\ y = ln x / ln 10.
Proof. unfold np_log10. destruct (Rlt_dec 0 x); intros; simplify_eq; auto. Qed.

Lemma p2phred_Some x : 0 < x -> p2phred x = Some (-10 * (ln x / ln 10)).
Proof. intros H. unfold p2phred. rewrite np_log10_Some by done. done. Qed.

Lemma p2phred_inv x y : p2phred x = Some y -> 0 < x /\ y = -10 * (ln x / ln 10).
Proof.
  unfold p2phred. intros H. apply bind_Some in H as (z & Hz & H).
  apply np_log10_inv in Hz as [? ->]. simplify_eq. auto.
Qed.

(** [ProbOf (PhredOf p) = p] on the positive numbers. *)
Lemma phred2p_p2phred x : 0 < x -> phred2p (-10 * (ln x / ln 10)) = x.
Proof.
  intros H. unfold phred2p, Rpower.
  replace (- (-10 * (ln x / ln 10)) / 10 * ln 10) with (ln x).
  - apply exp_ln, H.
  - pose proof ln10_pos. field. lra.
Qed.

(** [PhredOf (ProbOf x) = x]. *)
Lemma p2phred_phred2p x : p2phred (phred2p x) = Some x.
Proof.
  rewrite p2phred_Some by apply phred2p_pos. f_equal.
  unfold phred2p, Rpower. rewrite ln_exp. pose proof ln10_pos. field. lra.
Qed.

Lemma Rsum_app u v : Rsum (u ++ v) = Rsum u + Rsum v.
Proof. induction u as [|x u IH]; simpl; [lra | rewrite IH; lra]. Qed.

Lemma Rsum_pos v : v <> [] -> Forall (fun x => 0 < x) v -> 0 < Rsum v.
Proof.
  intros Hne H. destruct H as [|x v Hx Hv]; [done|]. simpl.
  assert (0 <= Rsum v); [|lra].
  clear -Hv. induction Hv; simpl; lra.
Qed.

Lemma Rsum_nonneg v : Forall (fun x => 0 <= x) v -> 0 <= Rsum v.
Proof. induction 1; simpl; lra. Qed.

Lemma Rsum_scale c v : Rsum (map (fun x => x / c) v) = Rsum v / c.
Proof. induction v as [|x v IH]; simpl; [lra | rewrite IH; lra]. Qed.

(** ** C9: the genotype distance *)

(** C9: on the ten genotypes the distance of a genotype to itself is zero,
    the distance is symmetric, and it does not change when the two alleles
    of either genotype are swapped; [AC] and [CA] are at distance zero. *)
Theorem C9_distance_props (g1 g2 : string) :
  In g1 GTYPE10 -> In g2 GTYPE10 ->
  distance g1 g1 = 0%nat /\
  distance g1 g2 = distance g2 g1 /\
  distance (string_rev g1) g2 = distance g1 g2 /\
  distance g1 (string_rev g2) = distance g1 g2 /\
  distance "AC" "CA" = 0%nat.
Proof.
  intros H1 H2. simpl in H1, H2.
  repeat (destruct H1 as [<- | H1]; [|]); try contradiction;
  repeat (destruct H2 as [<- | H2]; [|]); try contradiction;
  vm_compute; repeat split; reflexivity.
Qed.

Lemma C9_distance_props_witness :
  distance "AC" "AC" = 0%nat /\
  distance "AC" "GT" = distance "GT" "AC" /\
  distance (string_rev "AC") "GT" = distance "AC" "GT" /\
  distance "AC" (string_rev "GT") = distance "AC" "GT" /\
  distance "AC" "CA" = 0%nat.
Proof.
  apply (C9_distance_props "AC" "GT"); simpl; tauto.
Defined.

(** The table [gtype_distance] holds the distances, row by row. *)
Lemma gtype_distance_lookup (gt : list string) (i j : nat) gi gj :
  gt !! i = Some gi -> gt !! j = Some gj ->
  gtype_distance gt !! i ≫= (fun row => row !! j) = Some (distance gi gj).
Proof.
  intros Hi Hj. unfold gtype_distance.
  rewrite list_lookup_fmap, Hi. cbn. by rewrite list_lookup_fmap, Hj.
Qed.


(** ** Shapes *)

Lemma has_shape_ncols n c m : has_shape n c m -> (0 < n)%nat -> ncols m = c.
Proof.
  intros [Hn Hr] Hpos. destruct m as [|r m]; simpl in *; [lia|].
  unfold ncols. simpl. by inversion Hr.
Qed.

Lemma nth_lookup_default {A} (l : list A) i d : nth i l d = default d (l !! i).
Proof. revert i. induction l; intros [|i]; simpl; auto. Qed.

Lemma mget_lookup m i j row : m !! i = Some row -> mget m i j = nth j row 0.
Proof. intros H. unfold mget. rewrite (nth_lookup_default m), H. done. Qed.

Lemma mget_out_row m i j : (length m <= i)%nat -> mget m i j = 0.
Proof.
  intros H. unfold mget. rewrite (nth_lookup_default m), lookup_ge_None_2 by done.
  simpl. by destruct j.
Qed.

Lemma mget_out_col n c m i j : has_shape n c m -> (c <= j)%nat -> mget m i j = 0.
Proof.
  intros [Hn Hr] H. destruct (m !! i) as [row|] eqn:E.
  - rewrite (mget_lookup _ _ _ _ E). apply nth_overflow.
    rewrite Forall_forall in Hr. rewrite (Hr row); [done|].
    eapply list_elem_of_lookup_2, E.
  - apply mget_out_row. by apply lookup_ge_None.
Qed.

(** ** The diagonal and what is left of it *)

Lemma length_diagflat v : length (diagflat v) = length v.
Proof. unfold diagflat. by rewrite length_map, length_seq. Qed.

Lemma diagflat_shape v : has_shape (length v) (length v) (diagflat v).
Proof.
  split; [apply length_diagflat|]. unfold diagflat.
  apply Forall_forall. intros row Hin. apply list_elem_of_fmap in Hin as (i & -> & _).
  by rewrite length_map, length_seq.
Qed.

Lemma mget_diagflat v i j :
  mget (diagflat v) i j = if Nat.eqb i j then nth i v 0 else 0.
Proof.
  destruct (decide (i < length v)%nat) as [Hi|Hi].
  - assert (diagflat v !! i =
            Some (map (fun j => if Nat.eqb i j then nth i v 0 else 0) (seq 0 (length v)))) as E.
    { unfold diagflat. rewrite list_lookup_fmap, lookup_seq_lt by done. done. }
    rewrite (mget_lookup _ _ _ _ E).
    destruct (decide (j < length v)%nat) as [Hj|Hj].
    + rewrite nth_lookup_default, list_lookup_fmap, lookup_seq_lt by done. done.
    + rewrite nth_overflow by (rewrite length_map, length_seq; lia).
      destruct (Nat.eqb_spec i j); [lia | done].
  - rewrite mget_out_row by (rewrite length_diagflat; lia).
    rewrite (nth_overflow v) by lia. by destruct (i =? j)%nat.
Qed.

Lemma length_diagonal n mm : has_shape n n mm -> length (diagonal mm) = n.
Proof.
  intros H. unfold diagonal. rewrite length_map, length_seq.
  destruct (decide (0 < n)%nat).
  - rewrite (has_shape_ncols n n) by done. destruct H. lia.
  - destruct H. lia.
Qed.

Lemma nth_diagonal n mm i : has_shape n n mm -> nth i (diagonal mm) 0 = mget mm i i.
Proof.
  intros H. pose proof (length_diagonal n mm H) as Hl.
  destruct (decide (i < n)%nat) as [Hi|Hi].
  - unfold diagonal in *. rewrite length_map, length_seq in Hl.
    rewrite nth_lookup_default, list_lookup_fmap, lookup_seq_lt by lia. done.
  - rewrite nth_overflow by lia. symmetry. apply mget_out_row. destruct H. lia.
Qed.

Lemma zip_with_plus_minus (d m : vec) :
  length d = length m -> zip_with Rplus d (zip_with Rminus m d) = m.
Proof.
  revert m. induction d as [|x d IH]; intros [|y m] Hl; simpl in *; try done.
  f_equal; [lra | apply IH; lia].
Qed.

Lemma madd_msub (d m : mat) :
  Forall2 (fun r r' => length r = length r') d m -> madd d (msub m d) = m.
Proof.
  unfold madd, msub. induction 1 as [|r r' d m Hr H IH]; simpl; [done|].
  f_equal; [by apply zip_with_plus_minus | apply IH].
Qed.

Lemma mget_msub n c a b i j :
  has_shape n c a -> has_shape n c b -> mget (msub a b) i j = mget a i j - mget b i j.
Proof.
  intros Ha Hb. pose proof Ha as [Hla Hra]. pose proof Hb as [Hlb Hrb].
  destruct (a !! i) as [ra|] eqn:Ea; cycle 1.
  { apply lookup_ge_None in Ea. rewrite !mget_out_row; [lra | lia | lia |].
    unfold msub. rewrite length_zip_with. lia. }
  destruct (b !! i) as [rb|] eqn:Eb; cycle 1.
  { apply lookup_ge_None in Eb. apply lookup_lt_Some in Ea. lia. }
  assert (msub a b !! i = Some (zip_with Rminus ra rb)) as E.
  { unfold msub. rewrite lookup_zip_with, Ea. simpl. by rewrite Eb. }
  rewrite (mget_lookup _ _ _ _ E), (mget_lookup _ _ _ _ Ea), (mget_lookup _ _ _ _ Eb).
  assert (length ra = c) as Lra.
  { rewrite Forall_forall in Hra. eapply Hra, list_elem_of_lookup_2, Ea. }
  assert (length rb = c) as Lrb.
  { rewrite Forall_forall in Hrb. eapply Hrb, list_elem_of_lookup_2, Eb. }
  rewrite !nth_lookup_default, lookup_zip_with.
  destruct (ra !! j) as [x|] eqn:Ex; simpl.
  - destruct (rb !! j) as [y|] eqn:Ey; simpl; [done|].
    apply lookup_ge_None in Ey. apply lookup_lt_Some in Ex. lia.
  - destruct (rb !! j) as [y|] eqn:Ey; simpl; [|lra].
    apply lookup_ge_None in Ex. apply lookup_lt_Some in Ey. lia.
Qed.

Lemma decompose_square n mm :
  has_shape n n mm ->
  is_decomposition (MutMatrices mm (diagflat (diagonal mm)) (msub mm (diagflat (diagonal mm)))).
Proof.
  intros H. pose proof (length_diagonal n mm H) as Hl.
  pose proof (diagflat_shape (diagonal mm)) as Hd. rewrite Hl in Hd.
  unfold is_decomposition. simpl. split; [|split].
  - apply madd_msub. destruct H as [Hn Hr], Hd as [Hdn Hdr].
    apply Forall2_same_length_lookup_2; [lia|].
    intros i r r' E1 E2.
    rewrite Forall_forall in Hr, Hdr.
    rewrite (Hr r'), (Hdr r); [done | |];
      eapply list_elem_of_lookup_2; eauto.
  - intros i j. rewrite mget_diagflat. by rewrite (nth_diagonal n).
  - intros i j. rewrite (mget_msub n n) by done.
    rewrite mget_diagflat, (nth_diagonal n) by done.
    destruct (Nat.eqb_spec i j) as [->|]; lra.
Qed.

Lemma gtype_distance_shape gt :
  length (gtype_distance gt) = length gt /\
  Forall (fun row => length row = length gt) (gtype_distance gt).
Proof.
  unfold gtype_distance. split; [by rewrite length_map|].
  apply Forall_forall. intros row Hin. apply list_elem_of_fmap in Hin as (g & -> & _).
  by rewrite length_map.
Qed.

Lemma fill_diagonal_shape n c mm vals :
  has_shape n c mm -> has_shape n c (fill_diagonal mm vals).
Proof.
  intros [Hn Hr]. unfold fill_diagonal. split; [by rewrite length_imap|].
  apply Forall_forall. intros row Hin.
  apply list_elem_of_lookup in Hin as [i Hi].
  rewrite list_lookup_imap in Hi.
  destruct (mm !! i) as [r|] eqn:E; simpl in Hi; [|done]. simplify_eq.
  rewrite length_insert. rewrite Forall_forall in Hr.
  eapply Hr, list_elem_of_lookup_2, E.
Qed.

Lemma make_mut_matrix_shape mu gt :
  has_shape (length gt) (length gt) (mm_full (make_mut_matrix mu gt)).
Proof.
  unfold make_mut_matrix. simpl. apply fill_diagonal_shape.
  destruct (gtype_distance_shape gt) as [Hn Hr]. split; [by rewrite length_map|].
  apply Forall_forall. intros row Hin. apply list_elem_of_fmap in Hin as (r & -> & Hin).
  rewrite length_map. rewrite Forall_forall in Hr. by apply Hr.
Qed.

(** C6: whatever the mutation rate, the triple that either builder returns
    satisfies [mm0 + mm1 = mm] entry by entry, [mm0] is the diagonal of
    [mm] and zero elsewhere, [mm1] is [mm] off the diagonal and zero on
    it. *)
Theorem C6_decomposition (mu : R) :
  is_decomposition (make_mut_matrix_gtype10 mu) /\
  (forall gtypes, is_decomposition (make_mut_matrix mu gtypes)).
Proof.
  split.
  - unfold make_mut_matrix_gtype10. cbv zeta. apply (decompose_square 3).
    split; [done|]. repeat constructor.
  - intros gt. pose proof (make_mut_matrix_shape mu gt) as H.
    unfold make_mut_matrix in *. cbv zeta in *. simpl in H.
    by apply (decompose_square (length gt)).
Qed.

(** C1: the builder [genotype_main] calls returns, whatever the rate, the
    three by three matrix of the biallelic model: not a matrix over the
    ten genotypes. *)
Theorem C1_gtype10_builder_is_3x3 (mu : R) :
  has_shape 3 3 (mm_full (make_mut_matrix_gtype10 mu)) /\
  length (mm_full (make_mut_matrix_gtype10 mu)) <> length GTYPE10 /\
  make_mut_matrix_gtype10 mu = make_mut_matrix_gtype3 mu /\
  has_shape 10 10 (mm_full (make_mut_matrix mu GTYPE10)).
Proof.
  split; [|split; [|split]].
  - split; [done|]. repeat constructor.
  - simpl. lia.
  - reflexivity.
  - apply (make_mut_matrix_shape mu GTYPE10).
Qed.


(** ** Loops that cannot raise *)

Lemma mapM_ext_Some {A B} (f : A -> option B) (g : A -> B) (l : list A) :
  Forall (fun x => f x = Some (g x)) l -> mapM f l = Some (map g l).
Proof.
  induction 1 as [|x l Hx Hl IH]; [done|].
  cbn. rewrite Hx. cbn. rewrite IH. done.
Qed.

(** ** Normalisation *)

Lemma normalize_aux (S : R) (l : list R) :
  0 < S ->
  mapM (fun pi : R => y ← np_log10 (pi / S); Some (-10 * y))
       (map (fun xi => Rpower 10 (- xi / 10)) l)
  = Some (map (fun xi => PhredOf (phred2p xi / S)) l).
Proof.
  intros HS. induction l as [|a l IH]; [done|].
  cbn. fold (phred2p a).
  rewrite np_log10_Some by (apply Rdiv_lt_0_compat; [apply phred2p_pos | auto]).
  cbn. by rewrite IH.
Qed.

Lemma Rsum_phred2p_pos (x : list R) : x <> [] -> 0 < Rsum (phred2p_v x).
Proof.
  intros Hne. apply Rsum_pos.
  - unfold phred2p_v. by destruct x.
  - apply Forall_forall. intros y Hy. apply list_elem_of_fmap in Hy as (z & -> & _).
    apply phred2p_pos.
Qed.

Lemma normalize_PL_spec (x : list R) :
  normalize_PL x =
    Some (map (fun xi => PhredOf (phred2p xi / Rsum (phred2p_v x))) x) /\
  (x <> [] ->
   Rsum (phred2p_v (map (fun xi => PhredOf (phred2p xi / Rsum (phred2p_v x))) x)) = 1).
Proof.
  split.
  - destruct x as [|a x]; [done|].
    unfold normalize_PL. cbv zeta.
    change (map (fun xi => Rpower 10 (- xi / 10)) (a :: x)) with (phred2p_v (a :: x)) at 1.
    apply normalize_aux, Rsum_phred2p_pos. done.
  - intros Hne. pose proof (Rsum_phred2p_pos x Hne) as HS.
    set (S := Rsum (phred2p_v x)) in *.
    unfold phred2p_v at 1. rewrite map_map.
    rewrite (map_ext _ (fun xi => phred2p xi / S)); cycle 1.
    { intros a. unfold PhredOf. apply phred2p_p2phred.
      apply Rdiv_lt_0_compat; [apply phred2p_pos | auto]. }
    rewrite <- (map_map phred2p (fun p => p / S)), Rsum_scale.
    fold (phred2p_v x). fold S. field. lra.
Qed.

Lemma make_base_prior_GTYPE10 (het : R) :
  make_base_prior het GTYPE10 = normalize_PL (map (raw_score het) GTYPE10).
Proof.
  unfold make_base_prior.
  assert (mapM alleles_differ GTYPE10 = Some [0; 1; 1; 1; 0; 1; 1; 0; 1; 0]) as ->
    by reflexivity.
  change (normalize_PL (map (fun b => b * het) [0; 1; 1; 1; 0; 1; 1; 0; 1; 0]) =
          normalize_PL [0; het; het; het; 0; het; het; 0; het; 0]).
  f_equal. simpl map. repeat (f_equal; try lra).
Qed.

(** C8: for every heterozygosity rate at which the prior builder
    returns, it gives each genotype the raw score [het] when its alleles
    differ and [0] when they are equal, normalises in probability domain,
    and the probabilities of the vector it returns sum to one. *)
Theorem C8_base_prior (het : R) (prior : list R) :
  make_base_prior het GTYPE10 = Some prior ->
  map (raw_score het) GTYPE10 = [0; het; het; het; 0; het; het; 0; het; 0] /\
  normalize_PL (map (raw_score het) GTYPE10) = Some prior /\
  prior = map (fun x => PhredOf (phred2p x / Rsum (phred2p_v (map (raw_score het) GTYPE10))))
              (map (raw_score het) GTYPE10) /\
  length prior = 10%nat /\
  Rsum (phred2p_v prior) = 1.
Proof.
  intros Hret.
  assert (map (raw_score het) GTYPE10 = [0; het; het; het; 0; het; het; 0; het; 0]) as Hraw.
  { reflexivity. }
  rewrite (make_base_prior_GTYPE10 het) in Hret.
  destruct (normalize_PL_spec (map (raw_score het) GTYPE10)) as [Hn Hs].
  rewrite Hn in Hret. injection Hret as <-.
  split; [done|]. split; [done|]. split; [done|]. split; [by rewrite ?length_map|].
  apply Hs. by rewrite Hraw.
Qed.

(** The builder returns at the default rate, thirty. *)
Lemma C8_base_prior_witness :
  exists prior,
    make_base_prior 30 GTYPE10 = Some prior /\
    length prior = 10%nat /\ Rsum (phred2p_v prior) = 1.
Proof.
  destruct (normalize_PL_spec (map (raw_score 30) GTYPE10)) as [Hn _].
  rewrite <- (make_base_prior_GTYPE10 30) in Hn.
  eexists. split; [exact Hn|].
  exact (proj2 (proj2 (proj2 (C8_base_prior 30 _ Hn)))).
Defined.


(** ** Induction on trees *)

Lemma tree_ind (P : tree -> Prop) :
  (forall s pl pl0 plm cs, Forall P cs -> P (Node s pl pl0 plm cs)) ->
  forall t, P t.
Proof.
  intros H. fix IH 1. intros [s pl pl0 plm cs]. apply H.
  induction cs as [|c cs IHcs]; constructor; [apply IH | apply IHcs].
Qed.

Lemma topo_ind (P : topo -> Prop) :
  (forall s cs, Forall P cs -> P (Topo s cs)) -> forall t, P t.
Proof.
  intros H. fix IH 1. intros [s cs]. apply H.
  induction cs as [|c cs IHcs]; constructor; [apply IH | apply IHcs].
Qed.

(** ** Loops in the error monad *)

Lemma mapM_app_eq {A B} (f : A -> option B) (l1 l2 : list A) :
  mapM f (l1 ++ l2) = k1 ← mapM f l1; k2 ← mapM f l2; Some (k1 ++ k2).
Proof.
  induction l1 as [|x l1 IH]; simpl.
  - by destruct (mapM f l2).
  - cbn. destruct (f x); cbn; [|done]. rewrite IH.
    destruct (mapM f l1); cbn; [|done]. by destruct (mapM f l2).
Qed.

Lemma mapM_cons_eq {A B} (f : A -> option B) x l :
  mapM f (x :: l) = y ← f x; k ← mapM f l; Some (y :: k).
Proof. done. Qed.

Lemma mapM_map_eq {A B C} (f : B -> option C) (h : A -> B) (l : list A) :
  mapM f (map h l) = mapM (fun x => f (h x)) l.
Proof.
  induction l as [|x l IH]; [done|].
  change (map h (x :: l)) with (h x :: map h l).
  rewrite !mapM_cons_eq. by rewrite IH.
Qed.

Lemma mapM_ext_in {A B} (f g : A -> option B) (l : list A) :
  Forall (fun x => f x = g x) l -> mapM f l = mapM g l.
Proof.
  induction 1 as [|x l Hx _ IH]; [done|]. by rewrite !mapM_cons_eq, Hx, IH.
Qed.

(** A loop over the children of a node, on the tree and on its topology:
    they fail together, and a result satisfies [Q] child by child. *)
Lemma mapM_match {A B C} (f : A -> option B) (h : A -> option C)
    (Q : A -> B -> Prop) (l : list A) :
  Forall (fun x => match f x with
                   | Some y => Q x y /\ is_Some (h x)
                   | None => h x = None
                   end) l ->
  match mapM f l with
  | Some k => Forall2 Q l k /\ is_Some (mapM h l)
  | None => mapM h l = None
  end.
Proof.
  induction 1 as [|x l Hx _ IH]; [by split; [constructor | eexists]|].
  rewrite !mapM_cons_eq. destruct (f x) as [y|]; cbn.
  - destruct Hx as [HQ [z Hz]]. rewrite Hz. cbn.
    destruct (mapM f l) as [k|]; cbn.
    + destruct IH as [HF [k' Hk']]. rewrite Hk'. cbn. split; [by constructor | by eexists].
    + by rewrite IH.
  - by rewrite Hx.
Qed.

Lemma foldlM_ext {A B} (f g : B -> A -> option B) (l : list A) b :
  Forall (fun x => forall b, f b x = g b x) l -> foldlM f b l = foldlM g b l.
Proof.
  intros H. revert b. induction H as [|x l Hx _ IH]; intros b; [done|].
  simpl. rewrite Hx. destruct (g b x); cbn; [apply IH | done].
Qed.

Lemma foldlM_map {A A' B} (f : B -> A' -> option B) (h : A -> option A')
    (l : list A) (l' : list A') b :
  Forall2 (fun x y => h x = Some y) l l' ->
  foldlM (fun acc x => y ← h x; f acc y) b l = foldlM f b l'.
Proof.
  intros H. revert b. induction H as [|x y l l' Hx _ IH]; intros b; [done|].
  simpl. rewrite Hx. cbn. destruct (f b y); cbn; [apply IH | done].
Qed.

(** ** Trees and their topology *)

Lemma is_leaf_skel t : topo_leaf (skel t) = is_leaf t.
Proof. destruct t as [s pl pl0 plm cs]. by destruct cs. Qed.

Lemma skel_setattr t a v : skel (setattr t a v) = skel t.
Proof. destruct t, a; reflexivity. Qed.

Lemma getattr_setattr t a v : getattr (setattr t a v) a = Some v.
Proof. by destruct a. Qed.

Lemma children_setattr t a v : children (setattr t a v) = children t.
Proof. by destruct a. Qed.

Lemma sid_setattr t a v : sid (setattr t a v) = sid t.
Proof. by destruct a. Qed.

Lemma traverse_postorder_unfold t :
  traverse_postorder t = concat (map traverse_postorder (children t)) ++ [t].
Proof. by destruct t. Qed.

Lemma skel_unfold t : skel t = Topo (sid t) (map skel (children t)).
Proof. by destruct t. Qed.

Lemma aggregate_unfold PLs mm s :
  aggregate PLs mm s =
  if topo_leaf s then
    i ← head (t_sid s);
    mapM (fun site => py_index site i) PLs
  else
    vals ← mapM (aggregate PLs mm) (t_children s);
    foldlM (fun acc v => y ← transition v mm; madd_rows acc y)
           (zeros2 (length PLs) (length (hd [] (hd [] PLs)))) vals.
Proof. by destruct s. Qed.

Lemma populate_unfold t PLs mm a :
  populate_tree_PL t PLs mm a =
  if is_leaf t then
    s ← head (sid t);
    v ← mapM (fun site => py_index site s) PLs;
    Some (setattr t a v)
  else
    cs ← mapM (fun c => populate_tree_PL c PLs mm a) (children t);
    v ← foldlM (add_child a mm) (zeros2 (length PLs) (length (hd [] (hd [] PLs)))) cs;
    Some (setattr (set_children t cs) a v).
Proof. by destruct t. Qed.

Lemma Forall2_skel (Q : tree -> tree -> Prop) cs cs' :
  Forall2 Q cs cs' -> (forall c c', Q c c' -> skel c' = skel c) ->
  map skel cs' = map skel cs.
Proof.
  intros H HQ. induction H as [|c c' cs cs' Hc _ IH]; [done|].
  simpl. by rewrite (HQ _ _ Hc), IH.
Qed.

(** What [populate_tree_PL] does, in terms of [aggregate]. *)
Lemma populate_aggregate PLs mm a t :
  match populate_tree_PL t PLs mm a with
  | Some t' =>
      (skel t' = skel t /\ pruned (fun node => getattr node a) PLs mm t') /\
      is_Some (aggregate PLs mm (skel t))
  | None => aggregate PLs mm (skel t) = None
  end.
Proof.
  induction t as [s pl pl0 plm cs IH] using tree_ind.
  rewrite populate_unfold, aggregate_unfold, is_leaf_skel.
  destruct (is_leaf (Node s pl pl0 plm cs)) eqn:Hleaf.
  - (* leaf *)
    simpl. destruct (head s) as [i|] eqn:Hs; cbn; [|done].
    destruct (mapM (fun site => py_index site i) PLs) as [v|] eqn:Hv; cbn; [|done].
    destruct cs; [|done].
    split; [|by eexists]. split; [by destruct a|].
    unfold pruned. rewrite traverse_postorder_unfold, children_setattr. simpl.
    constructor; [|constructor]. rewrite getattr_setattr, skel_setattr.
    split; [by eexists|]. rewrite aggregate_unfold. simpl. rewrite Hs. cbn. by rewrite Hv.
  - (* internal node *)
    simpl children. simpl t_children.
    pose proof (mapM_match (fun c => populate_tree_PL c PLs mm a)
                  (fun c => aggregate PLs mm (skel c))
                  (fun c c' => skel c' = skel c /\
                               pruned (fun node => getattr node a) PLs mm c') cs IH) as HM.
    rewrite mapM_map_eq.
    destruct (mapM (fun c => populate_tree_PL c PLs mm a) cs) as [cs'|]; cbn; cycle 1.
    { by rewrite HM. }
    destruct HM as [HF [vals Hvals]]. rewrite Hvals. cbn.
    assert (Forall2 (fun c v => getattr c a = Some v) cs' vals) as Hget.
    { apply mapM_Some in Hvals. clear -HF Hvals.
      revert vals Hvals. induction HF as [|c c' cs cs' [Hsk Hpr] _ IHF]; intros vals Hvals.
      - inversion Hvals. constructor.
      - inversion Hvals as [|? v ? vals' Hv Hvs]; subst. constructor; [|by apply IHF].
        unfold pruned in Hpr. rewrite traverse_postorder_unfold in Hpr.
        apply Forall_app in Hpr as [_ Hpr]. inversion Hpr as [|? ? [_ Hroot] _]; subst.
        rewrite Hroot, Hsk. done. }
    assert (foldlM (add_child a mm) (zeros2 (length PLs) (length (hd [] (hd [] PLs)))) cs' =
            foldlM (fun acc v => y ← transition v mm; madd_rows acc y)
                   (zeros2 (length PLs) (length (hd [] (hd [] PLs)))) vals) as Hfold.
    { rewrite <- (foldlM_map _ (fun c => getattr c a) cs' vals _ Hget). done. }
    rewrite Hfold.
    destruct (foldlM _ _ vals) as [v|] eqn:Hv; cbn; [|done].
    assert (map skel cs' = map skel cs) as Hsk.
    { eapply Forall2_skel; [exact HF|]. by intros ? ? [? ?]. }
    split; [|by eexists]. split.
    { rewrite skel_setattr. simpl. by rewrite Hsk. }
    unfold pruned. rewrite traverse_postorder_unfold, children_setattr. simpl children.
    apply Forall_app. split.
    + apply Forall_concat, Forall_fmap. clear -HF.
      induction HF as [|c c' cs cs' [_ Hpr] _ IHF]; constructor; [exact Hpr | exact IHF].
    + constructor; [|constructor]. rewrite getattr_setattr, skel_setattr. simpl.
      split; [by eexists|]. rewrite Hsk.
      assert (topo_leaf (Topo s (map skel cs)) = false) as ->.
      { rewrite <- Hleaf. by destruct cs. }
      rewrite mapM_map_eq, Hvals. cbn. by rewrite Hv.
Qed.


(** ** The arithmetic of one row *)

Lemma has_shape_lookup n c m i row :
  has_shape n c m -> m !! i = Some row -> length row = c.
Proof.
  intros [_ Hr] E. rewrite Forall_forall in Hr. eapply Hr, list_elem_of_lookup_2, E.
Qed.

Lemma has_shape_cons n c row m :
  has_shape (S n) c (row :: m) <-> length row = c /\ has_shape n c m.
Proof.
  unfold has_shape. simpl. rewrite Forall_cons. intuition lia.
Qed.

Lemma has_shape_nil c : has_shape 0 c [].
Proof. by split. Qed.

Lemma has_shape_app n1 n2 c a b :
  has_shape n1 c a -> has_shape n2 c b -> has_shape (n1 + n2) c (a ++ b).
Proof.
  intros [? ?] [? ?]. split; [rewrite length_app; lia | by apply Forall_app].
Qed.

Lemma zeros2_shape n g : has_shape n g (zeros2 n g).
Proof.
  unfold zeros2. split; [by rewrite length_replicate|].
  apply Forall_forall. intros row Hin. apply elem_of_replicate in Hin as [-> _].
  by rewrite length_replicate.
Qed.

Lemma vadd_same (u v : list R) :
  length u = length v -> vadd u v = Some (zip_with Rplus u v).
Proof. intros H. unfold vadd. by rewrite H, Nat.eqb_refl. Qed.

Lemma vadd_into_same (u v : list R) :
  length v = length u -> vadd_into u v = Some (zip_with Rplus u v).
Proof. intros H. unfold vadd_into. by rewrite H, Nat.eqb_refl. Qed.

Lemma nth_zip_with_plus (u v : list R) j :
  length u = length v -> nth j (zip_with Rplus u v) 0 = nth j u 0 + nth j v 0.
Proof.
  revert v j. induction u as [|x u IH]; intros [|y v] [|j] H; simpl in *; try lia; try lra.
  apply IH. lia.
Qed.

Lemma zipM_length {A B C} (f : A -> B -> option C) xs ys zs :
  zipM f xs ys = Some zs -> length xs = length zs /\ length ys = length zs.
Proof.
  revert ys zs. induction xs as [|x xs IH]; intros [|y ys] zs H; simpl in H; try done.
  - by simplify_eq.
  - destruct (f x y); cbn in H; [|done].
    destruct (zipM f xs ys) as [zs'|] eqn:E; cbn in H; [|done]. simplify_eq.
    destruct (IH _ _ E). simpl. lia.
Qed.

Lemma zipM_lookup {A B C} (f : A -> B -> option C) xs ys zs i z :
  zipM f xs ys = Some zs -> zs !! i = Some z ->
  exists x y, xs !! i = Some x /\ ys !! i = Some y /\ f x y = Some z.
Proof.
  revert ys zs i. induction xs as [|x xs IH]; intros [|y ys] zs i H Hz; simpl in H; try done.
  - by simplify_eq.
  - destruct (f x y) as [z0|] eqn:Ef; cbn in H; [|done].
    destruct (zipM f xs ys) as [zs'|] eqn:E; cbn in H; [|done]. simplify_eq.
    destruct i as [|i]; simpl in *.
    + simplify_eq. eauto.
    + eapply IH; eauto.
Qed.

Lemma zipM_Some_2 {A B C} (f : A -> B -> option C) (h : A -> B -> C) xs ys :
  Forall2 (fun x y => f x y = Some (h x y)) xs ys ->
  zipM f xs ys = Some (zip_with h xs ys).
Proof.
  induction 1 as [|x y xs ys Hx _ IH]; [done|]. simpl. rewrite Hx. cbn. by rewrite IH.
Qed.

Lemma madd_rows_same n g (a b : list (list R)) :
  has_shape n g a -> has_shape n g b ->
  madd_rows a b = Some (madd a b) /\ has_shape n g (madd a b).
Proof.
  intros Ha Hb. unfold madd_rows, madd. split.
  - apply zipM_Some_2. destruct Ha as [La Ra], Hb as [Lb Rb].
    apply Forall2_same_length_lookup_2; [lia|].
    intros i x y Ex Ey. apply vadd_same.
    rewrite Forall_forall in Ra, Rb.
    rewrite (Ra x), (Rb y); [done | |]; eapply list_elem_of_lookup_2; eauto.
  - destruct Ha as [La Ra], Hb as [Lb Rb]. split.
    + rewrite length_zip_with. lia.
    + apply Forall_forall. intros row Hin.
      apply list_elem_of_lookup in Hin as [i Hi].
      apply lookup_zip_with_Some in Hi as (x & y & -> & Ex & Ey).
      rewrite length_zip_with.
      rewrite Forall_forall in Ra, Rb.
      rewrite (Ra x), (Rb y); [lia | |]; eapply list_elem_of_lookup_2; eauto.
Qed.

Lemma mget_madd n g (a b : list (list R)) k j :
  has_shape n g a -> has_shape n g b ->
  mget (madd a b) k j = mget a k j + mget b k j.
Proof.
  intros Ha Hb. pose proof Ha as [La _]. pose proof Hb as [Lb _].
  destruct (a !! k) as [ra|] eqn:Ea; cycle 1.
  { apply lookup_ge_None in Ea. rewrite !mget_out_row; [lra | lia | lia |].
    unfold madd. rewrite length_zip_with. lia. }
  destruct (b !! k) as [rb|] eqn:Eb; cycle 1.
  { apply lookup_ge_None in Eb. apply lookup_lt_Some in Ea. lia. }
  assert (madd a b !! k = Some (zip_with Rplus ra rb)) as E.
  { unfold madd. rewrite lookup_zip_with, Ea. simpl. by rewrite Eb. }
  rewrite (mget_lookup _ _ _ _ E), (mget_lookup _ _ _ _ Ea), (mget_lookup _ _ _ _ Eb).
  apply nth_zip_with_plus.
  by rewrite (has_shape_lookup _ _ _ _ _ Ha Ea), (has_shape_lookup _ _ _ _ _ Hb Eb).
Qed.

(** The dot product with a column, as a sum over the row indexes. *)
Lemma dotp_col (x : list R) (mm : list (list R)) j :
  length x = length mm ->
  dotp x (col mm j) = Rsum (map (fun i => nth i x 0 * mget mm i j) (seq 0 (length mm))).
Proof.
  unfold dotp, col, mget. revert x. induction mm as [|row mm IH]; intros [|a x] H;
    simpl in *; try lia; [done|].
  f_equal. rewrite IH by lia. rewrite <- seq_shift, map_map. done.
Qed.

Lemma Rsum_map_pos {A} (f : A -> R) (l : list A) :
  Forall (fun i => 0 <= f i) l -> (exists i, i ∈ l /\ 0 < f i) -> 0 < Rsum (map f l).
Proof.
  intros Hnn (i & Hin & Hpos). induction Hnn as [|a l Ha Hl IH]; [by apply elem_of_nil in Hin|].
  simpl. apply elem_of_cons in Hin as [<-|Hin].
  - assert (0 <= Rsum (map f l)); [|lra].
    apply Rsum_nonneg, Forall_fmap. exact Hl.
  - specialize (IH Hin). lra.
Qed.

Lemma mget_nonneg (mm : list (list R)) i j :
  Forall (Forall (fun x => 0 <= x)) mm -> 0 <= mget mm i j.
Proof.
  intros H. unfold mget. rewrite (nth_lookup_default mm).
  destruct (mm !! i) as [row|] eqn:E; simpl.
  - rewrite Forall_forall in H. specialize (H row (list_elem_of_lookup_2 _ _ _ E)).
    rewrite nth_lookup_default. destruct (row !! j) as [x|] eqn:Ex; simpl; [|lra].
    rewrite Forall_forall in H. eapply H, list_elem_of_lookup_2, Ex.
  - destruct j; simpl; lra.
Qed.

Lemma mget_phred2p_v (cv : list (list R)) k i row :
  cv !! k = Some row -> (i < length row)%nat ->
  nth i (phred2p_v row) 0 = phred2p (mget cv k i).
Proof.
  intros E Hi. rewrite (mget_lookup _ _ _ _ E). unfold phred2p_v.
  rewrite !nth_lookup_default, list_lookup_fmap.
  destruct (row !! i) as [x|] eqn:Ex; [done|]. apply lookup_ge_None in Ex. lia.
Qed.

Lemma through_row mm cv k row j :
  cv !! k = Some row -> length row = length mm ->
  dotp (phred2p_v row) (col mm j) = through mm cv k j.
Proof.
  intros E Hl. rewrite dotp_col by (unfold phred2p_v; by rewrite length_map).
  unfold through. f_equal. apply map_ext_in. intros i Hi. apply in_seq in Hi.
  rewrite (mget_phred2p_v cv k i row) by (done || lia). done.
Qed.

Lemma through_pos g mm cv k j row :
  positive_columns g mm -> cv !! k = Some row -> (j < g)%nat -> 0 < through mm cv k j.
Proof.
  intros (Hsh & Hnn & Hcol) E Hj. unfold through.
  destruct (Hcol j Hj) as [i Hi].
  assert (i < length mm)%nat as Hlt.
  { destruct (decide (i < length mm)%nat); [done|].
    rewrite mget_out_row in Hi by lia. lra. }
  apply Rsum_map_pos.
  - apply Forall_forall. intros i' _.
    apply Rmult_le_pos; [left; apply phred2p_pos | by apply mget_nonneg].
  - exists i. split; [apply elem_of_seq; lia|].
    apply Rmult_lt_0_compat; [apply phred2p_pos | done].
Qed.

(** [transition_v] on a row of the right length. *)
Lemma transition_v_inv g mm cv k row y :
  has_shape g g mm -> cv !! k = Some row ->
  transition_v row mm = Some y ->
  length row = g /\ length y = g /\
  forall j : nat, (j < g)%nat ->
    0 < through mm cv k j /\ nth j y 0 = PhredOf (through mm cv k j).
Proof.
  intros Hsh E H. unfold transition_v in H.
  apply bind_Some in H as (d & Hd & Hy).
  unfold dotv in Hd. unfold phred2p_v in Hd at 1. rewrite length_map in Hd.
  destruct (Nat.eqb_spec (length row) (length mm)) as [Hl|]; [|done]. simplify_eq.
  destruct Hsh as [Hn Hr]. rewrite Hn in Hl.
  assert (ncols mm = g \/ g = 0%nat) as Hc.
  { destruct (decide (0 < g)%nat); [left | right; lia].
    by apply (has_shape_ncols g g). }
  unfold p2phred_v in Hy. apply mapM_Some in Hy.
  pose proof (Forall2_length _ _ _ Hy) as Hly. rewrite length_map, length_seq in Hly.
  split; [done|].
  split; [destruct Hc; [lia | destruct mm; unfold ncols in *; simpl in *; lia] |].
  intros j Hj. assert (ncols mm = g) as Hcg by (destruct Hc; [done | lia]).
  assert (map (fun j0 => dotp (phred2p_v row) (col mm j0)) (seq 0 (ncols mm)) !! j
          = Some (through mm cv k j)) as Ej.
  { rewrite list_lookup_fmap, lookup_seq_lt by lia. simpl.
    by rewrite (through_row mm cv k row j) by (done || lia). }
  destruct (Forall2_lookup_l _ _ _ _ _ Hy Ej) as (yj & Eyj & Hp).
  apply p2phred_inv in Hp as [Hpos ->].
  split; [done|]. rewrite nth_lookup_default, Eyj. done.
Qed.

Lemma transition_v_Some g mm (row : list R) :
  positive_columns g mm -> length row = g ->
  is_Some (transition_v row mm).
Proof.
  intros Hpc Hl. pose proof Hpc as (Hsh & _). destruct Hsh as [Hn Hr].
  unfold transition_v, dotv. unfold phred2p_v at 1. rewrite length_map.
  rewrite Hl, Hn, Nat.eqb_refl. cbn.
  unfold p2phred_v.
  rewrite (mapM_ext_Some p2phred PhredOf); [by eexists|].
  apply Forall_forall. intros x Hx. apply list_elem_of_fmap in Hx as (j & -> & Hj).
  apply elem_of_seq in Hj.
  assert (j < g)%nat as Hjg.
  { destruct (decide (0 < g)%nat) as [Hg|Hg].
    - rewrite (has_shape_ncols g g mm (conj Hn Hr) Hg) in Hj. lia.
    - destruct mm; [unfold ncols in Hj; simpl in Hj; lia | simpl in Hn; lia]. }
  rewrite (through_row mm [row] 0 row j) by (done || lia).
  apply p2phred_Some. by eapply (through_pos g mm [row] 0 j row).
Qed.


(** ** One child through the transition matrix *)

Lemma transition_inv g mm (cv y : list (list R)) :
  has_shape g g mm -> transition cv mm = Some y ->
  has_shape (length cv) g cv /\ has_shape (length cv) g y /\
  forall k j : nat, (k < length cv)%nat -> (j < g)%nat ->
    0 < through mm cv k j /\ mget y k j = child_term mm cv k j.
Proof.
  intros Hsh H. unfold transition in H. apply mapM_Some in H.
  pose proof (Forall2_length _ _ _ H) as Hl.
  split; [|split].
  - split; [done|]. apply Forall_forall. intros row Hin.
    apply list_elem_of_lookup in Hin as [k Ek].
    destruct (Forall2_lookup_l _ _ _ _ _ H Ek) as (yk & _ & Ht).
    by destruct (transition_v_inv g mm cv k row yk Hsh Ek Ht).
  - split; [done|]. apply Forall_forall. intros yk Hin.
    apply list_elem_of_lookup in Hin as [k Ek].
    destruct (Forall2_lookup_r _ _ _ _ _ H Ek) as (row & Er & Ht).
    by destruct (transition_v_inv g mm cv k row yk Hsh Er Ht) as (_ & ? & _).
  - intros k j Hk Hj.
    destruct (lookup_lt_is_Some_2 cv k Hk) as [row Er].
    destruct (Forall2_lookup_l _ _ _ _ _ H Er) as (yk & Ey & Ht).
    destruct (transition_v_inv g mm cv k row yk Hsh Er Ht) as (_ & _ & Hj').
    destruct (Hj' j Hj) as [Hpos Hval]. split; [done|].
    by rewrite (mget_lookup _ _ _ _ Ey).
Qed.

Lemma transition_Some n g mm (cv : list (list R)) :
  positive_columns g mm -> has_shape n g cv -> is_Some (transition cv mm).
Proof.
  intros Hpc [_ Hr]. unfold transition.
  induction Hr as [|row cv Hrow _ IH]; [by eexists|].
  rewrite mapM_cons_eq.
  destruct (transition_v_Some g mm row Hpc Hrow) as [y ->]. cbn.
  destruct IH as [ys ->]. by eexists.
Qed.

Lemma madd_rows_inv n n' g (a b c : list (list R)) :
  has_shape n g a -> has_shape n' g b -> madd_rows a b = Some c ->
  n' = n /\ c = madd a b /\ has_shape n g c.
Proof.
  intros Ha Hb H. pose proof H as Hl. apply zipM_length in Hl as [L1 L2].
  assert (n' = n) as -> by (destruct Ha, Hb; lia).
  destruct (madd_rows_same n g a b Ha Hb) as [E Hs].
  rewrite E in H. by simplify_eq.
Qed.

Lemma mget_zeros2 n g k j : mget (zeros2 n g) k j = 0.
Proof.
  unfold mget, zeros2. rewrite (nth_lookup_default (replicate _ _)).
  destruct (replicate n (replicate g 0) !! k) as [row|] eqn:E; simpl.
  - apply lookup_replicate in E as [-> _]. rewrite nth_lookup_default.
    destruct (replicate g 0 !! j) as [x|] eqn:Ex; simpl; [|done].
    by apply lookup_replicate in Ex as [-> _].
  - by destruct j.
Qed.

(** The loop over the children of an internal node. *)
Lemma fold_children n g mm (vals : list (list (list R))) (acc v : list (list R)) :
  has_shape g g mm -> has_shape n g acc ->
  foldlM (fun acc cv => y ← transition cv mm; madd_rows acc y) acc vals = Some v ->
  has_shape n g v /\
  Forall (has_shape n g) vals /\
  forall k j : nat, (k < n)%nat -> (j < g)%nat ->
    Forall (fun cv => 0 < through mm cv k j) vals /\
    mget v k j = mget acc k j + Rsum (map (fun cv => child_term mm cv k j) vals).
Proof.
  intros Hsh. revert acc. induction vals as [|cv vals IH]; intros acc Hacc H; simpl in H.
  - simplify_eq. split; [done|]. split; [constructor|].
    intros k j _ _. split; [constructor | simpl; lra].
  - apply bind_Some in H as (acc' & Hstep & H).
    apply bind_Some in Hstep as (y & Hy & Hadd).
    destruct (transition_inv g mm cv y Hsh Hy) as (Hcv & Hys & Hterm).
    destruct (madd_rows_inv n (length cv) g acc y acc' Hacc Hys Hadd) as (Hn & -> & Hacc').
    rewrite Hn in *.
    destruct (IH _ Hacc' H) as (Hv & Hvals & Hsum).
    split; [done|]. split; [by constructor|].
    intros k j Hk Hj. destruct (Hsum k j Hk Hj) as [Hpos Hval].
    destruct (Hterm k j Hk Hj) as [Hp Hm].
    split; [by constructor|].
    rewrite Hval, (mget_madd n g) by done. rewrite Hm. simpl. lra.
Qed.

Lemma fold_children_Some n g mm (vals : list (list (list R))) (acc : list (list R)) :
  positive_columns g mm -> has_shape n g acc -> Forall (has_shape n g) vals ->
  is_Some (foldlM (fun acc cv => y ← transition cv mm; madd_rows acc y) acc vals).
Proof.
  intros Hpc Hacc Hvals. revert acc Hacc.
  induction Hvals as [|cv vals Hcv _ IH]; intros acc Hacc; [by eexists|].
  simpl. destruct (transition_Some n g mm cv Hpc Hcv) as [y Hy]. rewrite Hy. cbn.
  destruct Hpc as (Hsh & _).
  destruct (transition_inv g mm cv y Hsh Hy) as (_ & Hys & _).
  destruct Hcv as [Hlen _]. rewrite Hlen in Hys.
  destruct (madd_rows_same n g acc y Hacc Hys) as [E Hs]. rewrite E. cbn.
  by apply IH.
Qed.

(** ** The rows of a leaf *)

Lemma py_index_Some {A} (l : list A) (i : Z) :
  (- Z.of_nat (length l) <= i < Z.of_nat (length l))%Z -> is_Some (py_index l i).
Proof.
  intros H. unfold py_index. destruct (Z.leb_spec 0 i).
  - apply lookup_lt_is_Some. lia.
  - destruct (Z.leb_spec (- Z.of_nat (length l)) i); [|lia].
    apply lookup_lt_is_Some. lia.
Qed.

Lemma py_index_elem {A} (l : list A) (i : Z) x : py_index l i = Some x -> x ∈ l.
Proof.
  unfold py_index. destruct (0 <=? i)%Z.
  - apply list_elem_of_lookup_2.
  - destruct (- Z.of_nat (length l) <=? i)%Z; [apply list_elem_of_lookup_2 | done].
Qed.

Lemma leaf_rows_shape m g (PLs : list (list (list R))) (i : Z) v :
  Forall (has_shape m g) PLs ->
  mapM (fun site => py_index site i) PLs = Some v ->
  has_shape (length PLs) g v.
Proof.
  intros Hrect H. apply mapM_Some in H.
  split; [by rewrite (Forall2_length _ _ _ H)|].
  apply Forall_forall. intros row Hin. apply list_elem_of_lookup in Hin as [k Ek].
  destruct (Forall2_lookup_r _ _ _ _ _ H Ek) as (site & Es & Hi).
  rewrite Forall_forall in Hrect.
  destruct (Hrect site (list_elem_of_lookup_2 _ _ _ Es)) as [_ Hrows].
  rewrite Forall_forall in Hrows. by apply Hrows, (py_index_elem _ i).
Qed.

Lemma leaf_rows_Some m g (PLs : list (list (list R))) (i : Z) :
  Forall (has_shape m g) PLs -> (- Z.of_nat m <= i < Z.of_nat m)%Z ->
  is_Some (mapM (fun site => py_index site i) PLs).
Proof.
  intros Hrect Hi. induction Hrect as [|site PLs [Hm _] _ IH]; [by eexists|].
  rewrite mapM_cons_eq.
  destruct (py_index_Some site i) as [row ->]; [by rewrite Hm|]. cbn.
  destruct IH as [rows ->]. by eexists.
Qed.

(** The accumulator an internal node starts from has the shape of the
    batch. *)
Lemma zeros_batch_shape m g (PLs : list (list (list R))) :
  Forall (has_shape m g) PLs -> (0 < m)%nat ->
  has_shape (length PLs) g (zeros2 (length PLs) (length (hd [] (hd [] PLs)))).
Proof.
  intros Hrect Hm. destruct Hrect as [|site PLs [Hl Hr] _]; [apply has_shape_nil|].
  simpl hd. destruct site as [|row site]; [simpl in Hl; lia|]. simpl hd.
  inversion Hr; subst. apply zeros2_shape.
Qed.

(** ** The shape of an aggregate *)

Lemma aggregate_shape m g PLs mm s v :
  Forall (has_shape m g) PLs -> (0 < m)%nat -> has_shape g g mm ->
  aggregate PLs mm s = Some v -> has_shape (length PLs) g v.
Proof.
  intros Hrect Hm Hsh. revert v.
  induction s as [sd cs IH] using topo_ind. intros v H.
  rewrite aggregate_unfold in H. destruct (topo_leaf (Topo sd cs)).
  - apply bind_Some in H as (i & _ & H). exact (leaf_rows_shape m g PLs i v Hrect H).
  - apply bind_Some in H as (vals & _ & H).
    by destruct (fold_children _ g mm vals _ v Hsh (zeros_batch_shape m g PLs Hrect Hm) H).
Qed.

Lemma topo_postorder_unfold s :
  topo_postorder s = concat (map topo_postorder (t_children s)) ++ [s].
Proof. by destruct s. Qed.

Lemma sids_in_range_children m sd cs :
  sids_in_range m (Topo sd cs) -> Forall (sids_in_range m) cs.
Proof.
  unfold sids_in_range. rewrite topo_postorder_unfold. simpl.
  intros H. apply Forall_app in H as [H _].
  rewrite Forall_concat, Forall_fmap in H. exact H.
Qed.

(** The pruning pass cannot raise on a batch of the right shape. *)
Lemma aggregate_Some m g PLs mm s :
  Forall (has_shape m g) PLs -> (0 < m)%nat -> positive_columns g mm ->
  sids_in_range m s -> is_Some (aggregate PLs mm s).
Proof.
  intros Hrect Hm Hpc. pose proof Hpc as (Hsh & _).
  induction s as [sd cs IH] using topo_ind. intros Hsid.
  rewrite aggregate_unfold. destruct (topo_leaf (Topo sd cs)) eqn:Hleaf.
  - unfold sids_in_range in Hsid. rewrite topo_postorder_unfold in Hsid.
    apply Forall_app in Hsid as [_ Hroot]. inversion Hroot as [|? ? Hr _]; subst.
    destruct (Hr Hleaf) as (i & Hi & Hrange). simpl in Hi. simpl. rewrite Hi. cbn.
    exact (leaf_rows_Some m g PLs i Hrect Hrange).
  - simpl t_children.
    assert (exists vals, mapM (aggregate PLs mm) cs = Some vals /\
                         Forall (has_shape (length PLs) g) vals) as (vals & Hvals & Hshapes).
    { pose proof (sids_in_range_children m sd cs Hsid) as Hcs. clear Hsid Hleaf.
      induction IH as [|c cs Hc _ IHcs]; [by exists []|].
      inversion Hcs as [|? ? Hc1 Hcs1]; subst.
      destruct (Hc Hc1) as [v Hv]. destruct (IHcs Hcs1) as (vals & Hvals & Hsh').
      exists (v :: vals). rewrite mapM_cons_eq, Hv. cbn. rewrite Hvals. cbn.
      split; [done|]. constructor; [|done].
      exact (aggregate_shape m g PLs mm c v Hrect Hm Hsh Hv). }
    rewrite Hvals. cbn.
    by apply (fold_children_Some (length PLs) g); [| apply (zeros_batch_shape m g) |].
Qed.


(** ** C2: the pruning pass *)

Lemma pruned_unfold f PLs mm t :
  pruned f PLs mm t <->
  Forall (pruned f PLs mm) (children t) /\
  (is_Some (f t) /\ f t = aggregate PLs mm (skel t)).
Proof.
  unfold pruned. rewrite traverse_postorder_unfold, Forall_app, Forall_concat, Forall_fmap.
  rewrite Forall_singleton. done.
Qed.

Lemma pruned_children_values (f : tree -> option (list (list R))) PLs mm cs vals :
  Forall (pruned f PLs mm) cs ->
  mapM (aggregate PLs mm) (map skel cs) = Some vals ->
  Forall2 (fun c cv => f c = Some cv) cs vals.
Proof.
  intros Hp H. revert vals H. induction Hp as [|c cs Hc _ IH]; intros vals H.
  - injection H as <-. constructor.
  - change (map skel (c :: cs)) with (skel c :: map skel cs) in H.
    rewrite mapM_cons_eq in H.
    apply bind_Some in H as (v & Hv & H). apply bind_Some in H as (vs & Hvs & H).
    simplify_eq. constructor; [|by apply IH].
    apply pruned_unfold in Hc as (_ & _ & ->). done.
Qed.

Lemma pruned_nodes m g PLs mm a t :
  Forall (has_shape m g) PLs -> (0 < m)%nat -> has_shape g g mm ->
  pruned (fun node => getattr node a) PLs mm t ->
  Forall (node_pruned PLs mm a) (traverse_postorder t).
Proof.
  intros Hrect Hm Hsh.
  induction t as [sd pl pl0 plm cs IH] using tree_ind. intros Hp.
  apply pruned_unfold in Hp as (Hcs & [v Hv] & Hagg).
  rewrite traverse_postorder_unfold. apply Forall_app. split.
  - apply Forall_concat, Forall_fmap. simpl children in *.
    clear -IH Hcs. induction IH as [|c cs Hc _ IHcs]; [constructor|].
    inversion Hcs; subst. constructor; [by apply Hc | by apply IHcs].
  - apply Forall_singleton. exists v. split; [done|].
    rewrite Hv in Hagg. symmetry in Hagg.
    rewrite aggregate_unfold, is_leaf_skel in Hagg.
    destruct (is_leaf (Node sd pl pl0 plm cs)) eqn:Hleaf.
    + apply bind_Some in Hagg as (s & Hs & Hrows). exists s. split; [done|].
      by apply mapM_Some in Hrows.
    + apply bind_Some in Hagg as (vals & Hvals & Hfold). exists vals.
      simpl children in *. simpl t_children in Hvals.
      split; [by eapply pruned_children_values|].
      destruct (fold_children _ g mm vals _ v Hsh (zeros_batch_shape m g PLs Hrect Hm) Hfold)
        as (Hshape & _ & Hsum).
      destruct Hsh as [Hlen Hrows]. rewrite Hlen.
      split; [by destruct Hshape|].
      intros k j Hk Hj. destruct (Hsum k j Hk Hj) as [Hpos Hval].
      split; [done|]. rewrite Hval, mget_zeros2. lra.
Qed.

(** C2: on a batch of [m] samples and [g] genotypes with a [g] by [g]
    transition matrix, the pruning pass keeps the topology, leaves on each
    leaf the input rows of its sample, unchanged, and on each internal node
    the sum over its children of [PhredOf(ProbOf(child) . mm)], entry by
    entry. *)
Theorem C2_populate_tree_PL t PLs mm a m g t' :
  Forall (has_shape m g) PLs -> (0 < m)%nat -> has_shape g g mm ->
  populate_tree_PL t PLs mm a = Some t' ->
  skel t' = skel t /\ Forall (node_pruned PLs mm a) (traverse_postorder t').
Proof.
  intros Hrect Hm Hsh H. pose proof (populate_aggregate PLs mm a t) as Hp.
  rewrite H in Hp. destruct Hp as [[Hsk Hpr] _]. split; [done|].
  by eapply pruned_nodes.
Qed.

(** Over the reals, where no probability is rounded to zero, the pass
    completes when every leaf names a sample and no column of the matrix
    is zero. *)
Lemma populate_tree_PL_total t PLs mm a m g :
  Forall (has_shape m g) PLs -> (0 < m)%nat -> positive_columns g mm ->
  sids_in_range m (skel t) ->
  is_Some (populate_tree_PL t PLs mm a).
Proof.
  intros Hrect Hm Hpc Hsid. pose proof (populate_aggregate PLs mm a t) as Hp.
  destruct (populate_tree_PL t PLs mm a) as [t'|]; [by eexists|].
  destruct (aggregate_Some m g PLs mm (skel t) Hrect Hm Hpc Hsid) as [v Hv].
  congruence.
Qed.

Lemma PLs2_shape : Forall (has_shape 2 2) PLs2.
Proof. repeat constructor. Qed.

Lemma id2_positive : positive_columns 2 id2.
Proof.
  split; [|split].
  - repeat constructor.
  - unfold id2. repeat constructor; lra.
  - intros j Hj. destruct j as [|[|j]]; [exists 0%nat | exists 1%nat | lia];
      unfold mget; simpl; lra.
Qed.

Lemma tree2_sids : sids_in_range 2 (skel tree2).
Proof.
  unfold sids_in_range. simpl.
  repeat constructor; intros H; try discriminate H; eexists; (split; [reflexivity | lia]).
Qed.

Lemma C2_populate_tree_PL_witness :
  exists t', populate_tree_PL tree2 PLs2 id2 aPL = Some t' /\
             skel t' = skel tree2 /\
             Forall (node_pruned PLs2 id2 aPL) (traverse_postorder t').
Proof.
  destruct (populate_tree_PL_total tree2 PLs2 id2 aPL 2 2 PLs2_shape
              ltac:(lia) id2_positive tree2_sids) as [t' Ht'].
  exists t'. split; [exact Ht'|].
  apply (C2_populate_tree_PL tree2 PLs2 id2 aPL 2 2 t' PLs2_shape ltac:(lia)
           (proj1 id2_positive) Ht').
Defined.


(** ** The placement pass, on the tree and on its topology *)

Lemma delete_map {A B} (f : A -> B) (l : list A) k :
  delete k (map f l) = map f (delete k l).
Proof.
  revert k. induction l as [|x l IH]; intros [|k]; simpl; try done. by rewrite IH.
Qed.

Lemma head_map {A B} (f : A -> B) (l : list A) : head (map f l) = f <$> head l.
Proof. by destruct l. Qed.

Lemma place_child_view mm0 mm1 cs st k :
  place_child mm0 mm1 cs st k = place_view mm0 mm1 (map view_of cs) st k.
Proof.
  unfold place_child, place_view. destruct st as [plm i].
  rewrite list_lookup_fmap, delete_map, head_map.
  destruct (cs !! k) as [child|]; [|done]. cbn.
  destruct (head (delete k cs)) as [sister|]; [|done]. cbn. done.
Qed.

Lemma place_view_agree mm0 mm1 vs ws st k :
  Forall2 view_agree vs ws ->
  place_view mm0 mm1 vs st k = place_view mm0 mm1 ws st k.
Proof.
  intros H. unfold place_view. destruct st as [plm i].
  pose proof (Forall2_delete _ _ _ k H) as Hd.
  destruct (vs !! k) as [v|] eqn:Ev.
  - destruct (Forall2_lookup_l _ _ _ _ _ H Ev) as (w & -> & Hl & H0 & Hm). cbn.
    assert (option_Forall2 view_agree (head (delete k vs)) (head (delete k ws))) as Hh.
    { destruct Hd; constructor; done. }
    destruct Hh as [sv sw (_ & Hs0 & _)|]; [|done]. cbn. rewrite Hs0.
    destruct (v_PL0 sw) as [s0|]; [|done]. cbn.
    destruct (transition s0 mm0) as [fs|]; [|done]. cbn.
    rewrite <- Hl, <- H0. destruct (v_leaf v) eqn:E; [done|].
    by rewrite (Hm eq_refl).
  - assert (ws !! k = None) as ->; [|done].
    apply lookup_ge_None. apply lookup_ge_None in Ev.
    by rewrite <- (Forall2_length _ _ _ H).
Qed.

Lemma foldlM_None_elem {A B} (f : B -> A -> option B) (l : list A) (k : A) b :
  k ∈ l -> (forall b, f b k = None) -> foldlM f b l = None.
Proof.
  intros Hin Hk. revert b. induction l as [|x l IH]; intros b; [by apply elem_of_nil in Hin|].
  simpl. apply elem_of_cons in Hin as [<-|Hin].
  - by rewrite Hk.
  - destruct (f b x); cbn; [by apply IH | done].
Qed.

Lemma place_view_None mm0 mm1 vs st k v :
  vs !! k = Some v -> v_leaf v = false -> v_PLm v = None ->
  place_view mm0 mm1 vs st k = None.
Proof.
  intros Ev Hl Hm. unfold place_view. destruct st as [plm i]. rewrite Ev. cbn.
  destruct (head (delete k vs)) as [sv|]; [|done]. cbn.
  destruct (v_PL0 sv) as [s0|]; [|done]. cbn.
  destruct (transition s0 mm0) as [fs|]; [|done]. cbn.
  by rewrite Hl, Hm.
Qed.

Lemma nleaves_skel t : topo_nleaves (skel t) = nleaves t.
Proof.
  induction t as [sd pl pl0 plm cs IH] using tree_ind. simpl.
  destruct cs as [|c cs]; [done|].
  change (map skel (c :: cs)) with (skel c :: map skel cs).
  cbn [foldr]. inversion IH as [|? ? Hc Hcs]; subst. rewrite Hc. f_equal.
  clear -Hcs. induction Hcs as [|d cs Hd _ IHcs]; [done|]. simpl. by rewrite Hd, IHcs.
Qed.

Lemma placements_unfold PLs mm0 mm1 n g s :
  placements PLs mm0 mm1 n g s =
  if topo_leaf s then None
  else
    let views := map (topo_view PLs mm0 mm1 n g) (t_children s) in
    '(plm, _) ← foldlM (place_view mm0 mm1 views)
                       (zeros3 (2 * topo_nleaves s - 2) n g, 0%nat)
                       (seq 0 (length views));
    Some plm.
Proof. by destruct s. Qed.

Lemma calc_mut_node_unfold n g mm0 mm1 t :
  calc_mut_node n g mm0 mm1 t =
  if is_leaf t then Some t
  else
    cs ← mapM (calc_mut_node n g mm0 mm1) (children t);
    let plm0 := zeros3 (2 * nleaves t - 2) n g in
    '(plm, _) ← foldlM (place_child mm0 mm1 cs) (plm0, 0%nat) (seq 0 (length cs));
    Some (set_PLm (set_children t cs) plm).
Proof. by destruct t. Qed.

Lemma placed_views PLs mm0 mm1 n g cs cs' :
  Forall2 (placed PLs mm0 mm1 n g) cs cs' ->
  Forall2 view_agree (map view_of cs') (map (topo_view PLs mm0 mm1 n g) (map skel cs)).
Proof.
  induction 1 as [|c c' cs cs' (Hsk & Hpr & H0 & Hm) _ IHM]; [constructor|].
  simpl. constructor; [|exact IHM].
  apply pruned_unfold in Hpr as (_ & _ & Hagg).
  split; [|split]; simpl.
  - by rewrite <- Hsk, is_leaf_skel.
  - by rewrite Hagg, Hsk.
  - intros Hl. rewrite <- is_leaf_skel, Hsk, is_leaf_skel in Hl.
    by destruct (Hm Hl) as [_ ->].
Qed.

(** The loop over the children, on the annotated children and on the
    views of the topology. *)
Lemma place_children_eq PLs mm0 mm1 n g t cs' :
  is_leaf t = false ->
  Forall2 (placed PLs mm0 mm1 n g) (children t) cs' ->
  placements PLs mm0 mm1 n g (skel t) =
  fst <$> foldlM (place_child mm0 mm1 cs') (zeros3 (2 * nleaves t - 2) n g, 0%nat)
                 (seq 0 (length cs')).
Proof.
  intros Hleaf HM. rewrite placements_unfold, is_leaf_skel, Hleaf, nleaves_skel.
  cbv zeta. destruct t as [sd pl pl0 plm cs]. simpl children in HM. simpl t_children.
  rewrite !length_map, <- (Forall2_length _ _ _ HM).
  rewrite (foldlM_ext (place_child mm0 mm1 cs')
             (place_view mm0 mm1 (map (topo_view PLs mm0 mm1 n g) (map skel cs)))); cycle 1.
  { apply Forall_forall. intros k _ st.
    by rewrite place_child_view, (place_view_agree _ _ _ _ _ _ (placed_views _ _ _ _ _ _ _ HM)). }
  destruct (foldlM _ _ _) as [[plm' i]|]; done.
Qed.

Lemma calc_mut_node_placements PLs mm0 mm1 n g t :
  pruned PL0 PLs mm0 t ->
  match calc_mut_node n g mm0 mm1 t with
  | Some t' => placed PLs mm0 mm1 n g t t'
  | None => is_leaf t = false /\ placements PLs mm0 mm1 n g (skel t) = None
  end.
Proof.
  induction t as [sd pl pl0 plm cs IH] using tree_ind. intros Hp.
  rewrite calc_mut_node_unfold.
  destruct (is_leaf (Node sd pl pl0 plm cs)) eqn:Hleaf.
  { unfold placed. split; [done|]. split; [done|]. split; [done|].
    intros Hl. rewrite Hl in Hleaf. discriminate. }
  apply pruned_unfold in Hp as (Hcs & Hroot). simpl children in Hcs.
  (* the children *)
  assert (match mapM (calc_mut_node n g mm0 mm1) cs with
          | Some cs' => Forall2 (placed PLs mm0 mm1 n g) cs cs'
          | None => exists k c, cs !! k = Some c /\ is_leaf c = false /\
                                placements PLs mm0 mm1 n g (skel c) = None
          end) as HM.
  { clear Hleaf Hroot. induction IH as [|c cs Hc _ IHcs]; [constructor|].
    inversion Hcs as [|? ? Hpc Hpcs]; subst. specialize (Hc Hpc). specialize (IHcs Hpcs).
    rewrite mapM_cons_eq. destruct (calc_mut_node n g mm0 mm1 c) as [c'|]; cbn.
    - destruct (mapM (calc_mut_node n g mm0 mm1) cs) as [cs'|]; cbn.
      + by constructor.
      + destruct IHcs as (k & d & Hk & Hd). by exists (S k), d.
    - destruct Hc as [Hl Hn]. by exists 0%nat, c. }
  simpl children.
  destruct (mapM (calc_mut_node n g mm0 mm1) cs) as [cs'|]; cycle 1.
  { destruct HM as (k & c & Hk & Hl & Hn). split; [done|].
    rewrite placements_unfold, is_leaf_skel, Hleaf. cbv zeta. simpl t_children.
    rewrite (foldlM_None_elem _ _ k); [done | |].
    - apply elem_of_seq. apply lookup_lt_Some in Hk. rewrite !length_map. lia.
    - intros st.
      apply (place_view_None _ _ _ _ _ (topo_view PLs mm0 mm1 n g (skel c))).
      + by rewrite !list_lookup_fmap, Hk.
      + simpl. by rewrite is_leaf_skel.
      + done. }
  pose proof (place_children_eq PLs mm0 mm1 n g (Node sd pl pl0 plm cs) cs' Hleaf HM) as HP.
  change (mapM (calc_mut_node n g mm0 mm1) cs) with (mapM (calc_mut_node n g mm0 mm1) cs).
  cbn [mbind option_bind]. cbv zeta.
  destruct (foldlM (place_child mm0 mm1 cs') _ _) as [[plm' i]|]; cbn [mbind option_bind].
  - assert (map skel cs' = map skel cs) as Hsk.
    { eapply Forall2_skel; [exact HM|]. by intros ? ? [? ?]. }
    unfold placed. split; [simpl; by rewrite Hsk|]. split; [|split; [done|]].
    + apply pruned_unfold. simpl. split.
      * clear -HM. induction HM as [|c c' cs cs' (_ & Hpr & _) _ IHM]; constructor; done.
      * simpl in Hroot. by rewrite Hsk.
    + intros _. split; [by eexists | symmetry; exact HP].
  - done.
Qed.


(** ** Writing into the stack of planes *)

Lemma assign_vec_same (old new : list R) :
  length new = length old -> assign_vec old new = Some new.
Proof. intros H. unfold assign_vec. by rewrite H, Nat.eqb_refl. Qed.

Lemma zipM_snd {A B} (f : A -> B -> option B) (xs : list A) (ys : list B) :
  Forall2 (fun x y => f x y = Some y) xs ys -> zipM f xs ys = Some ys.
Proof.
  induction 1 as [|x y xs ys Hx _ IH]; [done|]. simpl. rewrite Hx. cbn. by rewrite IH.
Qed.

Lemma assign_mat_same n g (old new : list (list R)) :
  has_shape n g old -> has_shape n g new -> assign_mat old new = Some new.
Proof.
  intros [Lo Ro] [Ln Rn]. unfold assign_mat. apply zipM_snd.
  apply Forall2_same_length_lookup_2; [lia|].
  intros i x y Ex Ey. apply assign_vec_same.
  rewrite Forall_forall in Ro, Rn.
  rewrite (Ro x), (Rn y); [done | |]; eapply list_elem_of_lookup_2; eauto.
Qed.

Lemma assign_slice_fresh n g (Z : list (list R)) done x r :
  has_shape n g Z -> Forall (has_shape n g) x -> (length x <= r)%nat ->
  assign_slice (done ++ replicate r Z) (length done) (length x) x =
  Some (done ++ x ++ replicate (r - length x) Z).
Proof.
  intros HZ Hx Hr. unfold assign_slice. cbv zeta.
  rewrite drop_app_length, take_replicate, Nat.min_l by lia.
  rewrite length_replicate, Nat.eqb_refl.
  assert (zipM assign_mat (replicate (length x) Z) x = Some x) as ->.
  { apply zipM_snd. clear Hr. induction Hx as [|p x Hp _ IH]; [constructor|].
    simpl. constructor; [by apply (assign_mat_same n g) | exact IH]. }
  cbn. rewrite take_app_length. do 3 f_equal.
  rewrite drop_app_add, drop_replicate. done.
Qed.

Lemma assign_index_fresh n g (Z : list (list R)) done x r :
  has_shape n g Z -> has_shape n g x -> (1 <= r)%nat ->
  assign_index (done ++ replicate r Z) (length done) x =
  Some (done ++ [x] ++ replicate (r - 1) Z).
Proof.
  intros HZ Hx Hr. unfold assign_index.
  destruct r as [|r]; [lia|]. simpl replicate.
  rewrite list_lookup_middle by done. cbn.
  rewrite (assign_mat_same n g) by done. cbn.
  rewrite insert_app_r_alt, Nat.sub_diag by lia. simpl.
  by rewrite Nat.sub_0_r.
Qed.

(** ** One child of one node *)

Lemma transition3_length cp mm b : transition3 cp mm = Some b -> length b = length cp.
Proof. intros H. symmetry. by apply length_mapM in H. Qed.

Lemma below_shapes g mm0 n (fs : list (list R)) b below :
  has_shape n g fs -> has_shape g g mm0 ->
  Forall (fun plane => exists cv, transition cv mm0 = Some plane) b ->
  mapM (fun plane => madd_rows plane fs) b = Some below ->
  length below = length b /\ Forall (has_shape n g) below.
Proof.
  intros Hfs Hsh Hb H. apply mapM_Some in H.
  split; [by rewrite (Forall2_length _ _ _ H)|].
  apply Forall_forall. intros p Hin. apply list_elem_of_lookup in Hin as [k Ek].
  destruct (Forall2_lookup_r _ _ _ _ _ H Ek) as (plane & Ep & Hadd).
  rewrite Forall_forall in Hb.
  destruct (Hb plane (list_elem_of_lookup_2 _ _ _ Ep)) as [cv Hcv].
  destruct (transition_inv g mm0 cv plane Hsh Hcv) as (_ & Hpl & _).
  pose proof Hadd as Hl. apply zipM_length in Hl as [L1 L2].
  destruct Hfs as [Lf Rf]. destruct Hpl as [Lp Rp].
  assert (has_shape n g plane) as Hpl by (split; [lia | done]).
  destruct (madd_rows_same n g plane fs Hpl (conj Lf Rf)) as [E Hs].
  rewrite E in Hadd. by simplify_eq.
Qed.

Lemma transition3_planes cp mm b :
  transition3 cp mm = Some b ->
  Forall (fun plane => exists cv, transition cv mm = Some plane) b.
Proof.
  intros H. apply mapM_Some in H. apply Forall_forall. intros p Hin.
  apply list_elem_of_lookup in Hin as [k Ek].
  destruct (Forall2_lookup_r _ _ _ _ _ H Ek) as (cv & _ & Hcv). by exists cv.
Qed.

(** What [edge_planes] returns has the shape of the stack. *)
Lemma edge_planes_shape n g mm0 mm1 vc vs new :
  has_shape g g mm0 -> has_shape g g mm1 ->
  (forall s0, v_PL0 vs = Some s0 -> has_shape n g s0) ->
  (forall c0, v_PL0 vc = Some c0 -> has_shape n g c0) ->
  edge_planes mm0 mm1 vc vs = Some new ->
  Forall (has_shape n g) new /\
  length new = ((if v_leaf vc then 0 else length (default [] (v_PLm vc))) + 1)%nat.
Proof.
  intros H0 H1 Hs Hc H. unfold edge_planes in H.
  apply bind_Some in H as (s0 & Es0 & H). apply bind_Some in H as (fs & Efs & H).
  apply bind_Some in H as (below & Eb & H). apply bind_Some in H as (c0 & Ec0 & H).
  apply bind_Some in H as (here & Eh & H). apply bind_Some in H as (r1 & Er & H).
  simplify_eq.
  destruct (transition_inv g mm0 s0 fs H0 Efs) as (_ & Hfs & _).
  destruct (Hs s0 Es0) as [Ls _]. rewrite Ls in Hfs.
  destruct (transition_inv g mm1 c0 here H1 Eh) as (_ & Hh & _).
  destruct (Hc c0 Ec0) as [Lc _]. rewrite Lc in Hh.
  destruct (madd_rows_inv n n g here fs r1 Hh Hfs Er) as (_ & _ & Hr1).
  assert (Forall (has_shape n g) below /\
          length below = if v_leaf vc then 0%nat else length (default [] (v_PLm vc)))
    as [Hbs Hbl].
  { destruct (v_leaf vc).
    - simplify_eq. by split.
    - apply bind_Some in Eb as (cp & Ecp & Eb). apply bind_Some in Eb as (b & Eb3 & Eb).
      rewrite Ecp. simpl.
      destruct (below_shapes g mm0 n fs b below Hfs H0 (transition3_planes _ _ _ Eb3) Eb)
        as [Hl Hsh].
      split; [done|]. by rewrite Hl, (transition3_length _ _ _ Eb3). }
  split.
  - apply Forall_app. split; [done|]. by constructor.
  - rewrite length_app. simpl. lia.
Qed.

(** One turn of the loop of [calc_mut_likelihoods] writes the planes of
    one child after the planes already written. *)
Lemma place_view_step n g mm0 mm1 (Z : list (list R)) views k vc vs done r :
  has_shape g g mm0 -> has_shape g g mm1 -> has_shape n g Z ->
  views !! k = Some vc -> head (delete k views) = Some vs ->
  (forall s0, v_PL0 vs = Some s0 -> has_shape n g s0) ->
  (forall c0, v_PL0 vc = Some c0 -> has_shape n g c0) ->
  (forall new, edge_planes mm0 mm1 vc vs = Some new -> (length new <= r)%nat) ->
  place_view mm0 mm1 views (done ++ replicate r Z, length done) k =
  new ← edge_planes mm0 mm1 vc vs;
  Some (done ++ new ++ replicate (r - length new) Z, (length done + length new)%nat).
Proof.
  intros H0 H1 HZ Ek Es Hs Hc Hcap.
  pose proof (edge_planes_shape n g mm0 mm1 vc vs) as Hshape.
  unfold place_view, edge_planes in *. rewrite Ek, Es. cbn.
  destruct (v_PL0 vs) as [s0|] eqn:Es0; [|done]. cbn in *.
  destruct (transition s0 mm0) as [fs|] eqn:Efs; [|done]. cbn in *.
  destruct (v_leaf vc) eqn:El.
  - cbn in *. destruct (v_PL0 vc) as [c0|] eqn:Ec0; [|done]. cbn in *.
    destruct (transition c0 mm1) as [here|] eqn:Eh; [|done]. cbn in *.
    destruct (madd_rows here fs) as [r1|] eqn:Er; [|done]. cbn in *.
    destruct (Hshape [r1] H0 H1 Hs Hc eq_refl) as [Hsh _].
    specialize (Hcap [r1] eq_refl). simpl in Hcap.
    inversion Hsh; subst.
    rewrite (assign_index_fresh n g) by (done || lia). cbn. done.
  - destruct (v_PLm vc) as [cp|] eqn:Ecp; [|done]. cbn in *.
    destruct (transition3 cp mm0) as [b|] eqn:Eb3; [|done]. cbn in *.
    destruct (mapM (fun plane => madd_rows plane fs) b) as [below|] eqn:Eb; [|done]. cbn in *.
    destruct (v_PL0 vc) as [c0|] eqn:Ec0; cbn in *; cycle 1.
    { by destruct (assign_slice _ _ _ _). }
    destruct (transition c0 mm1) as [here|] eqn:Eh; cbn in *; cycle 1.
    { by destruct (assign_slice _ _ _ _). }
    destruct (madd_rows here fs) as [r1|] eqn:Er; cbn in *; cycle 1.
    { by destruct (assign_slice _ _ _ _). }
    destruct (Hshape (below ++ [r1]) H0 H1 Hs Hc eq_refl) as [Hsh Hlen].
    specialize (Hcap (below ++ [r1]) eq_refl). rewrite length_app in Hcap, Hlen.
    simpl in Hcap, Hlen.
    apply Forall_app in Hsh as [Hbel Hr1]. inversion Hr1; subst.
    assert (length cp = length below) as -> by lia.
    rewrite (assign_slice_fresh n g) by (done || lia). cbn.
    replace (length done + length below)%nat with (length (done ++ below))
      by (by rewrite length_app).
    rewrite (app_assoc done below).
    rewrite (assign_index_fresh n g) by (done || lia). cbn.
    rewrite !length_app. simpl. f_equal. f_equal; [|lia].
    rewrite <- !app_assoc. simpl. do 3 f_equal. f_equal. lia.
Qed.


(** ** Fully binary trees *)

Lemma topo_nleaves_pos s : (1 <= topo_nleaves s)%nat.
Proof.
  induction s as [sd cs IH] using topo_ind. simpl.
  destruct cs as [|c cs]; [done|]. inversion IH; subst. simpl. lia.
Qed.

Lemma binary_children s :
  binary s -> topo_leaf s = false ->
  exists a b, t_children s = [a; b] /\ binary a /\ binary b /\
              topo_nleaves s = (topo_nleaves a + topo_nleaves b)%nat.
Proof.
  destruct s as [sd cs]. simpl. intros Hb Hl.
  destruct cs as [|a [|b [|c cs]]]; try done.
  destruct Hb as [Ha Hb]. exists a, b. simpl. repeat split; try done. lia.
Qed.

Lemma edge_planes_agree mm0 mm1 vc vc' vs vs' :
  view_agree vc vc' -> v_PL0 vs = v_PL0 vs' ->
  edge_planes mm0 mm1 vc vs = edge_planes mm0 mm1 vc' vs'.
Proof.
  intros (Hl & H0 & Hm) Hs. unfold edge_planes. rewrite Hs, Hl, H0.
  destruct (v_leaf vc') eqn:E; [done|].
  rewrite Hl in Hm. by rewrite (Hm eq_refl).
Qed.

Section Binary.
Context (PLs : list (list (list R))) (mm0 mm1 : list (list R)) (m g g' : nat).
Context (Hrect : Forall (has_shape m g) PLs) (Hm : (0 < m)%nat).
Context (Hmm0 : has_shape g g mm0) (Hmm1 : has_shape g g mm1).
Context (HZ : has_shape (length PLs) g (zeros2 (length PLs) g')).

Local Abbreviation n := (length PLs).
Local Abbreviation TV := (topo_view PLs mm0 mm1 n g').

Lemma TV_PL0_shape c s0 : v_PL0 (TV c) = Some s0 -> has_shape n g s0.
Proof. simpl. by apply (aggregate_shape m g). Qed.

(** The stack of a binary node: the planes of the edges below and to the
    first child, then those of the second. *)
Lemma binary_placements s :
  binary s ->
  (forall plm, placements PLs mm0 mm1 n g' s = Some plm ->
     length plm = (2 * topo_nleaves s - 2)%nat /\ Forall (has_shape n g) plm) /\
  (forall a b, t_children s = [a; b] ->
     placements PLs mm0 mm1 n g' s =
     na ← edge_planes mm0 mm1 (TV a) (TV b);
     nb ← edge_planes mm0 mm1 (TV b) (TV a);
     Some (na ++ nb)).
Proof.
  induction s as [sd cs IH] using topo_ind. intros Hb.
  destruct (topo_leaf (Topo sd cs)) eqn:Hleaf.
  { split.
    - intros plm H. rewrite placements_unfold, Hleaf in H. done.
    - intros a b E. simpl in E. subst cs. done. }
  destruct (binary_children _ Hb Hleaf) as (a & b & E & Ha & Hbb & Hnl).
  simpl in E. subst cs.
  inversion IH as [|? ? IHa IH']; subst. inversion IH' as [|? ? IHb _]; subst.
  destruct (IHa Ha) as [La _]. destruct (IHb Hbb) as [Lb _].
  pose proof (topo_nleaves_pos a) as Pa. pose proof (topo_nleaves_pos b) as Pb.
  (* the number of planes of one child *)
  assert (forall c vs new, (forall plm, placements PLs mm0 mm1 n g' c = Some plm ->
              length plm = (2 * topo_nleaves c - 2)%nat /\ Forall (has_shape n g) plm) ->
            (1 <= topo_nleaves c)%nat ->
            (forall s0, v_PL0 vs = Some s0 -> has_shape n g s0) ->
            edge_planes mm0 mm1 (TV c) vs = Some new ->
            length new = (2 * topo_nleaves c - 1)%nat /\ Forall (has_shape n g) new) as Hedge.
  { intros c vs new Lc Pc Hvs Hnew.
    destruct (edge_planes_shape n g mm0 mm1 (TV c) vs new Hmm0 Hmm1 Hvs (TV_PL0_shape c) Hnew)
      as [Hsh Hlen].
    split; [|done]. rewrite Hlen. simpl.
    destruct (topo_leaf c) eqn:Hc.
    - destruct c as [? [|? ?]]; [simpl; lia | done].
    - unfold edge_planes in Hnew. simpl in Hnew. rewrite Hc in Hnew.
      destruct (placements PLs mm0 mm1 n g' c) as [cp|] eqn:Ecp.
      + destruct (Lc cp eq_refl) as [Hlc _]. simpl. rewrite Hlc. lia.
      + apply bind_Some in Hnew as (s0 & _ & Hnew).
        apply bind_Some in Hnew as (fs & _ & Hnew).
        apply bind_Some in Hnew as (below & Hbelow & _). done. }
  assert (placements PLs mm0 mm1 n g' (Topo sd [a; b]) =
          na ← edge_planes mm0 mm1 (TV a) (TV b);
          nb ← edge_planes mm0 mm1 (TV b) (TV a);
          Some (na ++ nb)) as Heq.
  { rewrite placements_unfold, Hleaf. cbv zeta. simpl t_children.
    change (seq 0 (length (map TV [a; b]))) with [0; 1]%nat.
    unfold zeros3. set (r := (2 * topo_nleaves (Topo sd [a; b]) - 2)%nat).
    assert (forall new, edge_planes mm0 mm1 (TV a) (TV b) = Some new ->
                        (length new <= r)%nat) as Cap0.
    { intros new Hnew. destruct (Hedge a (TV b) new La Pa (TV_PL0_shape b) Hnew) as [-> _].
      unfold r. rewrite Hnl. lia. }
    pose proof (place_view_step n g mm0 mm1 (zeros2 n g') (map TV [a; b]) 0
               (TV a) (TV b) [] r Hmm0 Hmm1 HZ eq_refl eq_refl
               (TV_PL0_shape b) (TV_PL0_shape a) Cap0) as Step0.
    cbn [app length] in Step0.
    cbn [foldlM]. rewrite Step0.
    destruct (edge_planes mm0 mm1 (TV a) (TV b)) as [na|] eqn:Ena; [|done].
    cbn [mbind option_bind].
    destruct (Hedge a (TV b) na La Pa (TV_PL0_shape b) Ena) as [Lna _].
    assert (forall new, edge_planes mm0 mm1 (TV b) (TV a) = Some new ->
                        (length new <= r - length na)%nat) as Cap1.
    { intros new Hnew. destruct (Hedge b (TV a) new Lb Pb (TV_PL0_shape a) Hnew) as [-> _].
      unfold r. rewrite Hnl, Lna. lia. }
    pose proof (place_view_step n g mm0 mm1 (zeros2 n g') (map TV [a; b]) 1
               (TV b) (TV a) na (r - length na) Hmm0 Hmm1 HZ eq_refl eq_refl
               (TV_PL0_shape a) (TV_PL0_shape b) Cap1) as Step1.
    change (0 + length na)%nat with (length na). rewrite Step1.
    destruct (edge_planes mm0 mm1 (TV b) (TV a)) as [nb|] eqn:Enb; [|done].
    cbn [mbind option_bind].
    destruct (Hedge b (TV a) nb Lb Pb (TV_PL0_shape a) Enb) as [Lnb _].
    replace (r - length na - length nb)%nat with 0%nat
      by (unfold r; rewrite Hnl, Lna, Lnb; lia).
    simpl. by rewrite app_nil_r. }
  split.
  - intros plm H. rewrite Heq in H.
    apply bind_Some in H as (na & Ena & H). apply bind_Some in H as (nb & Enb & H).
    simplify_eq.
    destruct (Hedge a (TV b) na La Pa (TV_PL0_shape b) Ena) as [Lna Sna].
    destruct (Hedge b (TV a) nb Lb Pb (TV_PL0_shape a) Enb) as [Lnb Snb].
    split; [|by apply Forall_app]. rewrite length_app, Lna, Lnb, Hnl. lia.
  - intros a' b' E. simpl in E. by simplify_eq.
Qed.

End Binary.


(** ** The placement of one mutation, path by path *)

Lemma mapM_kleisli {A B C} (f : A -> option B) (h : B -> option C) (l : list A) :
  mapM (fun x => y ← f x; h y) l = ys ← mapM f l; mapM h ys.
Proof.
  induction l as [|x l IH]; [done|]. rewrite !mapM_cons_eq, IH.
  destruct (f x) as [y|]; cbn; [|done].
  destruct (mapM f l) as [ys|]; cbn.
  - done.
  - by destruct (h y).
Qed.

Lemma paths_postorder_unfold s :
  paths_postorder s =
  concat (imap (fun k below => map (cons k) below ++ [[k]])
               (map paths_postorder (t_children s))).
Proof. by destruct s. Qed.

Lemma paths_binary s a b :
  t_children s = [a; b] ->
  paths_postorder s =
  (map (cons 0%nat) (paths_postorder a) ++ [[0%nat]]) ++
  (map (cons 1%nat) (paths_postorder b) ++ [[1%nat]]).
Proof.
  intros E. rewrite paths_postorder_unfold, E. simpl. by rewrite app_nil_r.
Qed.

Lemma paths_leaf c : topo_leaf c = true -> paths_postorder c = [].
Proof. destruct c as [sd [|? ?]]; done. Qed.

Lemma paths_nonempty s : Forall (fun p => p <> []) (paths_postorder s).
Proof.
  rewrite paths_postorder_unfold. apply Forall_concat, Forall_forall.
  intros l Hl. apply elem_of_lookup_imap_1 in Hl as (k & below & -> & _).
  apply Forall_app. split; [|by constructor].
  apply Forall_forall. intros p Hp. apply list_elem_of_fmap in Hp as (q & -> & _). done.
Qed.

Lemma placement_at_cons PLs mm0 mm1 s k p' c d :
  t_children s !! k = Some c -> head (delete k (t_children s)) = Some d ->
  placement_at PLs mm0 mm1 s (k :: p') =
  s0 ← aggregate PLs mm0 d;
  fs ← transition s0 mm0;
  fc ← match p' with
       | [] => c0 ← aggregate PLs mm0 c; transition c0 mm1
       | _ => below ← placement_at PLs mm0 mm1 c p'; transition below mm0
       end;
  madd_rows fc fs.
Proof. intros Hc Hd. destruct s. simpl in *. rewrite Hc, Hd. done. Qed.

(** The paths through one child give the planes of that child. *)
Lemma paths_edge PLs mm0 mm1 s k c d (vs : view) :
  t_children s !! k = Some c -> head (delete k (t_children s)) = Some d ->
  v_PL0 vs = aggregate PLs mm0 d ->
  mapM (placement_at PLs mm0 mm1 s) (map (cons k) (paths_postorder c) ++ [[k]]) =
  edge_planes mm0 mm1 (path_view PLs mm0 mm1 c) vs.
Proof.
  intros Hc Hd Hvs. rewrite mapM_app_eq, mapM_map_eq. unfold edge_planes. rewrite Hvs.
  simpl v_leaf. simpl v_PL0. simpl v_PLm.
  rewrite (mapM_cons_eq _ [k] []), (placement_at_cons _ _ _ _ _ _ c d Hc Hd).
  destruct (aggregate PLs mm0 d) as [s0|] eqn:Es0; cbn [mbind option_bind]; cycle 1.
  { by destruct (mapM _ (paths_postorder c)). }
  destruct (transition s0 mm0) as [fs|] eqn:Efs; cbn [mbind option_bind]; cycle 1.
  { by destruct (mapM _ (paths_postorder c)). }
  assert (mapM (fun p' => placement_at PLs mm0 mm1 s (k :: p')) (paths_postorder c) =
          if topo_leaf c then Some []
          else cp ← mapM (placement_at PLs mm0 mm1 c) (paths_postorder c);
               b ← transition3 cp mm0;
               mapM (fun plane => madd_rows plane fs) b) as ->.
  { destruct (topo_leaf c) eqn:Hleaf.
    { by rewrite (paths_leaf c Hleaf). }
    rewrite (mapM_ext_in _ (fun p' => below ← placement_at PLs mm0 mm1 c p';
                                      up ← transition below mm0; madd_rows up fs)).
    - rewrite mapM_kleisli.
      destruct (mapM (placement_at PLs mm0 mm1 c) (paths_postorder c)) as [cp|];
        cbn [mbind option_bind]; [|done].
      by rewrite mapM_kleisli.
    - eapply Forall_impl; [apply paths_nonempty|]. intros p' Hp'. simpl in Hp'.
      rewrite (placement_at_cons _ _ _ _ _ _ c d Hc Hd), Es0. cbn [mbind option_bind].
      rewrite Efs. cbn [mbind option_bind].
      destruct p' as [|j p'']; [done|].
      by destruct (placement_at PLs mm0 mm1 c (j :: p'')). }
  destruct (if topo_leaf c then Some [] else _) as [below|]; cbn [mbind option_bind]; [|done].
  destruct (aggregate PLs mm0 c) as [c0|]; cbn [mbind option_bind]; [|done].
  destruct (transition c0 mm1) as [here|]; cbn [mbind option_bind]; [|done].
  by destruct (madd_rows here fs).
Qed.

Section BinaryPaths.
Context (PLs : list (list (list R))) (mm0 mm1 : list (list R)) (m g g' : nat).
Context (Hrect : Forall (has_shape m g) PLs) (Hm : (0 < m)%nat).
Context (Hmm0 : has_shape g g mm0) (Hmm1 : has_shape g g mm1).
Context (HZ : has_shape (length PLs) g (zeros2 (length PLs) g')).

(** On a fully binary tree the stack of the root lists the placements of
    the mutation on the non-root nodes, in post-order. *)
Lemma binary_paths s :
  binary s -> topo_leaf s = false ->
  mapM (placement_at PLs mm0 mm1 s) (paths_postorder s) =
  placements PLs mm0 mm1 (length PLs) g' s.
Proof.
  induction s as [sd cs IH] using topo_ind. intros Hb Hleaf.
  destruct (binary_children _ Hb Hleaf) as (a & b & E & Ha & Hbb & Hnl).
  simpl in E. subst cs.
  inversion IH as [|? ? IHa IH']; subst. inversion IH' as [|? ? IHb _]; subst.
  destruct (binary_placements PLs mm0 mm1 m g g' Hrect Hm Hmm0 Hmm1 HZ _ Hb) as [_ Heq].
  rewrite (Heq a b eq_refl), (paths_binary (Topo sd [a; b]) a b eq_refl), mapM_app_eq.
  rewrite (paths_edge PLs mm0 mm1 (Topo sd [a; b]) 0 a b
             (topo_view PLs mm0 mm1 (length PLs) g' b) eq_refl eq_refl eq_refl).
  rewrite (paths_edge PLs mm0 mm1 (Topo sd [a; b]) 1 b a
             (topo_view PLs mm0 mm1 (length PLs) g' a) eq_refl eq_refl eq_refl).
  assert (forall c, binary c ->
            (binary c -> topo_leaf c = false ->
             mapM (placement_at PLs mm0 mm1 c) (paths_postorder c) =
             placements PLs mm0 mm1 (length PLs) g' c) ->
            view_agree (path_view PLs mm0 mm1 c) (topo_view PLs mm0 mm1 (length PLs) g' c))
    as Hag.
  { intros c Hc IHc. split; [done|]. split; [done|]. simpl. intros Hl. by apply IHc. }
  rewrite (edge_planes_agree mm0 mm1 _ _ _ _ (Hag a Ha IHa) eq_refl).
  rewrite (edge_planes_agree mm0 mm1 _ _ _ _ (Hag b Hbb IHb) eq_refl).
  done.
Qed.

End BinaryPaths.

(** ** Paths and nodes of a fully binary tree *)

Lemma topo_descendants_binary s a b :
  t_children s = [a; b] ->
  topo_descendants s = (topo_descendants a ++ [a]) ++ (topo_descendants b ++ [b]).
Proof.
  intros E. unfold topo_descendants at 1. rewrite E. simpl.
  rewrite !topo_postorder_unfold. by rewrite app_nil_r.
Qed.

Lemma subtopo_cons s k p c :
  t_children s !! k = Some c -> subtopo s (k :: p) = subtopo c p.
Proof. intros H. simpl. by rewrite H. Qed.

Lemma binary_paths_nodes s :
  binary s ->
  map (subtopo s) (paths_postorder s) = map Some (topo_descendants s) /\
  NoDup (paths_postorder s) /\
  length (topo_descendants s) = (2 * topo_nleaves s - 2)%nat /\
  (forall p, p ∈ paths_postorder s <-> p <> [] /\ is_Some (subtopo s p)).
Proof.
  induction s as [sd cs IH] using topo_ind. intros Hb.
  destruct (topo_leaf (Topo sd cs)) eqn:Hleaf.
  { destruct cs; [|done]. split; [done|]. split; [constructor|]. split; [done|].
    intros p. split.
    - intros Hp. by apply elem_of_nil in Hp.
    - intros [Hne [x Hx]]. destruct p as [|k p]; [done|]. by destruct k. }
  destruct (binary_children _ Hb Hleaf) as (a & b & E & Ha & Hbb & Hnl).
  simpl in E. subst cs.
  inversion IH as [|? ? IHa IH']; subst. inversion IH' as [|? ? IHb _]; subst.
  destruct (IHa Ha) as (Sa & Na & La & Ca). destruct (IHb Hbb) as (Sb & Nb & Lb & Cb).
  pose proof (topo_nleaves_pos a) as Pa. pose proof (topo_nleaves_pos b) as Pb.
  rewrite (paths_binary (Topo sd [a; b]) a b eq_refl), (topo_descendants_binary (Topo sd [a; b]) a b eq_refl).
  split; [|split; [|split]].
  - assert (forall (k : nat) c l, [a; b] !! k = Some c ->
              map (subtopo (Topo sd [a; b])) (map (cons k) l) = map (subtopo c) l) as Hsub.
    { intros k c l Hk. rewrite map_map. apply map_ext. intros q.
      by apply subtopo_cons. }
    rewrite !map_app, (Hsub 0%nat a), (Hsub 1%nat b), Sa, Sb by done. done.
  - assert (forall (k : nat) l, NoDup l -> Forall (fun p => p <> []) l ->
                                NoDup (map (cons k) l ++ [[k]])) as Hone.
    { intros k l Hl Hne. apply NoDup_app. split; [|split].
      - by apply (NoDup_fmap_2 (cons k)).
      - intros p Hp Hin. apply list_elem_of_fmap in Hp as (q & -> & Hq).
        apply list_elem_of_singleton in Hin. injection Hin as ->.
        rewrite Forall_forall in Hne. by apply (Hne [] Hq).
      - apply NoDup_singleton. }
    apply NoDup_app. split; [|split].
    + apply Hone; [done | apply paths_nonempty].
    + intros p Hp Hin.
      assert (exists q, p = 0%nat :: q) as [q ->].
      { apply elem_of_app in Hp as [Hp|Hp].
        - apply list_elem_of_fmap in Hp as (q & -> & _). by eexists.
        - apply list_elem_of_singleton in Hp. by eexists. }
      apply elem_of_app in Hin as [Hin|Hin].
      * apply list_elem_of_fmap in Hin as (q' & Hq' & _). done.
      * apply list_elem_of_singleton in Hin. done.
    + apply Hone; [done | apply paths_nonempty].
  - rewrite !length_app, La, Lb, Hnl. simpl. lia.
  - intros p. rewrite !elem_of_app, !list_elem_of_fmap, !list_elem_of_singleton. split.
    + intros [[(q & -> & Hq) | ->] | [(q & -> & Hq) | ->]].
      * split; [done|]. rewrite (subtopo_cons (Topo sd [a; b]) 0 q a eq_refl). by apply Ca.
      * split; [done|]. by eexists.
      * split; [done|]. rewrite (subtopo_cons (Topo sd [a; b]) 1 q b eq_refl). by apply Cb.
      * split; [done|]. by eexists.
    + intros [Hne Hsome]. destruct p as [|k q]; [done|].
      destruct k as [|[|k]].
      * rewrite (subtopo_cons (Topo sd [a; b]) 0 q a eq_refl) in Hsome. left.
        destruct q as [|j q]; [by right|]. left. exists (j :: q). split; [done|].
        by apply Ca.
      * rewrite (subtopo_cons (Topo sd [a; b]) 1 q b eq_refl) in Hsome. right.
        destruct q as [|j q]; [by right|]. left. exists (j :: q). split; [done|].
        by apply Cb.
      * simpl in Hsome. destruct Hsome as [x Hx]. done.
Qed.

Lemma topo_postorder_skel t :
  map skel (traverse_postorder t) = topo_postorder (skel t).
Proof.
  induction t as [sd pl pl0 plm cs IH] using tree_ind.
  rewrite traverse_postorder_unfold, topo_postorder_unfold. simpl.
  rewrite map_app. simpl. f_equal.
  rewrite concat_map, !map_map. f_equal.
  apply map_ext_Forall. exact IH.
Qed.

Lemma topo_descendants_skel t :
  map skel (iter_descendants t) = topo_descendants (skel t).
Proof.
  destruct t as [sd pl pl0 plm cs]. unfold iter_descendants, topo_descendants. simpl.
  rewrite concat_map, !map_map. f_equal.
  apply map_ext. intros c. apply topo_postorder_skel.
Qed.


(** ** The placement pass cannot raise on a fully binary tree *)

Lemma transition_Some_shape n g mm (cv : list (list R)) :
  positive_columns g mm -> has_shape n g cv ->
  exists y, transition cv mm = Some y /\ has_shape n g y.
Proof.
  intros Hpc Hcv. destruct (transition_Some n g mm cv Hpc Hcv) as [y Hy].
  exists y. split; [done|]. destruct Hpc as (Hsh & _).
  destruct (transition_inv g mm cv y Hsh Hy) as (_ & Hys & _).
  destruct Hcv as [<- _]. done.
Qed.

Lemma transition3_Some_shape n g mm (cp : list (list (list R))) :
  positive_columns g mm -> Forall (has_shape n g) cp ->
  exists b, transition3 cp mm = Some b /\ Forall (has_shape n g) b.
Proof.
  intros Hpc Hcp. unfold transition3. induction Hcp as [|p cp Hp _ IH]; [by exists []|].
  rewrite mapM_cons_eq.
  destruct (transition_Some_shape n g mm p Hpc Hp) as (y & -> & Hy).
  destruct IH as (b & -> & Hb). exists (y :: b). split; [done | by constructor].
Qed.

Lemma madd_planes_Some n g (fs : list (list R)) (b : list (list (list R))) :
  has_shape n g fs -> Forall (has_shape n g) b ->
  is_Some (mapM (fun plane => madd_rows plane fs) b).
Proof.
  intros Hfs Hb. induction Hb as [|p b Hp _ IH]; [by eexists|].
  rewrite mapM_cons_eq.
  destruct (madd_rows_same n g p fs Hp Hfs) as [-> _]. destruct IH as [ys ->].
  by eexists.
Qed.

Lemma edge_planes_Some n g mm0 mm1 vc vs s0 c0 :
  positive_columns g mm0 -> positive_columns g mm1 ->
  v_PL0 vs = Some s0 -> has_shape n g s0 ->
  v_PL0 vc = Some c0 -> has_shape n g c0 ->
  (v_leaf vc = false -> exists cp, v_PLm vc = Some cp /\ Forall (has_shape n g) cp) ->
  is_Some (edge_planes mm0 mm1 vc vs).
Proof.
  intros H0 H1 Es0 Hs0 Ec0 Hc0 Hm. unfold edge_planes. rewrite Es0, Ec0. cbn.
  destruct (transition_Some_shape n g mm0 s0 H0 Hs0) as (fs & -> & Hfs). cbn.
  assert (is_Some (if v_leaf vc then Some []
                   else cp ← v_PLm vc; b ← transition3 cp mm0;
                        mapM (fun plane => madd_rows plane fs) b)) as [below ->].
  { destruct (v_leaf vc); [by eexists|].
    destruct (Hm eq_refl) as (cp & -> & Hcp). cbn [mbind option_bind].
    destruct (transition3_Some_shape n g mm0 cp H0 Hcp) as (b & -> & Hb).
    cbn [mbind option_bind]. by apply (madd_planes_Some n g). }
  cbn.
  destruct (transition_Some_shape n g mm1 c0 H1 Hc0) as (here & -> & Hh). cbn.
  destruct (madd_rows_same n g here fs Hh Hfs) as [-> _]. by eexists.
Qed.

Section BinaryTotal.
Context (PLs : list (list (list R))) (mm0 mm1 : list (list R)) (m g g' : nat).
Context (Hrect : Forall (has_shape m g) PLs) (Hm : (0 < m)%nat).
Context (Hmm0 : positive_columns g mm0) (Hmm1 : positive_columns g mm1).
Context (HZ : has_shape (length PLs) g (zeros2 (length PLs) g')).

Lemma placements_Some s :
  binary s -> topo_leaf s = false -> sids_in_range m s ->
  is_Some (placements PLs mm0 mm1 (length PLs) g' s).
Proof.
  induction s as [sd cs IH] using topo_ind. intros Hb Hleaf Hsid.
  destruct (binary_children _ Hb Hleaf) as (a & b & E & Ha & Hbb & Hnl).
  simpl in E. subst cs.
  inversion IH as [|? ? IHa IH']; subst. inversion IH' as [|? ? IHb _]; subst.
  pose proof (sids_in_range_children m sd [a; b] Hsid) as Hcs.
  inversion Hcs as [|? ? Sa Hcs']; subst. inversion Hcs' as [|? ? Sb _]; subst.
  pose proof Hmm0 as (Hs0 & _). pose proof Hmm1 as (Hs1 & _).
  destruct (binary_placements PLs mm0 mm1 m g g' Hrect Hm Hs0 Hs1 HZ _ Hb) as [_ Heq].
  rewrite (Heq a b eq_refl).
  destruct (aggregate_Some m g PLs mm0 a Hrect Hm Hmm0 Sa) as [va Eva].
  destruct (aggregate_Some m g PLs mm0 b Hrect Hm Hmm0 Sb) as [vb Evb].
  pose proof (aggregate_shape m g PLs mm0 a va Hrect Hm Hs0 Eva) as Sva.
  pose proof (aggregate_shape m g PLs mm0 b vb Hrect Hm Hs0 Evb) as Svb.
  assert (forall c, binary c -> sids_in_range m c ->
            (binary c -> topo_leaf c = false -> sids_in_range m c ->
             is_Some (placements PLs mm0 mm1 (length PLs) g' c)) ->
            topo_leaf c = false ->
            exists cp, placements PLs mm0 mm1 (length PLs) g' c = Some cp /\
                       Forall (has_shape (length PLs) g) cp) as Hch.
  { intros c Hc Sc IHc Hl. destruct (IHc Hc Hl Sc) as [cp Ecp]. exists cp. split; [done|].
    by destruct (binary_placements PLs mm0 mm1 m g g' Hrect Hm Hs0 Hs1 HZ c Hc)
      as [Hlen _]; destruct (Hlen cp Ecp). }
  destruct (edge_planes_Some (length PLs) g mm0 mm1
              (topo_view PLs mm0 mm1 (length PLs) g' a)
              (topo_view PLs mm0 mm1 (length PLs) g' b) vb va
              Hmm0 Hmm1 Evb Svb Eva Sva (Hch a Ha Sa IHa)) as [na ->].
  destruct (edge_planes_Some (length PLs) g mm0 mm1
              (topo_view PLs mm0 mm1 (length PLs) g' b)
              (topo_view PLs mm0 mm1 (length PLs) g' a) va vb
              Hmm0 Hmm1 Eva Sva Evb Svb (Hch b Hbb Sb IHb)) as [nb ->].
  by eexists.
Qed.

End BinaryTotal.

(** The accumulator shape [calc_mut_likelihoods] reads off the root. *)
Lemma root_zeros_shape n g (pl0 : list (list R)) :
  has_shape n g pl0 -> has_shape n g (zeros2 n (ncols pl0)).
Proof.
  intros H. destruct (decide (0 < n)%nat) as [Hn|Hn].
  - rewrite (has_shape_ncols n g pl0 H Hn). apply zeros2_shape.
  - assert (n = 0%nat) as -> by lia. apply has_shape_nil.
Qed.


(** ** C3: the mutation-placement enumerator *)

Lemma pruned_root f PLs mm t :
  pruned f PLs mm t -> is_Some (f t) /\ f t = aggregate PLs mm (skel t).
Proof. intros H. by apply pruned_unfold in H as [_ H]. Qed.

(** The two passes in a row, as [genotype] runs them. *)
Lemma calc_after_populate t PLs mm0 mm1 m g t2 t3 :
  Forall (has_shape m g) PLs -> (0 < m)%nat -> has_shape g g mm0 ->
  populate_tree_PL t PLs mm0 aPL0 = Some t2 ->
  calc_mut_likelihoods t2 mm0 mm1 = Some t3 ->
  exists pl0,
    aggregate PLs mm0 (skel t) = Some pl0 /\ has_shape (length PLs) g pl0 /\
    PL0 t2 = Some pl0 /\ PL0 t3 = Some pl0 /\
    skel t2 = skel t /\ skel t3 = skel t /\
    pruned PL0 PLs mm0 t3 /\
    (is_leaf t = false ->
     is_Some (PLm t3) /\
     PLm t3 = placements PLs mm0 mm1 (length PLs) (ncols pl0) (skel t)).
Proof.
  intros Hrect Hm Hs0 Hpop Hcalc.
  pose proof (populate_aggregate PLs mm0 aPL0 t) as Hp. rewrite Hpop in Hp.
  destruct Hp as [[Hsk Hpr] _].
  assert (pruned PL0 PLs mm0 t2) as Hpr2 by exact Hpr.
  destruct (pruned_root _ _ _ _ Hpr2) as [[pl0 E0] Hagg].
  rewrite E0, Hsk in Hagg. symmetry in Hagg.
  pose proof (aggregate_shape m g PLs mm0 (skel t) pl0 Hrect Hm Hs0 Hagg) as Hshape.
  unfold calc_mut_likelihoods in Hcalc. rewrite E0 in Hcalc. cbn in Hcalc.
  pose proof (calc_mut_node_placements PLs mm0 mm1 (length pl0) (ncols pl0) t2 Hpr2) as Hc.
  rewrite Hcalc in Hc. destruct Hc as (Hsk3 & Hpr3 & H03 & Hm3).
  exists pl0. destruct Hshape as [Hlen Hrows].
  split; [done|]. split; [by split|]. split; [done|]. split; [by rewrite H03|].
  split; [done|]. split; [by rewrite Hsk3|]. split; [done|].
  intros Hleaf. rewrite <- is_leaf_skel, <- Hsk, is_leaf_skel in Hleaf.
  destruct (Hm3 Hleaf) as [Hsome Heq]. split; [done|].
  by rewrite Heq, Hlen, Hsk.
Qed.

(** C3 (as amended): on a fully binary tree whose root is not a leaf, the
    enumerator leaves at the root a stack of exactly [2m-2] planes, as many
    as there are non-root nodes; the paths to the non-root nodes, in
    post-order, are pairwise distinct, never the empty path (the root), and
    the [k]-th plane is the placement of the mutation on the edge above the
    [k]-th of them. *)
Theorem C3_placements_binary t PLs mm0 mm1 m g t2 t3 :
  Forall (has_shape m g) PLs -> (0 < m)%nat ->
  has_shape g g mm0 -> has_shape g g mm1 ->
  binary (skel t) -> is_leaf t = false ->
  populate_tree_PL t PLs mm0 aPL0 = Some t2 ->
  calc_mut_likelihoods t2 mm0 mm1 = Some t3 ->
  exists plm,
    PLm t3 = Some plm /\
    length plm = (2 * nleaves t - 2)%nat /\
    length (iter_descendants t3) = (2 * nleaves t - 2)%nat /\
    map skel (iter_descendants t3) = topo_descendants (skel t) /\
    map (subtopo (skel t)) (paths_postorder (skel t)) =
      map Some (topo_descendants (skel t)) /\
    NoDup (paths_postorder (skel t)) /\
    (forall p, p ∈ paths_postorder (skel t) <-> p <> [] /\ is_Some (subtopo (skel t) p)) /\
    mapM (placement_at PLs mm0 mm1 (skel t)) (paths_postorder (skel t)) = Some plm.
Proof.
  intros Hrect Hm Hs0 Hs1 Hbin Hleaf Hpop Hcalc.
  destruct (calc_after_populate t PLs mm0 mm1 m g t2 t3 Hrect Hm Hs0 Hpop Hcalc)
    as (pl0 & Hagg & Hshape & _ & _ & _ & Hsk3 & _ & Hplm).
  destruct (Hplm Hleaf) as [[plm Eplm] Heq]. rewrite Eplm in Heq. symmetry in Heq.
  pose proof (root_zeros_shape _ _ _ Hshape) as HZ.
  destruct (binary_placements PLs mm0 mm1 m g (ncols pl0) Hrect Hm Hs0 Hs1 HZ _ Hbin)
    as [Hlen _].
  destruct (Hlen plm Heq) as [Hl _].
  destruct (binary_paths_nodes _ Hbin) as (Hsub & Hnd & Hdesc & Hmem).
  assert (map skel (iter_descendants t3) = topo_descendants (skel t)) as Hd3.
  { by rewrite topo_descendants_skel, Hsk3. }
  exists plm. rewrite <- nleaves_skel.
  split; [done|]. split; [done|].
  split; [by rewrite <- (length_map skel), Hd3|].
  split; [done|]. split; [done|]. split; [done|]. split; [done|].
  rewrite (binary_paths PLs mm0 mm1 m g (ncols pl0) Hrect Hm Hs0 Hs1 HZ _ Hbin);
    [done | by rewrite is_leaf_skel].
Qed.

(** Over the reals, on a fully binary tree the two passes complete when
    the leaves name samples and no column of the two matrices is zero. *)
Lemma calc_mut_likelihoods_total t PLs mm0 mm1 m g t2 :
  Forall (has_shape m g) PLs -> (0 < m)%nat ->
  positive_columns g mm0 -> positive_columns g mm1 ->
  binary (skel t) -> sids_in_range m (skel t) ->
  populate_tree_PL t PLs mm0 aPL0 = Some t2 ->
  is_Some (calc_mut_likelihoods t2 mm0 mm1).
Proof.
  intros Hrect Hm H0 H1 Hbin Hsid Hpop.
  pose proof H0 as (Hs0 & _).
  pose proof (populate_aggregate PLs mm0 aPL0 t) as Hp. rewrite Hpop in Hp.
  destruct Hp as [[Hsk Hpr] _].
  assert (pruned PL0 PLs mm0 t2) as Hpr2 by exact Hpr.
  destruct (pruned_root _ _ _ _ Hpr2) as [[pl0 E0] Hagg].
  rewrite E0, Hsk in Hagg. symmetry in Hagg.
  pose proof (aggregate_shape m g PLs mm0 (skel t) pl0 Hrect Hm Hs0 Hagg) as Hshape.
  unfold calc_mut_likelihoods. rewrite E0. cbn.
  pose proof (calc_mut_node_placements PLs mm0 mm1 (length pl0) (ncols pl0) t2 Hpr2) as Hc.
  destruct (calc_mut_node _ _ mm0 mm1 t2) as [t3|]; [by eexists|].
  destruct Hc as [Hleaf Hnone]. exfalso.
  rewrite Hsk in Hnone. rewrite <- is_leaf_skel, Hsk in Hleaf.
  destruct Hshape as [Hlen Hrows]. rewrite Hlen in Hnone.
  destruct (placements_Some PLs mm0 mm1 m g (ncols pl0) Hrect Hm H0 H1
              (root_zeros_shape _ _ _ (conj Hlen Hrows)) (skel t) Hbin Hleaf Hsid)
    as [plm Eplm].
  congruence.
Qed.

Lemma mmA0_positive : positive_columns 2 mmA0.
Proof.
  split; [|split].
  - repeat constructor.
  - unfold mmA0. repeat constructor; lra.
  - intros j Hj. destruct j as [|[|j]]; [exists 0%nat | exists 1%nat | lia];
      unfold mget; simpl; lra.
Qed.

Lemma mmA1_positive : positive_columns 2 mmA1.
Proof.
  split; [|split].
  - repeat constructor.
  - unfold mmA1. repeat constructor; lra.
  - intros j Hj. destruct j as [|[|j]]; [exists 1%nat | exists 0%nat | lia];
      unfold mget; simpl; lra.
Qed.

Lemma mmA_positive : positive_columns 2 mmA.
Proof.
  split; [|split].
  - repeat constructor.
  - unfold mmA. repeat constructor; lra.
  - intros j Hj. destruct j as [|[|j]]; [exists 0%nat | exists 1%nat | lia];
      unfold mget; simpl; lra.
Qed.

Lemma C3_placements_binary_witness :
  exists t2 t3 plm,
    populate_tree_PL tree2 PLs2 mmA0 aPL0 = Some t2 /\
    calc_mut_likelihoods t2 mmA0 mmA1 = Some t3 /\
    PLm t3 = Some plm /\ length plm = 2%nat /\
    mapM (placement_at PLs2 mmA0 mmA1 (skel tree2)) [[0%nat]; [1%nat]] = Some plm.
Proof.
  destruct (populate_tree_PL_total tree2 PLs2 mmA0 aPL0 2 2 PLs2_shape
              ltac:(lia) mmA0_positive tree2_sids) as [t2 Ht2].
  destruct (calc_mut_likelihoods_total tree2 PLs2 mmA0 mmA1 2 2 t2 PLs2_shape
              ltac:(lia) mmA0_positive mmA1_positive (conj I I) tree2_sids Ht2) as [t3 Ht3].
  destruct (C3_placements_binary tree2 PLs2 mmA0 mmA1 2 2 t2 t3 PLs2_shape ltac:(lia)
              (proj1 mmA0_positive) (proj1 mmA1_positive) (conj I I) eq_refl Ht2 Ht3)
    as (plm & Hplm & Hlen & _ & _ & _ & _ & _ & Hpaths).
  exists t2, t3, plm. repeat split; done.
Defined.

(** On a single leaf the enumerator attaches no stack at all: the claim
    without the proviso on the root fails there. *)
Lemma C3_single_leaf_counterexample :
  binary (skel leaf0) /\
  exists t2 t3,
    populate_tree_PL leaf0 PLs2 mmA0 aPL0 = Some t2 /\
    calc_mut_likelihoods t2 mmA0 mmA1 = Some t3 /\
    ~ (exists plm, PLm t3 = Some plm /\ length plm = (2 * nleaves leaf0 - 2)%nat).
Proof.
  split; [exact I|].
  exists (Node [0%Z] None (Some [[0; 10]]) None []),
         (Node [0%Z] None (Some [[0; 10]]) None []).
  split; [reflexivity|]. split; [reflexivity|].
  intros (plm & Hplm & _). discriminate Hplm.
Qed.


(** ** [argmin] *)

Lemma argmin_from_spec (pre xs : list R) best bi :
  pre !! bi = Some best ->
  Forall (fun y => best <= y) pre ->
  Forall (fun y => best < y) (take bi pre) ->
  exists x, (pre ++ xs) !! argmin_from best bi (length pre) xs = Some x /\
            Forall (fun y => x <= y) (pre ++ xs) /\
            Forall (fun y => x < y) (take (argmin_from best bi (length pre) xs) (pre ++ xs)).
Proof.
  revert pre best bi. induction xs as [|x xs IH]; intros pre best bi Hb Hle Hlt.
  - simpl. rewrite app_nil_r. by exists best.
  - simpl. pose proof (lookup_lt_Some _ _ _ Hb) as Hbi.
    replace (S (length pre)) with (length (pre ++ [x])) by (rewrite length_app; simpl; lia).
    replace (pre ++ x :: xs) with ((pre ++ [x]) ++ xs) by (by rewrite <- app_assoc).
    destruct (Rlt_dec x best) as [Hx|Hx].
    + replace (length pre) with (length pre + 0)%nat at 1 by lia.
      replace (length (pre ++ [x])) with (length (pre ++ [x])) by done.
      assert ((pre ++ [x]) !! length pre = Some x) as Hnew
        by (by apply list_lookup_middle).
      specialize (IH (pre ++ [x]) x (length pre) Hnew).
      replace (length pre + 0)%nat with (length pre) by lia.
      apply IH.
      * apply Forall_app. split; [|constructor; [lra | constructor]].
        eapply Forall_impl; [exact Hle|]. simpl. intros y Hy. lra.
      * rewrite take_app_length. eapply Forall_impl; [exact Hle|]. simpl. intros y Hy. lra.
    + apply (IH (pre ++ [x]) best bi).
      * by rewrite lookup_app_l.
      * apply Forall_app. split; [done|]. constructor; [lra | constructor].
      * rewrite take_app_le by lia. done.
Qed.

(** [argmin] returns the first index of a least entry. *)
Lemma argmin_spec (xs : list R) i :
  argmin xs = Some i ->
  exists x, xs !! i = Some x /\ Forall (fun y => x <= y) xs /\
            Forall (fun y => x < y) (take i xs).
Proof.
  destruct xs as [|x xs]; [done|]. simpl. intros [= <-].
  destruct (argmin_from_spec [x] xs x 0) as (y & Hy & Hle & Hlt).
  - done.
  - constructor; [lra | constructor].
  - constructor.
  - simpl in *. by exists y.
Qed.

Lemma argmin_lt (xs : list R) i : argmin xs = Some i -> (i < length xs)%nat.
Proof.
  intros H. destruct (argmin_spec xs i H) as (x & Hx & _). by apply lookup_lt_Some in Hx.
Qed.

Lemma argmin_Some (xs : list R) : xs <> [] -> is_Some (argmin xs).
Proof. destruct xs; [done|]. by eexists. Qed.

(** ** Loops, index by index *)

Lemma mapM_lookup_r {A B} (f : A -> option B) l k i y :
  mapM f l = Some k -> k !! i = Some y -> exists x, l !! i = Some x /\ f x = Some y.
Proof. intros H Hy. apply mapM_Some in H. by apply (Forall2_lookup_r _ _ _ _ _ H Hy). Qed.

Lemma mapM_lookup_l {A B} (f : A -> option B) l k i x :
  mapM f l = Some k -> l !! i = Some x -> exists y, k !! i = Some y /\ f x = Some y.
Proof. intros H Hx. apply mapM_Some in H. by apply (Forall2_lookup_l _ _ _ _ _ H Hx). Qed.

Lemma mapM_is_Some_2 {A B} (f : A -> option B) (l : list A) :
  Forall (fun x => is_Some (f x)) l -> is_Some (mapM f l).
Proof.
  induction 1 as [|x l [y Hy] _ [k Hk]]; [by eexists|].
  rewrite mapM_cons_eq, Hy. cbn. rewrite Hk. by eexists.
Qed.

Lemma zipM_is_Some {A B C} (f : A -> B -> option C) xs ys :
  length xs = length ys ->
  (forall i x y, xs !! i = Some x -> ys !! i = Some y -> is_Some (f x y)) ->
  is_Some (zipM f xs ys).
Proof.
  revert ys. induction xs as [|x xs IH]; intros [|y ys] Hl H; simpl in *; try lia.
  - by eexists.
  - destruct (H 0%nat x y eq_refl eq_refl) as [z ->]. cbn.
    destruct (IH ys) as [zs ->]; [lia | | by eexists].
    intros i x' y' Hx Hy. by apply (H (S i)).
Qed.

Lemma mapM_seq_lookup {B} (f : nat -> option B) n k s y :
  mapM f (seq 0 n) = Some k -> k !! s = Some y -> f s = Some y /\ (s < n)%nat.
Proof.
  intros H Hy. destruct (mapM_lookup_r _ _ _ _ _ H Hy) as (x & Hx & Hf).
  apply lookup_seq in Hx as [-> ?]. done.
Qed.

Lemma lookup_map_Some {A B} (h : A -> B) (l : list A) i y :
  map h l !! i = Some y -> exists x, l !! i = Some x /\ y = h x.
Proof.
  rewrite list_lookup_fmap. destruct (l !! i) as [x|]; [|done]. simpl.
  intros [= <-]. by exists x.
Qed.


(** ** The site caller is a loop over the sites *)

Lemma zipM_lookup_lr {A B C} (f : A -> B -> option C) xs ys zs i x y :
  zipM f xs ys = Some zs -> xs !! i = Some x -> ys !! i = Some y ->
  exists z, zs !! i = Some z /\ f x y = Some z.
Proof.
  intros H Hx Hy. destruct (zipM_length _ _ _ _ H) as [L1 L2].
  destruct (lookup_lt_is_Some_2 zs i) as [z Hz].
  { rewrite <- L1. by apply lookup_lt_Some in Hx. }
  destruct (zipM_lookup _ _ _ _ _ _ H Hz) as (x' & y' & Hx' & Hy' & Hf).
  exists z. split; [done|]. congruence.
Qed.

Section Caller.
Context (tree_PL tree_PL0 : list (list R)) (mut_PLs nulls : list (list (list R))).
Context (sids : list string) (vars : list variant).
Context (k0 : list nat) (null_PL : list R) (k1 : list (nat * nat)).
Context (mut_PL : list R) (k2 : list nat).
Context (Hl : length tree_PL = length mut_PLs).
Context (Hl0 : length tree_PL0 = length mut_PLs).
Context (Hk0 : mapM argmin tree_PL0 = Some k0).
Context (Hnpl : zipM (fun (row : list R) (i : nat) => row !! i) tree_PL0 k0 = Some null_PL).
Context (Hk1 : mapM (fun s => idx ← argmin (concat s); unravel_index idx s) mut_PLs
               = Some k1).
Context (Hmpl : zipM (fun (s : list (list R)) (lg : nat * nat) =>
                        row ← s !! lg.1; (row : list R) !! lg.2) mut_PLs k1 = Some mut_PL).
Context (Hk2 : zipM (fun (l s : nat) =>
                       plane ← nulls !! l; row ← (plane : list (list R)) !! s; argmin row)
                    (map fst k1) (seq 0 (length mut_PLs)) = Some k2).

(** With the columns in hand, row [s] of the record array is what
    [site_at] computes. *)
Lemma record_at_site s :
  (s < length mut_PLs)%nat ->
  (forall x, tree_PL !! s = Some x -> is_Some (argmin x)) ->
  record_at vars (P_per_site tree_PL0) (P_per_site tree_PL) (P_per_site3 mut_PLs)
            k0 null_PL (map fst k1) (map snd k1) k2 mut_PL sids s =
  site_at tree_PL tree_PL0 mut_PLs nulls sids vars s.
Proof.
  intros Hs Hk.
  destruct (lookup_lt_is_Some_2 tree_PL s) as [x Ex]; [lia|].
  destruct (lookup_lt_is_Some_2 tree_PL0 s) as [x0 Ex0]; [lia|].
  destruct (lookup_lt_is_Some_2 mut_PLs s) as [xm Exm]; [lia|].
  destruct (Hk x Ex) as [ix Eix].
  destruct (mapM_lookup_l _ _ _ _ _ Hk0 Ex0) as (i0 & Ei0 & Ea0).
  destruct (zipM_lookup_lr _ _ _ _ _ _ _ Hnpl Ex0 Ei0) as (npl & Enpl & Hnpl').
  destruct (mapM_lookup_l _ _ _ _ _ Hk1 Exm) as (lg & Elg & Ha1).
  apply bind_Some in Ha1 as (idx & Eidx & Eun).
  destruct (zipM_lookup_lr _ _ _ _ _ _ _ Hmpl Exm Elg) as (mpl & Empl & Hmpl').
  apply bind_Some in Hmpl' as (rowl & Erowl & Empl').
  assert (map fst k1 !! s = Some lg.1) as El by (by rewrite list_lookup_fmap, Elg).
  assert (map snd k1 !! s = Some lg.2) as Eg by (by rewrite list_lookup_fmap, Elg).
  assert (seq 0 (length mut_PLs) !! s = Some s) as Es by (by apply lookup_seq_lt).
  destruct (zipM_lookup_lr _ _ _ _ _ _ _ Hk2 El Es) as (i2 & Ei2 & Hk2').
  apply bind_Some in Hk2' as (plane & Eplane & Hk2').
  apply bind_Some in Hk2' as (row & Erow & Ea2).
  unfold record_at, site_at, call_site.
  rewrite Ei0, Enpl, Eg, Ei2, Empl, El.
  unfold P_per_site, P_per_site3.
  rewrite !list_lookup_fmap, Ex, Ex0, Exm.
  cbn [fmap option_fmap option_map mbind option_bind].
  rewrite Eix. cbn [mbind option_bind].
  destruct (vars !! s) as [var|]; cbn [mbind option_bind]; [|done].
  rewrite Ea0. cbn [mbind option_bind]. rewrite Hnpl'. cbn [mbind option_bind].
  rewrite Eidx. cbn [mbind option_bind]. rewrite Eun. cbn [mbind option_bind].
  rewrite Erowl. cbn [mbind option_bind]. rewrite Empl'. cbn [mbind option_bind].
  rewrite Eplane. cbn [mbind option_bind]. rewrite Erow. cbn [mbind option_bind].
  rewrite Ea2. cbn [mbind option_bind]. done.
Qed.

End Caller.

(** What a successful [site_at] went through. *)
Lemma site_at_inv tree_PL tree_PL0 mut_PLs nulls sids vars s r :
  site_at tree_PL tree_PL0 mut_PLs nulls sids vars s = Some r ->
  exists x ix x0 xm var i0 npl idx lg rowl mpl plane row i2 g_k0 g_k1g g_k2 smpl,
    tree_PL !! s = Some x /\ argmin x = Some ix /\
    tree_PL0 !! s = Some x0 /\ mut_PLs !! s = Some xm /\ vars !! s = Some var /\
    argmin x0 = Some i0 /\ x0 !! i0 = Some npl /\
    argmin (concat xm) = Some idx /\ unravel_index idx xm = Some lg /\
    xm !! lg.1 = Some rowl /\ rowl !! lg.2 = Some mpl /\
    nulls !! lg.1 = Some plane /\ plane !! s = Some row /\ argmin row = Some i2 /\
    GTYPE10 !! i0 = Some g_k0 /\ GTYPE10 !! lg.2 = Some g_k1g /\
    GTYPE10 !! i2 = Some g_k2 /\ sids !! lg.1 = Some smpl /\
    r = make_record var (Rsum (phred2p_v x0)) (Rsum (phred2p_v x))
                    (Rsum (map (fun row => Rsum (phred2p_v row)) xm))
                    g_k0 npl g_k1g g_k2 mpl lg.1 smpl.
Proof.
  unfold site_at, call_site. intros H.
  apply bind_Some in H as (x & Ex & H). apply bind_Some in H as (ix & Eix & H).
  apply bind_Some in H as (x0 & Ex0 & H). apply bind_Some in H as (xm & Exm & H).
  apply bind_Some in H as (var & Evar & H). apply bind_Some in H as (i0 & Ei0 & H).
  apply bind_Some in H as (npl & Enpl & H). apply bind_Some in H as (idx & Eidx & H).
  apply bind_Some in H as (lg & Elg & H). apply bind_Some in H as (rowl & Erowl & H).
  apply bind_Some in H as (mpl & Empl & H). apply bind_Some in H as (plane & Eplane & H).
  apply bind_Some in H as (row & Erow & H). apply bind_Some in H as (i2 & Ei2 & H).
  apply bind_Some in H as (g_k0 & Eg0 & H). apply bind_Some in H as (g_k1g & Eg1 & H).
  apply bind_Some in H as (g_k2 & Eg2 & H). apply bind_Some in H as (smpl & Esm & H).
  injection H as <-.
  exists x, ix, x0, xm, var, i0, npl, idx, lg, rowl, mpl, plane, row, i2, g_k0, g_k1g,
         g_k2, smpl.
  repeat (split; [done|]). done.
Qed.

(** The vectorised caller and the loop over the sites agree, when the
    three arrays are over the same sites. *)
Lemma call_sites_by_site_eq tree_PL tree_PL0 mut_PLs nulls_o sids vars :
  length tree_PL = length mut_PLs -> length tree_PL0 = length mut_PLs ->
  call_sites tree_PL tree_PL0 mut_PLs nulls_o sids vars =
  call_sites_by_site tree_PL tree_PL0 mut_PLs nulls_o sids vars.
Proof.
  intros Hl Hl0.
  destruct (call_sites tree_PL tree_PL0 mut_PLs nulls_o sids vars) as [res|] eqn:E.
  - unfold call_sites in E. cbv zeta in E.
    apply bind_Some in E as (k & Hk & E). apply bind_Some in E as (k0 & Hk0 & E).
    apply bind_Some in E as (null_PL & Hnpl & E). apply bind_Some in E as (k1 & Hk1 & E).
    apply bind_Some in E as (h1 & Hh1 & E). apply bind_Some in E as (mut_PL & Hmpl & E).
    apply bind_Some in E as (nulls & Hnulls & E). apply bind_Some in E as (k2 & Hk2 & E).
    apply bind_Some in E as (recs & Hrecs & E). apply bind_Some in E as (scores & Hsc & E).
    injection E as <-.
    unfold call_sites_by_site. rewrite Hnulls. cbn [mbind option_bind].
    assert (is_Some (head mut_PLs)) as [h Hh].
    { pose proof (length_mapM _ _ _ Hk1) as L. destruct mut_PLs; [|by eexists].
      destruct k1; [done | simpl in L; lia]. }
    rewrite Hh. cbn [mbind option_bind].
    assert (Forall (fun s =>
              record_at vars (P_per_site tree_PL0) (P_per_site tree_PL) (P_per_site3 mut_PLs)
                        k0 null_PL (map fst k1) (map snd k1) k2 mut_PL sids s =
              site_at tree_PL tree_PL0 mut_PLs nulls sids vars s)
              (seq 0 (length mut_PLs))) as Hext.
    { apply Forall_forall. intros s Hs. apply elem_of_seq in Hs.
      apply (record_at_site tree_PL tree_PL0 mut_PLs nulls sids vars k0 null_PL k1 mut_PL k2
               Hl Hl0 Hk0 Hnpl Hk1 Hmpl Hk2); [lia|].
      intros x Ex. destruct (mapM_lookup_l _ _ _ _ _ Hk Ex) as (ix & _ & Eix).
      by exists ix. }
    rewrite <- (mapM_ext_in _ _ _ Hext).
    rewrite Hrecs. cbn [mbind option_bind]. rewrite Hsc. done.
  - symmetry. destruct (call_sites_by_site _ _ _ _ _ _) as [res|] eqn:E2; [|done]. exfalso.
    unfold call_sites_by_site in E2.
    apply bind_Some in E2 as (nulls & Hnulls & E2). apply bind_Some in E2 as (h & Hh & E2).
    apply bind_Some in E2 as (recs & Hrecs & E2). apply bind_Some in E2 as (scores & Hsc & E2).
    assert (forall s, (s < length mut_PLs)%nat ->
              exists r, site_at tree_PL tree_PL0 mut_PLs nulls sids vars s = Some r) as Hsite.
    { intros s Hs.
      destruct (mapM_lookup_l _ _ _ s s Hrecs (lookup_seq_lt _ _ _ Hs)) as (r & _ & Hr).
      by exists r. }
    (* the columns *)
    assert (is_Some (mapM argmin tree_PL)) as [k Hk].
    { apply mapM_is_Some_2, Forall_lookup. intros s x Ex.
      destruct (Hsite s) as [r Hr]; [apply lookup_lt_Some in Ex; lia|].
      apply site_at_inv in Hr as (x' & ix & ? & ? & ? & ? & ? & ? & ? & ? & ? & ? & ? & ? & ?
        & ? & ? & ? & Ex' & Eix & _). exists ix. congruence. }
    assert (is_Some (mapM argmin tree_PL0)) as [k0 Hk0].
    { apply mapM_is_Some_2, Forall_lookup. intros s x Ex.
      destruct (Hsite s) as [r Hr]; [apply lookup_lt_Some in Ex; lia|].
      apply site_at_inv in Hr as (? & ? & x0 & ? & ? & i0 & ? & ? & ? & ? & ? & ? & ? & ? & ?
        & ? & ? & ? & _ & _ & Ex0 & _ & _ & Ei0 & _). exists i0. congruence. }
    assert (is_Some (zipM (fun (row : list R) (i : nat) => row !! i) tree_PL0 k0))
      as [null_PL Hnpl].
    { apply zipM_is_Some; [by apply length_mapM in Hk0|].
      intros s x i Ex Ei.
      destruct (Hsite s) as [r Hr]; [apply lookup_lt_Some in Ex; lia|].
      apply site_at_inv in Hr as (? & ? & x0 & ? & ? & i0 & npl & ? & ? & ? & ? & ? & ? & ? & ?
        & ? & ? & ? & _ & _ & Ex0 & _ & _ & Ei0 & Enpl & _).
      destruct (mapM_lookup_l _ _ _ _ _ Hk0 Ex) as (i' & Ei' & Ea).
      exists npl. congruence. }
    assert (is_Some (mapM (fun s => idx ← argmin (concat s); unravel_index idx s) mut_PLs))
      as [k1 Hk1].
    { apply mapM_is_Some_2, Forall_lookup. intros s x Ex.
      destruct (Hsite s) as [r Hr]; [by apply lookup_lt_Some in Ex|].
      apply site_at_inv in Hr as (? & ? & ? & xm & ? & ? & ? & idx & lg & ? & ? & ? & ? & ? & ?
        & ? & ? & ? & _ & _ & _ & Exm & _ & _ & _ & Eidx & Elg & _).
      exists lg. assert (x = xm) as -> by congruence. rewrite Eidx. done. }
    pose proof (length_mapM _ _ _ Hk1) as Lk1.
    assert (is_Some (head k1)) as [h1 Hh1].
    { destruct k1; [|by eexists]. destruct mut_PLs; [done | simpl in Lk1; lia]. }
    assert (is_Some (zipM (fun (s : list (list R)) (lg : nat * nat) =>
                             row ← s !! lg.1; (row : list R) !! lg.2) mut_PLs k1))
      as [mut_PL Hmpl].
    { apply zipM_is_Some; [done|]. intros s x lg' Ex Elg'.
      destruct (Hsite s) as [r Hr]; [by apply lookup_lt_Some in Ex|].
      apply site_at_inv in Hr as (? & ? & ? & xm & ? & ? & ? & idx & lg & rowl & mpl & ? & ? & ?
        & ? & ? & ? & ? & _ & _ & _ & Exm & _ & _ & _ & Eidx & Elg & Erowl & Empl & _).
      destruct (mapM_lookup_l _ _ _ _ _ Hk1 Ex) as (lg'' & Elg'' & Ha).
      assert (x = xm) as -> by congruence. rewrite Eidx in Ha. cbn in Ha.
      assert (lg' = lg) as -> by congruence.
      exists mpl. rewrite Erowl. done. }
    assert (is_Some (zipM (fun (l s : nat) =>
                             plane ← nulls !! l; row ← (plane : list (list R)) !! s;
                             argmin row)
                          (map fst k1) (seq 0 (length mut_PLs)))) as [k2 Hk2].
    { apply zipM_is_Some; [by rewrite length_map, length_seq|]. intros s l s' El Es'.
      apply lookup_seq in Es' as [-> Hs]. simpl.
      destruct (Hsite s Hs) as [r Hr].
      apply site_at_inv in Hr as (? & ? & ? & xm & ? & ? & ? & idx & lg & rowl & mpl & plane
        & row & i2 & ? & ? & ? & ? & _ & _ & _ & Exm & _ & _ & _ & Eidx & Elg & _ & _
        & Eplane & Erow & Ei2 & _).
      destruct (mapM_lookup_l _ _ _ _ _ Hk1 Exm) as (lg' & Elg' & Ha).
      rewrite Eidx in Ha. cbn in Ha.
      apply lookup_map_Some in El as (lg'' & Elg'' & ->).
      assert (lg'' = lg) as -> by congruence.
      exists i2. rewrite Eplane. cbn. rewrite Erow. done. }
    unfold call_sites in E. cbv zeta in E.
    rewrite Hk, Hk0 in E. cbn [mbind option_bind] in E.
    rewrite Hnpl, Hk1 in E. cbn [mbind option_bind] in E.
    rewrite Hh1, Hmpl, Hnulls in E. cbn [mbind option_bind] in E.
    rewrite Hk2 in E. cbn [mbind option_bind] in E.
    assert (Forall (fun s =>
              record_at vars (P_per_site tree_PL0) (P_per_site tree_PL) (P_per_site3 mut_PLs)
                        k0 null_PL (map fst k1) (map snd k1) k2 mut_PL sids s =
              site_at tree_PL tree_PL0 mut_PLs nulls sids vars s)
              (seq 0 (length mut_PLs))) as Hext.
    { apply Forall_forall. intros s Hs. apply elem_of_seq in Hs.
      apply (record_at_site tree_PL tree_PL0 mut_PLs nulls sids vars k0 null_PL k1 mut_PL k2
               Hl Hl0 Hk0 Hnpl Hk1 Hmpl Hk2); [lia|].
      intros x Ex. destruct (mapM_lookup_l _ _ _ _ _ Hk Ex) as (ix & _ & Eix).
      by exists ix. }
    rewrite (mapM_ext_in _ _ _ Hext) in E.
    rewrite Hrecs in E. cbn [mbind option_bind] in E. rewrite Hsc in E. done.
Qed.


(** ** [genotype] on the topology *)

(** With no descendant to look up ([tree] a single leaf), line 167 raises
    on the first site. *)
Lemma call_sites_no_descendants tree_PL tree_PL0 mut_PLs sids vars :
  call_sites tree_PL tree_PL0 mut_PLs (Some []) sids vars = None.
Proof.
  unfold call_sites. cbv zeta.
  destruct (mapM argmin tree_PL); cbn [mbind option_bind]; [|done].
  destruct (mapM argmin tree_PL0); cbn [mbind option_bind]; [|done].
  destruct (zipM _ tree_PL0 _); cbn [mbind option_bind]; [|done].
  destruct (mapM _ mut_PLs) as [k1|] eqn:Hk1; cbn [mbind option_bind]; [|done].
  destruct (head k1) as [h|] eqn:Hh; cbn [mbind option_bind]; [|done].
  destruct (zipM _ mut_PLs k1); cbn [mbind option_bind]; [|done].
  apply length_mapM in Hk1. destruct k1 as [|lg k1]; [done|].
  destruct mut_PLs as [|xm mut_PLs]; [done|]. simpl. done.
Qed.

Lemma pruned_descendants PLs mm0 t :
  pruned PL0 PLs mm0 t ->
  mapM PL0 (iter_descendants t) = mapM (aggregate PLs mm0) (topo_descendants (skel t)).
Proof.
  intros Hp. rewrite <- topo_descendants_skel, mapM_map_eq.
  apply mapM_ext_in. unfold pruned in Hp. rewrite traverse_postorder_unfold in Hp.
  apply Forall_app in Hp as [Hp _]. unfold iter_descendants.
  eapply Forall_impl; [exact Hp|]. simpl. by intros node [_ ->].
Qed.

Lemma sids_descendants t :
  map (fun node => join_sid (sid node)) (iter_descendants t) =
  map (fun node => join_sid (t_sid node)) (topo_descendants (skel t)).
Proof.
  rewrite <- topo_descendants_skel, map_map. apply map_ext. by intros [].
Qed.

Theorem genotype_on_topology PLs t vars mm mm0 mm1 prior :
  genotype PLs t vars mm mm0 mm1 prior = genotype_v PLs (skel t) vars mm mm0 mm1 prior.
Proof.
  unfold genotype, genotype_v.
  pose proof (populate_aggregate PLs mm aPL t) as Hp1.
  destruct (populate_tree_PL t PLs mm aPL) as [t1|]; cbn [mbind option_bind]; cycle 1.
  { by rewrite Hp1. }
  destruct Hp1 as [[Hsk1 Hpr1] _].
  destruct (pruned_root _ _ _ _ Hpr1) as [[pl Epl] Hagg1]. simpl in Epl, Hagg1.
  rewrite Epl, Hsk1 in Hagg1. rewrite Epl, <- Hagg1. cbn [mbind option_bind].
  destruct (madd_vec pl prior) as [tree_PL|]; cbn [mbind option_bind]; [|done].
  pose proof (populate_aggregate PLs mm0 aPL0 t1) as Hp2.
  destruct (populate_tree_PL t1 PLs mm0 aPL0) as [t2|]; cbn [mbind option_bind]; cycle 1.
  { by rewrite <- Hsk1, Hp2. }
  destruct Hp2 as [[Hsk2 Hpr2] _].
  assert (pruned PL0 PLs mm0 t2) as Hpr2' by exact Hpr2.
  destruct (pruned_root _ _ _ _ Hpr2') as [[pl0 Epl0] Hagg2].
  rewrite Epl0, Hsk2, Hsk1 in Hagg2. rewrite Epl0, <- Hagg2. cbn [mbind option_bind].
  destruct (madd_vec pl0 prior) as [tree_PL0|]; cbn [mbind option_bind]; [|done].
  unfold calc_mut_likelihoods. rewrite Epl0. cbn [mbind option_bind].
  pose proof (calc_mut_node_placements PLs mm0 mm1 (length pl0) (ncols pl0) t2 Hpr2') as Hc.
  rewrite Hsk2, Hsk1 in Hc.
  destruct (is_leaf t2) eqn:Hleaf.
  - (* a single leaf *)
    rewrite calc_mut_node_unfold, Hleaf in Hc |- *. cbn [mbind option_bind].
    rewrite placements_unfold, <- Hsk1, <- Hsk2, is_leaf_skel, Hleaf.
    cbn [mbind option_bind].
    destruct (PLm t2) as [plm|]; cbn [mbind option_bind]; [|done].
    destruct (mapM _ (swapaxes01 plm)); cbn [mbind option_bind]; [|done].
    assert (iter_descendants t2 = []) as ->.
    { unfold iter_descendants. destruct t2 as [? ? ? ? [|? ?]]; done. }
    apply call_sites_no_descendants.
  - destruct (calc_mut_node _ _ mm0 mm1 t2) as [t3|]; cbn [mbind option_bind]; cycle 1.
    { destruct Hc as [_ ->]. done. }
    destruct Hc as (Hsk3 & Hpr3 & _ & Hplm). destruct (Hplm Hleaf) as [[plm Eplm] Hpl].
    rewrite Eplm, Hsk2, Hsk1 in Hpl. rewrite Eplm, <- Hpl. cbn [mbind option_bind].
    destruct (mapM _ (swapaxes01 plm)) as [mut_PLs|]; cbn [mbind option_bind]; [|done].
    rewrite (pruned_descendants PLs mm0 t3 Hpr3), sids_descendants, Hsk3, Hsk2, Hsk1.
    done.
Qed.


(** ** Every array of the run has one row per site *)

Lemma foldlM_invariant {A B} (I : B -> Prop) (f : B -> A -> option B) l b b' :
  (forall b x b', I b -> f b x = Some b' -> I b') ->
  I b -> foldlM f b l = Some b' -> I b'.
Proof.
  intros Hstep. revert b. induction l as [|x l IH]; intros b Hb H; simpl in H.
  - by simplify_eq.
  - destruct (f b x) as [b1|] eqn:E; [|done]. cbn in H. eauto.
Qed.

Lemma length_zeros2 n g : length (zeros2 n g) = n.
Proof. apply length_replicate. Qed.

Lemma madd_rows_length a b r : madd_rows a b = Some r -> length r = length a.
Proof. intros H. by destruct (zipM_length _ _ _ _ H) as [-> _]. Qed.

Lemma aggregate_length PLs mm s v :
  aggregate PLs mm s = Some v -> length v = length PLs.
Proof.
  rewrite aggregate_unfold. destruct (topo_leaf s).
  - destruct (head (t_sid s)); [|done]. cbn. intros H. by apply length_mapM in H.
  - destruct (mapM _ (t_children s)) as [vals|]; [|done]. cbn. intros H.
    refine (foldlM_invariant (fun acc => length acc = length PLs) _ _ _ _ _ _ H).
    + intros acc cv acc' Hacc Hs. destruct (transition cv mm) as [y|]; [|done].
      cbn in Hs. apply madd_rows_length in Hs. congruence.
    + apply length_zeros2.
Qed.

Lemma madd_vec_length a v r : madd_vec a v = Some r -> length r = length a.
Proof. intros H. by apply length_mapM in H. Qed.

Lemma assign_mat_length old new r : assign_mat old new = Some r -> length r = length old.
Proof. intros H. by destruct (zipM_length _ _ _ _ H) as [-> _]. Qed.

Lemma assign_slice_rows n arr i l x r :
  Forall (fun p : list (list R) => length p = n) arr ->
  assign_slice arr i l x = Some r ->
  length r = length arr /\ Forall (fun p : list (list R) => length p = n) r.
Proof.
  intros Harr. unfold assign_slice. cbv zeta.
  set (target := take l (drop i arr)).
  assert (Forall (fun p : list (list R) => length p = n) target) as Ht.
  { by apply Forall_take, Forall_drop. }
  intros H. apply bind_Some in H as (new & Hnew & [= <-]).
  assert (Forall2 (fun (old nw : list (list R)) => length nw = length old) target new) as H2.
  { destruct (length x =? length target)%nat.
    - apply Forall2_same_length_lookup_2.
      + destruct (zipM_length _ _ _ _ Hnew). lia.
      + intros k old nw Ho Hn. destruct (zipM_lookup _ _ _ _ _ _ Hnew Hn) as (o & y & Ho' & _ & Hy).
        assert (o = old) as -> by congruence. by apply assign_mat_length in Hy.
    - destruct (length x =? 1)%nat; [|done]. apply mapM_Some in Hnew.
      eapply Forall2_impl; [exact Hnew|]. simpl. intros old nw Hy.
      by apply assign_mat_length in Hy. }
  split.
  - rewrite !length_app, length_take, length_drop.
    rewrite <- (Forall2_length _ _ _ H2). unfold target.
    rewrite length_take, length_drop. lia.
  - rewrite !Forall_app. split_and!; [by apply Forall_take| |by apply Forall_drop].
    clear Hnew. induction H2 as [|old nw ? ? Hl _ IH]; [done|].
    apply Forall_cons in Ht as [Ho Ht]. constructor; [congruence | by apply IH].
Qed.

Lemma assign_index_rows n arr i x r :
  Forall (fun p : list (list R) => length p = n) arr ->
  assign_index arr i x = Some r ->
  length r = length arr /\ Forall (fun p : list (list R) => length p = n) r.
Proof.
  intros Harr H. unfold assign_index in H.
  apply bind_Some in H as (old & Ho & H). apply bind_Some in H as (new & Hn & [= <-]).
  split; [by rewrite length_insert|].
  apply Forall_insert; [done|]. apply assign_mat_length in Hn.
  rewrite Hn. by apply (Forall_lookup_1 _ _ _ _ Harr Ho).
Qed.

Lemma place_view_rows n mm0 mm1 cs plm i k plm' i' :
  Forall (fun p : list (list R) => length p = n) plm ->
  place_view mm0 mm1 cs (plm, i) k = Some (plm', i') ->
  length plm' = length plm /\ Forall (fun p : list (list R) => length p = n) plm'.
Proof.
  intros Hplm H. unfold place_view in H.
  apply bind_Some in H as (child & _ & H). apply bind_Some in H as (sister & _ & H).
  apply bind_Some in H as (s0 & _ & H). apply bind_Some in H as (fs & _ & H).
  apply bind_Some in H as ([plm1 i1] & H1 & H).
  assert (length plm1 = length plm /\ Forall (fun p : list (list R) => length p = n) plm1)
    as [L1 F1].
  { destruct (v_leaf child); [by simplify_eq|].
    apply bind_Some in H1 as (cp & _ & H1). cbv zeta in H1.
    apply bind_Some in H1 as (below & _ & H1). apply bind_Some in H1 as (rhs & _ & H1).
    apply bind_Some in H1 as (p & Hp & [= <- <-]).
    by apply (assign_slice_rows n) in Hp. }
  apply bind_Some in H as (c0 & _ & H). apply bind_Some in H as (here & _ & H).
  apply bind_Some in H as (rhs & _ & H). apply bind_Some in H as (p & Hp & [= <- <-]).
  apply (assign_index_rows n) in Hp as [L2 F2]; [|done]. split; [congruence|done].
Qed.

Lemma placements_rows PLs mm0 mm1 n g s plm :
  placements PLs mm0 mm1 n g s = Some plm ->
  length plm = (2 * topo_nleaves s - 2)%nat /\
  Forall (fun p : list (list R) => length p = n) plm.
Proof.
  rewrite placements_unfold. destruct (topo_leaf s); [done|]. cbv zeta.
  intros H. apply bind_Some in H as ([p j] & H & [= <-]).
  refine (foldlM_invariant
            (fun st : list (list (list R)) * nat =>
               length st.1 = (2 * topo_nleaves s - 2)%nat /\
               Forall (fun p : list (list R) => length p = n) st.1) _ _ _ (p, j) _ _ H).
  - intros [b ib] k [b' ib'] [Lb Fb] Hs. simpl in *.
    destruct (place_view_rows n _ _ _ _ _ _ _ _ Fb Hs). split; [congruence|done].
  - simpl. unfold zeros3. rewrite length_replicate. split; [done|].
    apply Forall_replicate, length_zeros2.
Qed.

Lemma length_swapaxes01 (a : list (list (list R))) :
  length (swapaxes01 a) = length (hd [] a).
Proof. unfold swapaxes01. by rewrite length_map, length_seq. Qed.

Lemma call_sites_no_site tree_PL tree_PL0 nulls sids vars :
  call_sites tree_PL tree_PL0 [] nulls sids vars = None.
Proof.
  unfold call_sites. cbv zeta.
  destruct (mapM argmin tree_PL); cbn [mbind option_bind]; [|done].
  destruct (mapM argmin tree_PL0); cbn [mbind option_bind]; [|done].
  by destruct (zipM _ tree_PL0 _).
Qed.

Lemma call_sites_by_site_no_site tree_PL tree_PL0 nulls sids vars :
  call_sites_by_site tree_PL tree_PL0 [] nulls sids vars = None.
Proof. unfold call_sites_by_site. by destruct nulls. Qed.

(** The run, site by site. *)
Lemma genotype_by_site PLs t vars mm mm0 mm1 prior :
  genotype PLs t vars mm mm0 mm1 prior =
  (pl ← aggregate PLs mm (skel t);
   tree_PL ← madd_vec pl prior;
   pl0 ← aggregate PLs mm0 (skel t);
   tree_PL0 ← madd_vec pl0 prior;
   plm ← placements PLs mm0 mm1 (length pl0) (ncols pl0) (skel t);
   mut_PLs ← mapM (mapM (fun v => vadd_into v prior)) (swapaxes01 plm);
   call_sites_by_site tree_PL tree_PL0 mut_PLs
     (mapM (aggregate PLs mm0) (topo_descendants (skel t)))
     (map (fun node => join_sid (t_sid node)) (topo_descendants (skel t)))
     vars).
Proof.
  rewrite genotype_on_topology. unfold genotype_v.
  destruct (aggregate PLs mm (skel t)) as [pl|] eqn:Epl; cbn [mbind option_bind]; [|done].
  destruct (madd_vec pl prior) as [tree_PL|] eqn:Et; cbn [mbind option_bind]; [|done].
  destruct (aggregate PLs mm0 (skel t)) as [pl0|] eqn:Epl0; cbn [mbind option_bind]; [|done].
  destruct (madd_vec pl0 prior) as [tree_PL0|] eqn:Et0; cbn [mbind option_bind]; [|done].
  destruct (placements _ _ _ _ _ _) as [plm|] eqn:Eplm; cbn [mbind option_bind]; [|done].
  destruct (mapM _ (swapaxes01 plm)) as [mut_PLs|] eqn:Em; cbn [mbind option_bind]; [|done].
  apply aggregate_length in Epl, Epl0. apply madd_vec_length in Et, Et0.
  apply placements_rows in Eplm as [_ Hrows]. apply length_mapM in Em.
  rewrite length_swapaxes01 in Em.
  destruct plm as [|p0 plm].
  { destruct mut_PLs; [|done].
    by rewrite call_sites_no_site, call_sites_by_site_no_site. }
  apply Forall_cons in Hrows as [Hp0 _]. simpl in Em.
  apply call_sites_by_site_eq; congruence.
Qed.


(** ** What a successful run went through *)

Lemma genotype_inv PLs t vars mm mm0 mm1 prior res :
  genotype PLs t vars mm mm0 mm1 prior = Some res ->
  exists t1 t2 t3 pl pl0 plm tree_PL tree_PL0 mut_PLs nulls,
    populate_tree_PL t PLs mm aPL = Some t1 /\ PL t1 = Some pl /\
    madd_vec pl prior = Some tree_PL /\
    populate_tree_PL t1 PLs mm0 aPL0 = Some t2 /\ PL0 t2 = Some pl0 /\
    madd_vec pl0 prior = Some tree_PL0 /\
    calc_mut_likelihoods t2 mm0 mm1 = Some t3 /\ PLm t3 = Some plm /\
    mapM (mapM (fun v => vadd_into v prior)) (swapaxes01 plm) = Some mut_PLs /\
    skel t3 = skel t /\ pruned PL0 PLs mm0 t3 /\
    length tree_PL = length PLs /\ length tree_PL0 = length PLs /\
    length mut_PLs = length PLs /\
    mapM PL0 (iter_descendants t3) = Some nulls /\
    call_sites_by_site tree_PL tree_PL0 mut_PLs (Some nulls)
      (map (fun node => join_sid (sid node)) (iter_descendants t3)) vars = Some res.
Proof.
  unfold genotype. intros H.
  apply bind_Some in H as (t1 & Ht1 & H). apply bind_Some in H as (pl & Hpl & H).
  apply bind_Some in H as (tree_PL & Htp & H). apply bind_Some in H as (t2 & Ht2 & H).
  apply bind_Some in H as (pl0 & Hpl0 & H). apply bind_Some in H as (tree_PL0 & Htp0 & H).
  apply bind_Some in H as (t3 & Ht3 & H). apply bind_Some in H as (plm & Hplm & H).
  apply bind_Some in H as (mut_PLs & Hm & H).
  pose proof (populate_aggregate PLs mm aPL t) as Hp1. rewrite Ht1 in Hp1.
  destruct Hp1 as [[Hsk1 Hpr1] _].
  destruct (pruned_root _ _ _ _ Hpr1) as [_ Hagg1]. simpl in Hagg1. rewrite Hpl in Hagg1.
  pose proof (populate_aggregate PLs mm0 aPL0 t1) as Hp2. rewrite Ht2 in Hp2.
  destruct Hp2 as [[Hsk2 Hpr2] _].
  assert (pruned PL0 PLs mm0 t2) as Hpr2' by exact Hpr2.
  destruct (pruned_root _ _ _ _ Hpr2') as [_ Hagg2]. rewrite Hpl0 in Hagg2.
  unfold calc_mut_likelihoods in Ht3. rewrite Hpl0 in Ht3. cbn [mbind option_bind] in Ht3.
  pose proof (calc_mut_node_placements PLs mm0 mm1 (length pl0) (ncols pl0) t2 Hpr2') as Hc.
  rewrite Ht3 in Hc. destruct Hc as (Hsk3 & Hpr3 & _ & Hpm).
  destruct (mapM PL0 (iter_descendants t3)) as [nulls|] eqn:Hn; cycle 1.
  { unfold call_sites in H. cbv zeta in H.
    repeat (apply bind_Some in H as (? & ? & H)). congruence. }
  destruct (is_leaf t2) eqn:Hleaf.
  { rewrite calc_mut_node_unfold, Hleaf in Ht3. injection Ht3 as <-.
    assert (iter_descendants t2 = []) as E.
    { unfold iter_descendants. destruct t2 as [? ? ? ? [|? ?]]; done. }
    rewrite E in H, Hn. injection Hn as <-.
    by rewrite call_sites_no_descendants in H. }
  destruct (Hpm eq_refl) as [_ Epm]. rewrite Hplm in Epm.
  symmetry in Hagg1, Hagg2, Epm.
  apply aggregate_length in Hagg1, Hagg2. apply placements_rows in Epm as [_ Hrows].
  pose proof (madd_vec_length _ _ _ Htp) as L1.
  pose proof (madd_vec_length _ _ _ Htp0) as L2.
  pose proof (length_mapM _ _ _ Hm) as L3. rewrite length_swapaxes01 in L3.
  destruct plm as [|p0 plm].
  { destruct mut_PLs; [|done]. by rewrite call_sites_no_site in H. }
  apply Forall_cons in Hrows as [Hp0 _]. simpl in L3.
  rewrite call_sites_by_site_eq in H by congruence.
  exists t1, t2, t3, pl, pl0, (p0 :: plm), tree_PL, tree_PL0, mut_PLs, nulls.
  split_and!; try done; try congruence.
  unfold calc_mut_likelihoods. by rewrite Hpl0.
Qed.

(** What a successful caller returns: one record per site, in order. *)
Lemma call_sites_by_site_inv tree_PL tree_PL0 mut_PLs nulls sids vars records score :
  call_sites_by_site tree_PL tree_PL0 mut_PLs (Some nulls) sids vars = Some (records, score) ->
  mut_PLs <> [] /\
  length records = length mut_PLs /\
  (forall s r, records !! s = Some r ->
     site_at tree_PL tree_PL0 mut_PLs nulls sids vars s = Some r) /\
  Forall (fun r => 0 < mut_p r + null_p r) records /\
  score = Rsum (map (fun r => PhredOf (mut_p r + null_p r)) records).
Proof.
  unfold call_sites_by_site. cbn [mbind option_bind]. intros H.
  apply bind_Some in H as (h & Hh & H). apply bind_Some in H as (recs & Hr & H).
  apply bind_Some in H as (scores & Hs & [= <- <-]).
  split; [by destruct mut_PLs|]. split.
  { apply length_mapM in Hr. by rewrite length_seq in Hr. }
  split.
  { intros s r Hsr. by destruct (mapM_seq_lookup _ _ _ _ _ Hr Hsr). }
  apply mapM_Some in Hs. clear Hr.
  induction Hs as [|r sc recs scores Hsc _ [IH1 IH2]]; [done|].
  apply p2phred_inv in Hsc as [Hpos ->]. split; [by constructor|].
  simpl. unfold PhredOf at 1. by rewrite IH2.
Qed.

Lemma fixed_width_gtype i g : GTYPE10 !! i = Some g -> fixed_width 2 g = g.
Proof.
  do 10 (destruct i as [|i]; [by intros [= <-]|]). done.
Qed.


(** ** The run cannot raise on well-shaped input *)

Lemma aggregate_descendants PLs mm s :
  is_Some (aggregate PLs mm s) ->
  Forall (fun d => is_Some (aggregate PLs mm d)) (topo_postorder s).
Proof.
  induction s as [sd cs IH] using topo_ind. intros Hs.
  rewrite topo_postorder_unfold. apply Forall_app. split; [|by constructor].
  simpl. rewrite aggregate_unfold in Hs. destruct (topo_leaf (Topo sd cs)) eqn:El.
  { destruct cs; [constructor | done]. }
  simpl in Hs. destruct (mapM (aggregate PLs mm) cs) as [vals|] eqn:Ev; [|by destruct Hs].
  apply mapM_Some in Ev. apply Forall_concat, Forall_fmap.
  clear Hs El. induction Ev as [|c v cs vals Hc _ IHv]; [constructor|].
  apply Forall_cons in IH as [IHc IH]. constructor; [|by apply IHv].
  simpl. apply IHc. by rewrite Hc.
Qed.

Lemma madd_vec_shape n g (a : list (list R)) (v : list R) :
  has_shape n g a -> length v = g ->
  exists r, madd_vec a v = Some r /\ has_shape n g r.
Proof.
  intros [La Ra] Lv. unfold madd_vec. revert n La.
  induction Ra as [|row a Hrow _ IH]; intros n La.
  { exists []. split; [done|]. split; [done|constructor]. }
  simpl in La. destruct (IH (length a) eq_refl) as (r & Hr & [Lr Rr]).
  rewrite mapM_cons_eq, vadd_same, Hr by congruence. cbn.
  eexists. split; [done|]. split; [simpl; lia|].
  constructor; [|done]. rewrite length_zip_with. lia.
Qed.

Lemma swapaxes01_shape n g L (plm : list (list (list R))) :
  length plm = L -> (1 <= L)%nat -> Forall (has_shape n g) plm ->
  length (swapaxes01 plm) = n /\ Forall (has_shape L g) (swapaxes01 plm).
Proof.
  intros HL HL1 Hp. rewrite length_swapaxes01.
  destruct plm as [|p0 plm]; [simpl in HL; lia|].
  pose proof (Forall_inv Hp) as [L0 _]. simpl. split; [done|].
  unfold swapaxes01. simpl hd. rewrite L0.
  apply Forall_forall. intros xm Hin. apply list_elem_of_fmap in Hin as (s & -> & Hs).
  apply elem_of_seq in Hs. split; [by rewrite length_map|].
  apply Forall_fmap. eapply Forall_impl; [exact Hp|]. simpl.
  intros plane [Lp Rp]. rewrite nth_lookup_default.
  destruct (lookup_lt_is_Some_2 plane s) as [row Hrow]; [lia|].
  rewrite Hrow. simpl. by apply (Forall_lookup_1 _ _ _ _ Rp Hrow).
Qed.

Lemma add_prior_rows L g (prior : list R) (xm : list (list R)) :
  length prior = g -> has_shape L g xm ->
  exists ym, mapM (fun v => vadd_into v prior) xm = Some ym /\ has_shape L g ym.
Proof.
  intros Lp [Lx Rx]. revert L Lx. induction Rx as [|row xm Hrow _ IH]; intros L Lx.
  { exists []. split; [done|]. split; [done|constructor]. }
  destruct (IH (length xm) eq_refl) as (r & Hr & [Lr Rr]).
  rewrite mapM_cons_eq, vadd_into_same, Hr by congruence. cbn.
  eexists. split; [done|]. split; [simpl in *; lia|].
  constructor; [|done]. rewrite length_zip_with. lia.
Qed.

Lemma add_prior_shape L g (prior : list R) (xs : list (list (list R))) :
  length prior = g -> Forall (has_shape L g) xs ->
  exists ys, mapM (mapM (fun v => vadd_into v prior)) xs = Some ys /\
             Forall (has_shape L g) ys.
Proof.
  intros Lp Hxs. induction Hxs as [|xm xs Hxm _ (ys & Hys & Sys)]; [by exists []|].
  destruct (add_prior_rows L g prior xm Lp Hxm) as (ym & Hym & Sym).
  rewrite mapM_cons_eq, Hym. cbn. rewrite Hys. cbn.
  eexists. split; [done|]. by constructor.
Qed.

Lemma length_concat_shape L g (xm : list (list R)) :
  has_shape L g xm -> length (concat xm) = (L * g)%nat.
Proof.
  intros [Lx Rx]. revert L Lx. induction Rx as [|row xm Hrow _ IH]; intros L Lx.
  { simpl in *. lia. }
  simpl in *. rewrite length_app, (IH (length xm) eq_refl). lia.
Qed.

Lemma mass_pos L g (xm : list (list R)) :
  has_shape L g xm -> (1 <= L)%nat -> (1 <= g)%nat ->
  0 < Rsum (map (fun row => Rsum (phred2p_v row)) xm).
Proof.
  intros [Lx Rx] HL Hg. apply Rsum_pos.
  - destruct xm; [simpl in Lx; lia | done].
  - apply Forall_fmap. eapply Forall_impl; [exact Rx|]. simpl.
    intros row Hr. apply Rsum_phred2p_pos. destruct row; [simpl in Hr; lia | done].
Qed.

Lemma site_at_Some g L n tree_PL tree_PL0 (mut_PLs nulls : list (list (list R)))
    (sids : list string) (vars : list variant) (s : nat) :
  (1 <= g <= 10)%nat -> (1 <= L)%nat ->
  has_shape n g tree_PL -> has_shape n g tree_PL0 ->
  length mut_PLs = n -> Forall (has_shape L g) mut_PLs ->
  length nulls = L -> Forall (has_shape n g) nulls ->
  length sids = L -> (n <= length vars)%nat -> (s < n)%nat ->
  exists r, site_at tree_PL tree_PL0 mut_PLs nulls sids vars s = Some r /\
            0 < mut_p r + null_p r.
Proof.
  intros Hg HL Htp Htp0 Lm Sm Ln Sn Ls Lv Hs. unfold site_at, call_site.
  destruct (lookup_lt_is_Some_2 tree_PL s) as [x Ex]; [destruct Htp; lia|].
  destruct (lookup_lt_is_Some_2 tree_PL0 s) as [x0 Ex0]; [destruct Htp0; lia|].
  destruct (lookup_lt_is_Some_2 mut_PLs s) as [xm Exm]; [lia|].
  destruct (lookup_lt_is_Some_2 vars s) as [var Evar]; [lia|].
  pose proof (has_shape_lookup _ _ _ _ _ Htp Ex) as Lx.
  pose proof (has_shape_lookup _ _ _ _ _ Htp0 Ex0) as Lx0.
  pose proof (Forall_lookup_1 _ _ _ _ Sm Exm) as Sxm.
  rewrite Ex, Ex0, Exm, Evar. cbn [mbind option_bind].
  destruct (argmin_Some x) as [ix Eix]; [destruct x; [simpl in Lx; lia | done]|].
  rewrite Eix. cbn [mbind option_bind].
  destruct (argmin_Some x0) as [i0 Ei0]; [destruct x0; [simpl in Lx0; lia | done]|].
  rewrite Ei0. cbn [mbind option_bind].
  pose proof (argmin_lt _ _ Ei0) as Hi0.
  destruct (lookup_lt_is_Some_2 x0 i0 Hi0) as [npl Enpl].
  rewrite Enpl. cbn [mbind option_bind].
  pose proof (length_concat_shape _ _ _ Sxm) as Lc.
  destruct (argmin_Some (concat xm)) as [idx Eidx].
  { intros E. rewrite E in Lc. simpl in Lc. nia. }
  rewrite Eidx. cbn [mbind option_bind].
  pose proof (argmin_lt _ _ Eidx) as Hidx. rewrite Lc in Hidx.
  assert (ncols xm = g) as Hnc by (apply (has_shape_ncols L); [done | lia]).
  unfold unravel_index. rewrite Hnc. destruct Sxm as [Lxm Rxm]. rewrite Lxm.
  destruct (Nat.ltb_spec idx (L * g)) as [_|?]; [|lia]. cbn [mbind option_bind fst snd].
  assert (idx / g < L)%nat as Hl by (apply Nat.Div0.div_lt_upper_bound; rewrite Nat.mul_comm; exact Hidx).
  assert (idx mod g < g)%nat as Hj by (apply Nat.mod_upper_bound; lia).
  destruct (lookup_lt_is_Some_2 xm (idx / g)) as [rowl Erowl]; [lia|].
  rewrite Erowl. cbn [mbind option_bind].
  pose proof (Forall_lookup_1 _ _ _ _ Rxm Erowl) as Lrow. simpl in Lrow.
  destruct (lookup_lt_is_Some_2 rowl (idx mod g)) as [mpl Empl]; [lia|].
  rewrite Empl. cbn [mbind option_bind].
  destruct (lookup_lt_is_Some_2 nulls (idx / g)) as [plane Eplane]; [lia|].
  rewrite Eplane. cbn [mbind option_bind].
  pose proof (Forall_lookup_1 _ _ _ _ Sn Eplane) as [Lpl Rpl].
  destruct (lookup_lt_is_Some_2 plane s) as [row Erow]; [lia|].
  rewrite Erow. cbn [mbind option_bind].
  pose proof (Forall_lookup_1 _ _ _ _ Rpl Erow) as Lr. simpl in Lr.
  destruct (argmin_Some row) as [i2 Ei2]; [destruct row; [simpl in Lr; lia | done]|].
  rewrite Ei2. cbn [mbind option_bind].
  pose proof (argmin_lt _ _ Ei2) as Hi2.
  assert (length GTYPE10 = 10%nat) as LG by reflexivity.
  destruct (lookup_lt_is_Some_2 GTYPE10 i0) as [g0 Eg0]; [lia|].
  destruct (lookup_lt_is_Some_2 GTYPE10 (idx mod g)) as [g1 Eg1]; [lia|].
  destruct (lookup_lt_is_Some_2 GTYPE10 i2) as [g2 Eg2]; [lia|].
  destruct (lookup_lt_is_Some_2 sids (idx / g)) as [smpl Esm]; [lia|].
  rewrite Eg0, Eg1, Eg2, Esm. cbn [mbind option_bind].
  eexists. split; [done|].
  destruct var as [[c p] rf]. simpl.
  assert (0 < Rsum (phred2p_v x)).
  { apply Rsum_phred2p_pos. destruct x; [simpl in Lx; lia | done]. }
  assert (0 < Rsum (phred2p_v x0)).
  { apply Rsum_phred2p_pos. destruct x0; [simpl in Lx0; lia | done]. }
  assert (0 < Rsum (map (fun row => Rsum (phred2p_v row)) xm)).
  { apply (mass_pos L g); [done | lia | lia]. }
  apply Rplus_lt_0_compat; by apply Rdiv_lt_0_compat.
Qed.

Lemma call_sites_by_site_Some g L n tree_PL tree_PL0 (mut_PLs nulls : list (list (list R)))
    (sids : list string) (vars : list variant) :
  (1 <= g <= 10)%nat -> (1 <= L)%nat -> (1 <= n)%nat ->
  has_shape n g tree_PL -> has_shape n g tree_PL0 ->
  length mut_PLs = n -> Forall (has_shape L g) mut_PLs ->
  length nulls = L -> Forall (has_shape n g) nulls ->
  length sids = L -> (n <= length vars)%nat ->
  is_Some (call_sites_by_site tree_PL tree_PL0 mut_PLs (Some nulls) sids vars).
Proof.
  intros Hg HL Hn Htp Htp0 Lm Sm Ln Sn Ls Lv. unfold call_sites_by_site.
  cbn [mbind option_bind].
  destruct mut_PLs as [|xm0 rest] eqn:Em; [simpl in Lm; lia|]. rewrite <- Em in *.
  assert (head mut_PLs = Some xm0) as -> by (by rewrite Em). cbn [mbind option_bind].
  assert (exists records,
            mapM (site_at tree_PL tree_PL0 mut_PLs nulls sids vars) (seq 0 (length mut_PLs))
              = Some records /\ Forall (fun r => 0 < mut_p r + null_p r) records)
    as (records & -> & Hpos).
  { rewrite Lm. assert (Forall (fun s => s < n)%nat (seq 0 n)) as Hseq.
    { apply Forall_forall. intros s Hs. apply elem_of_seq in Hs. lia. }
    induction Hseq as [|s l Hs _ (recs & Hrecs & Hp)]; [by exists []|].
    destruct (site_at_Some g L n tree_PL tree_PL0 mut_PLs nulls sids vars s)
      as (r & Hr & Hrp); try done.
    rewrite mapM_cons_eq, Hr. cbn. rewrite Hrecs. cbn.
    eexists. split; [done|]. by constructor. }
  cbn [mbind option_bind].
  assert (is_Some (mapM (fun r => p2phred (mut_p r + null_p r)) records)) as [scores ->].
  { apply mapM_is_Some_2. eapply Forall_impl; [exact Hpos|]. simpl.
    intros r Hr. rewrite p2phred_Some by done. by eexists. }
  by eexists.
Qed.

(** Over the reals the whole run returns under the same conditions; it
    serves to exhibit runs that return. *)
Theorem genotype_total PLs t vars mm mm0 mm1 prior m g :
  Forall (has_shape m g) PLs -> PLs <> [] -> (0 < m)%nat -> (1 <= g <= 10)%nat ->
  positive_columns g mm -> positive_columns g mm0 -> positive_columns g mm1 ->
  binary (skel t) -> is_leaf t = false -> sids_in_range m (skel t) ->
  length prior = g -> (length PLs <= length vars)%nat ->
  is_Some (genotype PLs t vars mm mm0 mm1 prior).
Proof.
  intros Hrect Hne Hm Hg Hmm Hmm0 Hmm1 Hbin Hleaf Hsid Lp Lv.
  assert (1 <= length PLs)%nat as Hn by (destruct PLs; [done | simpl; lia]).
  rewrite genotype_by_site.
  pose proof Hmm as [Smm _]. pose proof Hmm0 as [Smm0 _]. pose proof Hmm1 as [Smm1 _].
  destruct (aggregate_Some m g PLs mm (skel t) Hrect Hm Hmm Hsid) as [pl Epl].
  pose proof (aggregate_shape m g PLs mm _ _ Hrect Hm Smm Epl) as Spl.
  rewrite Epl. cbn [mbind option_bind].
  destruct (madd_vec_shape _ _ pl prior Spl Lp) as (tree_PL & -> & Stp).
  cbn [mbind option_bind].
  destruct (aggregate_Some m g PLs mm0 (skel t) Hrect Hm Hmm0 Hsid) as [pl0 Epl0].
  pose proof (aggregate_shape m g PLs mm0 _ _ Hrect Hm Smm0 Epl0) as Spl0.
  rewrite Epl0. cbn [mbind option_bind].
  destruct (madd_vec_shape _ _ pl0 prior Spl0 Lp) as (tree_PL0 & -> & Stp0).
  cbn [mbind option_bind].
  assert (ncols pl0 = g) as -> by (apply (has_shape_ncols (length PLs)); [done | lia]).
  destruct Spl0 as [-> _].
  assert (topo_leaf (skel t) = false) as Hl by (by rewrite is_leaf_skel).
  destruct (placements_Some PLs mm0 mm1 m g g Hrect Hm Hmm0 Hmm1 (zeros2_shape _ _)
              (skel t) Hbin Hl Hsid) as [plm Eplm].
  destruct (binary_placements PLs mm0 mm1 m g g Hrect Hm Smm0 Smm1 (zeros2_shape _ _)
              (skel t) Hbin) as [Hsh _].
  destruct (Hsh plm Eplm) as [Lplm Splm].
  destruct (binary_children _ Hbin Hl) as (a & b & _ & _ & _ & Hnl).
  pose proof (topo_nleaves_pos a). pose proof (topo_nleaves_pos b).
  rewrite Eplm. cbn [mbind option_bind].
  destruct (swapaxes01_shape _ _ _ plm Lplm ltac:(lia) Splm) as [Lsw Ssw].
  destruct (add_prior_shape _ _ prior _ Lp Ssw) as (mut_PLs & Em & Smut).
  rewrite Em. cbn [mbind option_bind].
  pose proof (length_mapM _ _ _ Em) as Lmut. rewrite Lsw in Lmut.
  destruct (binary_paths_nodes (skel t) Hbin) as (_ & _ & Ldesc & _).
  assert (Forall (fun d => is_Some (aggregate PLs mm0 d)) (topo_descendants (skel t))) as Hd.
  { assert (is_Some (aggregate PLs mm0 (skel t))) as Hs by (by rewrite Epl0).
    apply aggregate_descendants in Hs. rewrite topo_postorder_unfold in Hs.
    by apply Forall_app in Hs as [Hs _]. }
  destruct (mapM_is_Some_2 _ _ Hd) as [nulls En]. rewrite En.
  eapply (call_sites_by_site_Some g (2 * topo_nleaves (skel t) - 2) (length PLs));
    try done; try lia.
  - apply length_mapM in En. lia.
  - apply mapM_Some in En. clear -En Hrect Hm Smm0.
    induction En as [|d v ds vs Hv _ IH]; constructor; [|done].
    by apply (aggregate_shape m g PLs mm0 d).
  - rewrite length_map. lia.
Qed.


(** ** Two batches of sites, one after the other

    Every array of the run over [PLs1 ++ PLs2] is the array over [PLs1]
    followed, along the site axis, by the array over [PLs2]; a step of
    the run over the whole list raises exactly when it raises on one of
    the two batches. *)

Ltac none_r :=
  cbn [mbind option_bind]; try done;
  repeat (match goal with
          | |- _ = ?m ≫= _ => destruct m as [?|]
          end; cbn [mbind option_bind]; try done);
  repeat case_match; try done.

Lemma zipM_app {A B C} (f : A -> B -> option C) xs1 xs2 ys1 ys2 :
  length xs1 = length ys1 ->
  zipM f (xs1 ++ xs2) (ys1 ++ ys2) =
  r1 ← zipM f xs1 ys1; r2 ← zipM f xs2 ys2; Some (r1 ++ r2).
Proof.
  revert ys1. induction xs1 as [|x xs1 IH]; intros [|y ys1] L; simpl in L; try lia.
  - simpl. by destruct (zipM f xs2 ys2).
  - simpl. destruct (f x y); cbn [mbind option_bind]; [|done].
    rewrite IH by lia. destruct (zipM f xs1 ys1); cbn [mbind option_bind]; [|done].
    by destruct (zipM f xs2 ys2).
Qed.

(** A loop whose body runs on the two halves of each element. *)
Lemma mapM_both {A B1 B2 C} (f1 : A -> option B1) (f2 : A -> option B2)
    (k : B1 -> B2 -> C) (l : list A) :
  mapM (fun x => a ← f1 x; b ← f2 x; Some (k a b)) l =
  r1 ← mapM f1 l; r2 ← mapM f2 l; Some (zip_with k r1 r2).
Proof.
  induction l as [|x l IH]; [done|]. rewrite !mapM_cons_eq, IH.
  destruct (f1 x); cbn [mbind option_bind]; [|done].
  destruct (f2 x); cbn [mbind option_bind].
  - destruct (mapM f1 l); cbn [mbind option_bind]; [|done].
    by destruct (mapM f2 l).
  - by destruct (mapM f1 l).
Qed.

Lemma mapM_zip_with {A1 A2 A B1 B2 B} (h : A1 -> A2 -> A) (f : A -> option B)
    (f1 : A1 -> option B1) (f2 : A2 -> option B2) (k : B1 -> B2 -> B)
    (l1 : list A1) (l2 : list A2) :
  length l1 = length l2 ->
  Forall (fun x1 => forall x2, x2 ∈ l2 ->
            f (h x1 x2) = a ← f1 x1; b ← f2 x2; Some (k a b)) l1 ->
  mapM f (zip_with h l1 l2) =
  r1 ← mapM f1 l1; r2 ← mapM f2 l2; Some (zip_with k r1 r2).
Proof.
  revert l2. induction l1 as [|x1 l1 IH]; intros [|x2 l2] L H; simpl in L; try lia; [done|].
  apply Forall_cons in H as [Hx H]. simpl zip_with.
  rewrite !mapM_cons_eq, Hx by (apply elem_of_cons; by left).
  rewrite IH; [|lia|].
  - destruct (f1 x1); cbn [mbind option_bind]; [|done].
    destruct (f2 x2); cbn [mbind option_bind].
    + destruct (mapM f1 l1); cbn [mbind option_bind]; [|done].
      by destruct (mapM f2 l2).
    + by destruct (mapM f1 l1).
  - eapply Forall_impl; [exact H|]. simpl. intros y1 Hy y2 Hin.
    apply Hy. apply elem_of_cons. by right.
Qed.

Lemma transition_app (v1 v2 : list (list R)) mm :
  transition (v1 ++ v2) mm =
  t1 ← transition v1 mm; t2 ← transition v2 mm; Some (t1 ++ t2).
Proof. apply mapM_app_eq. Qed.

Lemma transition_length (v : list (list R)) mm y :
  transition v mm = Some y -> length y = length v.
Proof. intros H. by apply length_mapM in H. Qed.

Lemma madd_rows_app (a1 a2 b1 b2 : list (list R)) :
  length a1 = length b1 ->
  madd_rows (a1 ++ a2) (b1 ++ b2) =
  r1 ← madd_rows a1 b1; r2 ← madd_rows a2 b2; Some (r1 ++ r2).
Proof. apply zipM_app. Qed.

Lemma madd_vec_app (a1 a2 : list (list R)) v :
  madd_vec (a1 ++ a2) v = r1 ← madd_vec a1 v; r2 ← madd_vec a2 v; Some (r1 ++ r2).
Proof. apply mapM_app_eq. Qed.

(** The column count [populate_tree_PL] reads off the first site. *)
Lemma zeros_app m g (P1 P2 : list (list (list R))) :
  Forall (has_shape m g) (P1 ++ P2) ->
  zeros2 (length (P1 ++ P2)) (length (hd [] (hd [] (P1 ++ P2)))) =
  zeros2 (length P1) (length (hd [] (hd [] P1))) ++
  zeros2 (length P2) (length (hd [] (hd [] P2))).
Proof.
  intros H. apply Forall_app in H as [H1 H2].
  assert (forall P : list (list (list R)), Forall (has_shape m g) P -> P <> [] ->
            length (hd [] (hd [] P)) = length (hd [] (replicate m (replicate g 0))))
    as Hg.
  { intros P HP Hne. destruct HP as [|site P [Ls Rs] _]; [done|]. simpl.
    destruct Rs as [|row site Hrow _].
    - simpl in Ls. by subst m.
    - simpl in Ls. subst m g. simpl. by rewrite length_replicate. }
  unfold zeros2. rewrite length_app, replicate_add.
  destruct P1 as [|s1 P1]; [done|]. destruct P2 as [|s2 P2].
  { simpl. by rewrite !app_nil_r. }
  rewrite (Hg (s1 :: P1)), (Hg (s2 :: P2)), (Hg ((s1 :: P1) ++ s2 :: P2)); try done.
  apply Forall_app. done.
Qed.

Lemma fold_children_app mm (v1s v2s : list (list (list R))) n1
    (acc1 acc2 : list (list R)) :
  length v1s = length v2s -> Forall (fun v => length v = n1) v1s -> length acc1 = n1 ->
  foldlM (fun acc v => y ← transition v mm; madd_rows acc y)
         (acc1 ++ acc2) (zip_with app v1s v2s) =
  r1 ← foldlM (fun acc v => y ← transition v mm; madd_rows acc y) acc1 v1s;
  r2 ← foldlM (fun acc v => y ← transition v mm; madd_rows acc y) acc2 v2s;
  Some (r1 ++ r2).
Proof.
  revert v2s acc1 acc2.
  induction v1s as [|v1 v1s IH]; intros [|v2 v2s] acc1 acc2 L Hv La; simpl in L; try lia.
  { done. }
  apply Forall_cons in Hv as [Hv1 Hv]. simpl.
  rewrite transition_app.
  destruct (transition v1 mm) as [t1|] eqn:E1; cbn [mbind option_bind]; [|done].
  destruct (transition v2 mm) as [t2|] eqn:E2; cbn [mbind option_bind]; [|none_r].
  apply transition_length in E1.
  rewrite madd_rows_app by congruence.
  destruct (madd_rows acc1 t1) as [s1|] eqn:F1; cbn [mbind option_bind]; [|done].
  destruct (madd_rows acc2 t2) as [s2|] eqn:F2; cbn [mbind option_bind]; [|none_r].
  apply madd_rows_length in F1. apply IH; [lia | done | congruence].
Qed.

Lemma aggregate_app m g (P1 P2 : list (list (list R))) mm s :
  Forall (has_shape m g) (P1 ++ P2) ->
  aggregate (P1 ++ P2) mm s =
  a1 ← aggregate P1 mm s; a2 ← aggregate P2 mm s; Some (a1 ++ a2).
Proof.
  intros Hrect. induction s as [sd cs IH] using topo_ind.
  rewrite !(aggregate_unfold _ _ (Topo sd cs)). destruct (topo_leaf (Topo sd cs)).
  { destruct (head (t_sid (Topo sd cs))); cbn [mbind option_bind]; [|done].
    apply mapM_app_eq. }
  simpl t_children. rewrite (mapM_ext_in _ _ _ IH), mapM_both.
  destruct (mapM (aggregate P1 mm) cs) as [v1s|] eqn:E1; cbn [mbind option_bind]; [|done].
  destruct (mapM (aggregate P2 mm) cs) as [v2s|] eqn:E2; cbn [mbind option_bind]; [|none_r].
  rewrite (zeros_app m g) by done.
  apply (fold_children_app mm v1s v2s (length P1)).
  - apply length_mapM in E1, E2. congruence.
  - apply mapM_Some in E1. clear -E1. induction E1 as [|c v cs vs Hc _ IH]; constructor; [|done].
    by apply aggregate_length in Hc.
  - apply length_zeros2.
Qed.


(** ** Assignments into a stack of planes, batch by batch *)

Lemma assign_mat_app (o1 o2 x1 x2 : list (list R)) :
  length o1 = length x1 ->
  assign_mat (o1 ++ o2) (x1 ++ x2) =
  r1 ← assign_mat o1 x1; r2 ← assign_mat o2 x2; Some (r1 ++ r2).
Proof. apply zipM_app. Qed.

Lemma zipM_assign_app n1 (T1 T2 X1 X2 : list (list (list R))) :
  length T1 = length T2 -> length X1 = length X2 ->
  Forall (fun p => length p = n1) T1 -> Forall (fun p => length p = n1) X1 ->
  zipM assign_mat (zip_with app T1 T2) (zip_with app X1 X2) =
  r1 ← zipM assign_mat T1 X1; r2 ← zipM assign_mat T2 X2; Some (zip_with app r1 r2).
Proof.
  revert T2 X1 X2.
  induction T1 as [|t1 T1 IH]; intros [|t2 T2] [|x1 X1] [|x2 X2] LT LX HT HX;
    simpl in LT, LX; try lia; try done.
  apply Forall_cons in HT as [Ht HT]. apply Forall_cons in HX as [Hx HX].
  simpl. rewrite assign_mat_app by congruence.
  destruct (assign_mat t1 x1); cbn [mbind option_bind]; [|done].
  destruct (assign_mat t2 x2); cbn [mbind option_bind]; [|none_r].
  rewrite IH by (done || lia).
  destruct (zipM assign_mat T1 X1); cbn [mbind option_bind]; [|done].
  by destruct (zipM assign_mat T2 X2).
Qed.

Lemma assign_slice_app n1 (A1 A2 X1 X2 : list (list (list R))) i l :
  length A1 = length A2 -> length X1 = length X2 ->
  Forall (fun p => length p = n1) A1 -> Forall (fun p => length p = n1) X1 ->
  assign_slice (zip_with app A1 A2) i l (zip_with app X1 X2) =
  q1 ← assign_slice A1 i l X1; q2 ← assign_slice A2 i l X2; Some (zip_with app q1 q2).
Proof.
  intros LA LX HA HX. unfold assign_slice. cbv zeta.
  rewrite !zip_with_drop, !zip_with_take.
  set (T1 := take l (drop i A1)). set (T2 := take l (drop i A2)).
  assert (length T1 = length T2) as LT.
  { unfold T1, T2. rewrite !length_take, !length_drop. lia. }
  assert (Forall (fun p : list (list R) => length p = n1) T1) as HT.
  { by apply Forall_take, Forall_drop. }
  rewrite !length_zip_with, <- LT, <- LX, !Nat.min_id.
  assert ((if (length X1 =? length T1)%nat then zipM assign_mat (zip_with app T1 T2) (zip_with app X1 X2)
           else if (length X1 =? 1)%nat
                then mapM (fun old => assign_mat old (hd [] (zip_with app X1 X2)))
                          (zip_with app T1 T2)
                else None) =
          (r1 ← (if (length X1 =? length T1)%nat then zipM assign_mat T1 X1
                 else if (length X1 =? 1)%nat
                      then mapM (fun old => assign_mat old (hd [] X1)) T1 else None);
           r2 ← (if (length X1 =? length T1)%nat then zipM assign_mat T2 X2
                 else if (length X1 =? 1)%nat
                      then mapM (fun old => assign_mat old (hd [] X2)) T2 else None);
           Some (zip_with app r1 r2))) as ->.
  { destruct (length X1 =? length T1)%nat; [by apply (zipM_assign_app n1)|].
    destruct (length X1 =? 1)%nat eqn:E1; [|done].
    apply Nat.eqb_eq in E1.
    destruct X1 as [|x1 [|? ?]]; try done. destruct X2 as [|x2 [|? ?]]; try done.
    simpl hd. apply mapM_zip_with; [done|].
    eapply Forall_impl; [exact HT|]. simpl. intros o1 Ho o2 _.
    apply assign_mat_app. apply Forall_inv in HX. congruence. }
  destruct (if (length X1 =? length T1)%nat then zipM assign_mat T1 X1 else _)
    as [new1|] eqn:E1; cbn [mbind option_bind]; [|done].
  destruct (if (length X1 =? length T1)%nat then zipM assign_mat T2 X2 else _)
    as [new2|] eqn:E2; cbn [mbind option_bind]; [|done].
  assert (length new1 = length T1 /\ length new2 = length T2) as [L1 L2].
  { destruct (length X1 =? length T1)%nat.
    - destruct (zipM_length _ _ _ _ E1), (zipM_length _ _ _ _ E2). lia.
    - destruct (length X1 =? 1)%nat; [|done].
      apply length_mapM in E1, E2. lia. }
  rewrite !zip_with_app; [done | lia |]. rewrite !length_take. lia.
Qed.

Lemma assign_index_app n1 (A1 A2 : list (list (list R))) i (x1 x2 : list (list R)) :
  Forall (fun p => length p = n1) A1 -> length x1 = n1 ->
  assign_index (zip_with app A1 A2) i (x1 ++ x2) =
  q1 ← assign_index A1 i x1; q2 ← assign_index A2 i x2; Some (zip_with app q1 q2).
Proof.
  intros HA Lx. unfold assign_index. rewrite lookup_zip_with.
  destruct (A1 !! i) as [o1|] eqn:E1; cbn [mbind option_bind]; [|done].
  pose proof (Forall_lookup_1 _ _ _ _ HA E1) as Lo. simpl in Lo.
  destruct (A2 !! i) as [o2|] eqn:E2; cbn [mbind option_bind]; [|none_r].
  rewrite assign_mat_app by congruence.
  destruct (assign_mat o1 x1); cbn [mbind option_bind]; [|done].
  destruct (assign_mat o2 x2); cbn [mbind option_bind]; [|done].
  by rewrite insert_zip_with.
Qed.

Lemma transition3_app (c1 c2 : list (list (list R))) mm :
  length c1 = length c2 ->
  transition3 (zip_with app c1 c2) mm =
  b1 ← transition3 c1 mm; b2 ← transition3 c2 mm; Some (zip_with app b1 b2).
Proof.
  intros L. unfold transition3. apply mapM_zip_with; [done|].
  apply Forall_forall. intros p1 _ p2 _. apply transition_app.
Qed.

Lemma transition3_rows n (c : list (list (list R))) mm b :
  Forall (fun p => length p = n) c -> transition3 c mm = Some b ->
  length b = length c /\ Forall (fun p => length p = n) b.
Proof.
  intros Hc H. split; [by apply length_mapM in H|].
  apply mapM_Some in H. induction H as [|p y c b Hy _ IH]; [constructor|].
  apply Forall_cons in Hc as [Hp Hc]. apply transition_length in Hy.
  constructor; [congruence | by apply IH].
Qed.

Lemma madd_planes_app (b1 b2 : list (list (list R))) (fs1 fs2 : list (list R)) :
  length b1 = length b2 -> Forall (fun p => length p = length fs1) b1 ->
  mapM (fun plane => madd_rows plane (fs1 ++ fs2)) (zip_with app b1 b2) =
  r1 ← mapM (fun plane => madd_rows plane fs1) b1;
  r2 ← mapM (fun plane => madd_rows plane fs2) b2;
  Some (zip_with app r1 r2).
Proof.
  intros L Hb. apply mapM_zip_with; [done|].
  eapply Forall_impl; [exact Hb|]. simpl. intros p1 Hp p2 _. by apply madd_rows_app.
Qed.

Lemma madd_planes_rows n (b : list (list (list R))) (fs : list (list R)) r :
  Forall (fun p => length p = n) b ->
  mapM (fun plane => madd_rows plane fs) b = Some r ->
  length r = length b /\ Forall (fun p => length p = n) r.
Proof.
  intros Hb H. split; [by apply length_mapM in H|].
  apply mapM_Some in H. induction H as [|p y b r Hy _ IH]; [constructor|].
  apply Forall_cons in Hb as [Hp Hb]. apply madd_rows_length in Hy.
  constructor; [congruence | by apply IH].
Qed.


(** ** The placement stack, batch by batch *)

Lemma topo_leaf_nleaves c : topo_leaf c = true -> topo_nleaves c = 1%nat.
Proof. destruct c as [sd [|? ?]]; done. Qed.

(** Where [place_view] leaves the write index. *)
Lemma place_view_index PLs mm0 mm1 n g cs plm i k q j :
  place_view mm0 mm1 (map (topo_view PLs mm0 mm1 n g) cs) (plm, i) k = Some (q, j) ->
  exists c, cs !! k = Some c /\ j = (i + (2 * topo_nleaves c - 2) + 1)%nat.
Proof.
  unfold place_view. rewrite list_lookup_fmap. intros H.
  destruct (cs !! k) as [c|]; [|done]. exists c. split; [done|]. simpl in H.
  apply bind_Some in H as (sister & _ & H).
  apply bind_Some in H as (s0 & _ & H). apply bind_Some in H as (fs & _ & H).
  apply bind_Some in H as ([plm1 i1] & H1 & H).
  apply bind_Some in H as (c0 & _ & H). apply bind_Some in H as (here & _ & H).
  apply bind_Some in H as (rhs & _ & H). apply bind_Some in H as (p & _ & [= <- <-]).
  destruct (topo_leaf c) eqn:El.
  - injection H1 as <- <-. rewrite (topo_leaf_nleaves c El). lia.
  - apply bind_Some in H1 as (cp & Hcp & H1). cbv zeta in H1.
    apply bind_Some in H1 as (below & _ & H1). apply bind_Some in H1 as (r & _ & H1).
    apply bind_Some in H1 as (p1 & _ & [= <- <-]).
    apply placements_rows in Hcp as [-> _]. lia.
Qed.

Section Batches.
Context (P1 P2 : list (list (list R))) (mm0 mm1 : list (list R)) (m g g' : nat).
Context (Hrect : Forall (has_shape m g) (P1 ++ P2)).

Local Abbreviation n1 := (length P1).
Local Abbreviation n2 := (length P2).
Local Abbreviation TVW := (topo_view (P1 ++ P2) mm0 mm1 (n1 + n2) g').
Local Abbreviation TV1 := (topo_view P1 mm0 mm1 n1 g').
Local Abbreviation TV2 := (topo_view P2 mm0 mm1 n2 g').
Local Abbreviation rows1 := (fun p : list (list R) => length p = n1).

Lemma place_view_app cs k plm1 plm2 i :
  Forall (fun c => placements (P1 ++ P2) mm0 mm1 (n1 + n2) g' c =
                   p1 ← placements P1 mm0 mm1 n1 g' c;
                   p2 ← placements P2 mm0 mm1 n2 g' c;
                   Some (zip_with app p1 p2)) cs ->
  length plm1 = length plm2 -> Forall rows1 plm1 ->
  place_view mm0 mm1 (map TVW cs) (zip_with app plm1 plm2, i) k =
  st1 ← place_view mm0 mm1 (map TV1 cs) (plm1, i) k;
  st2 ← place_view mm0 mm1 (map TV2 cs) (plm2, i) k;
  Some (zip_with app st1.1 st2.1, st1.2).
Proof.
  intros IH L Hrows. unfold place_view.
  rewrite !list_lookup_fmap, !delete_map, !head_map.
  destruct (cs !! k) as [c|] eqn:Ec; cbn [fmap option_fmap option_map mbind option_bind];
    [|done].
  destruct (head (delete k cs)) as [sis|];
    cbn [fmap option_fmap option_map mbind option_bind]; [|done].
  cbn [topo_view v_leaf v_PL0 v_PLm].
  rewrite (aggregate_app m g P1 P2 mm0 sis Hrect).
  destruct (aggregate P1 mm0 sis) as [s1|] eqn:Es1; cbn [mbind option_bind]; [|done].
  destruct (aggregate P2 mm0 sis) as [s2|] eqn:Es2; cbn [mbind option_bind]; [|none_r].
  rewrite transition_app.
  destruct (transition s1 mm0) as [fs1|] eqn:Ef1; cbn [mbind option_bind]; [|done].
  destruct (transition s2 mm0) as [fs2|] eqn:Ef2; cbn [mbind option_bind]; [|none_r].
  assert (length fs1 = n1) as Lfs1.
  { apply transition_length in Ef1. apply aggregate_length in Es1. congruence. }
  (* the planes of the edges below the child *)
  set (inner := fun (PLs : list (list (list R))) n (fs : list (list R))
                    (plm : list (list (list R))) =>
         if topo_leaf c then Some (plm, i)
         else child_PLm ← placements PLs mm0 mm1 n g' c;
              below ← transition3 child_PLm mm0;
              rhs ← mapM (fun plane => madd_rows plane fs) below;
              plm' ← assign_slice plm i (length child_PLm) rhs;
              Some (plm', (i + length child_PLm)%nat)).
  change (if topo_leaf c then Some (zip_with app plm1 plm2, i) else _)
    with (inner (P1 ++ P2) (n1 + n2)%nat (fs1 ++ fs2) (zip_with app plm1 plm2)).
  change (if topo_leaf c then Some (plm1, i) else _) with (inner P1 n1 fs1 plm1).
  change (if topo_leaf c then Some (plm2, i) else _) with (inner P2 n2 fs2 plm2).
  assert (inner (P1 ++ P2) (n1 + n2)%nat (fs1 ++ fs2) (zip_with app plm1 plm2) =
          x1 ← inner P1 n1 fs1 plm1; x2 ← inner P2 n2 fs2 plm2;
          Some (zip_with app x1.1 x2.1, x1.2)) as ->.
  { unfold inner. destruct (topo_leaf c); [done|].
    rewrite (Forall_lookup_1 _ _ _ _ IH Ec).
    destruct (placements P1 mm0 mm1 n1 g' c) as [cp1|] eqn:Ec1; cbn [mbind option_bind];
      [|done].
    destruct (placements P2 mm0 mm1 n2 g' c) as [cp2|] eqn:Ec2; cbn [mbind option_bind];
      [|none_r].
    apply placements_rows in Ec1 as [Lc1 Rc1]. apply placements_rows in Ec2 as [Lc2 Rc2].
    rewrite transition3_app by congruence.
    destruct (transition3 cp1 mm0) as [b1|] eqn:Eb1; cbn [mbind option_bind]; [|done].
    destruct (transition3 cp2 mm0) as [b2|] eqn:Eb2; cbn [mbind option_bind]; [|none_r].
    apply (transition3_rows n1) in Eb1 as [Lb1 Rb1]; [|done].
    apply (transition3_rows n2) in Eb2 as [Lb2 Rb2]; [|done].
    rewrite madd_planes_app; [|congruence|by rewrite Lfs1].
    destruct (mapM _ b1) as [r1|] eqn:Er1; cbn [mbind option_bind]; [|done].
    destruct (mapM _ b2) as [r2|] eqn:Er2; cbn [mbind option_bind]; [|none_r].
    apply (madd_planes_rows n1) in Er1 as [Lr1 Rr1]; [|done].
    apply (madd_planes_rows n2) in Er2 as [Lr2 Rr2]; [|done].
    rewrite length_zip_with, Lc1, Lc2, Nat.min_id, <- Lc1.
    rewrite (assign_slice_app n1) by (done || congruence).
    destruct (assign_slice plm1 _ _ r1); cbn [mbind option_bind]; [|done].
    rewrite Lc1, <- Lc2.
    by destruct (assign_slice plm2 _ _ r2). }
  destruct (inner P1 n1 fs1 plm1) as [[q1 j1]|] eqn:E1; cbn [mbind option_bind]; [|done].
  destruct (inner P2 n2 fs2 plm2) as [[q2 j2]|] eqn:E2; cbn [mbind option_bind];
    [|none_r].
  cbn [fst snd].
  assert (Forall rows1 q1 /\ j2 = j1) as [Hq1 ->].
  { unfold inner in E1, E2. destruct (topo_leaf c).
    { injection E1 as <- <-. by injection E2 as <- <-. }
    apply bind_Some in E1 as (cp1 & Ec1 & E1). apply bind_Some in E1 as (b1 & _ & E1).
    apply bind_Some in E1 as (r1 & _ & E1). apply bind_Some in E1 as (p1 & Hp1 & [= <- <-]).
    apply bind_Some in E2 as (cp2 & Ec2 & E2). apply bind_Some in E2 as (b2 & _ & E2).
    apply bind_Some in E2 as (r2 & _ & E2). apply bind_Some in E2 as (p2 & _ & [= <- <-]).
    apply (assign_slice_rows n1) in Hp1 as [_ Hp1]; [|done].
    apply placements_rows in Ec1 as [-> _]. apply placements_rows in Ec2 as [-> _]. done. }
  rewrite (aggregate_app m g P1 P2 mm0 c Hrect).
  destruct (aggregate P1 mm0 c) as [c1|] eqn:Ec1; cbn [mbind option_bind]; [|done].
  destruct (aggregate P2 mm0 c) as [c2|] eqn:Ec2; cbn [mbind option_bind]; [|none_r].
  rewrite transition_app.
  destruct (transition c1 mm1) as [h1|] eqn:Eh1; cbn [mbind option_bind]; [|done].
  destruct (transition c2 mm1) as [h2|] eqn:Eh2; cbn [mbind option_bind]; [|none_r].
  assert (length h1 = n1) as Lh1.
  { apply transition_length in Eh1. apply aggregate_length in Ec1. congruence. }
  rewrite madd_rows_app by congruence.
  destruct (madd_rows h1 fs1) as [r1|] eqn:Er1; cbn [mbind option_bind]; [|done].
  destruct (madd_rows h2 fs2) as [r2|] eqn:Er2; cbn [mbind option_bind]; [|none_r].
  apply madd_rows_length in Er1.
  rewrite (assign_index_app n1) by (done || congruence).
  destruct (assign_index q1 j1 r1); cbn [mbind option_bind]; [|done].
  by destruct (assign_index q2 j1 r2).
Qed.

Lemma place_fold_app cs ks plm1 plm2 i :
  Forall (fun c => placements (P1 ++ P2) mm0 mm1 (n1 + n2) g' c =
                   p1 ← placements P1 mm0 mm1 n1 g' c;
                   p2 ← placements P2 mm0 mm1 n2 g' c;
                   Some (zip_with app p1 p2)) cs ->
  length plm1 = length plm2 -> Forall rows1 plm1 ->
  Forall (fun p : list (list R) => length p = n2) plm2 ->
  foldlM (place_view mm0 mm1 (map TVW cs)) (zip_with app plm1 plm2, i) ks =
  st1 ← foldlM (place_view mm0 mm1 (map TV1 cs)) (plm1, i) ks;
  st2 ← foldlM (place_view mm0 mm1 (map TV2 cs)) (plm2, i) ks;
  Some (zip_with app st1.1 st2.1, st1.2).
Proof.
  intros IH. revert plm1 plm2 i.
  induction ks as [|k ks IHks]; intros plm1 plm2 i L Hrows Hrows2; [done|].
  cbn [foldlM]. rewrite (place_view_app cs k plm1 plm2 i IH L Hrows).
  destruct (place_view mm0 mm1 (map TV1 cs) (plm1, i) k) as [[q1 j1]|] eqn:E1;
    cbn [mbind option_bind]; [|done].
  destruct (place_view mm0 mm1 (map TV2 cs) (plm2, i) k) as [[q2 j2]|] eqn:E2;
    cbn [mbind option_bind]; [|none_r].
  cbn [fst snd].
  destruct (place_view_index _ _ _ _ _ _ _ _ _ _ _ E1) as (c & Hc & ->).
  destruct (place_view_index _ _ _ _ _ _ _ _ _ _ _ E2) as (c' & Hc' & ->).
  assert (c' = c) as -> by congruence.
  destruct (place_view_rows n1 _ _ _ _ _ _ _ _ Hrows E1) as [Lq1 Rq1].
  destruct (place_view_rows n2 _ _ _ _ _ _ _ _ Hrows2 E2) as [Lq2 Rq2].
  apply IHks; [congruence | done | done].
Qed.

Lemma placements_app s :
  placements (P1 ++ P2) mm0 mm1 (n1 + n2) g' s =
  p1 ← placements P1 mm0 mm1 n1 g' s;
  p2 ← placements P2 mm0 mm1 n2 g' s;
  Some (zip_with app p1 p2).
Proof.
  induction s as [sd cs IH] using topo_ind.
  rewrite !(placements_unfold _ _ _ _ _ (Topo sd cs)).
  destruct (topo_leaf (Topo sd cs)); [done|]. cbv zeta. simpl t_children.
  rewrite !length_map.
  set (L := (2 * topo_nleaves (Topo sd cs) - 2)%nat).
  assert (zeros3 L (n1 + n2) g' = zip_with app (zeros3 L n1 g') (zeros3 L n2 g')) as ->.
  { unfold zeros3, zeros2. by rewrite zip_with_replicate, replicate_add. }
  rewrite (place_fold_app cs _ _ _ _ IH).
  - destruct (foldlM _ (zeros3 L n1 g', 0%nat) _) as [[q1 j1]|]; cbn [mbind option_bind];
      [|done].
    by destruct (foldlM _ (zeros3 L n2 g', 0%nat) _) as [[q2 j2]|].
  - unfold zeros3. by rewrite !length_replicate.
  - unfold zeros3. apply Forall_replicate, length_zeros2.
  - unfold zeros3. apply Forall_replicate, length_zeros2.
Qed.

End Batches.


(** ** The site caller, batch by batch *)

Lemma map_zip_with_l {A B} (f : list A -> B) (f1 : list A -> B) (p1 p2 : list (list A)) :
  length p1 = length p2 ->
  Forall (fun x1 => forall x2, f (x1 ++ x2) = f1 x1) p1 ->
  map f (zip_with app p1 p2) = map f1 p1.
Proof.
  revert p2. induction p1 as [|x1 p1 IH]; intros [|x2 p2] L H; simpl in L; try lia; [done|].
  apply Forall_cons in H as [Hx H]. simpl. rewrite Hx, IH; [done | lia | done].
Qed.

Lemma map_zip_with_r {A B} (f : list A -> B) (f2 : list A -> B) (p1 p2 : list (list A)) :
  length p1 = length p2 ->
  Forall (fun x1 => forall x2, f (x1 ++ x2) = f2 x2) p1 ->
  map f (zip_with app p1 p2) = map f2 p2.
Proof.
  revert p2. induction p1 as [|x1 p1 IH]; intros [|x2 p2] L H; simpl in L; try lia; [done|].
  apply Forall_cons in H as [Hx H]. simpl. rewrite Hx, IH; [done | lia | done].
Qed.

Lemma seq_add n1 n2 : seq n1 n2 = map (Nat.add n1) (seq 0 n2).
Proof. rewrite <- (Nat.add_0_r n1) at 1. symmetry. apply (fmap_add_seq n1 0 n2). Qed.

Lemma swapaxes01_app n1 n2 (p1 p2 : list (list (list R))) :
  length p1 = length p2 ->
  Forall (fun p => length p = n1) p1 -> Forall (fun p => length p = n2) p2 ->
  swapaxes01 (zip_with app p1 p2) = swapaxes01 p1 ++ swapaxes01 p2.
Proof.
  intros L H1 H2. destruct p1 as [|a p1], p2 as [|b p2]; try done.
  unfold swapaxes01. simpl hd.
  pose proof (Forall_inv H1) as La. pose proof (Forall_inv H2) as Lb. simpl in La, Lb.
  rewrite length_app, La, Lb, seq_app, map_app. f_equal.
  - apply map_ext_in. intros s Hs. apply in_seq in Hs.
    apply (map_zip_with_l (fun plane => nth s plane [])); [done|].
    eapply Forall_impl; [exact H1|]. simpl. intros x1 Hx x2. apply app_nth1. lia.
  - simpl (0 + n1)%nat. rewrite (seq_add n1 n2), map_map. apply map_ext. intros s.
    apply (map_zip_with_r (fun plane => nth (n1 + s) plane [])); [done|].
    eapply Forall_impl; [exact H1|]. simpl. intros x1 Hx x2. rewrite <- Hx.
    apply app_nth2_plus.
Qed.

Section CallerBatches.
Context (tp1 tp2 tq1 tq2 : list (list R)) (m1 m2 N1 N2 : list (list (list R))).
Context (sids : list string) (v1 v2 : list variant) (n1 : nat).
Context (Ltp : length tp1 = n1) (Ltq : length tq1 = n1) (Lm : length m1 = n1).
Context (Lv : length v1 = n1) (LN : length N1 = length N2).
Context (HN : Forall (fun p : list (list R) => length p = n1) N1).

Lemma call_site_l x x0 xm var s :
  (s < n1)%nat ->
  call_site x x0 xm (zip_with app N1 N2) sids var s = call_site x x0 xm N1 sids var s.
Proof.
  intros Hs. unfold call_site.
  destruct (argmin x0) as [i0|]; cbn [mbind option_bind]; [|done].
  destruct (x0 !! i0); cbn [mbind option_bind]; [|done].
  destruct (argmin (concat xm)) as [idx|]; cbn [mbind option_bind]; [|done].
  destruct (unravel_index idx xm) as [lg|]; cbn [mbind option_bind]; [|done].
  destruct (xm !! lg.1) as [rowl|]; cbn [mbind option_bind]; [|done].
  destruct (rowl !! lg.2); cbn [mbind option_bind]; [|done].
  rewrite lookup_zip_with.
  destruct (N1 !! lg.1) as [p1|] eqn:E1; cbn [mbind option_bind]; [|done].
  destruct (lookup_lt_is_Some_2 N2 lg.1) as [p2 E2].
  { apply lookup_lt_Some in E1. lia. }
  rewrite E2. cbn [mbind option_bind].
  pose proof (Forall_lookup_1 _ _ _ _ HN E1) as Lp. simpl in Lp.
  by rewrite lookup_app_l by lia.
Qed.

Lemma call_site_r x x0 xm var s :
  call_site x x0 xm (zip_with app N1 N2) sids var (n1 + s) =
  call_site x x0 xm N2 sids var s.
Proof.
  unfold call_site.
  destruct (argmin x0) as [i0|]; cbn [mbind option_bind]; [|done].
  destruct (x0 !! i0); cbn [mbind option_bind]; [|done].
  destruct (argmin (concat xm)) as [idx|]; cbn [mbind option_bind]; [|done].
  destruct (unravel_index idx xm) as [lg|]; cbn [mbind option_bind]; [|done].
  destruct (xm !! lg.1) as [rowl|]; cbn [mbind option_bind]; [|done].
  destruct (rowl !! lg.2); cbn [mbind option_bind]; [|done].
  rewrite lookup_zip_with.
  destruct (N1 !! lg.1) as [p1|] eqn:E1; cbn [mbind option_bind].
  - destruct (lookup_lt_is_Some_2 N2 lg.1) as [p2 E2].
    { apply lookup_lt_Some in E1. lia. }
    rewrite E2. cbn [mbind option_bind].
    pose proof (Forall_lookup_1 _ _ _ _ HN E1) as Lp. simpl in Lp.
    rewrite lookup_app_r by lia. by replace (n1 + s - length p1)%nat with s by lia.
  - apply lookup_ge_None in E1. rewrite (lookup_ge_None_2 N2) by lia. done.
Qed.

Lemma site_at_l s :
  (s < n1)%nat ->
  site_at (tp1 ++ tp2) (tq1 ++ tq2) (m1 ++ m2) (zip_with app N1 N2) sids (v1 ++ v2) s =
  site_at tp1 tq1 m1 N1 sids v1 s.
Proof.
  intros Hs. unfold site_at. rewrite !lookup_app_l by lia.
  destruct (tp1 !! s) as [x|]; cbn [mbind option_bind]; [|done].
  destruct (argmin x); cbn [mbind option_bind]; [|done].
  destruct (tq1 !! s) as [x0|]; cbn [mbind option_bind]; [|done].
  destruct (m1 !! s) as [xm|]; cbn [mbind option_bind]; [|done].
  destruct (v1 !! s) as [var|]; cbn [mbind option_bind]; [|done].
  by apply call_site_l.
Qed.

Lemma site_at_r s :
  site_at (tp1 ++ tp2) (tq1 ++ tq2) (m1 ++ m2) (zip_with app N1 N2) sids (v1 ++ v2)
          (n1 + s) =
  site_at tp2 tq2 m2 N2 sids v2 s.
Proof.
  unfold site_at. rewrite !lookup_app_r by lia.
  rewrite Ltp, Ltq, Lm, Lv. replace (n1 + s - n1)%nat with s by lia.
  destruct (tp2 !! s) as [x|]; cbn [mbind option_bind]; [|done].
  destruct (argmin x); cbn [mbind option_bind]; [|done].
  destruct (tq2 !! s) as [x0|]; cbn [mbind option_bind]; [|done].
  destruct (m2 !! s) as [xm|]; cbn [mbind option_bind]; [|done].
  destruct (v2 !! s) as [var|]; cbn [mbind option_bind]; [|done].
  apply call_site_r.
Qed.

Lemma call_sites_by_site_app :
  m1 <> [] -> m2 <> [] ->
  call_sites_by_site (tp1 ++ tp2) (tq1 ++ tq2) (m1 ++ m2) (Some (zip_with app N1 N2))
                     sids (v1 ++ v2) =
  '(r1, s1) ← call_sites_by_site tp1 tq1 m1 (Some N1) sids v1;
  '(r2, s2) ← call_sites_by_site tp2 tq2 m2 (Some N2) sids v2;
  Some (r1 ++ r2, s1 + s2).
Proof.
  intros Hm1 Hm2. unfold call_sites_by_site. cbn [mbind option_bind].
  assert (is_Some (head (m1 ++ m2))) as [? ->] by (destruct m1; [done | by eexists]).
  assert (is_Some (head m1)) as [? ->] by (destruct m1; [done | by eexists]).
  assert (is_Some (head m2)) as [? ->] by (destruct m2; [done | by eexists]).
  cbn [mbind option_bind].
  rewrite length_app, Lm, seq_app, mapM_app_eq. simpl (0 + n1)%nat.
  assert (mapM (site_at (tp1 ++ tp2) (tq1 ++ tq2) (m1 ++ m2) (zip_with app N1 N2) sids
                        (v1 ++ v2)) (seq 0 n1) =
          mapM (site_at tp1 tq1 m1 N1 sids v1) (seq 0 n1)) as ->.
  { apply mapM_ext_in, Forall_forall. intros s Hs. apply elem_of_seq in Hs.
    apply site_at_l. lia. }
  assert (mapM (site_at (tp1 ++ tp2) (tq1 ++ tq2) (m1 ++ m2) (zip_with app N1 N2) sids
                        (v1 ++ v2)) (seq n1 (length m2)) =
          mapM (site_at tp2 tq2 m2 N2 sids v2) (seq 0 (length m2))) as ->.
  { rewrite (seq_add n1 (length m2)), mapM_map_eq. apply mapM_ext_in, Forall_forall. intros s _. apply site_at_r. }
  destruct (mapM (site_at tp1 tq1 m1 N1 sids v1) _) as [r1|]; cbn [mbind option_bind];
    [|done].
  destruct (mapM (site_at tp2 tq2 m2 N2 sids v2) _) as [r2|]; cbn [mbind option_bind];
    [|none_r].
  rewrite mapM_app_eq.
  destruct (mapM _ r1) as [sc1|]; cbn [mbind option_bind]; [|done].
  destruct (mapM _ r2) as [sc2|]; cbn [mbind option_bind]; [|done].
  by rewrite Rsum_app.
Qed.

End CallerBatches.


(** ** The small run returns *)

Lemma tree2_binary : binary (skel tree2).
Proof. simpl. done. Qed.

Lemma small_run_total :
  is_Some (genotype PLs2 tree2 [var0] mmA mmA0 mmA1 prior2).
Proof.
  apply (genotype_total PLs2 tree2 [var0] mmA mmA0 mmA1 prior2 2 2).
  - exact PLs2_shape.
  - done.
  - lia.
  - lia.
  - exact mmA_positive.
  - exact mmA0_positive.
  - exact mmA1_positive.
  - exact tree2_binary.
  - reflexivity.
  - exact tree2_sids.
  - reflexivity.
  - simpl. lia.
Qed.

Lemma small_run_leaves t1 t2 t3 :
  populate_tree_PL tree2 PLs2 mmA aPL = Some t1 ->
  populate_tree_PL t1 PLs2 mmA0 aPL0 = Some t2 ->
  calc_mut_likelihoods t2 mmA0 mmA1 = Some t3 ->
  Forall (fun node => is_leaf node = true) (iter_descendants t3).
Proof.
  intros H1 H2 H3.
  pose proof (populate_aggregate PLs2 mmA aPL tree2) as Hp1. rewrite H1 in Hp1.
  destruct Hp1 as [[Hsk1 _] _].
  pose proof (populate_aggregate PLs2 mmA0 aPL0 t1) as Hp2. rewrite H2 in Hp2.
  destruct Hp2 as [[Hsk2 Hpr2] _].
  unfold calc_mut_likelihoods in H3.
  apply bind_Some in H3 as (pl0 & _ & H3).
  pose proof (calc_mut_node_placements PLs2 mmA0 mmA1 (length pl0) (ncols pl0) t2 Hpr2) as Hc.
  rewrite H3 in Hc. destruct Hc as (Hsk3 & _).
  pose proof (topo_descendants_skel t3) as Hd.
  rewrite Hsk3, Hsk2, Hsk1 in Hd. simpl in Hd.
  destruct (iter_descendants t3) as [|a [|b [|c l]]]; try done.
  injection Hd as Ha Hb.
  repeat constructor; rewrite <- is_leaf_skel; [by rewrite Ha | by rewrite Hb].
Qed.


(** ** The site caller *)

Lemma make_record_masses var nP tP mP g0 npl g1 g2 mpl l smpl :
  null_p (make_record var nP tP mP g0 npl g1 g2 mpl l smpl) = nP / tP /\
  mut_p (make_record var nP tP mP g0 npl g1 g2 mpl l smpl) = mP / tP /\
  mut_loc (make_record var nP tP mP g0 npl g1 g2 mpl l smpl) = l /\
  mut_alt (make_record var nP tP mP g0 npl g1 g2 mpl l smpl) = fixed_width 2 g2.
Proof. by destruct var as [[c p] rf]. Qed.

(** C4.  For every site [s] of a run of [genotype] that returns, the
    record of the site reports [null_p] as the sum over the genotypes of
    [ProbOf] of the prior-added [PL0] divided by the sum over the genotypes
    of [ProbOf] of the prior-added [PL], and [mut_p] as the sum over all
    (location, genotype) pairs of [ProbOf] of the prior-added mutation
    aggregate divided by the same denominator; the score of the run is the
    sum over the sites of [PhredOf (mut_p + null_p)].  (Floating-point
    numbers are read as reals.) *)
Theorem C4_site_caller PLs t vars mm mm0 mm1 prior records score :
  genotype PLs t vars mm mm0 mm1 prior = Some (records, score) ->
  exists t1 t2 t3 pl pl0 plm tree_PL tree_PL0 mut_PLs,
    populate_tree_PL t PLs mm aPL = Some t1 /\ PL t1 = Some pl /\
    madd_vec pl prior = Some tree_PL /\
    populate_tree_PL t1 PLs mm0 aPL0 = Some t2 /\ PL0 t2 = Some pl0 /\
    madd_vec pl0 prior = Some tree_PL0 /\
    calc_mut_likelihoods t2 mm0 mm1 = Some t3 /\ PLm t3 = Some plm /\
    mapM (mapM (fun v => vadd_into v prior)) (swapaxes01 plm) = Some mut_PLs /\
    length records = length PLs /\
    (forall s, (s < length PLs)%nat ->
       exists r x x0 xm,
         records !! s = Some r /\ tree_PL !! s = Some x /\
         tree_PL0 !! s = Some x0 /\ mut_PLs !! s = Some xm /\
         null_p r = Rsum (phred2p_v x0) / Rsum (phred2p_v x) /\
         mut_p r = Rsum (map (fun row => Rsum (phred2p_v row)) xm) / Rsum (phred2p_v x)) /\
    score = Rsum (map (fun r => PhredOf (mut_p r + null_p r)) records).
Proof.
  intros H.
  destruct (genotype_inv _ _ _ _ _ _ _ _ H)
    as (t1 & t2 & t3 & pl & pl0 & plm & tree_PL & tree_PL0 & mut_PLs & nulls &
        H1 & H2 & H3 & H4 & H5 & H6 & H7 & H8 & H9 & _ & _ & L1 & L2 & L3 & _ & Hc).
  apply call_sites_by_site_inv in Hc as (_ & Lr & Hsite & _ & Hscore).
  exists t1, t2, t3, pl, pl0, plm, tree_PL, tree_PL0, mut_PLs.
  split_and!; try done; [congruence|].
  intros s Hs. destruct (lookup_lt_is_Some_2 records s) as [r Hr]; [lia|].
  destruct (site_at_inv _ _ _ _ _ _ _ _ (Hsite s r Hr))
    as (x & ix & x0 & xm & var & i0 & npl & idx & lg & rowl & mpl & plane & row & i2 &
        g0 & g1 & g2 & smpl & Ex & _ & Ex0 & Exm & _ & _ & _ & _ & _ & _ & _ & _ & _ & _ &
        _ & _ & _ & _ & ->).
  exists (make_record var (Rsum (phred2p_v x0)) (Rsum (phred2p_v x))
            (Rsum (map (fun row => Rsum (phred2p_v row)) xm)) g0 npl g1 g2 mpl lg.1 smpl),
         x, x0, xm.
  destruct (make_record_masses var (Rsum (phred2p_v x0)) (Rsum (phred2p_v x))
              (Rsum (map (fun row => Rsum (phred2p_v row)) xm)) g0 npl g1 g2 mpl lg.1 smpl)
    as (E1 & E2 & _).
  done.
Qed.

Lemma C4_site_caller_witness :
  exists records score,
    genotype PLs2 tree2 [var0] mmA mmA0 mmA1 prior2 = Some (records, score) /\
    length records = length PLs2 /\
    score = Rsum (map (fun r => PhredOf (mut_p r + null_p r)) records).
Proof.
  destruct small_run_total as [[records score] H].
  exists records, score. split; [exact H|].
  destruct (C4_site_caller PLs2 tree2 [var0] mmA mmA0 mmA1 prior2 records score H)
    as (t1 & t2 & t3 & pl & pl0 & plm & tree_PL & tree_PL0 & mut_PLs & Hrest).
  destruct Hrest as (_ & _ & _ & _ & _ & _ & _ & _ & _ & Hl & _ & Hs).
  split; [exact Hl | exact Hs].
Defined.

(** C5 (as amended).  For every site of a run of [genotype] that returns,
    the reported mutant genotype [mut_alt] is the genotype minimizing the
    no-mutation aggregate [PL0], at that site, of the node at the chosen
    best mutation location [mut_loc] in the post-order list of all the
    nodes below the root, leaves included. *)
Theorem C5_mutant_genotype PLs t vars mm mm0 mm1 prior records score :
  genotype PLs t vars mm mm0 mm1 prior = Some (records, score) ->
  exists t1 t2 t3 plm mut_PLs,
    populate_tree_PL t PLs mm aPL = Some t1 /\
    populate_tree_PL t1 PLs mm0 aPL0 = Some t2 /\
    calc_mut_likelihoods t2 mm0 mm1 = Some t3 /\ PLm t3 = Some plm /\
    mapM (mapM (fun v => vadd_into v prior)) (swapaxes01 plm) = Some mut_PLs /\
    length records = length PLs /\
    forall s r, records !! s = Some r ->
      exists xm idx j node node_PL0 row i x,
        mut_PLs !! s = Some xm /\ argmin (concat xm) = Some idx /\
        unravel_index idx xm = Some (mut_loc r, j) /\
        iter_descendants t3 !! mut_loc r = Some node /\
        PL0 node = Some node_PL0 /\ aggregate PLs mm0 (skel node) = Some node_PL0 /\
        node_PL0 !! s = Some row /\
        argmin row = Some i /\ row !! i = Some x /\ Forall (fun y => x <= y) row /\
        GTYPE10 !! i = Some (mut_alt r).
Proof.
  intros H.
  destruct (genotype_inv _ _ _ _ _ _ _ _ H)
    as (t1 & t2 & t3 & pl & pl0 & plm & tree_PL & tree_PL0 & mut_PLs & nulls &
        H1 & H2 & H3 & H4 & H5 & H6 & H7 & H8 & H9 & _ & Hpr & L1 & L2 & L3 & Hn & Hc).
  apply call_sites_by_site_inv in Hc as (_ & Lr & Hsite & _ & _).
  exists t1, t2, t3, plm, mut_PLs. split_and!; try done; [congruence|].
  intros s r Hr.
  destruct (site_at_inv _ _ _ _ _ _ _ _ (Hsite s r Hr))
    as (x & ix & x0 & xm & var & i0 & npl & idx & [l j] & rowl & mpl & plane & row & i2 &
        g0 & g1 & g2 & smpl & _ & _ & _ & Exm & _ & _ & _ & Eidx & Elg & _ & _ & Epl &
        Erow & Ei2 & _ & _ & Eg2 & _ & ->).
  simpl in Epl.
  destruct (make_record_masses var (Rsum (phred2p_v x0)) (Rsum (phred2p_v x))
              (Rsum (map (fun row => Rsum (phred2p_v row)) xm)) g0 npl g1 g2 mpl
              (l, j).1 smpl) as (_ & _ & -> & ->).
  simpl fst. rewrite (fixed_width_gtype _ _ Eg2).
  destruct (mapM_lookup_r _ _ _ _ _ Hn Epl) as (node & Hnode & Hpl0).
  destruct (argmin_spec _ _ Ei2) as (y & Hy & Hmin & _).
  exists xm, idx, j, node, plane, row, i2, y. split_and!; try done.
  unfold pruned in Hpr. rewrite traverse_postorder_unfold in Hpr.
  apply Forall_app in Hpr as [Hpr _].
  pose proof (Forall_lookup_1 _ _ _ _ Hpr Hnode) as [_ Hagg]. simpl in Hagg.
  by rewrite <- Hagg.
Qed.

Lemma C5_mutant_genotype_witness :
  exists records score,
    genotype PLs2 tree2 [var0] mmA mmA0 mmA1 prior2 = Some (records, score) /\
    length records = length PLs2.
Proof.
  destruct small_run_total as [[records score] H].
  exists records, score. split; [exact H|].
  destruct (C5_mutant_genotype PLs2 tree2 [var0] mmA mmA0 mmA1 prior2 records score H)
    as (t1 & t2 & t3 & plm & mut_PLs & Hrest).
  destruct Hrest as (_ & _ & _ & _ & _ & Hl & _). exact Hl.
Defined.

(** C5 as stated fails on the two-leaf tree: the run returns a record, and
    the node at the chosen location is a leaf, so that no internal node
    is looked up. *)
Lemma C5_internal_nodes_counterexample :
  exists records score t1 t2 t3 r,
    genotype PLs2 tree2 [var0] mmA mmA0 mmA1 prior2 = Some (records, score) /\
    populate_tree_PL tree2 PLs2 mmA aPL = Some t1 /\
    populate_tree_PL t1 PLs2 mmA0 aPL0 = Some t2 /\
    calc_mut_likelihoods t2 mmA0 mmA1 = Some t3 /\
    records !! 0%nat = Some r /\
    (exists node, iter_descendants t3 !! mut_loc r = Some node /\ is_leaf node = true) /\
    ~ exists node, internal_node_at t3 (mut_loc r) node.
Proof.
  destruct small_run_total as [[records score] H].
  destruct (genotype_inv _ _ _ _ _ _ _ _ H)
    as (t1 & t2 & t3 & pl & pl0 & plm & tree_PL & tree_PL0 & mut_PLs & nulls &
        H1 & H2 & H3 & H4 & H5 & H6 & H7 & H8 & H9 & _ & Hpr & L1 & L2 & L3 & Hn & Hc).
  pose proof (small_run_leaves t1 t2 t3 H1 H4 H7) as Hleaves.
  apply call_sites_by_site_inv in Hc as (_ & Lr & Hsite & _ & _).
  destruct (lookup_lt_is_Some_2 records 0) as [r Hr]; [rewrite Lr, L3; simpl; lia|].
  exists records, score, t1, t2, t3, r. split_and!; try done.
  - destruct (site_at_inv _ _ _ _ _ _ _ _ (Hsite 0%nat r Hr))
      as (x & ix & x0 & xm & var & i0 & npl & idx & lg & rowl & mpl & plane & row & i2 &
          g0 & g1 & g2 & smpl & _ & _ & _ & _ & _ & _ & _ & _ & _ & _ & _ & Epl &
          _ & _ & _ & _ & _ & _ & ->).
    destruct (make_record_masses var (Rsum (phred2p_v x0)) (Rsum (phred2p_v x))
                (Rsum (map (fun row => Rsum (phred2p_v row)) xm)) g0 npl g1 g2 mpl
                lg.1 smpl) as (_ & _ & -> & _).
    destruct (mapM_lookup_r _ _ _ _ _ Hn Epl) as (node & Hnode & _).
    exists node. split; [done|]. by apply (Forall_lookup_1 _ _ _ _ Hleaves Hnode).
  - intros (node & Hnode & Hint).
    pose proof (Forall_lookup_1 _ _ _ _ Hleaves Hnode) as Hl. simpl in Hl. congruence.
Qed.


(** ** Batches *)

(** [genotype] raises on a batch with no site: [k1[:,0]] indexes an array
    of shape [(0,)]. *)
Lemma genotype_no_site t vars mm mm0 mm1 prior :
  genotype [] t vars mm mm0 mm1 prior = None.
Proof.
  rewrite genotype_by_site.
  destruct (aggregate [] mm (skel t)) as [pl|]; cbn [mbind option_bind]; [|done].
  destruct (madd_vec pl prior) as [tree_PL|]; cbn [mbind option_bind]; [|done].
  destruct (aggregate [] mm0 (skel t)) as [pl0|] eqn:E0; cbn [mbind option_bind]; [|done].
  destruct (madd_vec pl0 prior) as [tree_PL0|]; cbn [mbind option_bind]; [|done].
  destruct (placements _ _ _ _ _ _) as [plm|] eqn:Ep; cbn [mbind option_bind]; [|done].
  destruct (mapM _ (swapaxes01 plm)) as [mut_PLs|] eqn:Em; cbn [mbind option_bind]; [|done].
  apply aggregate_length in E0. apply placements_rows in Ep as [_ Hrows].
  apply length_mapM in Em. rewrite length_swapaxes01 in Em.
  assert (mut_PLs = []) as ->.
  { destruct plm as [|p0 plm]; [by destruct mut_PLs|].
    apply Forall_inv in Hrows. simpl in *. destruct mut_PLs; [done | simpl in *; lia]. }
  apply call_sites_by_site_no_site.
Qed.

(** The rows of an aggregate have one length, whatever the sites. *)
Lemma vadd_length (u v w : list R) :
  vadd u v = Some w ->
  length w = if (length u =? length v)%nat then length u
             else if (length u =? 1)%nat then length v else length u.
Proof.
  unfold vadd. destruct (length u =? length v)%nat eqn:E.
  - intros [= <-]. apply Nat.eqb_eq in E. rewrite length_zip_with. lia.
  - destruct (length u =? 1)%nat; [intros [= <-]; by rewrite length_map|].
    destruct (length v =? 1)%nat; [intros [= <-]; by rewrite length_map | done].
Qed.

Lemma transition_cols (cv : list (list R)) mm y :
  transition cv mm = Some y -> Forall (fun row => length row = ncols mm) y.
Proof.
  intros H. apply mapM_Some in H. induction H as [|row yr cv y Hr _ IH]; constructor; [|done].
  unfold transition_v in Hr. apply bind_Some in Hr as (d & Hd & Hy).
  apply length_mapM in Hy. rewrite <- Hy. unfold dotv in Hd.
  destruct (_ =? _)%nat; [|done]. injection Hd as <-. by rewrite length_map, length_seq.
Qed.

Lemma fold_children_cols mm k c :
  exists c', forall (vals : list (list (list R))) (acc v : list (list R)),
    length vals = k -> Forall (fun row => length row = c) acc ->
    foldlM (fun acc cv => y ← transition cv mm; madd_rows acc y) acc vals = Some v ->
    Forall (fun row => length row = c') v.
Proof.
  revert c. induction k as [|k IH]; intros c.
  { exists c. intros [|? ?] acc v L Hacc H; [|done]. by injection H as <-. }
  destruct (IH (if (c =? ncols mm)%nat then c else if (c =? 1)%nat then ncols mm else c))
    as [c' Hc'].
  exists c'. intros [|x vals] acc v L Hacc H; [done|]. simpl in L, H.
  apply bind_Some in H as (acc1 & H1 & H). apply bind_Some in H1 as (y & Hy & H1).
  apply (Hc' vals acc1 v); [lia | | exact H].
  apply transition_cols in Hy.
  apply Forall_forall. intros w Hw. apply list_elem_of_lookup in Hw as [i Hi].
  destruct (zipM_lookup _ _ _ _ _ _ H1 Hi) as (u & yr & Hu & Hyr & Hv).
  apply vadd_length in Hv.
  pose proof (Forall_lookup_1 _ _ _ _ Hacc Hu) as Lu.
  pose proof (Forall_lookup_1 _ _ _ _ Hy Hyr) as Ly. simpl in Lu, Ly.
  by rewrite Hv, Lu, Ly.
Qed.

Lemma aggregate_cols m g mm s :
  (0 < m)%nat ->
  exists c, forall (PLs : list (list (list R))) v,
    Forall (has_shape m g) PLs -> aggregate PLs mm s = Some v ->
    Forall (fun row => length row = c) v.
Proof.
  intros Hm. destruct (topo_leaf s) eqn:El.
  { exists g. intros PLs v Hrect H. rewrite aggregate_unfold, El in H.
    apply bind_Some in H as (i & _ & H). by apply (leaf_rows_shape m g) in H as [_ H]. }
  destruct (fold_children_cols mm (length (t_children s)) g) as [c Hc].
  exists c. intros PLs v Hrect H. rewrite aggregate_unfold, El in H.
  apply bind_Some in H as (vals & Hvals & H).
  refine (Hc vals _ v _ _ H); [by apply length_mapM in Hvals|].
  destruct Hrect as [|site PLs [Ls Rs] _]; [constructor|].
  simpl hd. destruct Rs as [|row site Hrow _]; [simpl in Ls; lia|].
  simpl hd. rewrite Hrow. by destruct (zeros2_shape (length ((row :: site) :: PLs)) g).
Qed.

Lemma ncols_rows c (b : list (list R)) :
  b <> [] -> Forall (fun row => length row = c) b -> ncols b = c.
Proof. intros Hne H. destruct H; [done|]. done. Qed.

(** With no sample in the array, no leaf finds its vector. *)
Lemma aggregate_no_sample g (PLs : list (list (list R))) mm s :
  Forall (has_shape 0 g) PLs -> PLs <> [] -> aggregate PLs mm s = None.
Proof.
  intros Hrect Hne. induction s as [sd cs IH] using topo_ind.
  rewrite aggregate_unfold. destruct cs as [|c cs]; simpl.
  - destruct (head sd) as [i|]; [|done]. cbn [mbind option_bind].
    destruct Hrect as [|site PLs [Ls _] _]; [done|].
    apply length_zero_iff_nil in Ls. subst site.
    rewrite mapM_cons_eq. unfold py_index. simpl.
    destruct (0 <=? i)%Z; [by rewrite lookup_nil|].
    destruct (- Z.of_nat 0 <=? i)%Z; [by rewrite lookup_nil | done].
  - apply Forall_cons in IH as [-> _]. done.
Qed.

Lemma genotype_no_sample g PLs t vars mm mm0 mm1 prior :
  Forall (has_shape 0 g) PLs -> PLs <> [] -> genotype PLs t vars mm mm0 mm1 prior = None.
Proof.
  intros Hrect Hne. rewrite genotype_by_site.
  by rewrite (aggregate_no_sample g PLs mm (skel t) Hrect Hne).
Qed.

(** C7 (as amended).  For every list of sites, each an array over the
    same samples and genotypes, split into two consecutive batches neither
    of which is empty, with the variant rows split at the same place, [genotype] on the whole list returns exactly
    when it returns on both batches, its records are the records of the
    first batch followed by those of the second, and its score is the sum
    of the two batch scores. *)
Theorem C7_batch_split PLs1 PLs2 t vars1 vars2 mm mm0 mm1 prior m g :
  Forall (has_shape m g) (PLs1 ++ PLs2) ->
  PLs1 <> [] -> PLs2 <> [] -> length vars1 = length PLs1 ->
  genotype (PLs1 ++ PLs2) t (vars1 ++ vars2) mm mm0 mm1 prior =
  '(r1, s1) ← genotype PLs1 t vars1 mm mm0 mm1 prior;
  '(r2, s2) ← genotype PLs2 t vars2 mm mm0 mm1 prior;
  Some (r1 ++ r2, s1 + s2).
Proof.
  intros Hrect Hne1 Hne2 Lv.
  pose proof Hrect as Hr. apply Forall_app in Hr as [Hr1 Hr2].
  destruct (Nat.eq_dec m 0%nat) as [->|Hm0].
  { rewrite (genotype_no_sample g (PLs1 ++ PLs2)), (genotype_no_sample g PLs1); try done.
    by destruct PLs1. }
  assert (0 < m)%nat as Hm by lia.
  assert (0 < length PLs1)%nat as Hn1 by (destruct PLs1; [done | simpl; lia]).
  assert (0 < length PLs2)%nat as Hn2 by (destruct PLs2; [done | simpl; lia]).
  rewrite !genotype_by_site.
  rewrite (aggregate_app m g _ _ mm _ Hrect).
  destruct (aggregate PLs1 mm (skel t)) as [a1|] eqn:Ea1; cbn [mbind option_bind]; [|done].
  destruct (aggregate PLs2 mm (skel t)) as [a2|] eqn:Ea2; cbn [mbind option_bind]; [|none_r].
  rewrite madd_vec_app.
  destruct (madd_vec a1 prior) as [tp1|] eqn:Etp1; cbn [mbind option_bind]; [|done].
  destruct (madd_vec a2 prior) as [tp2|] eqn:Etp2; cbn [mbind option_bind]; [|none_r].
  rewrite (aggregate_app m g _ _ mm0 _ Hrect).
  destruct (aggregate PLs1 mm0 (skel t)) as [b1|] eqn:Eb1; cbn [mbind option_bind]; [|done].
  destruct (aggregate PLs2 mm0 (skel t)) as [b2|] eqn:Eb2; cbn [mbind option_bind]; [|none_r].
  rewrite madd_vec_app.
  destruct (madd_vec b1 prior) as [tq1|] eqn:Etq1; cbn [mbind option_bind]; [|done].
  destruct (madd_vec b2 prior) as [tq2|] eqn:Etq2; cbn [mbind option_bind]; [|none_r].
  destruct (aggregate_cols m g mm0 (skel t) Hm) as [c Hc].
  pose proof (Hc _ _ Hr1 Eb1) as Cb1. pose proof (Hc _ _ Hr2 Eb2) as Cb2.
  pose proof (aggregate_length _ _ _ _ Eb1) as Lb1.
  pose proof (aggregate_length _ _ _ _ Eb2) as Lb2.
  assert (b1 <> []) as Nb1 by (destruct b1; [simpl in Lb1; lia | done]).
  assert (b2 <> []) as Nb2 by (destruct b2; [simpl in Lb2; lia | done]).
  rewrite (ncols_rows c (b1 ++ b2)), (ncols_rows c b1), (ncols_rows c b2);
    [|done|done|done|done|by destruct b1|by apply Forall_app].
  rewrite length_app, Lb1, Lb2.
  rewrite (placements_app PLs1 PLs2 mm0 mm1 m g c Hrect).
  destruct (placements PLs1 _ _ _ _ _) as [p1|] eqn:Ep1; cbn [mbind option_bind]; [|done].
  destruct (placements PLs2 _ _ _ _ _) as [p2|] eqn:Ep2; cbn [mbind option_bind]; [|none_r].
  apply placements_rows in Ep1 as [Lp1 Rp1]. apply placements_rows in Ep2 as [Lp2 Rp2].
  rewrite (swapaxes01_app (length PLs1) (length PLs2)) by (done || congruence).
  rewrite mapM_app_eq.
  destruct (mapM _ (swapaxes01 p1)) as [mu1|] eqn:Em1; cbn [mbind option_bind]; [|done].
  destruct (mapM _ (swapaxes01 p2)) as [mu2|] eqn:Em2; cbn [mbind option_bind]; [|none_r].
  apply length_mapM in Em1, Em2. rewrite length_swapaxes01 in Em1, Em2.
  destruct p1 as [|pa p1].
  { destruct p2 as [|pb p2]; [|simpl in *; lia].
    destruct mu1; [|done]. destruct mu2; [|done]. simpl app.
    by rewrite !call_sites_by_site_no_site. }
  destruct p2 as [|pb p2]; [simpl in *; lia|].
  apply Forall_inv in Rp1, Rp2. simpl in Em1, Em2.
  assert (mapM (aggregate (PLs1 ++ PLs2) mm0) (topo_descendants (skel t)) =
          N1 ← mapM (aggregate PLs1 mm0) (topo_descendants (skel t));
          N2 ← mapM (aggregate PLs2 mm0) (topo_descendants (skel t));
          Some (zip_with app N1 N2)) as ->.
  { rewrite <- mapM_both. apply mapM_ext_in, Forall_forall. intros d _.
    apply (aggregate_app m g). exact Hrect. }
  destruct (mapM (aggregate PLs1 mm0) _) as [N1|] eqn:EN1; cbn [mbind option_bind];
    [|done].
  destruct (mapM (aggregate PLs2 mm0) _) as [N2|] eqn:EN2; cbn [mbind option_bind].
  2:{ unfold call_sites_by_site at 1 3. none_r. }
  apply (call_sites_by_site_app tp1 tp2 tq1 tq2 mu1 mu2 N1 N2 _ vars1 vars2 (length PLs1)).
  - apply madd_vec_length in Etp1. apply aggregate_length in Ea1. congruence.
  - apply madd_vec_length in Etq1. apply aggregate_length in Eb1. congruence.
  - congruence.
  - done.
  - apply length_mapM in EN1, EN2. congruence.
  - apply mapM_Some in EN1. clear -EN1.
    induction EN1 as [|d v ds vs Hv _ IH]; constructor; [|done].
    by apply aggregate_length in Hv.
  - destruct mu1; [simpl in *; lia | done].
  - destruct mu2; [simpl in *; lia | done].
Qed.

Lemma C7_batch_split_witness :
  genotype (PLs2 ++ PLs2) tree2 ([var0] ++ [var0]) mmA mmA0 mmA1 prior2 =
  '(r1, s1) ← genotype PLs2 tree2 [var0] mmA mmA0 mmA1 prior2;
  '(r2, s2) ← genotype PLs2 tree2 [var0] mmA mmA0 mmA1 prior2;
  Some (r1 ++ r2, s1 + s2).
Proof.
  apply (C7_batch_split PLs2 PLs2 tree2 [var0] [var0] mmA mmA0 mmA1 prior2 2 2).
  - repeat constructor.
  - discriminate.
  - discriminate.
  - reflexivity.
Defined.

(** C7 as stated fails when a batch is empty: the run on the whole list
    returns, the run on the empty first batch raises. *)
Lemma C7_empty_batch_counterexample :
  is_Some (genotype ([] ++ PLs2) tree2 ([] ++ [var0]) mmA mmA0 mmA1 prior2) /\
  genotype [] tree2 [] mmA mmA0 mmA1 prior2 = None /\
  genotype ([] ++ PLs2) tree2 ([] ++ [var0]) mmA mmA0 mmA1 prior2 <>
  ('(r1, s1) ← genotype [] tree2 [] mmA mmA0 mmA1 prior2;
   '(r2, s2) ← genotype PLs2 tree2 [var0] mmA mmA0 mmA1 prior2;
   Some (r1 ++ r2, s1 + s2)).
Proof.
  pose proof small_run_total as Hs. split; [exact Hs|].
  split; [apply genotype_no_site|].
  rewrite genotype_no_site. simpl. destruct Hs as [res Hs]. rewrite Hs. done.
Qed.


(** ** The run writes to new objects only *)

Lemma dict_get_set name r d key :
  Store.dict_get key (Store.dict_set name r d) =
  if String.eqb name key then Some r else Store.dict_get key d.
Proof.
  induction d as [|[k r'] d IH]; simpl.
  - done.
  - destruct (String.eqb k name) eqn:E; simpl.
    + apply String.eqb_eq in E as ->. by destruct (String.eqb name key).
    + rewrite IH. destruct (String.eqb k key) eqn:E'; [|done].
      apply String.eqb_eq in E' as ->. by rewrite String.eqb_sym, E.
Qed.

Section Frame.
Context (s0 : Store.store).

Local Abbreviation n0 := (length (Store.nodes s0)).
Local Abbreviation a0 := (length (Store.arrays s0)).
Local Abbreviation new_loc := (fun l : nat => (n0 <= l)%nat).
Local Abbreviation new_ref := (fun r : Store.aref => (a0 <= Store.base r)%nat).
Local Abbreviation new_obj :=
  (fun obj : Store.node_obj =>
     Forall new_loc (Store.o_children obj) /\
     forall r, Store.dict_get "PLm" (Store.o_dict obj) = Some r -> new_ref r).
Local Abbreviation any := (fun _ => True).

Lemma inv_start : Store.inv s0 s0.
Proof.
  split; [by split|]. intros l obj Hl Hobj. apply lookup_lt_Some in Hobj. lia.
Qed.

(** *** Rules *)

Lemma keeps_weaken {A} (m : Store.M A) (Q Q' : A -> Prop) :
  Store.keeps s0 m Q -> (forall x, Q x -> Q' x) -> Store.keeps s0 m Q'.
Proof. intros H HQ s Hs. destruct (H s Hs) as [Hi Hx]. split; [done|]. auto. Qed.

Lemma keeps_ret {A} (x : A) (Q : A -> Prop) : Q x -> Store.keeps s0 (Store.ret x) Q.
Proof. intros H s Hs. split; [done|]. simpl. by intros ? [= <-]. Qed.

Lemma keeps_bind {A B} (m : Store.M A) (k : A -> Store.M B) Q R :
  Store.keeps s0 m Q -> (forall x, Q x -> Store.keeps s0 (k x) R) ->
  Store.keeps s0 (Store.bind m k) R.
Proof.
  intros Hm Hk s Hs. destruct (Hm s Hs) as [Hi Hx]. unfold Store.bind.
  destruct (m s) as [[x|] s']; simpl in *; [|by split].
  exact (Hk x (Hx x eq_refl) s' Hi).
Qed.

Lemma keeps_lift {A} (o : option A) (Q : A -> Prop) :
  (forall x, o = Some x -> Q x) -> Store.keeps s0 (Store.lift o) Q.
Proof. intros H s Hs. split; [done|]. exact H. Qed.

Lemma keeps_gets {A} (f : Store.store -> option A) (Q : A -> Prop) :
  (forall s x, Store.inv s0 s -> f s = Some x -> Q x) -> Store.keeps s0 (Store.gets f) Q.
Proof. intros H s Hs. split; [done|]. simpl. intros x Hx. by apply (H s). Qed.

Lemma keeps_lift_any {A} (o : option A) : Store.keeps s0 (Store.lift o) any.
Proof. by apply keeps_lift. Qed.

Lemma keeps_gets_any {A} (f : Store.store -> option A) :
  Store.keeps s0 (Store.gets f) any.
Proof. by apply keeps_gets. Qed.

Lemma keeps_for_each {A} (l : list A) (body : A -> Store.M unit) :
  Forall (fun x => Store.keeps s0 (body x) any) l ->
  Store.keeps s0 (Store.for_each l body) any.
Proof.
  induction 1 as [|x l Hx _ IH]; simpl; [by apply keeps_ret|].
  eapply keeps_bind; [exact Hx|]. intros _ _. exact IH.
Qed.

Lemma keeps_fold_each {A B} (body : B -> A -> Store.M B) (l : list A) b :
  (forall b x, Store.keeps s0 (body b x) any) ->
  Store.keeps s0 (Store.fold_each body b l) any.
Proof.
  intros H. revert b. induction l as [|x l IH]; intros b; simpl; [by apply keeps_ret|].
  eapply keeps_bind; [apply H|]. intros b' _. apply IH.
Qed.

Lemma keeps_map_each {A B} (f : A -> Store.M B) (Q : B -> Prop) (l : list A) :
  (forall x, Store.keeps s0 (f x) Q) ->
  Store.keeps s0 (Store.map_each f l) (Forall Q).
Proof.
  intros H. induction l as [|x l IH]; simpl; [by apply keeps_ret|].
  eapply keeps_bind; [apply H|]. intros y Hy.
  eapply keeps_bind; [exact IH|]. intros ys Hys.
  apply keeps_ret. by constructor.
Qed.

(** *** Objects *)

Lemma prefix_insert_new {A} (l1 l2 : list A) i x :
  l1 `prefix_of` l2 -> (length l1 <= i)%nat -> l1 `prefix_of` <[i := x]> l2.
Proof.
  intros [k ->] Hi. exists (<[(i - length l1)%nat := x]> k).
  by rewrite insert_app_r_alt.
Qed.

Lemma keeps_alloc x : Store.keeps s0 (Store.alloc x) (fun a => (a0 <= a)%nat).
Proof.
  intros s [[Hn Ha] Hr]. simpl. split.
  - split; [split|]; simpl; [done | by apply prefix_app_r | exact Hr].
  - intros a [= <-]. by apply prefix_length.
Qed.

Lemma keeps_new_node obj : new_obj obj -> Store.keeps s0 (Store.new_node obj) new_loc.
Proof.
  intros Hobj s [[Hn Ha] Hr]. simpl. split.
  - split; [split|]; simpl; [by apply prefix_app_r | done |].
    intros l o Hl Ho. simpl in Ho. apply lookup_app_Some in Ho as [Ho|[_ Ho]].
    + by apply (Hr l).
    + apply list_lookup_singleton_Some in Ho as [_ <-]. exact Hobj.
  - intros l [= <-]. by apply prefix_length.
Qed.

Lemma keeps_set_node l obj :
  new_loc l -> new_obj obj -> Store.keeps s0 (Store.set_node l obj) any.
Proof.
  intros Hl Hobj s Hs. pose proof Hs as [[Hn Ha] Hr]. unfold Store.set_node.
  destruct (l <? length (Store.nodes s))%nat eqn:E; simpl; [|by split].
  apply Nat.ltb_lt in E. split; [|done].
  split; [split|]; simpl; [by apply prefix_insert_new | done |].
  intros l' o Hl' Ho. simpl in Ho.
  destruct (decide (l = l')) as [<-|Hne].
  - rewrite list_lookup_insert_eq in Ho by done. injection Ho as <-. exact Hobj.
  - rewrite list_lookup_insert_ne in Ho by done. by apply (Hr l').
Qed.

Lemma keeps_get_node l :
  new_loc l -> Store.keeps s0 (Store.get_node l) new_obj.
Proof.
  intros Hl. apply keeps_gets. intros s obj [_ Hr] Hobj. by apply (Hr l).
Qed.

Lemma keeps_get_node_any l : Store.keeps s0 (Store.get_node l) any.
Proof. by apply keeps_gets. Qed.

Lemma keeps_getattr l name : Store.keeps s0 (Store.getattr l name) any.
Proof.
  eapply keeps_bind; [apply keeps_get_node_any|]. intros obj _. by apply keeps_lift.
Qed.

Lemma keeps_getattr_PLm l :
  new_loc l -> Store.keeps s0 (Store.getattr l "PLm") new_ref.
Proof.
  intros Hl. eapply keeps_bind; [by apply keeps_get_node|]. intros obj [_ Hobj].
  by apply keeps_lift.
Qed.

Lemma keeps_setattr l name r :
  new_loc l -> (name = "PLm"%string -> new_ref r) ->
  Store.keeps s0 (Store.setattr l name r) any.
Proof.
  intros Hl Hr. eapply keeps_bind; [by apply keeps_get_node|]. intros obj [Hc Hd].
  apply keeps_set_node; [done|]. split; [done|]. simpl. intros r'.
  rewrite dict_get_set. destruct (String.eqb name "PLm") eqn:E.
  - apply String.eqb_eq in E. intros [= <-]. by apply Hr.
  - apply Hd.
Qed.

Lemma keeps_read2 r : Store.keeps s0 (Store.read2 r) any.
Proof. by apply keeps_gets. Qed.

Lemma keeps_read3 r : Store.keeps s0 (Store.read3 r) any.
Proof. by apply keeps_gets. Qed.

Lemma keeps_write3 r y : new_ref r -> Store.keeps s0 (Store.write3 r y) any.
Proof.
  intros Hr s Hs. pose proof Hs as [[Hn Ha] Hreg]. unfold Store.write3.
  destruct r as [a|a i|a]; simpl in Hr; [| by split |];
    (destruct (a <? length (Store.arrays s))%nat; simpl; [|by split];
     split; [|done]; split; [split|]; simpl;
     [done | by apply prefix_insert_new | exact Hreg]).
Qed.

(** *** Traversals *)

Lemma traverse_from_new fuel s l order :
  Store.region n0 a0 s -> new_loc l ->
  Store.traverse_from fuel s l = Some order -> Forall new_loc order.
Proof.
  intros Hreg. revert l order. induction fuel as [|f IH]; intros l order Hl H; [done|].
  simpl in H. apply bind_Some in H as (obj & Hobj & H).
  apply bind_Some in H as (below & Hb & [= <-]).
  destruct (Hreg l obj Hl Hobj) as [Hc _].
  apply Forall_app. split; [|by constructor].
  apply Forall_concat. apply mapM_Some in Hb.
  induction Hb as [|c o cs below Ho _ IHb]; [constructor|].
  apply Forall_cons in Hc as [Hc1 Hc]. constructor; [by apply (IH c) | by apply IHb].
Qed.

Lemma keeps_traverse l :
  new_loc l -> Store.keeps s0 (Store.traverse l) (Forall new_loc).
Proof.
  intros Hl. apply keeps_gets. intros s order [_ Hreg] H.
  exact (traverse_from_new _ s l order Hreg Hl H).
Qed.

Lemma keeps_iter_descendants l : Store.keeps s0 (Store.iter_descendants l) any.
Proof. by apply keeps_gets. Qed.

Lemma keeps_len l : Store.keeps s0 (Store.len l) any.
Proof. by apply keeps_gets. Qed.

Lemma keeps_get_sisters c : Store.keeps s0 (Store.get_sisters c) any.
Proof.
  eapply keeps_bind; [apply keeps_get_node_any|]. intros obj _.
  destruct (Store.o_up obj) as [p|]; [|by apply keeps_ret].
  eapply keeps_bind; [apply keeps_get_node_any|]. intros pobj _. by apply keeps_ret.
Qed.

(** *** [tree.copy()] *)

Lemma keeps_copy_attr e :
  Store.keeps s0 (Store.copy_attr e) (fun e' => new_ref e'.2).
Proof.
  eapply keeps_bind; [apply keeps_gets_any|]. intros x _.
  eapply keeps_bind; [apply keeps_alloc|]. intros a Ha. by apply keeps_ret.
Qed.

Lemma dict_get_new name d r :
  Forall (fun e : string * Store.aref => new_ref e.2) d ->
  Store.dict_get name d = Some r -> new_ref r.
Proof.
  induction 1 as [|[k r'] d Hk _ IH]; simpl; [done|].
  destruct (String.eqb k name); [by intros [= <-] | exact IH].
Qed.

Lemma keeps_copy_node fuel l up :
  Store.keeps s0 (Store.copy_node fuel l up) new_loc.
Proof.
  revert l up. induction fuel as [|f IH]; intros l up; simpl; [by apply keeps_lift|].
  eapply keeps_bind; [apply keeps_get_node_any|]. intros obj _.
  eapply keeps_bind; [by apply keeps_new_node|]. intros l' Hl'.
  eapply keeps_bind; [apply keeps_map_each, keeps_copy_attr|]. intros d Hd.
  eapply keeps_bind; [apply keeps_map_each; intros c; apply IH|]. intros cs Hcs.
  eapply keeps_bind.
  - apply keeps_set_node; [done|]. split; [done|]. simpl. intros r. by apply dict_get_new.
  - intros _ _. by apply keeps_ret.
Qed.

Lemma keeps_copy l : Store.keeps s0 (Store.copy l) new_loc.
Proof. intros s Hs. exact (keeps_copy_node _ l None s Hs). Qed.

(** *** The passes *)

Lemma keeps_populate_node pa n g mm attr node :
  new_loc node -> attr <> "PLm"%string ->
  Store.keeps s0 (Store.populate_node pa n g mm attr node) any.
Proof.
  intros Hnode Hattr. unfold Store.populate_node.
  eapply keeps_bind; [apply keeps_get_node_any|]. intros obj _.
  destruct (Store.o_children obj) as [|c cs].
  - eapply keeps_bind; [apply keeps_lift_any|]. intros i _.
    eapply keeps_bind; [apply keeps_read2|]. intros _ _.
    by apply keeps_setattr.
  - eapply keeps_bind; [apply keeps_alloc|]. intros z Hz.
    eapply keeps_bind; [by apply keeps_setattr|]. intros _ _.
    apply keeps_for_each, Forall_forall. intros child _.
    eapply keeps_bind; [apply keeps_getattr|]. intros r _.
    eapply keeps_bind; [apply keeps_read2|]. intros acc _.
    eapply keeps_bind; [apply keeps_getattr|]. intros rc _.
    eapply keeps_bind; [apply keeps_read2|]. intros cv _.
    eapply keeps_bind; [apply keeps_lift_any|]. intros y _.
    eapply keeps_bind; [apply keeps_lift_any|]. intros v _.
    eapply keeps_bind; [apply keeps_alloc|]. intros a Ha.
    by apply keeps_setattr.
Qed.

Lemma keeps_populate_tree_PL tree pa mm attr :
  new_loc tree -> attr <> "PLm"%string ->
  Store.keeps s0 (Store.populate_tree_PL tree pa mm attr) new_loc.
Proof.
  intros Htree Hattr. unfold Store.populate_tree_PL.
  eapply keeps_bind; [apply keeps_read3|]. intros x _.
  eapply keeps_bind; [by apply keeps_traverse|]. intros order Horder.
  eapply keeps_bind.
  - apply keeps_for_each. eapply Forall_impl; [exact Horder|]. simpl.
    intros node Hnode. by apply keeps_populate_node.
  - intros _ _. by apply keeps_ret.
Qed.

Lemma keeps_new_PLm n g node :
  new_loc node -> Store.keeps s0 (Store.new_PLm n g node) any.
Proof.
  intros Hnode. unfold Store.new_PLm.
  eapply keeps_bind; [apply keeps_get_node_any|]. intros obj _.
  destruct (Store.o_children obj) as [|c cs]; [by apply keeps_ret|].
  eapply keeps_bind; [apply keeps_len|]. intros k _.
  eapply keeps_bind; [apply keeps_alloc|]. intros a Ha.
  by apply keeps_setattr.
Qed.

Lemma keeps_place_child mm0 mm1 node i child :
  new_loc node -> Store.keeps s0 (Store.place_child mm0 mm1 node i child) any.
Proof.
  intros Hnode. unfold Store.place_child.
  eapply keeps_bind; [apply keeps_get_sisters|]. intros sisters _.
  eapply keeps_bind; [apply keeps_lift_any|]. intros sister _.
  eapply keeps_bind; [apply keeps_get_node_any|]. intros cobj _.
  eapply keeps_bind with (Q := any).
  { destruct (Store.o_children cobj) as [|c cs]; [by apply keeps_ret|].
    eapply keeps_bind; [apply keeps_getattr|]. intros rc _.
    eapply keeps_bind; [apply keeps_read3|]. intros child_PLm _.
    eapply keeps_bind; [apply keeps_lift_any|]. intros below _.
    eapply keeps_bind; [apply keeps_getattr|]. intros rs _.
    eapply keeps_bind; [apply keeps_read2|]. intros sister_PL0 _.
    eapply keeps_bind; [apply keeps_lift_any|]. intros from_sister _.
    eapply keeps_bind; [apply keeps_lift_any|]. intros rhs _.
    eapply keeps_bind; [by apply keeps_getattr_PLm|]. intros target Ht.
    eapply keeps_bind; [apply keeps_read3|]. intros plm _.
    eapply keeps_bind; [apply keeps_lift_any|]. intros plm' _.
    eapply keeps_bind; [by apply keeps_write3|]. intros _ _.
    by apply keeps_ret. }
  intros i' _.
  eapply keeps_bind; [apply keeps_getattr|]. intros rc _.
  eapply keeps_bind; [apply keeps_read2|]. intros child_PL0 _.
  eapply keeps_bind; [apply keeps_lift_any|]. intros here _.
  eapply keeps_bind; [apply keeps_getattr|]. intros rs _.
  eapply keeps_bind; [apply keeps_read2|]. intros sister_PL0 _.
  eapply keeps_bind; [apply keeps_lift_any|]. intros from_sister _.
  eapply keeps_bind; [apply keeps_lift_any|]. intros rhs _.
  eapply keeps_bind; [by apply keeps_getattr_PLm|]. intros target Ht.
  eapply keeps_bind; [apply keeps_read3|]. intros plm _.
  eapply keeps_bind; [apply keeps_lift_any|]. intros plm' _.
  eapply keeps_bind; [by apply keeps_write3|]. intros _ _.
  by apply keeps_ret.
Qed.

Lemma keeps_place_node mm0 mm1 node :
  new_loc node -> Store.keeps s0 (Store.place_node mm0 mm1 node) any.
Proof.
  intros Hnode. unfold Store.place_node.
  eapply keeps_bind; [apply keeps_get_node_any|]. intros obj _.
  eapply keeps_bind.
  - apply keeps_fold_each. intros i child. by apply keeps_place_child.
  - intros _ _. by apply keeps_ret.
Qed.

Lemma keeps_calc_mut_likelihoods tree mm0 mm1 :
  new_loc tree ->
  Store.keeps s0 (Store.calc_mut_likelihoods tree mm0 mm1) new_loc.
Proof.
  intros Htree. unfold Store.calc_mut_likelihoods.
  eapply keeps_bind; [apply keeps_getattr|]. intros r _.
  eapply keeps_bind; [apply keeps_read2|]. intros pl0 _.
  eapply keeps_bind; [by apply keeps_traverse|]. intros order Horder.
  eapply keeps_bind.
  { apply keeps_for_each. eapply Forall_impl; [exact Horder|]. simpl.
    intros node Hnode. by apply keeps_new_PLm. }
  intros _ _.
  eapply keeps_bind; [by apply keeps_traverse|]. intros order2 Horder2.
  eapply keeps_bind.
  { apply keeps_for_each. eapply Forall_impl; [exact Horder2|]. simpl.
    intros node Hnode. by apply keeps_place_node. }
  intros _ _. by apply keeps_ret.
Qed.

Lemma keeps_genotype pa tree variants mm mm0 mm1 prior :
  Store.keeps s0 (Store.genotype pa tree variants mm mm0 mm1 prior) any.
Proof.
  unfold Store.genotype.
  eapply keeps_bind; [apply keeps_copy|]. intros c1 Hc1.
  eapply keeps_bind; [by apply keeps_populate_tree_PL|]. intros t1 Ht1.
  eapply keeps_bind; [apply keeps_getattr|]. intros r1 _.
  eapply keeps_bind; [apply keeps_read2|]. intros pl _.
  eapply keeps_bind; [apply keeps_lift_any|]. intros tree_PL _.
  eapply keeps_bind; [apply keeps_copy|]. intros c2 Hc2.
  eapply keeps_bind; [by apply keeps_populate_tree_PL|]. intros t2 Ht2.
  eapply keeps_bind; [apply keeps_getattr|]. intros r2 _.
  eapply keeps_bind; [apply keeps_read2|]. intros pl0 _.
  eapply keeps_bind; [apply keeps_lift_any|]. intros tree_PL0 _.
  eapply keeps_bind; [apply keeps_copy|]. intros c3 Hc3.
  eapply keeps_bind; [by apply keeps_calc_mut_likelihoods|]. intros t3 Ht3.
  eapply keeps_bind; [by apply keeps_getattr_PLm|]. intros r3 Hr3.
  eapply keeps_bind with (Q := new_ref).
  { apply keeps_lift. intros view Hview.
    destruct r3; simpl in Hview; simplify_eq; exact Hr3. }
  intros view Hview.
  eapply keeps_bind; [apply keeps_read3|]. intros x _.
  eapply keeps_bind; [apply keeps_lift_any|]. intros mut_PLs _.
  eapply keeps_bind; [by apply keeps_write3|]. intros _ _.
  eapply keeps_bind; [apply keeps_iter_descendants|]. intros desc _.
  eapply keeps_bind; [apply keeps_gets_any|]. intros null_PLs _.
  eapply keeps_bind; [apply keeps_gets_any|]. intros sids _.
  by apply keeps_lift.
Qed.

End Frame.

(** C10.  For every store, every tree and every array [PLs] in it, a call
    of [genotype] leaves every object of the store as it was, whether the
    call returns or raises: the nodes of the caller's tree keep their
    attribute dictionaries, their children and their parents, and [PLs]
    and every other array keep their contents; the aggregates are attached
    to the nodes of the copies, which are new objects. *)
Theorem C10_genotype_frame (s : Store.store) (pa tree : nat) (variants : list variant)
    (mm mm0 mm1 : list (list R)) (prior : list R) :
  Store.frame s (Store.genotype pa tree variants mm mm0 mm1 prior s).2 /\
  (forall l obj, Store.nodes s !! l = Some obj ->
     Store.nodes (Store.genotype pa tree variants mm mm0 mm1 prior s).2 !! l = Some obj) /\
  (forall a x, Store.arrays s !! a = Some x ->
     Store.arrays (Store.genotype pa tree variants mm mm0 mm1 prior s).2 !! a = Some x).
Proof.
  destruct (keeps_genotype s pa tree variants mm mm0 mm1 prior s (inv_start s))
    as [[[Hn Ha] _] _].
  split; [by split|]. split.
  - intros l obj Hl. by apply (prefix_lookup_Some _ _ _ _ Hl).
  - intros a x Hx. by apply (prefix_lookup_Some _ _ _ _ Hx).
Qed.


(** ** The small run on the store *)

(** [tree.copy()] makes three new nodes and leaves the tree it copies. *)
Lemma copy_small :
  (Store.copy 0 store2).1 = Some 3%nat /\
  Store.nodes (Store.copy 0 store2).2 =
    Store.nodes store2 ++
    [Store.NodeObj [0; 1]%Z None [4; 5]%nat [];
     Store.NodeObj [0%Z] (Some 3%nat) [] [];
     Store.NodeObj [1%Z] (Some 3%nat) [] []] /\
  Store.arrays (Store.copy 0 store2).2 = Store.arrays store2.
Proof. repeat split. Qed.

(** The post-order of the copy, and what the pass attaches to a leaf: a
    view of [PLs]. *)
Lemma populate_leaf_small :
  (Store.bind (Store.copy 0) Store.traverse store2).1 = Some [4; 5; 3]%nat /\
  Store.nodes
    (Store.bind (Store.copy 0)
       (fun c => Store.populate_node 0 1 2 mmA "PL" 4) store2).2 !! 4%nat =
  Some (Store.NodeObj [0%Z] (Some 3%nat) [] [("PL"%string, Store.Column 0 0)]).
Proof. split; reflexivity. Qed.

(** Without the copy the pass writes into the tree it is given: run on
    the caller's tree, [populate_tree_PL] attaches [PL] to its leaves,
    whether it then returns or raises. *)
Lemma populate_tree_PL_in_place :
  Store.nodes (Store.populate_tree_PL 0 0 mmA "PL" store2).2 !! 1%nat =
  Some (Store.NodeObj [0%Z] (Some 0%nat) [] [("PL"%string, Store.Column 0 0)]) /\
  ~ Store.frame store2 (Store.populate_tree_PL 0 0 mmA "PL" store2).2.
Proof.
  assert (Store.nodes (Store.populate_tree_PL 0 0 mmA "PL" store2).2 !! 1%nat =
          Some (Store.NodeObj [0%Z] (Some 0%nat) [] [("PL"%string, Store.Column 0 0)]))
    as H.
  { cbv -[transition madd_rows zeros2 mmA Rplus Rmult Rdiv Rminus IZR Rinv Ropp].
    destruct (transition [[0; 10]] mmA) as [y1|]; [|reflexivity].
    destruct (madd_rows (zeros2 1 2) y1) as [v1|]; [|reflexivity].
    destruct (transition [[10; 0]] mmA) as [y2|]; [|reflexivity].
    destruct (madd_rows v1 y2) as [v2|]; reflexivity. }
  split; [exact H|]. intros [Hn _].
  assert (Store.nodes store2 !! 1%nat = Some (Store.NodeObj [0%Z] (Some 0%nat) [] []))
    as H1 by reflexivity.
  apply (prefix_lookup_Some _ _ _ _ H1) in Hn. rewrite H in Hn. discriminate Hn.
Qed.


(** * Further properties of the code *)

(** ** The Phred scale ([utils.py], lines 49-70) *)

Lemma p2phred_None x : p2phred x = None <-> x <= 0.
Proof.
  unfold p2phred, np_log10. destruct (Rlt_dec 0 x); simpl; split; intros; try done; lra.
Qed.

Lemma PhredOf_phred2p x : PhredOf (phred2p x) = x.
Proof.
  pose proof (p2phred_phred2p x) as H. rewrite p2phred_Some in H by apply phred2p_pos.
  by injection H.
Qed.

Lemma PhredOf_mult a b : 0 < a -> 0 < b -> PhredOf (a * b) = PhredOf a + PhredOf b.
Proof.
  intros Ha Hb. unfold PhredOf. rewrite ln_mult by done. pose proof ln10_pos. field. lra.
Qed.

Lemma PhredOf_div a b : 0 < a -> 0 < b -> PhredOf (a / b) = PhredOf a - PhredOf b.
Proof.
  intros Ha Hb. unfold PhredOf. change (a / b) with (a * / b).
  rewrite ln_mult, ln_Rinv by (done || by apply Rinv_0_lt_compat).
  pose proof ln10_pos. field. lra.
Qed.

Lemma PhredOf_1 : PhredOf 1 = 0.
Proof. unfold PhredOf. rewrite ln_1. pose proof ln10_pos. field. lra. Qed.

Lemma PhredOf_antitone a b : 0 < a -> a <= b -> PhredOf b <= PhredOf a.
Proof.
  intros Ha Hab. unfold PhredOf. pose proof ln10_pos.
  assert (ln a <= ln b).
  { destruct Hab as [Hlt| ->]; [left; by apply ln_increasing | right; done]. }
  assert (ln a / ln 10 <= ln b / ln 10); [|lra].
  apply Rmult_le_compat_r; [|done]. left. by apply Rinv_0_lt_compat.
Qed.

Lemma phred2p_plus a b : phred2p (a + b) = phred2p a * phred2p b.
Proof.
  unfold phred2p. rewrite <- Rpower_plus. f_equal. field.
Qed.

Lemma elem_le_Rsum (v : list R) y :
  Forall (fun x => 0 <= x) v -> y ∈ v -> y <= Rsum v.
Proof.
  induction 1 as [|x v Hx Hv IH]; intros Hin; [by apply elem_of_nil in Hin|].
  simpl. pose proof (Rsum_nonneg v Hv). apply elem_of_cons in Hin as [->|Hin]; [lra|].
  specialize (IH Hin). lra.
Qed.

(** X1.  The two conversions undo each other wherever they return: when
    [p2phred (phred2p x)] returns it returns [x], when [p2phred p]
    returns [y] then [p] is positive and [phred2p y] is [p], and
    [p2phred] raises exactly on the numbers that are not positive. *)
Theorem X1_phred_round_trip :
  (forall x y, p2phred (phred2p x) = Some y -> y = x) /\
  (forall p y, p2phred p = Some y -> 0 < p /\ phred2p y = p) /\
  (forall p, p2phred p = None <-> p <= 0).
Proof.
  split; [|split; [|exact p2phred_None]].
  - intros x y H. rewrite p2phred_phred2p in H. by injection H.
  - intros p y H. apply p2phred_inv in H as [Hp ->]. split; [done|].
    by apply phred2p_p2phred.
Qed.

(** X2.  [sum_PL] raises on the empty vector; the score it returns is
    that of the total probability, it is at most every entry, and the sum
    of one score, when it is returned, is that score. *)
Theorem X2_sum_PL (x : list R) :
  (x = [] -> sum_PL x = None) /\
  (forall s, sum_PL x = Some s ->
     x <> [] /\ phred2p s = Rsum (phred2p_v x) /\ Forall (fun xi => s <= xi) x) /\
  (forall a s, sum_PL [a] = Some s -> s = a).
Proof.
  split; [|split].
  - intros ->. unfold sum_PL. rewrite p2phred_None. cbn. lra.
  - intros s H. unfold sum_PL in H. split.
    { intros ->. assert (p2phred (Rsum (phred2p_v [])) = None) as E
        by (rewrite p2phred_None; cbn; lra).
      by rewrite E in H. }
    apply p2phred_inv in H as [Hpos ->].
    split; [by apply phred2p_p2phred|].
    apply Forall_forall. intros xi Hin. fold (PhredOf (Rsum (phred2p_v x))).
    etransitivity; [|right; apply (PhredOf_phred2p xi)].
    apply PhredOf_antitone; [apply phred2p_pos|].
    apply elem_le_Rsum.
    + apply Forall_fmap, Forall_forall. intros ? _. left. apply phred2p_pos.
    + unfold phred2p_v. apply list_elem_of_fmap. by exists xi.
  - intros a s H. unfold sum_PL in H. simpl in H. rewrite Rplus_0_r in H.
    rewrite p2phred_phred2p in H. by injection H.
Qed.

Lemma normalize_PL_shift (x : list R) :
  normalize_PL x = Some (map (fun xi => xi - PhredOf (Rsum (phred2p_v x))) x).
Proof.
  destruct (normalize_PL_spec x) as [-> _]. f_equal.
  destruct x as [|a x]; [done|].
  pose proof (Rsum_phred2p_pos (a :: x) ltac:(done)) as HS.
  apply map_ext. intros xi. rewrite PhredOf_div; [|apply phred2p_pos|exact HS].
  by rewrite PhredOf_phred2p.
Qed.

Lemma normalize_PL_mass (x : list R) :
  x <> [] ->
  Rsum (phred2p_v (map (fun xi => xi - PhredOf (Rsum (phred2p_v x))) x)) = 1.
Proof.
  intros Hne. destruct (normalize_PL_spec x) as [H1 H2].
  rewrite normalize_PL_shift in H1. injection H1 as ->. by apply H2.
Qed.

(** X3.  What [normalize_PL] returns has the length of its argument; for
    a non-empty argument [sum_PL] returns too, the result is the argument
    less [sum_PL x] in every entry, its probabilities sum to one, and the
    score [sum_PL] returns for it is zero. *)
Theorem X3_normalize_PL (x r : list R) :
  normalize_PL x = Some r ->
  length r = length x /\
  (x <> [] ->
   exists s, sum_PL x = Some s /\ r = map (fun xi => xi - s) x /\
     Rsum (phred2p_v r) = 1 /\
     forall s', sum_PL r = Some s' -> s' = 0).
Proof.
  intros H. rewrite normalize_PL_shift in H. injection H as <-.
  split; [by rewrite length_map|]. intros Hne.
  pose proof (Rsum_phred2p_pos x Hne) as HS.
  exists (PhredOf (Rsum (phred2p_v x))). split; [|split; [done|split]].
  - unfold sum_PL. by rewrite p2phred_Some.
  - by apply normalize_PL_mass.
  - intros s' H. unfold sum_PL in H. rewrite normalize_PL_mass in H by done.
    rewrite p2phred_Some in H by lra. injection H as <-.
    rewrite ln_1. pose proof ln10_pos. field. lra.
Qed.

Lemma Rsum_phred2p_shift c (x : list R) :
  Rsum (phred2p_v (map (fun xi => xi + c) x)) = Rsum (phred2p_v x) * phred2p c.
Proof.
  unfold phred2p_v, Rsum. induction x as [|a x IH]; simpl; [lra|].
  rewrite IH, phred2p_plus. lra.
Qed.

Lemma normalize_PL_add_const (x : list R) (c : R) :
  normalize_PL (map (fun xi => xi + c) x) = normalize_PL x.
Proof.
  rewrite !normalize_PL_shift. f_equal. destruct x as [|a x]; [done|].
  rewrite map_map. apply map_ext. intros xi.
  rewrite Rsum_phred2p_shift.
  rewrite PhredOf_mult; [|by apply Rsum_phred2p_pos|apply phred2p_pos].
  rewrite PhredOf_phred2p. lra.
Qed.

(** X4.  When [normalize_PL] returns for a vector and for the same
    vector with a constant added to every entry, it returns the same
    result for both; and what it returns for a normalised vector is that
    vector. *)
Theorem X4_normalize_PL_invariance (x : list R) (c : R) (r r' : list R) :
  normalize_PL x = Some r ->
  normalize_PL (map (fun xi => xi + c) x) = Some r' ->
  r' = r /\ (forall r2, normalize_PL r = Some r2 -> r2 = r).
Proof.
  intros H H'. rewrite normalize_PL_add_const, H in H'. injection H' as <-.
  split; [done|]. intros r2 H2.
  rewrite normalize_PL_shift in H. injection H as <-.
  rewrite normalize_PL_shift in H2. injection H2 as <-.
  destruct x as [|a x]; [done|].
  rewrite normalize_PL_mass by done. rewrite PhredOf_1.
  rewrite <- (map_id (map _ (a :: x))) at 2. apply map_ext. intros. lra.
Qed.

Lemma normalize2d_PL_rows (x : list (list R)) :
  normalize2d_PL x =
  Some (map (fun row => map (fun xi => xi - PhredOf (Rsum (phred2p_v row))) row) x).
Proof.
  unfold normalize2d_PL. apply mapM_ext_Some, Forall_forall. intros row _.
  apply normalize_PL_shift.
Qed.

(** X5.  [normalize2d_PL] normalises every row on its own: when it
    returns, row [k] of the result is what [normalize_PL] returns for row
    [k] of the argument, that row less the score of its total
    probability, and its probabilities sum to one. *)
Theorem X5_normalize2d_PL (x r : list (list R)) :
  normalize2d_PL x = Some r ->
  length r = length x /\
  forall k row, x !! k = Some row ->
    r !! k = Some (map (fun xi => xi - PhredOf (Rsum (phred2p_v row))) row) /\
    normalize_PL row = r !! k /\
    (row <> [] -> exists y, r !! k = Some y /\ Rsum (phred2p_v y) = 1).
Proof.
  intros H. rewrite normalize2d_PL_rows in H. injection H as <-.
  split; [by rewrite length_map|].
  intros k row Hk. rewrite list_lookup_fmap, Hk. simpl. split; [done|].
  split; [apply normalize_PL_shift|]. intros Hne. eexists. split; [done|].
  by apply normalize_PL_mass.
Qed.

(** The statements above at concrete scores. *)
Lemma X1_phred_round_trip_witness :
  30 = 30 /\ 0 < phred2p 30 /\ phred2p 30 = phred2p 30.
Proof.
  split; [apply (proj1 X1_phred_round_trip 30 30), p2phred_phred2p|].
  apply (proj1 (proj2 X1_phred_round_trip) (phred2p 30) 30), p2phred_phred2p.
Defined.

Lemma X2_sum_PL_witness :
  [7] <> [] /\ phred2p 7 = Rsum (phred2p_v [7]) /\ Forall (fun xi => 7 <= xi) [7].
Proof.
  apply (proj1 (proj2 (X2_sum_PL [7])) 7). unfold sum_PL. simpl.
  rewrite Rplus_0_r. apply p2phred_phred2p.
Defined.

Lemma X3_normalize_PL_witness :
  exists r, normalize_PL [0; 30] = Some r /\ length r = 2%nat.
Proof.
  eexists. split; [apply normalize_PL_shift|].
  apply (X3_normalize_PL [0; 30] _ (normalize_PL_shift [0; 30])).
Defined.

Lemma X4_normalize_PL_invariance_witness :
  exists r r', normalize_PL [0; 30] = Some r /\
    normalize_PL (map (fun xi => xi + 5) [0; 30]) = Some r' /\ r' = r.
Proof.
  pose proof (normalize_PL_shift [0; 30]) as H.
  pose proof (normalize_PL_shift (map (fun xi => xi + 5) [0; 30])) as H'.
  eexists _, _. split; [exact H|]. split; [exact H'|].
  exact (proj1 (X4_normalize_PL_invariance [0; 30] 5 _ _ H H')).
Defined.

Lemma X5_normalize2d_PL_witness :
  exists r, normalize2d_PL [[0; 30]] = Some r /\
    r !! 0%nat = Some (map (fun xi => xi - PhredOf (Rsum (phred2p_v [0; 30]))) [0; 30]).
Proof.
  eexists. split; [apply normalize2d_PL_rows|].
  destruct (X5_normalize2d_PL [[0; 30]] _ (normalize2d_PL_rows [[0; 30]])) as (_ & Hk).
  by apply (Hk 0%nat [0; 30]).
Defined.


(** ** The distance of two genotypes ([utils.py], lines 74-88) *)

Lemma strdist_cons a s b t :
  strdist (String a s) (String b t) =
  Nat.min (Nat.min (strdist s (String b t) + 1) (strdist (String a s) t + 1))
          (strdist s t + (if Ascii.eqb a b then 0 else 1)).
Proof. reflexivity. Qed.

Lemma strdist_nil_l t : strdist EmptyString t = String.length t.
Proof. by destruct t. Qed.

Lemma strdist_nil_r s : strdist s EmptyString = String.length s.
Proof. by destruct s. Qed.

Lemma strdist_refl s : strdist s s = 0%nat.
Proof.
  induction s as [|a s IH]; [done|].
  rewrite strdist_cons, IH, Ascii.eqb_refl. lia.
Qed.

Lemma distance_refl g : distance g g = 0%nat.
Proof. unfold distance. rewrite strdist_refl. lia. Qed.

(** A genotype of two alleles, and the number of positions at which two
    alleles differ. *)
Local Abbreviation G a b := (String a (String b EmptyString)).
Local Abbreviation differ a b := (if Ascii.eqb a b then 0%nat else 1%nat).

(** Between two strings of two characters no insertion or deletion
    helps: the edit distance is the number of positions that differ. *)
Lemma strdist_two a b c d :
  strdist (G a b) (G c d) = (differ a c + differ b d)%nat.
Proof.
  rewrite !strdist_cons, !strdist_nil_l, !strdist_nil_r. simpl String.length.
  destruct (Ascii.eqb a c), (Ascii.eqb b d), (Ascii.eqb b c), (Ascii.eqb a d);
    reflexivity.
Qed.

Lemma distance_two a b c d :
  distance (G a b) (G c d) =
  Nat.min (differ a c + differ b d) (differ a d + differ b c).
Proof.
  unfold distance. change (string_rev (G c d)) with (G d c). by rewrite !strdist_two.
Qed.

(** X6.  For genotypes of two alleles, whatever the characters, the
    distance is the least number of alleles to change once the order of
    the alleles is forgotten: it is zero exactly for the same unordered
    pair, never more than two, two between different homozygous
    genotypes, symmetric, and blind to the order of the alleles. *)
Theorem X6_distance_two_alleles (a b c d : ascii) :
  distance (G a b) (G c d) =
    Nat.min (differ a c + differ b d) (differ a d + differ b c) /\
  (distance (G a b) (G c d) = 0%nat <-> (a = c /\ b = d) \/ (a = d /\ b = c)) /\
  (distance (G a b) (G c d) <= 2)%nat /\
  distance (G a a) (G c c) = (if Ascii.eqb a c then 0 else 2)%nat /\
  distance (G c d) (G a b) = distance (G a b) (G c d) /\
  distance (G b a) (G c d) = distance (G a b) (G c d) /\
  distance (G a b) (G d c) = distance (G a b) (G c d).
Proof.
  rewrite !distance_two.
  rewrite (Ascii.eqb_sym c a), (Ascii.eqb_sym d b), (Ascii.eqb_sym c b), (Ascii.eqb_sym d a).
  destruct (Ascii.eqb_spec a c), (Ascii.eqb_spec b d),
    (Ascii.eqb_spec a d), (Ascii.eqb_spec b c); simpl;
    repeat split; try lia; try (intros; exfalso; lia); try tauto;
    try (intros [[? ?]|[? ?]]; congruence).
Qed.

(** ** The substitution matrix of a genotype list ([utils.py], lines 90-109) *)

Lemma mget_fill_diagonal n mm vals i j :
  has_shape n n mm -> (i < n)%nat -> (j < n)%nat ->
  mget (fill_diagonal mm vals) i j = if (i =? j)%nat then nth i vals 0 else mget mm i j.
Proof.
  intros Hs Hi Hj. pose proof Hs as [Hn _].
  destruct (lookup_lt_is_Some_2 mm i) as [row E]; [lia|].
  pose proof (has_shape_lookup _ _ _ _ _ Hs E) as Hl.
  rewrite (mget_lookup mm i j row E).
  assert (fill_diagonal mm vals !! i = Some (<[i := nth i vals 0]> row)) as E'.
  { unfold fill_diagonal. by rewrite list_lookup_imap, E. }
  rewrite (mget_lookup _ i j _ E'), !nth_lookup_default.
  destruct (Nat.eqb_spec i j) as [->|Hne].
  - rewrite list_lookup_insert_eq by lia. done.
  - by rewrite list_lookup_insert_ne.
Qed.

Lemma col_seq n (m : mat) j :
  length m = n -> col m j = map (fun i => mget m i j) (seq 0 n).
Proof.
  intros Hn. apply list_eq. intros k. unfold col. rewrite !list_lookup_fmap.
  destruct (decide (k < n)%nat) as [Hk|Hk].
  - rewrite lookup_seq_lt by done. simpl.
    destruct (lookup_lt_is_Some_2 m k) as [row E]; [lia|]. rewrite E. simpl.
    f_equal. symmetry. by apply mget_lookup.
  - rewrite lookup_seq_ge by lia. rewrite lookup_ge_None_2 by lia. done.
Qed.

Lemma Rsum_seq_update (f : nat -> R) y j s n :
  Rsum (map (fun i => if (i =? j)%nat then y else f i) (seq s n)) =
  Rsum (map f (seq s n)) + (if decide (s <= j < s + n)%nat then y - f j else 0).
Proof.
  revert s. induction n as [|n IH]; intros s.
  - simpl. case_decide; [lia|lra].
  - cbn [seq map Rsum foldr]. fold (Rsum (map f (seq (S s) n))).
    fold (Rsum (map (fun i => if (i =? j)%nat then y else f i) (seq (S s) n))).
    rewrite IH. destruct (Nat.eqb_spec s j) as [->|Hne]; repeat case_decide; try lia; lra.
Qed.

Lemma mget_powers mu gt i j gi gj :
  gt !! i = Some gi -> gt !! j = Some gj ->
  mget (map (map (fun d => phred2p mu ^ d)) (gtype_distance gt)) i j =
  phred2p mu ^ distance gi gj.
Proof.
  intros Hi Hj. unfold gtype_distance.
  erewrite mget_lookup; [|by rewrite !list_lookup_fmap, Hi].
  rewrite nth_lookup_default, !list_lookup_fmap, Hj. done.
Qed.

Lemma powers_shape mu gt :
  has_shape (length gt) (length gt)
            (map (map (fun d => phred2p mu ^ d)) (gtype_distance gt)).
Proof.
  destruct (gtype_distance_shape gt) as [Hn Hr]. split; [by rewrite length_map|].
  apply Forall_forall. intros row Hin. apply list_elem_of_fmap in Hin as (r & -> & Hin).
  rewrite length_map. rewrite Forall_forall in Hr. by apply Hr.
Qed.

(** The entries of [make_mut_matrix]: off the diagonal the power of the
    distance, on the diagonal two less the sum of the column of powers. *)
Lemma make_mut_matrix_entry mu gt i j gi gj :
  gt !! i = Some gi -> gt !! j = Some gj ->
  mget (mm_full (make_mut_matrix mu gt)) i j =
  if (i =? j)%nat
  then 2 - Rsum (map (fun k => mget (map (map (fun d => phred2p mu ^ d)) (gtype_distance gt)) k j)
                     (seq 0 (length gt)))
  else phred2p mu ^ distance gi gj.
Proof.
  intros Hi Hj. unfold make_mut_matrix. cbn [mm_full].
  pose proof (powers_shape mu gt) as Hs.
  pose proof (lookup_lt_Some _ _ _ Hi) as Li. pose proof (lookup_lt_Some _ _ _ Hj) as Lj.
  rewrite (mget_fill_diagonal (length gt)) by done.
  destruct (Nat.eqb_spec i j) as [->|Hne]; [|by apply mget_powers].
  rewrite nth_lookup_default, list_lookup_fmap. unfold colsums.
  rewrite (has_shape_ncols _ _ _ Hs) by lia.
  rewrite list_lookup_fmap, lookup_seq_lt by done. simpl.
  rewrite (col_seq (length gt)) by apply Hs. done.
Qed.

Lemma make_mut_matrix_column mu gt j :
  (j < length gt)%nat -> Rsum (col (mm_full (make_mut_matrix mu gt)) j) = 1.
Proof.
  intros Lj. destruct (lookup_lt_is_Some_2 gt j Lj) as [gj Hj].
  pose proof (make_mut_matrix_shape mu gt) as [Hn _].
  rewrite (col_seq (length gt)) by done.
  set (A := map (map (fun d => phred2p mu ^ d)) (gtype_distance gt)).
  set (S := Rsum (map (fun k => mget A k j) (seq 0 (length gt)))).
  rewrite (map_ext_in _ (fun i => if (i =? j)%nat then 2 - S else mget A i j)).
  - rewrite Rsum_seq_update. fold S. case_decide; [|lia].
    unfold A. rewrite (mget_powers mu gt j j gj gj Hj Hj), distance_refl. simpl. lra.
  - intros i Hin. apply in_seq in Hin.
    destruct (lookup_lt_is_Some_2 gt i) as [gi Hi]; [lia|].
    rewrite (make_mut_matrix_entry mu gt i j gi gj Hi Hj).
    destruct (Nat.eqb_spec i j); [done|]. unfold A. by rewrite (mget_powers mu gt i j gi gj).
Qed.

(** X7.  For every mutation rate and every list of genotypes,
    [make_mut_matrix] returns a square matrix over the list whose entry
    off the diagonal is the mutation probability to the power of the
    distance of the two genotypes, and every column of which sums to one
    ([mm.sum(axis=0)] is all ones): the diagonal takes what the rest of
    its column leaves. *)
Theorem X7_make_mut_matrix_columns (mu : R) (gt : list string) :
  has_shape (length gt) (length gt) (mm_full (make_mut_matrix mu gt)) /\
  (forall i j gi gj, gt !! i = Some gi -> gt !! j = Some gj -> i <> j ->
     mget (mm_full (make_mut_matrix mu gt)) i j = phred2p mu ^ distance gi gj) /\
  colsums (mm_full (make_mut_matrix mu gt)) = replicate (length gt) 1.
Proof.
  split; [apply make_mut_matrix_shape|]. split.
  - intros i j gi gj Hi Hj Hne. rewrite (make_mut_matrix_entry mu gt i j gi gj Hi Hj).
    by destruct (Nat.eqb_spec i j).
  - pose proof (make_mut_matrix_shape mu gt) as Hs. unfold colsums.
    destruct (decide (length gt = 0)%nat) as [Hz|Hz].
    { apply nil_length_inv in Hz. by subst. }
    rewrite (has_shape_ncols _ _ _ Hs) by lia.
    apply list_eq. intros j. rewrite list_lookup_fmap.
    destruct (decide (j < length gt)%nat) as [Hj|Hj].
    + rewrite lookup_seq_lt, lookup_replicate_2 by done.
      cbn [fmap option_fmap option_map Nat.add]. f_equal.
      by apply make_mut_matrix_column.
    + rewrite lookup_seq_ge by lia. symmetry. apply lookup_replicate_None. lia.
Qed.

Lemma X7_make_mut_matrix_columns_witness :
  mget (mm_full (make_mut_matrix 80 GTYPE10)) 0 4 = phred2p 80 ^ 2.
Proof.
  by apply (proj1 (proj2 (X7_make_mut_matrix_columns 80 GTYPE10)) 0%nat 4%nat "AA"%string "CC"%string).
Defined.


(** ** The builders for three genotypes ([utils.py], lines 111-140) *)









(** ** The prior of a genotype list ([utils.py], lines 142-158) *)

Lemma alleles_differ_Some g :
  is_Some (alleles_differ g) <-> (2 <= String.length g)%nat.
Proof.
  destruct g as [|a [|b g]]; simpl; split; intros H; try lia; try by eexists.
  all: by destruct H.
Qed.

Lemma alleles_differ_raw het g b :
  alleles_differ g = Some b -> b * het = raw_score het g.
Proof.
  destruct g as [|a [|c g]]; simpl; try done. intros [= <-].
  unfold raw_score. simpl.
  destruct (Ascii.eqb_spec a c) as [->|Hne]; case_decide; try lra; congruence.
Qed.

Lemma flags_raw het gt flags :
  mapM alleles_differ gt = Some flags ->
  map (fun b => b * het) flags = map (raw_score het) gt.
Proof.
  intros H. apply mapM_Some in H.
  induction H as [|g b gt flags Hg _ IH]; [done|].
  simpl. by rewrite IH, (alleles_differ_raw het g b Hg).
Qed.

Lemma make_base_prior_shift het gt flags :
  mapM alleles_differ gt = Some flags ->
  make_base_prior het gt =
    Some (map (fun g => raw_score het g -
                        PhredOf (Rsum (phred2p_v (map (raw_score het) gt)))) gt).
Proof.
  intros Hf. unfold make_base_prior. rewrite Hf. cbn [mbind option_bind].
  rewrite normalize_PL_shift, (flags_raw het gt flags Hf). by rewrite map_map.
Qed.

(** X9.  For every list of genotypes, [make_base_prior] raises when some
    genotype has fewer than two characters.  When it returns, every
    genotype has two characters at least, the prior of a genotype is
    [het] when its first two characters differ and zero when they agree,
    less one constant, the score of the total probability; so a
    heterozygous genotype is [het] above a homozygous one and the
    probabilities of a non-empty prior sum to one. *)
Theorem X9_make_base_prior (het : R) (gt : list string) :
  (Exists (fun g => (String.length g < 2)%nat) gt -> make_base_prior het gt = None) /\
  (forall prior, make_base_prior het gt = Some prior ->
     Forall (fun g => (2 <= String.length g)%nat) gt /\
     prior = map (fun g => raw_score het g -
                           PhredOf (Rsum (phred2p_v (map (raw_score het) gt)))) gt /\
     (gt <> [] -> Rsum (phred2p_v prior) = 1)).
Proof.
  split.
  - intros H. unfold make_base_prior.
    destruct (mapM alleles_differ gt) as [flags|] eqn:Hf; [|done].
    exfalso. assert (is_Some (mapM alleles_differ gt)) as Hs by (by eexists).
    apply mapM_is_Some in Hs. apply Exists_exists in H as (g & Hin & Hg).
    rewrite Forall_forall in Hs. specialize (Hs g Hin).
    apply alleles_differ_Some in Hs. lia.
  - intros prior Hp.
    destruct (mapM alleles_differ gt) as [flags|] eqn:Hf; cycle 1.
    { unfold make_base_prior in Hp. by rewrite Hf in Hp. }
    rewrite (make_base_prior_shift het gt flags Hf) in Hp. injection Hp as <-.
    split; [|split; [done|]].
    + assert (is_Some (mapM alleles_differ gt)) as Hs by (by eexists).
      apply mapM_is_Some in Hs. eapply Forall_impl; [exact Hs|].
      intros g Hg. simpl in Hg. by apply alleles_differ_Some.
    + intros Hne.
      rewrite <- (map_map (raw_score het)
                    (fun x => x - PhredOf (Rsum (phred2p_v (map (raw_score het) gt))))).
      apply normalize_PL_mass. by destruct gt.
Qed.

Lemma X9_make_base_prior_witness :
  exists prior, make_base_prior 30 GTYPE3 = Some prior /\
    Forall (fun g => (2 <= String.length g)%nat) GTYPE3 /\
    Rsum (phred2p_v prior) = 1.
Proof.
  assert (mapM alleles_differ GTYPE3 = Some [0; 1; 0]) as Hf by reflexivity.
  pose proof (make_base_prior_shift 30 GTYPE3 _ Hf) as H.
  eexists. split; [exact H|].
  destruct (proj2 (X9_make_base_prior 30 GTYPE3) _ H) as (Hall & _ & Hsum).
  split; [exact Hall|]. by apply Hsum.
Defined.

(** ** The matrices [genotype_main] passes ([geno.py], lines 93-128) *)

Lemma transition_mismatch g (mm : mat) (v : mat) :
  has_shape (length v) g v -> v <> [] -> length mm <> g -> transition v mm = None.
Proof.
  intros [_ Hr] Hne Hg. destruct v as [|row v]; [done|].
  unfold transition. rewrite mapM_cons_eq.
  assert (transition_v row mm = None) as ->; [|done].
  unfold transition_v, dotv, phred2p_v. rewrite length_map.
  inversion Hr as [|? ? Hrow _]; subst.
  destruct (Nat.eqb_spec (length row) (length mm)); [congruence|done].
Qed.

(** The pruning pass cannot take an internal node when the matrix does
    not have one row per genotype: [np.dot] raises on the first child. *)
Lemma aggregate_mismatch m g (PLs : arr3) (mm : mat) s :
  Forall (has_shape m g) PLs -> PLs <> [] -> length mm <> g ->
  topo_leaf s = false -> aggregate PLs mm s = None.
Proof.
  intros Hrect Hne Hg. induction s as [sd cs IH] using topo_ind. intros Hleaf.
  rewrite aggregate_unfold, Hleaf. cbn [t_children].
  destruct cs as [|c cs]; [done|]. rewrite mapM_cons_eq.
  destruct (aggregate PLs mm c) as [v|] eqn:Ev; [|done]. cbn [mbind option_bind].
  destruct (mapM _ cs) as [vals|]; [|done]. cbn [mbind option_bind foldlM].
  assert (transition v mm = None) as ->; [|done].
  apply (transition_mismatch g); [| |done].
  - destruct (topo_leaf c) eqn:Hc.
    + rewrite aggregate_unfold, Hc in Ev. apply bind_Some in Ev as (i & _ & Ev).
      pose proof (leaf_rows_shape m g PLs i v Hrect Ev) as Hs.
      pose proof Hs as [-> _]. done.
    + inversion IH as [|? ? Hc' _]; subst. by rewrite Hc' in Ev.
  - apply aggregate_length in Ev. destruct v; [|done]. by destruct PLs.
Qed.

(** X10.  With the matrices of [make_mut_matrix_gtype10], which have
    three rows, the pruning pass raises on every internal node as soon as
    the batch has a site and its vectors do not have three entries, and
    [genotype] raises on every tree, every batch of such vectors, every
    variant table and every prior: the run [genotype_main] sets up, on
    vectors of ten likelihoods, never returns a record. *)
Theorem X10_gtype10_wiring_raises (mu : R) (PLs : arr3) (t : tree)
    (vars : list variant) (prior : vec) (m g : nat) :
  Forall (has_shape m g) PLs -> g <> 3%nat ->
  (PLs <> [] -> is_leaf t = false ->
   populate_tree_PL t PLs (mm_full (make_mut_matrix_gtype10 mu)) aPL = None) /\
  genotype PLs t vars (mm_full (make_mut_matrix_gtype10 mu))
           (mm_diag (make_mut_matrix_gtype10 mu))
           (mm_off (make_mut_matrix_gtype10 mu)) prior = None.
Proof.
  intros Hrect Hg.
  assert (length (mm_full (make_mut_matrix_gtype10 mu)) <> g) as Hl by (simpl; lia).
  split.
  - intros Hne Hleaf.
    pose proof (populate_aggregate PLs (mm_full (make_mut_matrix_gtype10 mu)) aPL t) as Hp.
    destruct (populate_tree_PL t PLs _ aPL) as [t'|]; [|done].
    destruct Hp as [_ [v Hv]].
    rewrite (aggregate_mismatch m g) in Hv; try done. by rewrite is_leaf_skel.
  - destruct PLs as [|site PLs]; [apply genotype_no_site|].
    rewrite genotype_by_site. destruct (is_leaf t) eqn:Hleaf.
    + do 4 (match goal with
            | |- (?x ≫= _) = None => destruct x; cbn [mbind option_bind]; [|done]
            end).
      rewrite placements_unfold, is_leaf_skel, Hleaf. done.
    + by rewrite (aggregate_mismatch m g (site :: PLs) _ (skel t) Hrect ltac:(done) Hl
                    ltac:(by rewrite is_leaf_skel)).
Qed.

Lemma X10_gtype10_wiring_raises_witness :
  genotype [[replicate 10 0; replicate 10 0]] tree2 [var0]
           (mm_full (make_mut_matrix_gtype10 80))
           (mm_diag (make_mut_matrix_gtype10 80))
           (mm_off (make_mut_matrix_gtype10 80)) (replicate 10 0) = None.
Proof.
  apply (X10_gtype10_wiring_raises 80 [[replicate 10 0; replicate 10 0]] tree2 [var0]
           (replicate 10 0) 2 10).
  - repeat constructor.
  - lia.
Defined.


(** ** The prior of the ten genotypes *)

Lemma make_base_prior_ten het :
  exists prior, make_base_prior het GTYPE10 = Some prior /\ length prior = 10%nat.
Proof.
  unfold make_base_prior.
  assert (is_Some (mapM alleles_differ GTYPE10)) as [flags Hf].
  { apply mapM_is_Some. repeat constructor; by eexists. }
  rewrite Hf. cbn [mbind option_bind]. rewrite normalize_PL_shift.
  eexists. split; [done|]. rewrite !length_map.
  apply length_mapM in Hf. by rewrite <- Hf.
Qed.

(** ** Trees the placement pass cannot take ([utils.py], lines 177-186) *)

Lemma mapM_None_elem {A B} (f : A -> option B) (l : list A) (x : A) :
  x ∈ l -> f x = None -> mapM f l = None.
Proof.
  intros Hin Hx. induction l as [|y l IH]; [by apply elem_of_nil in Hin|].
  rewrite mapM_cons_eq. apply elem_of_cons in Hin as [<-|Hin].
  - by rewrite Hx.
  - destruct (f y); [|done]. cbn. by rewrite IH.
Qed.

(** A node with exactly one child has no sister:
    [child.get_sisters()[0]] raises. *)
Lemma calc_mut_node_unary n g mm0 mm1 t :
  Exists (fun s => length (t_children s) = 1%nat) (topo_postorder (skel t)) ->
  calc_mut_node n g mm0 mm1 t = None.
Proof.
  induction t as [s pl pl0 plm cs IH] using tree_ind. intros H.
  rewrite calc_mut_node_unfold.
  destruct (is_leaf (Node s pl pl0 plm cs)) eqn:Hleaf.
  { destruct cs; [|done]. simpl in H. apply Exists_cons in H as [H|H]; [done|].
    by apply Exists_nil in H. }
  cbn [children]. simpl in H. apply Exists_app in H as [H|H].
  - apply Exists_exists in H as (node & Hin & Hnode).
    apply list_elem_of_In, in_concat in Hin as (l & Hl & Hin).
    apply list_elem_of_In in Hl, Hin.
    apply list_elem_of_fmap in Hl as (sc & -> & Hsc).
    apply list_elem_of_fmap in Hsc as (c & -> & Hc).
    rewrite (mapM_None_elem _ cs c Hc); [done|].
    rewrite Forall_forall in IH. apply (IH c Hc).
    apply Exists_exists. by exists node.
  - apply Exists_cons in H as [H|H]; [|by apply Exists_nil in H].
    simpl in H. rewrite length_map in H.
    destruct cs as [|c [|? ?]]; try done.
    rewrite mapM_cons_eq. destruct (calc_mut_node n g mm0 mm1 c) as [c'|]; [|done].
    cbn. done.
Qed.

(** X12.  [genotype] raises on every tree that is a single leaf or has a
    node with exactly one child, whatever the batch, the matrices and the
    prior; on a tree with such a node the placement pass itself raises,
    since the only child has no sister. *)
Theorem X12_degenerate_tree (PLs : arr3) (t : tree) (vars : list variant)
    (mm mm0 mm1 : mat) (prior : vec) :
  is_leaf t = true \/
  Exists (fun s => length (t_children s) = 1%nat) (topo_postorder (skel t)) ->
  genotype PLs t vars mm mm0 mm1 prior = None /\
  (is_leaf t = false -> calc_mut_likelihoods t mm0 mm1 = None).
Proof.
  intros H. split.
  - unfold genotype.
    pose proof (populate_aggregate PLs mm aPL t) as Hp1.
    destruct (populate_tree_PL t PLs mm aPL) as [t1|]; cbn [mbind option_bind]; [|done].
    destruct Hp1 as [[Hsk1 _] _].
    destruct (PL t1) as [pl|]; cbn [mbind option_bind]; [|done].
    destruct (madd_vec pl prior) as [tree_PL|]; cbn [mbind option_bind]; [|done].
    pose proof (populate_aggregate PLs mm0 aPL0 t1) as Hp2.
    destruct (populate_tree_PL t1 PLs mm0 aPL0) as [t2|]; cbn [mbind option_bind]; [|done].
    destruct Hp2 as [[Hsk2 _] _].
    destruct (PL0 t2) as [pl0|] eqn:Hpl0; cbn [mbind option_bind]; [|done].
    destruct (madd_vec pl0 prior) as [tree_PL0|]; cbn [mbind option_bind]; [|done].
    unfold calc_mut_likelihoods. rewrite Hpl0. cbn [mbind option_bind].
    destruct H as [Hleaf|Hun].
    + assert (is_leaf t2 = true) as Hl2.
      { rewrite <- is_leaf_skel, Hsk2, Hsk1, is_leaf_skel. done. }
      rewrite calc_mut_node_unfold, Hl2. cbn [mbind option_bind].
      destruct (PLm t2) as [plm|] eqn:Hplm; cbn [mbind option_bind]; [|done].
      destruct (mapM _ (swapaxes01 plm)) as [mut_PLs|]; cbn [mbind option_bind]; [|done].
      assert (iter_descendants t2 = []) as ->.
      { unfold iter_descendants. destruct t2 as [? ? ? ? [|? ?]]; done. }
      apply call_sites_no_descendants.
    + rewrite calc_mut_node_unary; [done|]. by rewrite Hsk2, Hsk1.
  - intros Hleaf. destruct H as [H|H]; [congruence|].
    unfold calc_mut_likelihoods. destruct (PL0 t); [|done]. cbn [mbind option_bind].
    by apply calc_mut_node_unary.
Qed.

Lemma X12_degenerate_tree_witness :
  genotype PLs2 (Node [0%Z] None None None [leaf0]) [var0] mmA mmA0 mmA1 prior2 = None /\
  (is_leaf (Node [0%Z] None None None [leaf0]) = false ->
   calc_mut_likelihoods (Node [0%Z] None None None [leaf0]) mmA0 mmA1 = None).
Proof.
  apply (X12_degenerate_tree PLs2 (Node [0%Z] None None None [leaf0]) [var0] mmA mmA0 mmA1 prior2).
  right. simpl. apply Exists_cons. right. apply Exists_cons. by left.
Defined.


(** ** The fields of a record ([geno.py], lines 171-190) *)

Lemma genotype_sites PLs t vars mm mm0 mm1 prior records score :
  genotype PLs t vars mm mm0 mm1 prior = Some (records, score) ->
  exists tree_PL tree_PL0 mut_PLs nulls,
    mapM (aggregate PLs mm0) (topo_descendants (skel t)) = Some nulls /\
    forall s r, records !! s = Some r ->
      site_at tree_PL tree_PL0 mut_PLs nulls
              (map (fun node => join_sid (t_sid node)) (topo_descendants (skel t)))
              vars s = Some r.
Proof.
  rewrite genotype_by_site. intros H.
  apply bind_Some in H as (pl & _ & H). apply bind_Some in H as (tree_PL & _ & H).
  apply bind_Some in H as (pl0 & _ & H). apply bind_Some in H as (tree_PL0 & _ & H).
  apply bind_Some in H as (plm & _ & H). apply bind_Some in H as (mut_PLs & _ & H).
  destruct (mapM (aggregate PLs mm0) (topo_descendants (skel t))) as [nulls|] eqn:Hn;
    [|done].
  apply call_sites_by_site_inv in H as (_ & _ & Hsite & _).
  by exists tree_PL, tree_PL0, mut_PLs, nulls.
Qed.

Lemma lookup_GTYPE10 i g : GTYPE10 !! i = Some g -> g ∈ GTYPE10.
Proof. apply list_elem_of_lookup_2. Qed.

Lemma phred2p_le_mass (v : vec) y : y ∈ v -> phred2p y <= Rsum (phred2p_v v).
Proof.
  intros Hin. apply elem_le_Rsum.
  - apply Forall_fmap, Forall_forall. intros ? _. left. apply phred2p_pos.
  - unfold phred2p_v. apply list_elem_of_fmap. by exists y.
Qed.

Lemma mass_nonneg (xm : mat) :
  Forall (fun x => 0 <= x) (map (fun row => Rsum (phred2p_v row)) xm).
Proof.
  apply Forall_fmap, Forall_forall. intros row _. simpl.
  apply Rsum_nonneg, Forall_fmap, Forall_forall. intros ? _. left. apply phred2p_pos.
Qed.

Lemma ratio_bounds a b d : 0 < a -> a <= b -> 0 < d -> 0 < a / d <= b / d.
Proof.
  intros Ha Hab Hd. pose proof (Rinv_0_lt_compat d Hd). unfold Rdiv. split; nra.
Qed.

(** X13.  Every record of a run of [genotype] that returns carries the
    chromosome and the reference base of the variant row of its site, cut
    to ten and to one character, and its position when that fits the
    four-byte signed field [pos]; its three genotypes are among the ten
    genotypes; [mut_loc] is the index of a node below the root in
    post-order and [mut_smpl] the sample identifiers of that node, joined
    by commas and cut to 128 characters; the probability of the best
    genotype without a mutation lies between zero and [null_p], and the
    probability of the best single mutation between zero and [mut_p]. *)
Theorem X13_record_fields PLs t vars mm mm0 mm1 prior records score :
  genotype PLs t vars mm mm0 mm1 prior = Some (records, score) ->
  forall s r, records !! s = Some r ->
    exists c p rf node,
      vars !! s = Some (c, p, rf) /\
      chrom r = fixed_width 10 c /\ ref r = fixed_width 1 rf /\
      ((- 2147483648 <= p < 2147483648)%Z -> pos r = p) /\
      null_base r ∈ GTYPE10 /\ mut_base r ∈ GTYPE10 /\ mut_alt r ∈ GTYPE10 /\
      topo_descendants (skel t) !! mut_loc r = Some node /\
      mut_smpl r = fixed_width 128 (join_sid (t_sid node)) /\
      0 <= null_base_p r <= null_p r /\
      0 <= mut_conf_p r <= mut_p r.
Proof.
  intros H s r Hr.
  destruct (genotype_sites _ _ _ _ _ _ _ _ _ H)
    as (tree_PL & tree_PL0 & mut_PLs & nulls & _ & Hsite).
  destruct (site_at_inv _ _ _ _ _ _ _ _ (Hsite s r Hr))
    as (x & ix & x0 & xm & var & i0 & npl & idx & [l j] & rowl & mpl & plane & row & i2 &
        g0 & g1 & g2 & smpl & Ex & Eix & Ex0 & Exm & Evar & Ei0 & Enpl & Eidx & Elg &
        Erowl & Empl & Epl & Erow & Ei2 & Eg0 & Eg1 & Eg2 & Esm & ->).
  cbn [fst snd] in *. destruct var as [[c p] rf].
  rewrite list_lookup_fmap in Esm.
  destruct (topo_descendants (skel t) !! l) as [node|] eqn:En; [|done].
  injection Esm as <-.
  exists c, p, rf, node. unfold make_record.
  cbn [chrom pos ref null_base mut_base mut_alt mut_loc mut_smpl
       null_base_p null_p mut_conf_p mut_p].
  rewrite !(fixed_width_gtype _ _ Eg0), !(fixed_width_gtype _ _ Eg1),
    !(fixed_width_gtype _ _ Eg2).
  assert (0 < Rsum (phred2p_v x)) as HtP.
  { apply Rsum_phred2p_pos. intros ->. done. }
  assert (0 < phred2p npl / Rsum (phred2p_v x) <=
          Rsum (phred2p_v x0) / Rsum (phred2p_v x)) as [B1 B2].
  { apply ratio_bounds; [apply phred2p_pos | | done].
    apply phred2p_le_mass. eapply list_elem_of_lookup_2, Enpl. }
  assert (0 < phred2p mpl / Rsum (phred2p_v x) <=
          Rsum (map (fun row => Rsum (phred2p_v row)) xm) / Rsum (phred2p_v x)) as [B3 B4].
  { apply ratio_bounds; [apply phred2p_pos | | done].
    etransitivity; [apply (phred2p_le_mass rowl); eapply list_elem_of_lookup_2, Empl|].
    apply elem_le_Rsum; [apply mass_nonneg|].
    apply list_elem_of_fmap. exists rowl. split; [done|]. eapply list_elem_of_lookup_2, Erowl. }
  split_and!; try done; try lra; eapply lookup_GTYPE10; eassumption.
Qed.

Lemma X13_record_fields_witness :
  exists records score,
    genotype PLs2 tree2 [var0] mmA mmA0 mmA1 prior2 = Some (records, score) /\
    forall s r, records !! s = Some r ->
      exists c p rf node,
        [var0] !! s = Some (c, p, rf) /\
        chrom r = fixed_width 10 c /\ ref r = fixed_width 1 rf /\
      ((- 2147483648 <= p < 2147483648)%Z -> pos r = p) /\
        null_base r ∈ GTYPE10 /\ mut_base r ∈ GTYPE10 /\ mut_alt r ∈ GTYPE10 /\
        topo_descendants (skel tree2) !! mut_loc r = Some node /\
        mut_smpl r = fixed_width 128 (join_sid (t_sid node)) /\
        0 <= null_base_p r <= null_p r /\
        0 <= mut_conf_p r <= mut_p r.
Proof.
  destruct small_run_total as [[records score] H].
  exists records, score. split; [exact H|].
  exact (X13_record_fields PLs2 tree2 [var0] mmA mmA0 mmA1 prior2 records score H).
Defined.


(** ** A constant added to the prior ([geno.py], lines 137-149) *)

Section Shift.
Context (c : R).

Local Abbreviation shift := (map (fun p : R => p + c)).

Lemma zip_with_shift (u v : vec) :
  zip_with Rplus u (shift v) = shift (zip_with Rplus u v).
Proof.
  revert v. induction u as [|a u IH]; intros [|b v]; simpl; [done..|].
  rewrite IH. f_equal. lra.
Qed.

Lemma nth_shift_one (v : vec) :
  length v = 1%nat -> nth 0 (shift v) 0 = nth 0 v 0 + c.
Proof. destruct v as [|b [|? ?]]; done. Qed.

Lemma vadd_shift (row prior : vec) :
  vadd row (shift prior) = shift <$> vadd row prior.
Proof.
  unfold vadd. rewrite length_map.
  destruct (length row =? length prior)%nat; [simpl; by rewrite zip_with_shift|].
  destruct (length row =? 1)%nat.
  { simpl. f_equal. rewrite !map_map. apply map_ext. intros. lra. }
  destruct (Nat.eqb_spec (length prior) 1) as [H1|H1]; [|done].
  simpl. f_equal. rewrite map_map, nth_shift_one by done. apply map_ext. intros. lra.
Qed.

Lemma vadd_into_shift (v prior : vec) :
  vadd_into v (shift prior) = shift <$> vadd_into v prior.
Proof.
  unfold vadd_into. rewrite length_map.
  destruct (length prior =? length v)%nat; [simpl; by rewrite zip_with_shift|].
  destruct (Nat.eqb_spec (length prior) 1) as [H1|H1]; [|done].
  simpl. f_equal. rewrite map_map, nth_shift_one by done. apply map_ext. intros. lra.
Qed.

Lemma mapM_fmap {A B} (f f' : A -> option B) (h : B -> B) (l : list A) :
  (forall x, f' x = h <$> f x) -> mapM f' l = map h <$> mapM f l.
Proof.
  intros H. induction l as [|x l IH]; [done|].
  rewrite !mapM_cons_eq, H, IH.
  destruct (f x); [|done]. cbn. by destruct (mapM f l).
Qed.

Lemma madd_vec_shift (a : mat) (prior : vec) :
  madd_vec a (shift prior) = map shift <$> madd_vec a prior.
Proof. unfold madd_vec. apply mapM_fmap. intros row. apply vadd_shift. Qed.

Lemma add_prior_shift (x : arr3) (prior : vec) :
  mapM (mapM (fun v => vadd_into v (shift prior))) x =
  map (map shift) <$> mapM (mapM (fun v => vadd_into v prior)) x.
Proof.
  apply mapM_fmap. intros plane. apply mapM_fmap. intros v. apply vadd_into_shift.
Qed.

Lemma argmin_from_shift best bi i (xs : vec) :
  argmin_from (best + c) bi i (shift xs) = argmin_from best bi i xs.
Proof.
  revert best bi i. induction xs as [|x xs IH]; intros best bi i; [done|].
  simpl. destruct (Rlt_dec (x + c) (best + c)), (Rlt_dec x best); try lra; apply IH.
Qed.

Lemma argmin_shift (xs : vec) : argmin (shift xs) = argmin xs.
Proof. destruct xs as [|x xs]; [done|]. simpl. by rewrite argmin_from_shift. Qed.

Lemma mass_shift (xm : mat) :
  Rsum (map (fun row => Rsum (phred2p_v row)) (map shift xm)) =
  Rsum (map (fun row => Rsum (phred2p_v row)) xm) * phred2p c.
Proof.
  induction xm as [|row xm IH]; simpl; [lra|].
  rewrite IH, Rsum_phred2p_shift. lra.
Qed.

Lemma unravel_index_shift idx (xm : mat) :
  unravel_index idx (map shift xm) = unravel_index idx xm.
Proof.
  unfold unravel_index. rewrite length_map.
  assert (ncols (map shift xm) = ncols xm) as ->; [|done].
  unfold ncols. destruct xm; [done|]. simpl. by rewrite length_map.
Qed.

Lemma make_record_shift var nP tP mP g0 npl g1 g2 mpl l smpl :
  0 < tP ->
  make_record var (nP * phred2p c) (tP * phred2p c) (mP * phred2p c)
              g0 (npl + c) g1 g2 (mpl + c) l smpl =
  make_record var nP tP mP g0 npl g1 g2 mpl l smpl.
Proof.
  intros HtP. pose proof (phred2p_pos c). destruct var as [[ch p] rf].
  unfold make_record. rewrite !phred2p_plus. f_equal; field; lra.
Qed.

Lemma call_site_shift (x x0 : vec) (xm : mat) nulls sids var s :
  x <> [] ->
  call_site (shift x) (shift x0) (map shift xm) nulls sids var s =
  call_site x x0 xm nulls sids var s.
Proof.
  intros Hne. unfold call_site.
  rewrite argmin_shift. destruct (argmin x0) as [i0|]; cbn [mbind option_bind]; [|done].
  rewrite list_lookup_fmap. destruct (x0 !! i0) as [npl|]; cbn [mbind option_bind fmap option_fmap option_map]; [|done].
  rewrite <- concat_map, argmin_shift.
  destruct (argmin (concat xm)) as [idx|]; cbn [mbind option_bind]; [|done].
  rewrite unravel_index_shift.
  destruct (unravel_index idx xm) as [[l j]|]; cbn [mbind option_bind fst snd]; [|done].
  rewrite list_lookup_fmap. destruct (xm !! l) as [rowl|]; cbn [mbind option_bind fmap option_fmap option_map]; [|done].
  rewrite list_lookup_fmap. destruct (rowl !! j) as [mpl|]; cbn [mbind option_bind fmap option_fmap option_map]; [|done].
  destruct (nulls !! l) as [plane|]; cbn [mbind option_bind]; [|done].
  destruct (plane !! s) as [row|]; cbn [mbind option_bind]; [|done].
  destruct (argmin row) as [i2|]; cbn [mbind option_bind]; [|done].
  destruct (GTYPE10 !! i0) as [g0|]; cbn [mbind option_bind]; [|done].
  destruct (GTYPE10 !! j) as [g1|]; cbn [mbind option_bind]; [|done].
  destruct (GTYPE10 !! i2) as [g2|]; cbn [mbind option_bind]; [|done].
  destruct (sids !! l) as [smpl|]; cbn [mbind option_bind]; [|done].
  f_equal. rewrite !Rsum_phred2p_shift, mass_shift.
  apply make_record_shift. by apply Rsum_phred2p_pos.
Qed.

Lemma site_at_shift (tree_PL tree_PL0 : mat) (mut_PLs nulls : arr3) sids vars s :
  site_at (map shift tree_PL) (map shift tree_PL0) (map (map shift) mut_PLs)
          nulls sids vars s =
  site_at tree_PL tree_PL0 mut_PLs nulls sids vars s.
Proof.
  unfold site_at. rewrite !list_lookup_fmap.
  destruct (tree_PL !! s) as [x|]; cbn [mbind option_bind fmap option_fmap option_map]; [|done].
  rewrite argmin_shift. destruct (argmin x) as [ix|] eqn:Eix; cbn [mbind option_bind]; [|done].
  destruct (tree_PL0 !! s) as [x0|]; cbn [mbind option_bind fmap option_fmap option_map]; [|done].
  destruct (mut_PLs !! s) as [xm|]; cbn [mbind option_bind fmap option_fmap option_map]; [|done].
  destruct (vars !! s) as [var|]; cbn [mbind option_bind]; [|done].
  apply call_site_shift. intros ->. done.
Qed.

Lemma call_sites_by_site_shift (tree_PL tree_PL0 : mat) (mut_PLs : arr3) nulls sids vars :
  call_sites_by_site (map shift tree_PL) (map shift tree_PL0) (map (map shift) mut_PLs)
                     nulls sids vars =
  call_sites_by_site tree_PL tree_PL0 mut_PLs nulls sids vars.
Proof.
  unfold call_sites_by_site. destruct nulls as [nulls|]; cbn [mbind option_bind]; [|done].
  rewrite length_map.
  assert (head (map (map shift) mut_PLs) = map shift <$> head mut_PLs) as ->
    by (by destruct mut_PLs).
  destruct (head mut_PLs); cbn [mbind option_bind fmap option_fmap option_map]; [|done].
  rewrite (mapM_ext_in _ (site_at tree_PL tree_PL0 mut_PLs nulls sids vars)); [done|].
  apply Forall_forall. intros s _. apply site_at_shift.
Qed.

Lemma genotype_shift PLs t vars mm mm0 mm1 prior :
  genotype PLs t vars mm mm0 mm1 (shift prior) = genotype PLs t vars mm mm0 mm1 prior.
Proof.
  rewrite !genotype_by_site.
  destruct (aggregate PLs mm (skel t)) as [pl|]; cbn [mbind option_bind]; [|done].
  rewrite madd_vec_shift.
  destruct (madd_vec pl prior) as [tree_PL|]; cbn [mbind option_bind fmap option_fmap option_map]; [|done].
  destruct (aggregate PLs mm0 (skel t)) as [pl0|]; cbn [mbind option_bind]; [|done].
  rewrite madd_vec_shift.
  destruct (madd_vec pl0 prior) as [tree_PL0|]; cbn [mbind option_bind fmap option_fmap option_map]; [|done].
  destruct (placements _ _ _ _ _ _) as [plm|]; cbn [mbind option_bind]; [|done].
  rewrite add_prior_shift.
  destruct (mapM _ (swapaxes01 plm)) as [mut_PLs|]; cbn [mbind option_bind fmap option_fmap option_map]; [|done].
  apply call_sites_by_site_shift.
Qed.

End Shift.

Lemma make_base_prior_raw het gt base_prior :
  make_base_prior het gt = Some base_prior ->
  base_prior = map (fun p => p + - PhredOf (Rsum (phred2p_v (map (raw_score het) gt))))
                   (map (raw_score het) gt).
Proof.
  intros H. unfold make_base_prior in H.
  apply bind_Some in H as (flags & Hf & H).
  rewrite normalize_PL_shift, (flags_raw het gt flags Hf) in H. by injection H as <-.
Qed.

(** X14.  [genotype] does not see a constant added to every entry of the
    prior: when the run on a prior and the run on the shifted prior both
    return, they return the same records and the same score.  In
    particular the normalisation that [make_base_prior] applies is without
    effect on a run: the raw scores, [het] for a heterozygous genotype and
    zero for a homozygous one, give the same result. *)
Theorem X14_prior_up_to_constant PLs t vars mm mm0 mm1 (prior : vec) (c het : R)
    (gt : list string) :
  (forall res res',
     genotype PLs t vars mm mm0 mm1 prior = Some res ->
     genotype PLs t vars mm mm0 mm1 (map (fun p => p + c) prior) = Some res' ->
     res' = res) /\
  (forall base_prior res res',
     make_base_prior het gt = Some base_prior ->
     genotype PLs t vars mm mm0 mm1 (map (raw_score het) gt) = Some res ->
     genotype PLs t vars mm mm0 mm1 base_prior = Some res' ->
     res' = res).
Proof.
  split.
  - intros res res' H H'. rewrite genotype_shift, H in H'. by injection H'.
  - intros base_prior res res' Hb H H'.
    rewrite (make_base_prior_raw het gt base_prior Hb), genotype_shift, H in H'.
    by injection H'.
Qed.

Lemma X14_prior_up_to_constant_witness :
  exists base_prior res res',
    make_base_prior 30 ["AA"; "AC"]%string = Some base_prior /\
    genotype PLs2 tree2 [var0] mmA mmA0 mmA1 prior2 = Some res /\
    genotype PLs2 tree2 [var0] mmA mmA0 mmA1 base_prior = Some res' /\
    res' = res.
Proof.
  destruct small_run_total as [res H].
  assert (mapM alleles_differ ["AA"; "AC"]%string = Some [0; 1]) as Hf by reflexivity.
  pose proof (make_base_prior_shift 30 _ _ Hf) as Hb.
  assert (map (raw_score 30) ["AA"; "AC"]%string = prior2) as Hraw by reflexivity.
  pose proof H as H'. rewrite <- Hraw in H'.
  rewrite <- (genotype_shift
                (- PhredOf (Rsum (phred2p_v (map (raw_score 30) ["AA"; "AC"]%string)))))
    in H'.
  rewrite <- (make_base_prior_raw 30 _ _ Hb) in H'.
  eexists _, res, res. split; [exact Hb|]. split; [exact H|]. split; [exact H'|].
  rewrite <- Hraw in H.
  exact (proj2 (X14_prior_up_to_constant PLs2 tree2 [var0] mmA mmA0 mmA1 [] 0 30
                  ["AA"; "AC"]%string) _ res res Hb H H').
Defined.


(** ** Tree set-up: what [init_tree] leaves on the tree *)

Lemma ete_ind (P : ete -> Prop) :
  (forall n cs, Forall P cs -> P (Ete n cs)) -> forall t, P t.
Proof.
  intros H. fix IH 1. intros [n cs]. apply H.
  induction cs as [|c cs IHcs]; constructor; [apply IH | apply IHcs].
Qed.

Lemma inode_ind (P : inode -> Prop) :
  (forall n s i cs, Forall P cs -> P (INode n s i cs)) -> forall t, P t.
Proof.
  intros H. fix IH 1. intros [n s i cs]. apply H.
  induction cs as [|c cs IHcs]; constructor; [apply IH | apply IHcs].
Qed.

Lemma mapM_concat {A B} (f : A -> option B) (ls : list (list A)) :
  mapM f (concat ls) = @concat B <$> mapM (mapM f) ls.
Proof.
  induction ls as [|l ls IH]; [done|]. simpl concat. rewrite mapM_app_eq, mapM_cons_eq, IH.
  destruct (mapM f l) as [k|]; [|done]. cbn.
  by destruct (mapM (mapM f) ls).
Qed.

Section InitTreeFacts.
Context (py_int : string -> option Z).

Lemma set_sid_unfold t :
  set_sid py_int t =
  match e_children t with
  | [] => z ← py_int (e_name t); Some (INode (e_name t) [z] None [])
  | cs => cs' ← mapM (set_sid py_int) cs;
          Some (INode "" (concat (map i_sid cs')) None cs')
  end.
Proof. by destruct t. Qed.

Lemma leaf_ids_unfold t :
  leaf_ids t = match i_children t with
               | [] => i_sid t
               | cs => concat (map leaf_ids cs)
               end.
Proof. by destruct t. Qed.


Lemma mapM_fmap_gen {A B C} (f : A -> option B) (h : B -> C) (l : list A) :
  mapM (fun x => h <$> f x) l = map h <$> mapM f l.
Proof.
  induction l as [|x l IH]; [done|].
  rewrite !mapM_cons_eq, IH. destruct (f x); [|done]. cbn. by destruct (mapM f l).
Qed.

(** The identifiers of the leaves are the numbers their names stand for,
    and the first loop raises exactly when one of the names is not a
    number. *)
Lemma set_sid_leaf_ids t :
  mapM py_int (leaf_names t) = leaf_ids <$> set_sid py_int t.
Proof.
  induction t as [n cs IH] using ete_ind. rewrite set_sid_unfold.
  destruct cs as [|c cs].
  - cbn. by destruct (py_int n).
  - cbn [leaf_names e_children]. rewrite mapM_concat, mapM_map_eq.
    rewrite (mapM_ext_in _ (fun c => leaf_ids <$> set_sid py_int c)) by exact IH.
    rewrite mapM_fmap_gen.
    destruct (mapM (set_sid py_int) (c :: cs)) as [cs'|] eqn:E; [|done].
    cbn. f_equal. apply length_mapM in E.
    destruct cs' as [|c' cs']; [done|]. done.
Qed.

Lemma set_sid_set t t1 : set_sid py_int t = Some t1 -> sids_set t1.
Proof.
  revert t1. induction t as [n cs IH] using ete_ind. intros t1.
  rewrite set_sid_unfold. destruct cs as [|c cs].
  - cbn. destruct (py_int n); [|done]. intros [= <-]. constructor.
  - cbn [e_children]. intros H. apply bind_Some in H as (cs' & E & [= <-]).
    constructor.
    + apply length_mapM in E. by destruct cs'.
    + apply mapM_Some in E. clear -IH E.
      induction E as [|x y l k Hxy _ IHE]; [done|].
      inversion IH; subst. constructor; [eauto|]. by apply IHE.
Qed.

Lemma set_sid_names t t1 : set_sid py_int t = Some t1 -> names_of t1 = blank t.
Proof.
  revert t1. induction t as [n cs IH] using ete_ind. intros t1.
  rewrite set_sid_unfold. destruct cs as [|c cs].
  - cbn. destruct (py_int n); [|done]. by intros [= <-].
  - cbn [e_children]. intros H. apply bind_Some in H as (cs' & E & [= <-]).
    cbn [names_of blank e_children i_name i_children]. f_equal.
    apply mapM_Some in E. clear -IH E.
    induction E as [|x y l k Hxy _ IHE]; [done|].
    inversion IH; subst. cbn [map]. f_equal; [eauto|]. by apply IHE.
Qed.

Lemma sids_set_leaf_ids t : sids_set t -> i_sid t = leaf_ids t /\ i_nid t = None.
Proof.
  induction t as [n s i cs IH] using inode_ind. intros H. inversion H; subst; [done|].
  split; [|done]. rewrite leaf_ids_unfold. cbn [i_sid i_children].
  destruct cs as [|c cs]; [done|]. f_equal.
  apply Forall_fmap_ext_1. rewrite Forall_forall in IH |- *.
  intros x Hx. apply IH; [done|].
  match goal with Hf : Forall sids_set _ |- _ => rewrite Forall_forall in Hf; by apply Hf end.
Qed.

Lemma sids_set_nleaves t : sids_set t -> i_nleaves t = length (leaf_ids t).
Proof.
  induction t as [n s i cs IH] using inode_ind. intros H. inversion H as [|? ? Hne Hcs]; subst; [done|].
  rewrite leaf_ids_unfold. cbn [i_children].
  destruct cs as [|c cs]; [done|]. clear Hne H.
  change (i_nleaves (INode n (concat (map i_sid (c :: cs))) None (c :: cs)))
    with (foldr (fun c acc => (i_nleaves c + acc)%nat) 0%nat (c :: cs)).
  induction (c :: cs) as [|x l IHl]; [done|].
  inversion IH; subst. inversion Hcs; subst.
  cbn [foldr map concat]. rewrite length_app. f_equal; [eauto|]. by apply IHl.
Qed.

End InitTreeFacts.

(** *** The second loop *)

Lemma set_nid_unfold limit i t :
  set_nid limit i t =
  let '(cs, j) := mapS (set_nid limit) i (i_children t) in
  if (j <? limit)%nat
  then (INode (i_name t) (merge_sort Z.le (i_sid t)) (Some j) cs, S j)
  else (INode (i_name t) (i_sid t) (i_nid t) cs, S j).
Proof. by destruct t. Qed.

Lemma mapS_cons {A B S} (f : S -> A -> B * S) s x l :
  mapS f s (x :: l) = ((f s x).1 :: (mapS f (f s x).2 l).1, (mapS f (f s x).2 l).2).
Proof. simpl. destruct (f s x) as [y s1]. simpl. by destruct (mapS f s1 l). Qed.

Lemma mapS_Forall2 {A B S} (f : S -> A -> B * S) (R : A -> B -> Prop) l :
  Forall (fun x => forall s, R x (f s x).1) l -> forall s, Forall2 R l (mapS f s l).1.
Proof.
  induction 1 as [|x l Hx _ IH]; intros s; [constructor|].
  rewrite mapS_cons. cbn [fst]. constructor; [apply Hx | apply IH].
Qed.

Lemma Forall2_map_eq {A B} (g : A -> B) (l k : list A) :
  Forall2 (fun c c' => g c' = g c) l k -> map g k = map g l.
Proof. induction 1 as [|x y l k Hxy _ IH]; [done|]. cbn [map]. by f_equal. Qed.

Lemma mapS_length {A B S} (f : S -> A -> B * S) s l : length (mapS f s l).1 = length l.
Proof.
  revert s. induction l as [|x l IH]; intros s; [done|].
  rewrite mapS_cons. cbn. by rewrite IH.
Qed.

Lemma i_postorder_unfold t :
  i_postorder t = concat (map i_postorder (i_children t)) ++ [t].
Proof. by destruct t. Qed.

Lemma set_nid_children limit i t :
  i_children (set_nid limit i t).1 = (mapS (set_nid limit) i (i_children t)).1 /\
  i_name (set_nid limit i t).1 = i_name t.
Proof.
  rewrite set_nid_unfold. destruct (mapS _ i _) as [cs j]. by destruct (j <? limit)%nat.
Qed.

(** The loop keeps the shape of the tree and the names. *)
Lemma set_nid_names limit t : forall i, names_of (set_nid limit i t).1 = names_of t.
Proof.
  induction t as [n s d cs IH] using inode_ind. intros i.
  destruct (set_nid_children limit i (INode n s d cs)) as [Hc Hn].
  destruct (set_nid limit i (INode n s d cs)).1 as [n' s' d' cs'] eqn:E.
  cbn [i_children i_name] in Hc, Hn. subst. cbn [names_of i_name i_children]. f_equal.
  apply Forall2_map_eq.
  exact (mapS_Forall2 (set_nid limit) (fun c c' => names_of c' = names_of c) cs IH i).
Qed.

(** The counter advances by the number of nodes, and the loop keeps that
    number. *)
Lemma set_nid_count limit t :
  forall i, (set_nid limit i t).2 = (i + length (i_postorder t))%nat /\
            length (i_postorder (set_nid limit i t).1) = length (i_postorder t).
Proof.
  induction t as [n s d cs IH] using inode_ind. intros i.
  assert (forall i, (mapS (set_nid limit) i cs).2 =
                    (i + length (concat (map i_postorder cs)))%nat /\
                    length (concat (map i_postorder (mapS (set_nid limit) i cs).1)) =
                    length (concat (map i_postorder cs))) as Hcs.
  { clear i. induction IH as [|c cs Hc _ IHcs]; intros i; [simpl; split; [lia|done]|].
    rewrite mapS_cons. cbn [fst snd map concat]. rewrite !length_app.
    destruct (Hc i) as [-> ->]. destruct (IHcs (i + length (i_postorder c))%nat) as [-> ->].
    split; lia. }
  destruct (Hcs i) as [Hj Hl].
  rewrite (i_postorder_unfold (set_nid _ _ _).1), (i_postorder_unfold (INode n s d cs)).
  destruct (set_nid_children limit i (INode n s d cs)) as [-> _].
  cbn [i_children]. rewrite !length_app, Hl. split; [|done].
  rewrite set_nid_unfold. cbn [i_children].
  destruct (mapS (set_nid limit) i cs) as [cs' j]. cbn [snd] in Hj. subst j.
  destruct (_ <? limit)%nat; cbn; lia.
Qed.

(** What the loop does to the node it is at. *)
Lemma set_nid_root limit i t :
  let j := (i + length (i_postorder t) - 1)%nat in
  i_nid (set_nid limit i t).1 = (if (j <? limit)%nat then Some j else i_nid t) /\
  i_sid (set_nid limit i t).1 =
    (if (j <? limit)%nat then merge_sort Z.le (i_sid t) else i_sid t).
Proof.
  intros j. pose proof (set_nid_count limit t i) as [Hc _].
  rewrite set_nid_unfold in Hc |- *.
  destruct (mapS (set_nid limit) i (i_children t)) as [cs j'].
  assert (j' = j) as ->.
  { unfold j. destruct (j' <? limit)%nat; cbn in Hc; lia. }
  by destruct (j <? limit)%nat.
Qed.

(** The nodes of the result, in post-order, are the nodes of the
    argument, each taken by the loop at its own position. *)
Lemma set_nid_nodes limit t :
  forall i k n',
    i_postorder (set_nid limit i t).1 !! k = Some n' ->
    exists n j, i_postorder t !! k = Some n /\ n' = (set_nid limit j n).1 /\
                (j + length (i_postorder n) = i + k + 1)%nat.
Proof.
  induction t as [nm s d cs IH] using inode_ind. intros i k n' Hk.
  assert (forall i k n',
            concat (map i_postorder (mapS (set_nid limit) i cs).1) !! k = Some n' ->
            exists n j, concat (map i_postorder cs) !! k = Some n /\
                        n' = (set_nid limit j n).1 /\
                        (j + length (i_postorder n) = i + k + 1)%nat) as Hcs.
  { clear i k n' Hk. induction IH as [|c cs Hc _ IHcs]; intros i k n' Hk.
    { simpl in Hk. by rewrite lookup_nil in Hk. }
    rewrite mapS_cons in Hk. cbn [fst map concat] in Hk |- *.
    destruct (set_nid_count limit c i) as [Hj Hl].
    destruct (decide (k < length (i_postorder c))%nat) as [Hlt|Hge].
    - rewrite lookup_app_l in Hk by lia. rewrite lookup_app_l by done. by apply Hc.
    - rewrite lookup_app_r in Hk by lia. rewrite Hl, Hj in Hk.
      destruct (IHcs _ _ _ Hk) as (n & j & Hn & -> & Hjn).
      exists n, j. rewrite lookup_app_r by lia. split; [done|]. split; [done|]. lia. }
  rewrite i_postorder_unfold in Hk. rewrite i_postorder_unfold.
  destruct (set_nid_children limit i (INode nm s d cs)) as [Hch _]. rewrite Hch in Hk.
  cbn [i_children] in Hk |- *.
  destruct (set_nid_count limit (INode nm s d cs) i) as [_ Hl].
  rewrite !i_postorder_unfold, Hch in Hl. cbn [i_children] in Hl.
  rewrite !length_app in Hl. cbn [length] in Hl.
  destruct (decide (k < length (concat (map i_postorder cs)))%nat) as [Hlt|Hge].
  - rewrite lookup_app_l in Hk by lia. rewrite lookup_app_l by done. by apply Hcs.
  - rewrite lookup_app_r in Hk by lia.
    apply list_lookup_singleton_Some in Hk as [Hk <-].
    exists (INode nm s d cs), i. rewrite lookup_app_r by lia.
    split; [apply list_lookup_singleton_Some; split; [lia|done]|]. split; [done|].
    rewrite i_postorder_unfold, length_app. cbn [i_children length]. lia.
Qed.

(** Sorting leaves the one identifier of a leaf where it is. *)
Lemma set_nid_leaf_ids limit t :
  sids_set t -> forall i, leaf_ids (set_nid limit i t).1 = leaf_ids t.
Proof.
  induction t as [nm s d cs IH] using inode_ind. intros Hs i.
  inversion Hs as [|? ? Hne Hcs]; subst.
  - rewrite set_nid_unfold. cbn [i_children mapS i_sid i_name i_nid].
    by destruct (i <? limit)%nat.
  - destruct (set_nid_children limit i (INode nm (concat (map i_sid cs)) None cs)) as [Hc _].
    rewrite (leaf_ids_unfold (set_nid _ _ _).1), Hc. cbn [i_children].
    rewrite leaf_ids_unfold. cbn [i_children].
    pose proof (mapS_length (set_nid limit) i cs) as Hl.
    assert (map leaf_ids (mapS (set_nid limit) i cs).1 = map leaf_ids cs) as Hm.
    { assert (Forall (fun c => forall i, leaf_ids (set_nid limit i c).1 = leaf_ids c) cs) as H'.
      { rewrite Forall_forall in IH, Hcs |- *. intros c Hin. by apply IH, Hcs. }
      apply Forall2_map_eq.
      exact (mapS_Forall2 (set_nid limit) (fun c c' => leaf_ids c' = leaf_ids c) cs H' i). }
    destruct (mapS (set_nid limit) i cs).1 as [|c' cs'] eqn:E; [by destruct cs|].
    destruct cs as [|c cs]; [done|]. by rewrite Hm.
Qed.

Lemma sids_set_sub t n : sids_set t -> n ∈ i_postorder t -> sids_set n.
Proof.
  induction t as [nm s d cs IH] using inode_ind. intros Hs Hin.
  rewrite i_postorder_unfold in Hin. cbn [i_children] in Hin.
  apply elem_of_app in Hin as [Hin|Hin]; [|by apply list_elem_of_singleton in Hin as ->].
  apply list_elem_of_In, in_concat in Hin as (l & Hl & Hin).
  apply list_elem_of_In in Hl, Hin. apply list_elem_of_fmap in Hl as (c & -> & Hc).
  rewrite Forall_forall in IH. apply (IH c Hc); [|done].
  inversion Hs as [|? ? _ Hcs]; subst; [by apply elem_of_nil in Hc|].
  rewrite Forall_forall in Hcs. by apply Hcs.
Qed.

(** *** [init_tree] *)

Section InitTreeTheorems.
Context (py_int : string -> option Z).

Lemma init_tree_inv t order r :
  init_tree py_int t = Some (order, r) ->
  exists t1, set_sid py_int t = Some t1 /\ sids_set t1 /\
             order = leaf_ids t1 /\ i_nleaves t1 = length order /\
             r = (set_nid (2 * length order - 1) 0 t1).1.
Proof.
  unfold init_tree. intros H. apply bind_Some in H as (lo & Hlo & H).
  apply bind_Some in H as (t1 & Ht1 & [= <- <-]).
  rewrite set_sid_leaf_ids, Ht1 in Hlo. injection Hlo as <-.
  pose proof (set_sid_set py_int t t1 Ht1) as Hs.
  pose proof (sids_set_nleaves t1 Hs) as Hn.
  exists t1. split_and!; try done. by rewrite Hn.
Qed.

(** X15.  [init_tree] raises exactly when the name of some leaf is not a
    number.  When it returns, the tree has the shape it had, its leaves
    keep their names and every other node has the empty name,
    [leaf_order] holds the numbers of the leaf names from left to right,
    and these are the identifiers of the leaves of the result. *)
Theorem X15_init_tree_leaves (t : ete) :
  (init_tree py_int t = None <-> Exists (fun n => py_int n = None) (leaf_names t)) /\
  (forall order r, init_tree py_int t = Some (order, r) ->
     mapM py_int (leaf_names t) = Some order /\
     names_of r = blank t /\
     leaf_ids r = order).
Proof.
  split.
  - rewrite <- mapM_None. unfold init_tree. rewrite set_sid_leaf_ids.
    destruct (set_sid py_int t) as [t1|]; cbn; [|done]. split; done.
  - intros order r H.
    destruct (init_tree_inv t order r H) as (t1 & Ht1 & Hs & -> & Hn & ->).
    split; [by rewrite set_sid_leaf_ids, Ht1|].
    split; [rewrite set_nid_names; by apply (set_sid_names py_int)|].
    by apply set_nid_leaf_ids.
Qed.

Lemma init_tree_node t order r k node :
  init_tree py_int t = Some (order, r) ->
  i_postorder r !! k = Some node ->
  i_nid node = (if (k <? 2 * length order - 1)%nat then Some k else None) /\
  i_sid node = (if (k <? 2 * length order - 1)%nat
                then merge_sort Z.le (leaf_ids node) else leaf_ids node).
Proof.
  intros H Hk.
  destruct (init_tree_inv t order r H) as (t1 & Ht1 & Hs & -> & Hn & ->).
  destruct (set_nid_nodes _ _ _ _ _ Hk) as (n & j & Hnk & -> & Hj).
  assert (sids_set n) as Hsn.
  { apply (sids_set_sub t1); [done|]. eapply list_elem_of_lookup_2, Hnk. }
  destruct (sids_set_leaf_ids n Hsn) as [Hsid Hnid].
  destruct (set_nid_root (2 * length (leaf_ids t1) - 1) j n) as [E1 E2].
  cbv zeta in E1, E2.
  replace (j + length (i_postorder n) - 1)%nat with k in E1, E2 by lia.
  rewrite E1, E2, Hnid, Hsid, set_nid_leaf_ids by done. done.
Qed.

(** X16.  In the tree [init_tree] returns, the node at position [k] of
    the post-order traversal, for [k] below [2*m-1] where [m] is the
    number of leaves, has [nid = k] and as [sid] the identifiers of the
    leaves below it in increasing order.  A node at a later position, which
    [zip] does not reach, has no [nid] and keeps the identifiers in the
    order of the leaves. *)
Theorem X16_init_tree_sid_nid (t : ete) (order : list Z) (r : inode) :
  init_tree py_int t = Some (order, r) ->
  forall k node, i_postorder r !! k = Some node ->
    if (k <? 2 * length order - 1)%nat
    then i_nid node = Some k /\
         i_sid node = merge_sort Z.le (leaf_ids node) /\
         Sorted Z.le (i_sid node) /\ i_sid node ≡ₚ leaf_ids node
    else i_nid node = None /\ i_sid node = leaf_ids node.
Proof.
  intros H k node Hk. destruct (init_tree_node t order r k node H Hk) as [E1 E2].
  destruct (k <? 2 * length order - 1)%nat; [|done].
  split_and!; try done; rewrite E2.
  - apply Sorted_merge_sort; apply _.
  - apply merge_sort_Permutation.
Qed.
End InitTreeTheorems.

Lemma i_nleaves_unfold t :
  i_nleaves t = match i_children t with
                | [] => 1%nat
                | cs => foldr Nat.add 0%nat (map i_nleaves cs)
                end.
Proof.
  destruct t as [n s d cs]. destruct cs as [|c cs]; [done|].
  cbn [i_children]. rewrite foldr_fmap. done.
Qed.

Lemma set_nid_nleaves limit t : forall i, i_nleaves (set_nid limit i t).1 = i_nleaves t.
Proof.
  induction t as [n s d cs IH] using inode_ind. intros i.
  destruct (set_nid_children limit i (INode n s d cs)) as [Hc _].
  rewrite !i_nleaves_unfold, Hc. cbn [i_children].
  pose proof (mapS_length (set_nid limit) i cs) as Hl.
  assert (map i_nleaves (mapS (set_nid limit) i cs).1 = map i_nleaves cs) as Hm.
  { apply Forall2_map_eq.
    exact (mapS_Forall2 (set_nid limit) (fun c c' => i_nleaves c' = i_nleaves c) cs IH i). }
  destruct (mapS (set_nid limit) i cs).1 as [|c' cs'] eqn:E; [by destruct cs|].
  destruct cs as [|c cs]; [done|]. by rewrite Hm.
Qed.

Lemma i_postorder_length t :
  length (i_postorder t) = S (foldr Nat.add 0%nat (map (fun c => length (i_postorder c)) (i_children t))).
Proof.
  rewrite i_postorder_unfold, length_app. cbn [length].
  induction (i_children t) as [|c cs IH]; [done|].
  cbn [map concat foldr]. rewrite length_app. lia.
Qed.

(** A tree none of whose nodes has exactly one child has at most
    [2*m-1] nodes for [m] leaves, and a binary tree has as many. *)
Lemma no_unary_count t :
  Forall (fun n => length (i_children n) <> 1%nat) (i_postorder t) ->
  (length (i_postorder t) + 1 <= 2 * i_nleaves t)%nat.
Proof.
  induction t as [n s d cs IH] using inode_ind. intros H.
  rewrite i_postorder_unfold in H. apply Forall_app in H as [Hcs Hroot].
  rewrite Forall_singleton in Hroot. cbn [i_children] in Hcs, Hroot.
  rewrite i_postorder_length, i_nleaves_unfold. cbn [i_children].
  destruct cs as [|c cs]; [simpl; lia|].
  assert (length (c :: cs) + foldr Nat.add 0 (map (fun c => length (i_postorder c)) (c :: cs))
          <= 2 * foldr Nat.add 0 (map i_nleaves (c :: cs)))%nat as Hsum.
  { clear Hroot. induction (c :: cs) as [|x l IHl]; [simpl; lia|].
    inversion IH as [|? ? Hx Hl]; subst. cbn [map concat] in Hcs.
    apply Forall_app in Hcs as [Hcx Hcl].
    specialize (Hx Hcx). specialize (IHl Hl Hcl). cbn [map foldr length]. lia. }
  destruct cs as [|c2 cs]; [simpl in Hroot; lia|]. cbn [length] in Hsum |- *. lia.
Qed.

Lemma binary_count t :
  binary (skel (as_tree t)) -> (length (i_postorder t) + 1 = 2 * i_nleaves t)%nat.
Proof.
  induction t as [n s d cs IH] using inode_ind. intros H.
  rewrite i_postorder_length, i_nleaves_unfold. cbn [i_children].
  destruct cs as [|a [|b [|? ?]]]; simpl in H; try done.
  destruct H as [Ha Hb]. inversion IH as [|? ? IHa IH']; subst.
  inversion IH' as [|? ? IHb _]; subst. specialize (IHa Ha). specialize (IHb Hb).
  cbn [map foldr]. lia.
Qed.

Lemma i_postorder_last t : i_postorder t !! (length (i_postorder t) - 1)%nat = Some t.
Proof.
  pose proof (i_postorder_unfold t) as E.
  set (l := concat (map i_postorder (i_children t))) in E.
  rewrite E, length_app. cbn [length]. rewrite lookup_app_r by lia.
  by replace (length l + 1 - 1 - length l)%nat with 0%nat by lia.
Qed.

Section InitTreeNumbers.
Context (py_int : string -> option Z).

Lemma init_tree_nleaves t order r :
  init_tree py_int t = Some (order, r) -> i_nleaves r = length order.
Proof.
  intros H. destruct (init_tree_inv py_int t order r H) as (t1 & _ & _ & -> & Hn & ->).
  by rewrite set_nid_nleaves.
Qed.

(** X17.  The root of the tree [init_tree] returns has the last number,
    [N-1] for a tree of [N] nodes, exactly when [N] is at most [2*m-1];
    otherwise it has none.  When no node has exactly one child, every node
    has a number and a sorted [sid]; when the tree is binary it has
    [2*m-1] nodes and the root has number [2*m-2]. *)
Theorem X17_init_tree_numbering (t : ete) (order : list Z) (r : inode) :
  init_tree py_int t = Some (order, r) ->
  i_nid r = (if (length (i_postorder r) <=? 2 * length order - 1)%nat
             then Some (length (i_postorder r) - 1)%nat else None) /\
  (Forall (fun n => length (i_children n) <> 1%nat) (i_postorder r) ->
   (length (i_postorder r) <= 2 * length order - 1)%nat /\
   forall k node, i_postorder r !! k = Some node ->
     i_nid node = Some k /\ Sorted Z.le (i_sid node)) /\
  (binary (skel (as_tree r)) ->
   length (i_postorder r) = (2 * length order - 1)%nat /\
   i_nid r = Some (2 * length order - 2)%nat).
Proof.
  intros H. pose proof (init_tree_nleaves t order r H) as Hm.
  assert (1 <= length (i_postorder r))%nat as Hpos.
  { rewrite i_postorder_length. lia. }
  assert (i_nid r = (if (length (i_postorder r) <=? 2 * length order - 1)%nat
             then Some (length (i_postorder r) - 1)%nat else None)) as Hroot.
  { destruct (init_tree_node py_int t order r _ r H (i_postorder_last r)) as [-> _].
    destruct (Nat.ltb_spec (length (i_postorder r) - 1) (2 * length order - 1)),
      (Nat.leb_spec (length (i_postorder r)) (2 * length order - 1)); try done; lia. }
  split; [done|]. split.
  - intros Hun. pose proof (no_unary_count r Hun) as Hc. rewrite Hm in Hc.
    split; [lia|]. intros k node Hk.
    destruct (init_tree_node py_int t order r k node H Hk) as [E1 E2].
    pose proof (lookup_lt_Some _ _ _ Hk) as Hlt.
    destruct (Nat.ltb_spec k (2 * length order - 1)); [|lia].
    split; [done|]. rewrite E2. apply Sorted_merge_sort; apply _.
  - intros Hb. pose proof (binary_count r Hb) as Hc. rewrite Hm in Hc.
    split; [lia|]. rewrite Hroot.
    destruct (Nat.leb_spec (length (i_postorder r)) (2 * length order - 1)); [|lia].
    f_equal. lia.
Qed.

End InitTreeNumbers.

(** *** From [init_tree] to [genotype] *)

Lemma topo_postorder_as_tree r :
  topo_postorder (skel (as_tree r)) = map (fun n => skel (as_tree n)) (i_postorder r).
Proof.
  induction r as [n s d cs IH] using inode_ind.
  rewrite topo_postorder_unfold, i_postorder_unfold.
  change (skel (as_tree (INode n s d cs))) with (Topo s (map skel (map as_tree cs))).
  cbn [t_children i_children]. rewrite map_app. f_equal.
  rewrite concat_map, !map_map. f_equal. apply map_ext_Forall. exact IH.
Qed.

Lemma leaf_sid_below t n z :
  n ∈ i_postorder t -> i_children n = [] -> z ∈ i_sid n -> z ∈ leaf_ids t.
Proof.
  induction t as [nm s d cs IH] using inode_ind. intros Hin Hleaf Hz.
  rewrite i_postorder_unfold in Hin. cbn [i_children] in Hin.
  apply elem_of_app in Hin as [Hin|Hin].
  - apply list_elem_of_In, in_concat in Hin as (l & Hl & Hin).
    apply list_elem_of_In in Hl, Hin. apply list_elem_of_fmap in Hl as (c & -> & Hc).
    rewrite Forall_forall in IH. specialize (IH c Hc Hin Hleaf Hz).
    rewrite leaf_ids_unfold. cbn [i_children]. destruct cs as [|c0 cs]; [by apply elem_of_nil in Hc|].
    apply list_elem_of_In, in_concat. exists (leaf_ids c).
    split; apply list_elem_of_In; [|done]. apply list_elem_of_fmap. by exists c.
  - apply list_elem_of_singleton in Hin as ->. cbn [i_children] in Hleaf. subst.
    by rewrite leaf_ids_unfold.
Qed.

Lemma set_nid_leaf limit j n :
  sids_set n -> i_children (set_nid limit j n).1 = [] ->
  exists z, i_sid (set_nid limit j n).1 = [z].
Proof.
  intros Hs Hleaf. destruct (set_nid_children limit j n) as [Hc _].
  pose proof (mapS_length (set_nid limit) j (i_children n)) as Hl.
  rewrite <- Hc, Hleaf in Hl. clear Hc Hleaf.
  destruct Hs as [nm z|nm cs Hne _]; cycle 1.
  { cbn [i_children] in Hl. by destruct cs. }
  exists z. rewrite set_nid_unfold. cbn [i_children mapS i_sid i_name i_nid].
  by destruct (j <? limit)%nat.
Qed.

Lemma leaf_ids_elem t z :
  z ∈ leaf_ids t ->
  exists n, n ∈ i_postorder t /\ i_children n = [] /\ z ∈ i_sid n.
Proof.
  induction t as [nm s d cs IH] using inode_ind. intros Hz.
  rewrite i_postorder_unfold. cbn [i_children].
  destruct cs as [|c cs].
  { exists (INode nm s d []). split; [|done]. apply elem_of_app. right.
    by apply list_elem_of_singleton. }
  change (leaf_ids (INode nm s d (c :: cs)))
    with (concat (map leaf_ids (c :: cs))) in Hz.
  apply list_elem_of_In, in_concat in Hz as (l & Hl & Hz).
  apply list_elem_of_In in Hl, Hz. apply list_elem_of_fmap in Hl as (c' & -> & Hc).
  rewrite Forall_forall in IH. destruct (IH c' Hc Hz) as (n & Hn & Hleaf & Hzn).
  exists n. split; [|done]. apply elem_of_app. left.
  apply list_elem_of_In, in_concat. exists (i_postorder c'). split.
  - apply list_elem_of_In, list_elem_of_fmap. by exists c'.
  - by apply list_elem_of_In.
Qed.

(** ** The sample identifiers the pruning pass accepts ([utils.py], line 206) *)

Lemma py_index_range {A} (l : list A) (i : Z) x :
  py_index l i = Some x -> (- Z.of_nat (length l) <= i < Z.of_nat (length l))%Z.
Proof.
  unfold py_index. destruct (Z.leb_spec 0 i) as [H0|H0].
  - intros Hx. apply lookup_lt_Some in Hx. lia.
  - destruct (Z.leb_spec (- Z.of_nat (length l)) i); [|done]. lia.
Qed.

Lemma aggregate_in_range m g (PLs : arr3) mm s v :
  Forall (has_shape m g) PLs -> PLs <> [] ->
  aggregate PLs mm s = Some v -> sids_in_range m s.
Proof.
  intros Hrect Hne. revert v. induction s as [sd cs IH] using topo_ind. intros v H.
  unfold sids_in_range. rewrite topo_postorder_unfold. cbn [t_children].
  rewrite aggregate_unfold in H. destruct (topo_leaf (Topo sd cs)) eqn:Hleaf.
  - destruct cs; [|done]. simpl. constructor; [|done]. intros _.
    apply bind_Some in H as (i & Hi & H). exists i. split; [done|].
    destruct PLs as [|site PLs]; [done|]. rewrite mapM_cons_eq in H.
    apply bind_Some in H as (row & Hrow & _). apply py_index_range in Hrow.
    pose proof (Forall_inv Hrect) as [Hm _]. by rewrite Hm in Hrow.
  - apply bind_Some in H as (vals & Hvals & _). apply Forall_app. split.
    + apply Forall_concat, Forall_fmap. apply mapM_Some in Hvals.
      rewrite Forall_forall in IH |- *. intros c Hc.
      apply list_elem_of_lookup in Hc as [k Hk].
      destruct (Forall2_lookup_l _ _ _ _ _ Hvals Hk) as (cv & _ & Hcv).
      apply (IH c (list_elem_of_lookup_2 _ _ _ Hk) cv Hcv).
    + constructor; [|done]. intros E. by rewrite Hleaf in E.
Qed.

(** A run that returns has indexed the batch at every leaf. *)
Lemma genotype_in_range m g (PLs : arr3) t vars mm mm0 mm1 prior :
  Forall (has_shape m g) PLs -> PLs <> [] ->
  is_Some (genotype PLs t vars mm mm0 mm1 prior) -> sids_in_range m (skel t).
Proof.
  intros Hrect Hne [res H]. rewrite genotype_by_site in H.
  apply bind_Some in H as (pl & Hpl & _).
  by apply (aggregate_in_range m g PLs mm _ pl).
Qed.

Section InitTreeRun.
Context (py_int : string -> option Z).

Lemma init_tree_leaf t order r n :
  init_tree py_int t = Some (order, r) ->
  n ∈ i_postorder r -> i_children n = [] ->
  exists z, i_sid n = [z] /\ z ∈ order.
Proof.
  intros H Hin Hleaf.
  destruct (init_tree_inv py_int t order r H) as (t1 & _ & Hs & Ho & _ & Hr).
  assert (leaf_ids r = order) as Hids.
  { rewrite Hr, Ho. rewrite <- Ho at 1. by apply set_nid_leaf_ids. }
  assert (exists z, i_sid n = [z]) as [z Hz].
  { apply list_elem_of_lookup in Hin as [k Hk]. rewrite Hr in Hk.
    destruct (set_nid_nodes _ _ _ _ _ Hk) as (n0 & j & Hn0 & En & _).
    rewrite En in Hleaf |- *. apply set_nid_leaf; [|done].
    apply (sids_set_sub t1); [done|]. eapply list_elem_of_lookup_2, Hn0. }
  exists z. split; [done|]. rewrite <- Hids.
  apply (leaf_sid_below r n z Hin Hleaf). rewrite Hz. by apply list_elem_of_singleton.
Qed.

Lemma init_tree_sids_in_range t order r m :
  init_tree py_int t = Some (order, r) ->
  Forall (fun z => (- Z.of_nat m <= z < Z.of_nat m)%Z) order ->
  sids_in_range m (skel (as_tree r)).
Proof.
  intros H Hrange. unfold sids_in_range. rewrite topo_postorder_as_tree.
  apply Forall_fmap, Forall_forall. intros n Hin. simpl. intros Hleaf.
  assert (i_children n = []) as Hc.
  { destruct n as [nm s d cs]. by destruct cs. }
  destruct (init_tree_leaf t order r n H Hin Hc) as (z & Hz & Hzo).
  exists z. split.
  - destruct n as [nm s d cs]. cbn [i_sid] in Hz. by subst.
  - rewrite Forall_forall in Hrange. by apply Hrange.
Qed.

Lemma init_tree_order_in_range t order r m :
  init_tree py_int t = Some (order, r) ->
  sids_in_range m (skel (as_tree r)) ->
  Forall (fun z => (- Z.of_nat m <= z < Z.of_nat m)%Z) order.
Proof.
  intros H Hsid.
  destruct (init_tree_inv py_int t order r H) as (t1 & _ & Hs & Ho & _ & Hr).
  assert (leaf_ids r = order) as Hids.
  { rewrite Hr, Ho. rewrite <- Ho at 1. by apply set_nid_leaf_ids. }
  apply Forall_forall. intros z Hz. rewrite <- Hids in Hz.
  destruct (leaf_ids_elem r z Hz) as (n & Hn & Hleaf & Hzn).
  destruct (init_tree_leaf t order r n H Hn Hleaf) as (z' & Ez' & _).
  rewrite Ez' in Hzn. apply list_elem_of_singleton in Hzn as ->.
  unfold sids_in_range in Hsid. rewrite topo_postorder_as_tree in Hsid.
  rewrite Forall_fmap, Forall_forall in Hsid. specialize (Hsid n Hn). simpl in Hsid.
  destruct n as [nm s d cs]. cbn [i_children i_sid] in *. subst.
  destruct (Hsid eq_refl) as (i & Hi & Hrange). simpl in Hi. by injection Hi as <-.
Qed.

(** X18.  [init_tree] before [genotype].  The leaves of the tree
    [init_tree] returns index samples of a batch of [m] samples exactly
    when every leaf name is a number [z] with [-m <= z < m]; and
    [genotype] raises on that tree, over every non-empty batch of [m]
    samples, when some leaf is named with a number out of that range. *)
Theorem X18_init_tree_then_genotype (t : ete) (order : list Z) (r : inode)
    (PLs : arr3) (vars : list variant) (mm mm0 mm1 : mat) (prior : vec) (m g : nat) :
  init_tree py_int t = Some (order, r) ->
  Forall (has_shape m g) PLs -> PLs <> [] ->
  (sids_in_range m (skel (as_tree r)) <->
   Forall (fun z => (- Z.of_nat m <= z < Z.of_nat m)%Z) order) /\
  (~ Forall (fun z => (- Z.of_nat m <= z < Z.of_nat m)%Z) order ->
   genotype PLs (as_tree r) vars mm mm0 mm1 prior = None).
Proof.
  intros H Hrect Hne. split.
  - split; [by apply (init_tree_order_in_range t) | by apply (init_tree_sids_in_range t)].
  - intros Hout.
    destruct (genotype PLs (as_tree r) vars mm mm0 mm1 prior) as [res|] eqn:E; [|done].
    exfalso. apply Hout, (init_tree_order_in_range t order r m H).
    apply (genotype_in_range m g PLs (as_tree r) vars mm mm0 mm1 prior Hrect Hne).
    by rewrite E.
Qed.

End InitTreeRun.

(** *** The small run: two leaves named [0] and [1] *)

Lemma init_newick2 : init_tree decimal_int newick2 = Some ([0; 1]%Z, inited2).
Proof. reflexivity. Qed.

Lemma as_tree_inited2 : as_tree inited2 = tree2.
Proof. reflexivity. Qed.

Lemma X15_init_tree_leaves_witness :
  mapM decimal_int (leaf_names newick2) = Some [0; 1]%Z /\
  names_of inited2 = blank newick2 /\
  leaf_ids inited2 = [0; 1]%Z.
Proof.
  exact (proj2 (X15_init_tree_leaves decimal_int newick2) [0; 1]%Z inited2 init_newick2).
Defined.

Lemma X16_init_tree_sid_nid_witness :
  i_nid inited2 = Some 2%nat /\
  i_sid inited2 = merge_sort Z.le (leaf_ids inited2) /\
  Sorted Z.le (i_sid inited2) /\ i_sid inited2 ≡ₚ leaf_ids inited2.
Proof.
  exact (X16_init_tree_sid_nid decimal_int newick2 [0; 1]%Z inited2 init_newick2
           2%nat inited2 eq_refl).
Defined.

Lemma X17_init_tree_numbering_witness :
  length (i_postorder inited2) = 3%nat /\ i_nid inited2 = Some 2%nat.
Proof.
  apply (proj2 (proj2 (X17_init_tree_numbering decimal_int newick2 [0; 1]%Z inited2
                         init_newick2))).
  simpl. done.
Defined.

Lemma X18_init_tree_then_genotype_witness :
  genotype PLs2
    (as_tree (INode "" [0; 5]%Z (Some 2%nat)
                [INode "0" [0%Z] (Some 0%nat) []; INode "5" [5%Z] (Some 1%nat) []]))
    [var0] mmA mmA0 mmA1 prior2 = None.
Proof.
  apply (proj2 (X18_init_tree_then_genotype decimal_int
                  (Ete "" [Ete "0" []; Ete "5" []]) [0; 5]%Z _
                  PLs2 [var0] mmA mmA0 mmA1 prior2 2 2 eq_refl PLs2_shape
                  ltac:(done))).
  intros Hall. apply Forall_cons in Hall as [_ Hall].
  apply Forall_cons in Hall as [Hfive _]. lia.
Defined.


(** ** Reading the batch: the vector of a sample and the loop *)

(** *** The dictionary of one sample *)

Lemma pl_set_keys {V} k (v : V) d : k ∈ map fst d -> map fst (pl_set k v d) = map fst d.
Proof.
  induction d as [|[k' v'] d IH]; intros Hin; [by apply elem_of_nil in Hin|].
  simpl. destruct (String.eqb_spec k' k) as [->|Hne]; [done|].
  simpl. f_equal. apply IH. simpl in Hin. apply elem_of_cons in Hin as [->|Hin]; done.
Qed.

Lemma pl_get_set {V} k (v : V) d : pl_get k (pl_set k v d) = Some v.
Proof.
  induction d as [|[k' v'] d IH]; simpl; [by rewrite String.eqb_refl|].
  destruct (String.eqb_spec k' k) as [->|Hne]; simpl.
  - by rewrite String.eqb_refl.
  - by destruct (String.eqb_spec k' k).
Qed.

Lemma pl_get_set_ne {V} k k0 (v : V) d : k0 <> k -> pl_get k0 (pl_set k v d) = pl_get k0 d.
Proof.
  intros Hne. induction d as [|[k' v'] d IH]; simpl.
  - by destruct (String.eqb_spec k k0).
  - destruct (String.eqb_spec k' k) as [->|Hne']; simpl.
    + by destruct (String.eqb_spec k k0).
    + by destruct (String.eqb_spec k' k0).
Qed.

(** The loop over the keys of [find_geno] is a sequence of assignments
    [pl_dict[g] = p[o]], one for each genotype of the list; it raises when
    [p] is too short. *)
Lemma assign_loop_from {V} (l : list V) (fg pre : list string) (prel : list V) d0 :
  length pre = length prel ->
  foldlM (fun d o => g ← (pre ++ fg) !! o; v ← (prel ++ l) !! o; Some (pl_set g v d))
         d0 (seq (length pre) (length fg)) =
  if (length fg <=? length l)%nat
  then Some (foldl (fun d gv => pl_set gv.1 gv.2 d) d0 (zip fg l)) else None.
Proof.
  revert l pre prel d0. induction fg as [|g fg IH]; intros l pre prel d0 Hl; [done|].
  cbn [length seq foldlM]. rewrite list_lookup_middle by done. cbn [mbind option_bind].
  destruct l as [|v l].
  - rewrite lookup_ge_None_2 by (rewrite length_app; simpl; lia). done.
  - rewrite Hl, list_lookup_middle by done. cbn [mbind option_bind].
    rewrite (cons_middle g pre fg), (cons_middle v prel l), !app_assoc.
    replace (S (length prel)) with (length (pre ++ [g])) by (rewrite length_app; simpl; lia).
    rewrite (IH l (pre ++ [g]) (prel ++ [v])) by (rewrite !length_app; simpl; lia).
    done.
Qed.

Lemma assign_loop (fg : list string) (p : pl_value) d0 :
  fg <> [] ->
  foldlM (fun d o => g ← fg !! o; l ← p; v ← l !! o; Some (pl_set g v d))
         d0 (seq 0 (length fg)) =
  l ← p;
  if (length fg <=? length l)%nat
  then Some (foldl (fun d gv => pl_set gv.1 gv.2 d) d0 (zip fg l)) else None.
Proof.
  intros Hne. destruct p as [l|]; cbn [mbind option_bind].
  - exact (assign_loop_from l fg [] [] d0 eq_refl).
  - destruct fg as [|g fg]; [done|]. done.
Qed.

Lemma foldl_set_keys {V} (kvs : list (string * V)) d0 :
  Forall (fun kv => kv.1 ∈ map fst d0) kvs ->
  map fst (foldl (fun d gv => pl_set gv.1 gv.2 d) d0 kvs) = map fst d0.
Proof.
  revert d0. induction kvs as [|[k v] kvs IH]; intros d0 H; [done|].
  inversion H as [|? ? Hk Hrest]; subst. cbn [foldl fst snd].
  rewrite IH; [by apply pl_set_keys|].
  eapply Forall_impl; [exact Hrest|]. intros kv Hkv. simpl. by rewrite pl_set_keys.
Qed.

(** After the assignments a key holds the value of the last assignment
    to it, or what it held before when there is none. *)
Lemma foldl_set_get {V} (kvs : list (string * V)) d0 g :
  (g ∉ map fst kvs -> pl_get g (foldl (fun d gv => pl_set gv.1 gv.2 d) d0 kvs) = pl_get g d0) /\
  (forall o v, kvs !! o = Some (g, v) ->
     (forall o' kv, (o < o')%nat -> kvs !! o' = Some kv -> kv.1 <> g) ->
     pl_get g (foldl (fun d gv => pl_set gv.1 gv.2 d) d0 kvs) = Some v).
Proof.
  induction kvs as [|[k x] kvs [IH1 IH2]] using rev_ind; [split; [done|]; intros; done|].
  rewrite foldl_app. cbn [foldl fst snd]. split.
  - intros Hg. rewrite map_app in Hg. cbn in Hg.
    rewrite pl_get_set_ne; [apply IH1|]; intros ?; apply Hg; apply elem_of_app; [by left|].
    right. subst. by apply list_elem_of_singleton.
  - intros o v Ho Hlast. destruct (decide (o < length kvs)%nat) as [Hlt|Hge].
    + rewrite lookup_app_l in Ho by done.
      assert (k <> g) as Hk.
      { apply (Hlast (length kvs) (k, x)); [done|]. by rewrite list_lookup_middle. }
      rewrite pl_get_set_ne by done. apply (IH2 o v Ho).
      intros o' kv Ho' Hkv. apply (Hlast o' kv Ho'). rewrite lookup_app_l; [done|].
      by apply lookup_lt_Some in Hkv.
    + rewrite lookup_app_r in Ho by lia.
      apply list_lookup_singleton_Some in Ho as [_ [= -> ->]]. apply pl_get_set.
Qed.

Lemma pl_get_lookup {V} (d : list (string * V)) i g x :
  NoDup (map fst d) -> d !! i = Some (g, x) -> pl_get g d = Some x.
Proof.
  revert i. induction d as [|[k v] d IH]; intros i Hnd Hi; [done|].
  cbn [map fst] in Hnd. apply NoDup_cons in Hnd as [Hk Hnd].
  destruct i as [|i]; simpl in Hi |- *.
  - injection Hi as -> ->. by rewrite String.eqb_refl.
  - destruct (String.eqb_spec k g) as [->|Hne]; [|by apply (IH i)].
    exfalso. apply Hk. apply list_elem_of_fmap. exists (g, x). split; [done|].
    eapply list_elem_of_lookup_2, Hi.
Qed.

Lemma sorted_items_ten {V} (d : list (string * V)) :
  map fst d = GTYPE10 -> sorted_items d = d.
Proof.
  intros H. do 10 (destruct d as [|[? ?] d]; [done|]). destruct d; [|done].
  simpl in H. injection H as -> -> -> -> -> -> -> -> -> ->. reflexivity.
Qed.

Lemma NoDup_GTYPE10 : NoDup GTYPE10.
Proof. apply (bool_decide_unpack _). by vm_compute. Qed.

Lemma pl_dict0_keys : map fst pl_dict0 = GTYPE10.
Proof. reflexivity. Qed.

Lemma pl_dict0_get g : g ∈ GTYPE10 -> pl_get g pl_dict0 = Some (Some 255%Z).
Proof.
  intros Hin. apply list_elem_of_lookup in Hin as [i Hi].
  apply (pl_get_lookup pl_dict0 i).
  - rewrite pl_dict0_keys. apply NoDup_GTYPE10.
  - unfold pl_dict0. by rewrite list_lookup_fmap, Hi.
Qed.

Lemma pl_set_values {V} (P : V -> Prop) k v (d : list (string * V)) :
  P v -> Forall (fun kv => P kv.2) d -> Forall (fun kv => P kv.2) (pl_set k v d).
Proof.
  intros Hv. induction 1 as [|[k' v'] d Hx Hd IH]; simpl; [by repeat constructor|].
  destruct (String.eqb k' k); constructor; done.
Qed.

Lemma foldl_set_values {V} (P : V -> Prop) (kvs d0 : list (string * V)) :
  Forall (fun kv => P kv.2) kvs -> Forall (fun kv => P kv.2) d0 ->
  Forall (fun kv => P kv.2) (foldl (fun d gv => pl_set gv.1 gv.2 d) d0 kvs).
Proof.
  intros H. revert d0. induction H as [|[k v] kvs Hx _ IH]; intros d0 Hd; [done|].
  cbn [foldl]. apply IH. by apply pl_set_values.
Qed.

Local Abbreviation to_float := (fun kv : string * option Z => z ← kv.2; Some (IZR z)).
Local Abbreviation assigned fg l :=
  (foldl (fun d (gv : string * option Z) => pl_set gv.1 gv.2 d) pl_dict0 (zip fg l)).

Lemma assigned_keys (fg : list string) (l : list (option Z)) :
  Forall (fun g => g ∈ GTYPE10) fg -> map fst (assigned fg l) = GTYPE10.
Proof.
  intros Hfg. rewrite foldl_set_keys; [done|]. rewrite pl_dict0_keys.
  apply Forall_forall. intros [g v] Hin. simpl.
  rewrite Forall_forall in Hfg. apply Hfg. by apply elem_of_zip_l in Hin.
Qed.

(** With genotypes of the ten as keys the dictionary keeps its ten
    keys, so the assertion on its size holds and the sorted items are the
    ten genotypes in their order. *)
Lemma pl_vector_spec (fg : list string) (p : pl_value) :
  fg <> [] -> Forall (fun g => g ∈ GTYPE10) fg ->
  pl_vector fg p =
  l ← p; if (length fg <=? length l)%nat then mapM to_float (assigned fg l) else None.
Proof.
  intros Hne Hfg. unfold pl_vector. rewrite assign_loop by done.
  destruct p as [l|]; cbn [mbind option_bind]; [|done].
  destruct (length fg <=? length l)%nat; [|done]. cbn [mbind option_bind].
  pose proof (assigned_keys fg l Hfg) as Hk.
  assert (length (assigned fg l) = 10%nat) as ->.
  { rewrite <- (length_map fst), Hk. done. }
  cbn [Nat.eqb]. by rewrite sorted_items_ten.
Qed.

Lemma pl_vector_entries (fg : list string) (l : list (option Z)) (v : vec) :
  fg <> [] -> Forall (fun g => g ∈ GTYPE10) fg ->
  pl_vector fg (Some l) = Some v ->
  length v = 10%nat /\ (length fg <= length l)%nat /\
  forall i g, GTYPE10 !! i = Some g ->
    (g ∉ fg -> v !! i = Some 255%R) /\
    (forall o, fg !! o = Some g -> (forall o', (o < o')%nat -> fg !! o' <> Some g) ->
       exists z, l !! o = Some (Some z) /\ v !! i = Some (IZR z)).
Proof.
  intros Hne Hfg H. rewrite pl_vector_spec in H by done. cbn [mbind option_bind] in H.
  destruct (Nat.leb_spec (length fg) (length l)) as [Hl|]; [|done].
  pose proof (assigned_keys fg l Hfg) as Hk.
  split; [|split; [done|]].
  { apply length_mapM in H. rewrite <- H, <- (length_map fst), Hk. done. }
  intros i g Hi.
  assert (exists x, assigned fg l !! i = Some (g, x)) as [x Hx].
  { pose proof Hi as Hi'. rewrite <- Hk, list_lookup_fmap in Hi'.
    destruct (assigned fg l !! i) as [[g' x]|]; [|done].
    injection Hi' as ->. by exists x. }
  destruct (mapM_lookup_l _ _ _ _ _ H Hx) as (y & Hy & Hconv). cbn in Hconv.
  assert (pl_get g (assigned fg l) = Some x) as Hget.
  { apply (pl_get_lookup _ i); [|done]. rewrite Hk. apply NoDup_GTYPE10. }
  destruct (foldl_set_get (zip fg l) pl_dict0 g) as [G1 G2]. split.
  - intros Hnot. rewrite G1, pl_dict0_get in Hget.
    + injection Hget as <-. cbn in Hconv. by injection Hconv as <-.
    + eapply list_elem_of_lookup_2, Hi.
    + intros Hin. apply Hnot. apply list_elem_of_fmap in Hin as ([g' v'] & -> & Hin).
      by apply elem_of_zip_l in Hin.
  - intros o Ho Hlast. destruct (lookup_lt_is_Some_2 l o) as [lo Hlo].
    { apply lookup_lt_Some in Ho. lia. }
    rewrite (G2 o lo) in Hget.
    + injection Hget as <-. destruct lo as [z|]; [|done]. cbn in Hconv.
      injection Hconv as <-. by exists z.
    + apply lookup_zip_with_Some. by exists g, lo.
    + intros o' [g' v'] Ho' Hkv Heq. simpl in Heq. subst g'.
      apply lookup_zip_with_Some in Hkv as (g'' & v'' & [= <- <-] & Hg & _).
      by apply (Hlast o' Ho').
Qed.

Lemma pl_vector_returns (fg : list string) (l : list (option Z)) :
  fg <> [] -> Forall (fun g => g ∈ GTYPE10) fg ->
  (length fg <= length l)%nat -> Forall is_Some (take (length fg) l) ->
  is_Some (pl_vector fg (Some l)).
Proof.
  intros Hne Hfg Hl Hsome. rewrite pl_vector_spec by done. cbn [mbind option_bind].
  destruct (Nat.leb_spec (length fg) (length l)); [|lia].
  apply mapM_is_Some.
  eapply Forall_impl; [apply (foldl_set_values is_Some (zip fg l) pl_dict0)|].
  3: { intros [g [z|]] [? Hz]; [by eexists | done]. }
  - apply Forall_forall. intros [g x] Hin. simpl.
    apply list_elem_of_lookup in Hin as [o Ho].
    apply lookup_zip_with_Some in Ho as (g' & x' & [= <- <-] & Hg & Hx).
    rewrite Forall_forall in Hsome. apply Hsome.
    apply list_elem_of_lookup. exists o. rewrite lookup_take_lt; [done|].
    by apply lookup_lt_Some in Hg.
  - unfold pl_dict0. apply Forall_fmap, Forall_forall. intros g _. by eexists.
Qed.

(** X19.  The vector of a sample.  When [find_geno] lists genotypes of
    the ten, the dictionary keeps its ten keys: the assertion on its size
    never fails, and [pl_vector] returns as soon as the sample has a list
    of likelihoods with a number for every key of [find_geno].  The vector
    it returns has ten entries in the alphabetical order of the
    genotypes: a genotype that [find_geno] does not list is at 255, and a
    genotype it lists holds the likelihood at the last index that
    [find_geno] maps to it. *)
Theorem X19_pl_vector (fg : list string) (l : list (option Z)) :
  fg <> [] -> Forall (fun g => g ∈ GTYPE10) fg ->
  pl_vector fg None = None /\
  ((length fg <= length l)%nat -> Forall is_Some (take (length fg) l) ->
   is_Some (pl_vector fg (Some l))) /\
  (forall v, pl_vector fg (Some l) = Some v ->
     length v = 10%nat /\ (length fg <= length l)%nat /\
     forall i g, GTYPE10 !! i = Some g ->
       (g ∉ fg -> v !! i = Some 255%R) /\
       (forall o, fg !! o = Some g -> (forall o', (o < o')%nat -> fg !! o' <> Some g) ->
          exists z, l !! o = Some (Some z) /\ v !! i = Some (IZR z))).
Proof.
  intros Hne Hfg. split; [by rewrite pl_vector_spec|]. split.
  - by apply pl_vector_returns.
  - intros v. by apply pl_vector_entries.
Qed.

(** *** The order of the likelihoods in a record *)

Ltac in_bases H :=
  unfold bases in H;
  repeat (apply elem_of_cons in H as [->|H]); [..|by apply elem_of_nil in H].

Ltac mem := repeat first [apply list_elem_of_here | apply list_elem_of_further].

Ltac fin_nodup Hnd := revert Hnd; apply (bool_decide_unpack _); by vm_compute.

Lemma sorted_same x : x ∈ bases -> sorted_str (x +:+ x) = (x +:+ x)%string.
Proof. intros H. in_bases H; reflexivity. Qed.

Lemma find_geno_index s prev fg :
  find_geno s prev = Some fg -> (2 <= length s <= 4)%nat ->
  forall a b sa sb, (a <= b)%nat -> s !! a = Some sa -> s !! b = Some sb ->
    fg !! (b * (b + 1) / 2 + a)%nat =
    Some (if (a =? b)%nat then (sa +:+ sa)%string else sorted_str (sa +:+ sb)).
Proof.
  intros H Hl a b sa sb Hab Ha Hb.
  destruct s as [|s0 [|s1 [|s2 [|s3 [|s4 s]]]]]; simpl in Hl; try lia;
    injection H as <-;
    (destruct b as [|[|[|[|b]]]]; [| | | |done]);
    (destruct a as [|[|[|[|a]]]]; try lia);
    simpl in Ha, Hb; try done; injection Ha as <-; injection Hb as <-; reflexivity.
Qed.

Lemma find_geno_length s prev :
  (2 <= length s <= 4)%nat ->
  exists fg, find_geno s prev = Some fg /\
             length fg = (length s * (length s + 1) / 2)%nat /\ fg <> [].
Proof.
  intros Hl. destruct s as [|s0 [|s1 [|s2 [|s3 [|s4 s]]]]]; simpl in Hl; try lia;
    eexists; (split; [reflexivity|]); split; done.
Qed.

Lemma find_geno_elems s prev fg g :
  find_geno s prev = Some fg -> (2 <= length s <= 4)%nat -> Forall (fun x => x ∈ bases) s ->
  g ∈ fg -> exists sa sb, sa ∈ s /\ sb ∈ s /\ g = sorted_str (sa +:+ sb).
Proof.
  intros H Hl Hs Hg.
  assert (forall x, x ∈ s -> (x +:+ x)%string = sorted_str (x +:+ x)) as Hsame.
  { intros x Hx. symmetry. apply sorted_same. rewrite Forall_forall in Hs. by apply Hs. }
  destruct s as [|s0 [|s1 [|s2 [|s3 [|s4 s]]]]]; simpl in Hl; try lia;
    injection H as <-;
    repeat (apply elem_of_cons in Hg as [->|Hg]);
    try (by apply elem_of_nil in Hg);
    first [ by (eexists _, _; split; [|split; [|reflexivity]]; mem)
          | by (eexists _, _; split; [|split; [|apply Hsame; mem]]; mem) ].
Qed.

Lemma find_geno_ten s prev fg :
  find_geno s prev = Some fg -> (2 <= length s <= 4)%nat -> Forall (fun x => x ∈ bases) s ->
  Forall (fun g => g ∈ GTYPE10) fg.
Proof.
  intros H Hl Hs. apply Forall_forall. intros g Hg.
  destruct (find_geno_elems s prev fg g H Hl Hs Hg) as (sa & sb & Ha & Hb & ->).
  rewrite Forall_forall in Hs. pose proof (Hs sa Ha) as Ia. pose proof (Hs sb Hb) as Ib.
  in_bases Ia; in_bases Ib; apply (bool_decide_unpack _); by vm_compute.
Qed.

Lemma find_geno_NoDup s prev fg :
  find_geno s prev = Some fg -> (2 <= length s <= 4)%nat -> Forall (fun x => x ∈ bases) s ->
  NoDup s -> NoDup fg.
Proof.
  intros H Hl Hs Hnd. rewrite Forall_forall in Hs.
  destruct s as [|s0 [|s1 [|s2 [|s3 [|s4 s]]]]]; simpl in Hl; try lia; injection H as <-.
  - pose proof (Hs s0 ltac:(mem)) as H0. pose proof (Hs s1 ltac:(mem)) as H1.
    clear Hs. in_bases H0; in_bases H1; fin_nodup Hnd.
  - pose proof (Hs s0 ltac:(mem)) as H0. pose proof (Hs s1 ltac:(mem)) as H1.
    pose proof (Hs s2 ltac:(mem)) as H2.
    clear Hs. in_bases H0; in_bases H1; in_bases H2; fin_nodup Hnd.
  - pose proof (Hs s0 ltac:(mem)) as H0. pose proof (Hs s1 ltac:(mem)) as H1.
    pose proof (Hs s2 ltac:(mem)) as H2. pose proof (Hs s3 ltac:(mem)) as H3.
    clear Hs. in_bases H0; in_bases H1; in_bases H2; in_bases H3; fin_nodup Hnd.
Qed.

(** X20.  The order of the likelihoods of a record.  For two to four
    different alleles among [A], [C], [G], [T], the reference first,
    [find_geno] has [k*(k+1)/2] keys for [k] alleles, and the vector of a
    sample holds, at the place of the genotype made of the alleles of
    indexes [a <= b], the likelihood of index [b*(b+1)/2 + a] of the
    record, which is the order of the VCF format; every genotype with an
    allele that the record does not have is at 255. *)
Theorem X20_vcf_order (s : list string) (prev : option (list string))
    (l : list (option Z)) :
  Forall (fun x => x ∈ bases) s -> NoDup s -> (2 <= length s <= 4)%nat ->
  exists fg,
    find_geno s prev = Some fg /\
    length fg = (length s * (length s + 1) / 2)%nat /\
    forall v, pl_vector fg (Some l) = Some v ->
      length v = 10%nat /\
      forall i g, GTYPE10 !! i = Some g ->
        (forall a b sa sb, (a <= b)%nat -> s !! a = Some sa -> s !! b = Some sb ->
           g = sorted_str (sa +:+ sb) ->
           exists z, l !! (b * (b + 1) / 2 + a)%nat = Some (Some z) /\
                     v !! i = Some (IZR z)) /\
        ((forall sa sb, sa ∈ s -> sb ∈ s -> g <> sorted_str (sa +:+ sb)) ->
         v !! i = Some 255%R).
Proof.
  intros Hs Hnd Hl. destruct (find_geno_length s prev Hl) as (fg & Hfg & Hlen & Hne).
  exists fg. split; [done|]. split; [done|]. intros v Hv.
  pose proof (find_geno_ten s prev fg Hfg Hl Hs) as Hten.
  pose proof (find_geno_NoDup s prev fg Hfg Hl Hs Hnd) as Hndf.
  destruct (pl_vector_entries fg l v Hne Hten Hv) as (Lv & _ & Hent).
  split; [done|]. intros i g Hi. destruct (Hent i g Hi) as [E1 E2]. split.
  - intros a b sa sb Hab Ha Hb ->.
    pose proof (find_geno_index s prev fg Hfg Hl a b sa sb Hab Ha Hb) as Ho.
    assert ((if (a =? b)%nat then (sa +:+ sa)%string else sorted_str (sa +:+ sb)) =
            sorted_str (sa +:+ sb)) as E.
    { destruct (Nat.eqb_spec a b) as [->|]; [|done].
      rewrite Ha in Hb. injection Hb as <-. symmetry. apply sorted_same.
      rewrite Forall_forall in Hs. apply Hs. eapply list_elem_of_lookup_2, Ha. }
    rewrite E in Ho. apply (E2 _ Ho).
    intros o' Ho' Heq. pose proof (NoDup_lookup _ _ _ _ Hndf Ho Heq). lia.
  - intros Hno. apply E1. intros Hin.
    destruct (find_geno_elems s prev fg g Hfg Hl Hs Hin) as (sa & sb & Ha & Hb & ->).
    by apply (Hno sa sb).
Qed.

Lemma X20_vcf_order_witness :
  exists fg,
    find_geno ["C"; "A"]%string None = Some fg /\
    length fg = 3%nat /\
    forall v, pl_vector fg (Some [Some 10; Some 0; Some 30]%Z) = Some v ->
      length v = 10%nat /\
      forall i g, GTYPE10 !! i = Some g ->
        (forall a b sa sb, (a <= b)%nat -> ["C"; "A"]%string !! a = Some sa ->
           ["C"; "A"]%string !! b = Some sb -> g = sorted_str (sa +:+ sb) ->
           exists z, [Some 10; Some 0; Some 30]%Z !! (b * (b + 1) / 2 + a)%nat = Some (Some z) /\
                     v !! i = Some (IZR z)) /\
        ((forall sa sb, sa ∈ ["C"; "A"]%string -> sb ∈ ["C"; "A"]%string ->
            g <> sorted_str (sa +:+ sb)) ->
         v !! i = Some 255%R).
Proof.
  apply (X20_vcf_order ["C"; "A"]%string None [Some 10; Some 0; Some 30]%Z).
  - repeat constructor; mem.
  - apply (bool_decide_unpack _). by vm_compute.
  - simpl. lia.
Defined.

Lemma X19_pl_vector_witness :
  is_Some (pl_vector ["CC"; "AC"; "AA"]%string (Some [Some 10; Some 0; Some 30]%Z)).
Proof.
  apply (X19_pl_vector ["CC"; "AC"; "AA"]%string [Some 10; Some 0; Some 30]%Z).
  - done.
  - repeat constructor; mem.
  - simpl. lia.
  - repeat constructor; by eexists.
Defined.

(** *** The loop over the records *)

Lemma find_geno_other s prev :
  ~ (2 <= length s <= 4)%nat -> find_geno s prev = prev.
Proof.
  intros Hl. destruct s as [|s0 [|s1 [|s2 [|s3 [|s4 s]]]]]; simpl in Hl; try lia; done.
Qed.

Section ReadVcfFacts.
Context {AD : Type}.
Context (alt0_in_bases : vcf_record -> option bool) (ad_array : vcf_record -> option AD).

Local Abbreviation triple := (fun v : vcf_record => (v_CHROM v, v_POS v, v_REF v)).
Local Abbreviation passing :=
  (fun v : vcf_record => v_REF v ∈ bases /\ alt0_in_bases v = Some true).

Lemma find_geno_inv (s : list string) prev :
  Forall (fun x => x ∈ bases) s ->
  (forall fg, prev = Some fg -> fg <> [] /\ Forall (fun g => g ∈ GTYPE10) fg) ->
  forall fg, find_geno s prev = Some fg -> fg <> [] /\ Forall (fun g => g ∈ GTYPE10) fg.
Proof.
  intros Hs Hprev fg Hfg.
  destruct (decide (2 <= length s <= 4)%nat) as [Hl|Hl].
  - destruct (find_geno_length s prev Hl) as (fg' & E & _ & Hne).
    rewrite E in Hfg. injection Hfg as <-. split; [done|].
    by apply (find_geno_ten s prev).
  - rewrite find_geno_other in Hfg by done. by apply Hprev.
Qed.

Lemma read_record_inv nsamples v st st' :
  v_REF v ∈ bases -> reader_inv nsamples st ->
  read_record ad_array nsamples v st = Some st' ->
  reader_inv nsamples st' /\ r_i st' = r_i st /\
  r_variants st' = r_variants st ++ [triple v].
Proof.
  intros Href (Ifg & Ishape & Lv & La & Ipos) H. unfold read_record in H.
  cbv zeta in H. set (fgn := find_geno _ _) in H.
  apply bind_Some in H as (ad & _ & H). apply bind_Some in H as (pl & Hpl & H).
  apply bind_Some in H as (vectors & Hvec & H).
  destruct (Nat.ltb_spec 0 nsamples) as [Hpos|]; [|done]. cbn [andb] in H.
  destruct (forallb _ vectors) eqn:Hall; [|done]. injection H as <-.
  unfold reader_inv. cbn [r_i r_find_geno r_variants r_ADs r_PLs]. split; [|done].
  split_and!.
  - subst fgn. apply find_geno_inv; [|done]. constructor; [done|].
    apply Forall_forall. intros b Hb. by apply list_elem_of_filter in Hb as [Hb _].
  - apply Forall_app. split; [done|]. constructor; [|done]. split.
    + apply length_mapM in Hvec, Hpl. rewrite length_seq in Hpl. congruence.
    + apply Forall_forall. intros x Hx. rewrite forallb_forall in Hall.
      apply Nat.eqb_eq, Hall. by apply list_elem_of_In.
  - rewrite !length_app. simpl. lia.
  - rewrite !length_app. simpl. lia.
  - done.
Qed.

Lemma finish_inv nsamples (st : reader_state (AD:=AD)) res :
  finish nsamples st = Some res ->
  res = (r_variants st, r_ADs st, r_PLs st) /\ r_PLs st <> [].
Proof.
  unfold finish. destruct (r_PLs st) as [|pl PLs]; [done|].
  destruct (_ && _); [|done]. by intros [= <-].
Qed.

(** The assertions on the shape of the result hold. *)
Lemma finish_Some nsamples (st : reader_state (AD:=AD)) :
  reader_inv nsamples st -> r_PLs st <> [] ->
  finish nsamples st = Some (r_variants st, r_ADs st, r_PLs st).
Proof.
  intros (_ & Ishape & _ & _ & Ipos) Hne. unfold finish.
  destruct (r_PLs st) as [|pl PLs]; [done|].
  inversion Ishape as [|? ? Hpl _]; subst. pose proof Hpl as [Hn _].
  rewrite (has_shape_ncols _ _ _ Hpl) by (rewrite <- Hn; apply Ipos in Hne; lia).
  rewrite Hn, !Nat.eqb_refl. done.
Qed.

Lemma read_loop_inv nsamples maxn recs :
  forall st res,
    reader_inv nsamples st ->
    read_loop alt0_in_bases ad_array nsamples maxn recs st = Some res ->
    exists st',
      reader_inv nsamples st' /\ r_PLs st' <> [] /\
      res = (r_variants st', r_ADs st', r_PLs st') /\
      r_variants st' =
        r_variants st ++
        map triple (filter passing
                      (if (r_i st <? maxn)%Z then take (Z.to_nat (maxn - r_i st)) recs
                       else recs)).
Proof.
  induction recs as [|v recs IH]; intros st res Hinv H.
  - simpl in H. apply finish_inv in H as [-> Hne]. exists st.
    split_and!; try done. rewrite take_nil. destruct (_ <? _)%Z; by rewrite app_nil_r.
  - cbn [read_loop] in H. set (st1 := ReaderState _ _ _ _ _) in H.
    assert (reader_inv nsamples st1) as Hinv1 by exact Hinv.
    apply bind_Some in H as (st2 & Hstep & H).
    assert (reader_inv nsamples st2 /\ r_i st2 = (r_i st + 1)%Z /\
            r_variants st2 = r_variants st ++ map triple (filter passing [v]))
      as (Hinv2 & Hi2 & Hv2).
    { rewrite filter_cons, filter_nil.
      destruct (decide (v_REF v ∈ bases)) as [Href|Href].
      - apply bind_Some in Hstep as (ok & Hok & Hstep). destruct ok.
        + destruct (read_record_inv nsamples v st1 st2 Href Hinv1 Hstep) as (? & ? & ?).
          rewrite decide_True by done. done.
        + injection Hstep as <-. rewrite decide_False by (intros [_ ?]; congruence).
          split_and!; try done. simpl. by rewrite app_nil_r.
      - injection Hstep as <-. rewrite decide_False by (intros [? _]; done).
        split_and!; try done. simpl. by rewrite app_nil_r. }
    destruct (Z.eqb_spec (r_i st2) maxn) as [Heq|Hne].
    + apply finish_inv in H as [-> Hne]. exists st2. split_and!; try done.
      rewrite Hv2. destruct (Z.ltb_spec (r_i st) maxn); [|lia].
      replace (Z.to_nat (maxn - r_i st)) with 1%nat by lia. done.
    + destruct (IH st2 res Hinv2 H) as (st' & Hinv' & Hne' & -> & Hv').
      exists st'. split_and!; try done. rewrite Hv', Hv2, Hi2, <- app_assoc. f_equal.
      rewrite <- map_app, <- filter_app. do 2 f_equal.
      destruct (Z.ltb_spec (r_i st) maxn), (Z.ltb_spec (r_i st + 1) maxn); try lia.
      * replace (Z.to_nat (maxn - r_i st)) with (S (Z.to_nat (maxn - (r_i st + 1)))) by lia.
        done.
      * done.
Qed.

End ReadVcfFacts.

Section ReadVcfTheorems.
Context {AD : Type}.
Context (alt0_in_bases : vcf_record -> option bool) (ad_array : vcf_record -> option AD).

Lemma reader_inv_start nsamples :
  reader_inv (AD:=AD) nsamples (ReaderState 0 None [] [] []).
Proof. by split_and!. Qed.

Lemma read_vcf_records_shape nsamples recs maxn variants ADs PLs :
  read_vcf_records alt0_in_bases ad_array nsamples recs maxn = Some (variants, ADs, PLs) ->
  PLs <> [] /\ (0 < nsamples)%nat /\ Forall (has_shape nsamples 10) PLs /\
  length variants = length PLs /\ length ADs = length PLs.
Proof.
  intros H. unfold read_vcf_records in H.
  destruct (read_loop_inv alt0_in_bases ad_array nsamples maxn recs _ _
              (reader_inv_start nsamples) H)
    as (st' & (_ & Ishape & Lv & La & Ipos) & Hne & [= -> -> ->] & _).
  split_and!; try done. by apply Ipos.
Qed.

(** X21.  When [read_vcf_records] returns, it has read the first [maxn]
    records of the file, or all of them when [maxn] is not positive or
    larger than their number.  [variants] holds, in the order of the file,
    the chromosome, position and reference base of those of the records
    read whose reference base is one of [A], [C], [G], [T] and whose first
    alternative allele passes the test; at least one record does.  [PLs]
    and [ADs] have one entry for each of them, and every array of [PLs]
    has one row of ten likelihoods for each sample, of which there is one
    at least. *)
Theorem X21_read_vcf_records (nsamples : nat) (recs : list vcf_record) (maxn : Z)
    (variants : list variant) (ADs : list AD) (PLs : arr3) :
  read_vcf_records alt0_in_bases ad_array nsamples recs maxn = Some (variants, ADs, PLs) ->
  PLs <> [] /\ (0 < nsamples)%nat /\ Forall (has_shape nsamples 10) PLs /\
  length variants = length PLs /\ length ADs = length PLs /\
  variants =
    map (fun v => (v_CHROM v, v_POS v, v_REF v))
        (filter (fun v => v_REF v ∈ bases /\ alt0_in_bases v = Some true)
                (if (0 <? maxn)%Z then take (Z.to_nat maxn) recs else recs)).
Proof.
  intros H. destruct (read_vcf_records_shape nsamples recs maxn variants ADs PLs H)
    as (H1 & H2 & H3 & H4 & H5).
  split_and!; try done. unfold read_vcf_records in H.
  destruct (read_loop_inv alt0_in_bases ad_array nsamples maxn recs _ _
              (reader_inv_start nsamples) H)
    as (st' & _ & _ & [= -> -> ->] & Hv).
  cbn [r_i r_variants app] in Hv. by rewrite Z.sub_0_r in Hv.
Qed.

End ReadVcfTheorems.

Lemma read_rec1 :
  read_vcf_records alt0_str (fun _ => Some tt) 2 [rec1] 1000 =
  Some ([("chr1"%string, 100%Z, "C"%string)], [tt],
        [[[30; 0; 255; 255; 10; 255; 255; 255; 255; 255];
          [30; 0; 255; 255; 10; 255; 255; 255; 255; 255]]]%R).
Proof. reflexivity. Qed.

Lemma X21_read_vcf_records_witness :
  [[[30; 0; 255; 255; 10; 255; 255; 255; 255; 255];
    [30; 0; 255; 255; 10; 255; 255; 255; 255; 255]]]%R <> [] /\ (0 < 2)%nat /\
  Forall (has_shape 2 10)
    [[[30; 0; 255; 255; 10; 255; 255; 255; 255; 255];
      [30; 0; 255; 255; 10; 255; 255; 255; 255; 255]]]%R /\
  length [("chr1"%string, 100%Z, "C"%string)] = 1%nat /\ length [tt] = 1%nat /\
  [("chr1"%string, 100%Z, "C"%string)] =
    map (fun v => (v_CHROM v, v_POS v, v_REF v))
        (filter (fun v => v_REF v ∈ bases /\ alt0_str v = Some true)
                (if (0 <? 1000)%Z then take (Z.to_nat 1000) [rec1] else [rec1])).
Proof.
  exact (X21_read_vcf_records alt0_str (fun _ => Some tt) 2 [rec1] 1000 _ _ _ read_rec1).
Defined.


(** ** The main loop *)

Lemma gtype10_wiring_None (mu : R) (PLs : arr3) (t : tree)
    (vars : list variant) (prior : vec) (m g : nat) :
  Forall (has_shape m g) PLs -> g <> 3%nat ->
  genotype PLs t vars (mm_full (make_mut_matrix_gtype10 mu))
           (mm_diag (make_mut_matrix_gtype10 mu))
           (mm_off (make_mut_matrix_gtype10 mu)) prior = None.
Proof.
  intros Hrect Hg.
  assert (length (mm_full (make_mut_matrix_gtype10 mu)) <> g) as Hl by (simpl; lia).
  destruct PLs as [|site PLs]; [apply genotype_no_site|].
  rewrite genotype_by_site. destruct (is_leaf t) eqn:Hleaf.
  - do 4 (match goal with
          | |- (?x ≫= _) = None => destruct x; cbn [mbind option_bind]; [|done]
          end).
    rewrite placements_unfold, is_leaf_skel, Hleaf. done.
  - by rewrite (aggregate_mismatch m g (site :: PLs) _ (skel t) Hrect ltac:(done) Hl
                  ltac:(by rewrite is_leaf_skel)).
Qed.

(** X22.  [genotype_main] never completes a turn of its loop: whatever
    the tree, the file, the batch size, the mutation rate and the
    heterozygous rate, the run raises before a record is written, in
    [init_tree], in [read_vcf_records], or else in [genotype], which is
    given the three-row matrices of [make_mut_matrix_gtype10] with the
    arrays of ten likelihoods that [read_vcf_records] returns. *)
Theorem X22_genotype_main_raises {AD : Type} (py_int : string -> option Z)
    (alt0_in_bases : vcf_record -> option bool) (ad_array : vcf_record -> option AD)
    (fuel : nat) (newick : ete) (nsamples : nat) (recs : list vcf_record)
    (nsite : Z) (mu het : R) :
  genotype_main py_int alt0_in_bases ad_array (S fuel) newick nsamples recs nsite mu het
  = Raised.
Proof.
  unfold genotype_main. destruct (init_tree py_int newick) as [[order t]|]; [|done].
  destruct (make_base_prior het GTYPE10) as [prior|]; [|done].
  cbn [main_loop].
  destruct (read_vcf_records _ _ _ _ _) as [[[variants ADs] PLs]|] eqn:E; [|done].
  destruct (read_vcf_records_shape _ _ _ _ _ _ _ _ E) as (_ & _ & Hshape & _).
  by rewrite (gtype10_wiring_None mu PLs (as_tree t) variants prior nsamples 10 Hshape).
Qed.


(** ** The arrays of a run on a binary tree *)

(** What a run that returns has computed, with the shapes of the arrays:
    [n] sites, [g] genotypes, [2*len(tree)-2] mutation locations. *)
Lemma genotype_arrays PLs t vars mm mm0 mm1 prior m g records score :
  Forall (has_shape m g) PLs -> (0 < m)%nat ->
  has_shape g g mm -> has_shape g g mm0 -> has_shape g g mm1 ->
  binary (skel t) -> length prior = g ->
  genotype PLs t vars mm mm0 mm1 prior = Some (records, score) ->
  exists pl pl0 plm tree_PL tree_PL0 mut_PLs nulls,
    aggregate PLs mm (skel t) = Some pl /\ has_shape (length PLs) g pl /\
    madd_vec pl prior = Some tree_PL /\ has_shape (length PLs) g tree_PL /\
    aggregate PLs mm0 (skel t) = Some pl0 /\ has_shape (length PLs) g pl0 /\
    madd_vec pl0 prior = Some tree_PL0 /\ has_shape (length PLs) g tree_PL0 /\
    placements PLs mm0 mm1 (length PLs) g (skel t) = Some plm /\
    length plm = (2 * topo_nleaves (skel t) - 2)%nat /\
    Forall (has_shape (length PLs) g) plm /\
    mapM (mapM (fun v => vadd_into v prior)) (swapaxes01 plm) = Some mut_PLs /\
    length mut_PLs = length PLs /\
    Forall (has_shape (2 * topo_nleaves (skel t) - 2) g) mut_PLs /\
    PLs <> [] /\ (1 <= 2 * topo_nleaves (skel t) - 2)%nat /\
    forall s r, records !! s = Some r ->
      site_at tree_PL tree_PL0 mut_PLs nulls
              (map (fun node => join_sid (t_sid node)) (topo_descendants (skel t)))
              vars s = Some r.
Proof.
  intros Hrect Hm Smm Smm0 Smm1 Hbin Lp H.
  assert (PLs <> []) as Hne.
  { intros ->. by rewrite genotype_no_site in H. }
  assert (1 <= length PLs)%nat as Hn by (destruct PLs; [done | simpl; lia]).
  rewrite genotype_by_site in H.
  apply bind_Some in H as (pl & Epl & H). apply bind_Some in H as (tree_PL & Etp & H).
  apply bind_Some in H as (pl0 & Epl0 & H). apply bind_Some in H as (tree_PL0 & Etp0 & H).
  apply bind_Some in H as (plm & Eplm & H). apply bind_Some in H as (mut_PLs & Em & H).
  pose proof (aggregate_shape m g PLs mm _ _ Hrect Hm Smm Epl) as Spl.
  pose proof (aggregate_shape m g PLs mm0 _ _ Hrect Hm Smm0 Epl0) as Spl0.
  destruct (madd_vec_shape _ _ pl prior Spl Lp) as (tp & Etp' & Stp).
  destruct (madd_vec_shape _ _ pl0 prior Spl0 Lp) as (tp0 & Etp0' & Stp0).
  rewrite Etp in Etp'. injection Etp' as <-. rewrite Etp0 in Etp0'. injection Etp0' as <-.
  assert (ncols pl0 = g) as Eg by (apply (has_shape_ncols (length PLs)); [done | lia]).
  pose proof Spl0 as [Ln0 _]. rewrite Eg, Ln0 in Eplm.
  assert (topo_leaf (skel t) = false) as Hl.
  { destruct (topo_leaf (skel t)) eqn:E; [|done].
    rewrite placements_unfold, E in Eplm. done. }
  destruct (binary_placements PLs mm0 mm1 m g g Hrect Hm Smm0 Smm1 (zeros2_shape _ _)
              (skel t) Hbin) as [Hsh _].
  destruct (Hsh plm Eplm) as [Lplm Splm].
  destruct (binary_children _ Hbin Hl) as (a & b & _ & _ & _ & Hnl).
  pose proof (topo_nleaves_pos a). pose proof (topo_nleaves_pos b).
  destruct (swapaxes01_shape _ _ _ plm Lplm ltac:(lia) Splm) as [Lsw Ssw].
  destruct (add_prior_shape _ _ prior _ Lp Ssw) as (mp & Em' & Smut).
  rewrite Em in Em'. injection Em' as <-.
  pose proof (length_mapM _ _ _ Em) as Lmut. rewrite Lsw in Lmut.
  destruct (mapM (aggregate PLs mm0) (topo_descendants (skel t))) as [nulls|] eqn:Hn';
    [|done].
  apply call_sites_by_site_inv in H as (_ & _ & Hsite & _).
  exists pl, pl0, plm, tree_PL, tree_PL0, mut_PLs, nulls.
  split_and!; try done; lia.
Qed.

Lemma concat_lookup_shape L g (xm : mat) idx :
  has_shape L g xm -> (0 < g)%nat ->
  concat xm !! idx = xm !! (idx / g)%nat ≫= (fun row => row !! (idx mod g)%nat).
Proof.
  intros [Lx Rx] Hg. revert L Lx idx. induction Rx as [|row xm Hrow _ IH]; intros L Lx idx.
  { simpl. by rewrite !lookup_nil. }
  simpl concat. destruct (decide (idx < g)%nat) as [Hlt|Hge].
  - rewrite lookup_app_l by lia. rewrite Nat.div_small, Nat.mod_small by done. done.
  - assert (exists k, idx = (k + g)%nat) as [k ->] by (exists (idx - g)%nat; lia).
    rewrite lookup_app_r by lia. rewrite Hrow, Nat.add_sub, (IH (length xm) eq_refl).
    replace (k + g)%nat with (k + 1 * g)%nat by lia.
    rewrite Nat.div_add, Nat.Div0.mod_add by lia.
    by replace (k / g + 1)%nat with (S (k / g)) by lia.
Qed.

(** X23.  The best calls of a record.  On a binary tree, [null_base] is
    the genotype of least prior-added [PL0] at the root, the first of them
    in alphabetical order when several are least, and [null_base_p] is the
    probability of that value over the total of the tree; [mut_loc] and
    [mut_base] are the location and the genotype of the least prior-added
    mutation likelihood over all pairs, the first pair in the order of the
    locations, then of the genotypes, and [mut_conf_p] is the probability
    of that value over the same total. *)
Theorem X23_best_calls PLs t vars mm mm0 mm1 prior m g records score :
  Forall (has_shape m g) PLs -> (0 < m)%nat ->
  has_shape g g mm -> has_shape g g mm0 -> has_shape g g mm1 ->
  binary (skel t) -> length prior = g ->
  genotype PLs t vars mm mm0 mm1 prior = Some (records, score) ->
  exists pl pl0 plm tree_PL tree_PL0 mut_PLs,
    aggregate PLs mm (skel t) = Some pl /\ madd_vec pl prior = Some tree_PL /\
    aggregate PLs mm0 (skel t) = Some pl0 /\ madd_vec pl0 prior = Some tree_PL0 /\
    placements PLs mm0 mm1 (length PLs) g (skel t) = Some plm /\
    mapM (mapM (fun v => vadd_into v prior)) (swapaxes01 plm) = Some mut_PLs /\
    forall s r, records !! s = Some r ->
      exists x x0 xm i0 j npl mpl,
        tree_PL !! s = Some x /\ tree_PL0 !! s = Some x0 /\ mut_PLs !! s = Some xm /\
        GTYPE10 !! i0 = Some (null_base r) /\ x0 !! i0 = Some npl /\
        Forall (fun y => npl <= y) x0 /\ Forall (fun y => npl < y) (take i0 x0) /\
        null_base_p r = phred2p npl / Rsum (phred2p_v x) /\
        GTYPE10 !! j = Some (mut_base r) /\ (j < g)%nat /\
        xm !! mut_loc r ≫= (fun row => row !! j) = Some mpl /\
        Forall (Forall (fun y => mpl <= y)) xm /\
        Forall (fun y => mpl < y) (take (mut_loc r * g + j) (concat xm)) /\
        mut_conf_p r = phred2p mpl / Rsum (phred2p_v x).
Proof.
  intros Hrect Hm Smm Smm0 Smm1 Hbin Lp H.
  destruct (genotype_arrays _ _ _ _ _ _ _ m g _ _ Hrect Hm Smm Smm0 Smm1 Hbin Lp H)
    as (pl & pl0 & plm & tree_PL & tree_PL0 & mut_PLs & nulls &
        E1 & _ & E2 & _ & E3 & _ & E4 & _ & E5 & _ & _ & E6 & _ & Smut & _ & HL & Hsite).
  exists pl, pl0, plm, tree_PL, tree_PL0, mut_PLs. split_and!; try done.
  intros s r Hr.
  destruct (site_at_inv _ _ _ _ _ _ _ _ (Hsite s r Hr))
    as (x & ix & x0 & xm & var & i0 & npl & idx & [l j] & rowl & mpl & plane & row & i2 &
        g0 & g1 & g2 & smpl & Ex & Eix & Ex0 & Exm & Evar & Ei0 & Enpl & Eidx & Elg &
        Erowl & Empl & Epl & Erow & Ei2 & Eg0 & Eg1 & Eg2 & Esm & ->).
  cbn [fst snd] in *. destruct var as [[c p] rf].
  assert (has_shape (2 * topo_nleaves (skel t) - 2) g xm) as Sxm.
  { rewrite Forall_forall in Smut. apply Smut. eapply list_elem_of_lookup_2, Exm. }
  assert (ncols xm = g) as Eg by (by apply (has_shape_ncols _ _ _ Sxm)).
  unfold unravel_index in Elg. rewrite Eg in Elg.
  destruct (_ <? _)%nat eqn:Hidx; [|done]. injection Elg as <- <-.
  apply Nat.ltb_lt in Hidx.
  assert (0 < g)%nat as Hg by (destruct g; [lia|lia]).
  destruct (argmin_spec x0 i0 Ei0) as (npl' & Hn1 & Hn2 & Hn3).
  rewrite Enpl in Hn1. injection Hn1 as <-.
  destruct (argmin_spec (concat xm) idx Eidx) as (y & Hy1 & Hy2 & Hy3).
  rewrite (concat_lookup_shape _ g xm idx Sxm Hg), Erowl in Hy1. cbn in Hy1.
  rewrite Empl in Hy1. injection Hy1 as <-.
  exists x, x0, xm, i0, (idx mod g)%nat, npl, mpl. unfold make_record.
  cbn [null_base null_base_p mut_base mut_loc mut_conf_p].
  rewrite (fixed_width_gtype _ _ Eg0), (fixed_width_gtype _ _ Eg1).
  split_and!; try done.
  - by apply Nat.mod_upper_bound; lia.
  - rewrite Erowl. done.
  - by apply Forall_concat.
  - replace (idx / g * g + idx mod g)%nat with idx; [done|].
    rewrite (Nat.div_mod_eq idx g) at 1. lia.
Qed.

Lemma X23_best_calls_witness :
  exists records score,
    genotype PLs2 tree2 [var0] mmA mmA0 mmA1 prior2 = Some (records, score) /\
    exists pl pl0 plm tree_PL tree_PL0 mut_PLs,
      aggregate PLs2 mmA (skel tree2) = Some pl /\ madd_vec pl prior2 = Some tree_PL /\
      aggregate PLs2 mmA0 (skel tree2) = Some pl0 /\ madd_vec pl0 prior2 = Some tree_PL0 /\
      placements PLs2 mmA0 mmA1 (length PLs2) 2 (skel tree2) = Some plm /\
      mapM (mapM (fun v => vadd_into v prior2)) (swapaxes01 plm) = Some mut_PLs /\
      forall s r, records !! s = Some r ->
        exists x x0 xm i0 j npl mpl,
          tree_PL !! s = Some x /\ tree_PL0 !! s = Some x0 /\ mut_PLs !! s = Some xm /\
          GTYPE10 !! i0 = Some (null_base r) /\ x0 !! i0 = Some npl /\
          Forall (fun y => npl <= y) x0 /\ Forall (fun y => npl < y) (take i0 x0) /\
          null_base_p r = phred2p npl / Rsum (phred2p_v x) /\
          GTYPE10 !! j = Some (mut_base r) /\ (j < 2)%nat /\
          xm !! mut_loc r ≫= (fun row => row !! j) = Some mpl /\
          Forall (Forall (fun y => mpl <= y)) xm /\
          Forall (fun y => mpl < y) (take (mut_loc r * 2 + j) (concat xm)) /\
          mut_conf_p r = phred2p mpl / Rsum (phred2p_v x).
Proof.
  destruct small_run_total as [[records score] H].
  exists records, score. split; [exact H|].
  apply (X23_best_calls PLs2 tree2 [var0] mmA mmA0 mmA1 prior2 2 2 records score).
  - exact PLs2_shape.
  - lia.
  - apply mmA_positive.
  - apply mmA0_positive.
  - apply mmA1_positive.
  - exact tree2_binary.
  - reflexivity.
  - exact H.
Defined.

(** X24.  On a non-empty batch of [m] samples, [populate_tree_PL]
    returns only when every leaf has a sample identifier [i] with
    [-m <= i < m]: an identifier out of that range, or a leaf without
    one, raises, and a negative identifier counts from the last sample as
    Python's indexes do. *)
Theorem X24_populate_tree_PL_bounds (t : tree) (PLs : arr3) (mm : mat) (a : attr)
    (m g : nat) :
  Forall (has_shape m g) PLs -> PLs <> [] ->
  (~ sids_in_range m (skel t) -> populate_tree_PL t PLs mm a = None) /\
  (forall i row site, (0 < i <= Z.of_nat m)%Z -> PLs !! 0%nat = Some site ->
     py_index site (- i) = Some row -> site !! (m - Z.to_nat i)%nat = Some row).
Proof.
  intros Hrect Hne. split.
  - intros Hout. pose proof (populate_aggregate PLs mm a t) as Hp.
    destruct (populate_tree_PL t PLs mm a) as [t'|]; [|done].
    exfalso. destruct Hp as [_ [v Hv]].
    by apply Hout, (aggregate_in_range m g PLs mm _ v).
  - intros i row site Hi Hsite H. unfold py_index in H.
    destruct (Z.leb_spec 0 (- i)); [lia|].
    assert (length site = m) as Hl.
    { rewrite Forall_forall in Hrect.
      by destruct (Hrect site (list_elem_of_lookup_2 _ _ _ Hsite)). }
    rewrite Hl in H. destruct (Z.leb_spec (- Z.of_nat m) (- i)); [|lia].
    by replace (Z.to_nat (Z.of_nat m + - i)) with (m - Z.to_nat i)%nat in H by lia.
Qed.

Lemma X24_populate_tree_PL_bounds_witness :
  populate_tree_PL (Node [5%Z] None None None []) PLs2 id2 aPL = None.
Proof.
  apply (proj1 (X24_populate_tree_PL_bounds (Node [5%Z] None None None []) PLs2 id2 aPL
                  2 2 PLs2_shape ltac:(done))).
  intros Hin. apply Forall_inv in Hin. destruct (Hin eq_refl) as (i & Hi & Hr).
  injection Hi as <-. lia.
Defined.
